(** * LZAV: in-memory LZ77 compressor and decompressor (stream format 2)

    A shallow embedding of [src/c/lzav.h] and theorems about it.

    The embedding fixes the build the header selects on a 64-bit
    little-endian target with GCC-style built-ins: [LZAV_LITTLE_ENDIAN = 1],
    [LZAV_ARCH64] defined, [int] of 32 bits, [size_t] and pointers of 64 bits.

    Memory.  A C buffer is a [list Z] of bytes and a pointer into it is a [Z]
    offset from its first byte.  Source and destination are separate objects,
    so the aliasing test [src == dst] of the entry points can only fail; a
    null pointer is [None].  The C standard leaves an access outside an
    object undefined: here a load outside the list reads 0 and a store
    outside it is dropped, while a load or store through a null pointer makes
    the whole call [Undefined]. *)

From Stdlib Require Import ZArith List Lia Bool.
Import ListNotations.
Local Open Scope Z_scope.

(** ** Machine integers *)

Module Int.

(** Unsigned wrap-around of [w] bits. *)
Definition wrap (w x : Z) : Z := x mod 2 ^ w.

Definition u8 (x : Z) : Z := wrap 8 x.
Definition u16 (x : Z) : Z := wrap 16 x.
Definition u32 (x : Z) : Z := wrap 32 x.
(** [size_t], [uint64_t], [uintptr_t]. *)
Definition u64 (x : Z) : Z := wrap 64 x.

(** Two's complement reading of the low [w] bits. *)
Definition swrap (w x : Z) : Z := (x + 2 ^ (w - 1)) mod 2 ^ w - 2 ^ (w - 1).

(** [int], [int32_t]. *)
Definition s32 (x : Z) : Z := swrap 32 x.
(** [intptr_t], and the difference of two pointers. *)
Definition s64 (x : Z) : Z := swrap 64 x.

Definition INT_MAX : Z := 2 ^ 31 - 1.

(** C's truth values. *)
Definition b2z (b : bool) : Z := if b then 1 else 0.

End Int.

Import Int.

(** ** Constants of the format *)

Definition LZAV_FMT_MIN : Z := 1.
Definition LZAV_FMT_CUR : Z := 2.

Definition LZAV_E_PARAMS : Z := -1.
Definition LZAV_E_SRCOOB : Z := -2.
Definition LZAV_E_DSTOOB : Z := -3.
Definition LZAV_E_REFOOB : Z := -4.
Definition LZAV_E_DSTLEN : Z := -5.
Definition LZAV_E_UNKFMT : Z := -6.

Definition LZAV_WIN_LEN : Z := Z.shiftl 1 23.
Definition LZAV_REF_MIN : Z := 6.
Definition LZAV_REF_LEN : Z := LZAV_REF_MIN + 15 + 255 + 254.
Definition LZAV_LIT_FIN : Z := 6.

Definition LZAV_TINY_MAX : Z := 32.
Definition LZAV_SMALL_MAX : Z := 256.
Definition LZAV_MIN_HTABLE : Z := 512.

(** ** Compressed-size bounds *)

(** [int] arithmetic of the two bound functions: every operation wraps to 32
    bits, [/] truncates. *)
Definition add32 (a b : Z) : Z := s32 (a + b).
Definition sub32 (a b : Z) : Z := s32 (a - b).
Definition mul32 (a b : Z) : Z := s32 (a * b).
Definition div32 (a b : Z) : Z := s32 (a ÷ b).

(** [lzav_compress_bound]:
    [(srcl - l2 * 6 + k - 1) / k * 2 - l2 + srcl + 16]. *)
Definition lzav_compress_bound (srcl : Z) : Z :=
  if srcl <=? 0 then 16
  else
    let k := 16 + 127 + 1 in
    let l2 := div32 srcl (k + 6) in
    add32 (add32 (sub32 (mul32 (div32
      (sub32 (add32 (sub32 srcl (mul32 l2 6)) k) 1) k) 2) l2) srcl) 16.

(** [lzav_compress_bound_hi]:
    [(srcl - l2 * 5 + 15) / 16 * 2 - l2 + srcl + 16]. *)
Definition lzav_compress_bound_hi (srcl : Z) : Z :=
  if srcl <=? 0 then 16
  else
    let l2 := div32 srcl (16 + 5) in
    add32 (add32 (sub32 (mul32 (div32
      (add32 (sub32 srcl (mul32 l2 5)) 15) 16) 2) l2) srcl) 16.

(** The largest lengths whose bound still fits an [int]. *)
Definition BOUND_SAFE : Z := 2133261884.
Definition BOUND_HI_SAFE : Z := 2049870737.

(** The two functions over unbounded integers. *)
Definition bound_unbounded (n : Z) : Z :=
  (n - n / 150 * 6 + 143) / 144 * 2 - n / 150 + n + 16.

Definition bound_hi_unbounded (n : Z) : Z :=
  (n - n / 21 * 5 + 15) / 16 * 2 - n / 21 + n + 16.


(** ** Memory *)

Definition buf : Type := list Z.

(** A pointer argument of an entry point: [None] is the null pointer. *)
Definition ptr : Type := option buf.

(** What a call of an entry point does: it returns [value] and leaves the
    destination as [dst], or it dereferences a null pointer.  [OutOfFuel]
    belongs to the model alone: the iteration budget given to a loop was
    used up before the loop ended. *)
Inductive outcome : Type :=
| Returns (value : Z) (dst : ptr)
| Undefined
| OutOfFuel.

Definition load8 (b : buf) (i : Z) : Z :=
  if i <? 0 then 0 else nth (Z.to_nat i) b 0.

Fixpoint set_nth (n : nat) (v : Z) (b : buf) : buf :=
  match b, n with
  | [], _ => []
  | _ :: t, O => v :: t
  | x :: t, S m => x :: set_nth m v t
  end.

(** [*(uint8_t* )(b + i) = v] for a [v] that is a byte already; where the C
    code converts a wider value the caller applies [u8]. *)
Definition store8 (b : buf) (i v : Z) : buf :=
  if i <? 0 then b else set_nth (Z.to_nat i) v b.

(** Unaligned little-endian loads ([lzav_memcpy( &v, p, n )]). *)
Definition load16 (b : buf) (i : Z) : Z :=
  Z.lor (load8 b i) (Z.shiftl (load8 b (i + 1)) 8).

Definition load32 (b : buf) (i : Z) : Z :=
  Z.lor (load16 b i) (Z.shiftl (load16 b (i + 2)) 16).

Definition load64 (b : buf) (i : Z) : Z :=
  Z.lor (load32 b i) (Z.shiftl (load32 b (i + 4)) 32).

(** The [n] bytes at offset [i]. *)
Definition bytes_at (b : buf) (i n : Z) : list Z :=
  map (fun k => load8 b (i + Z.of_nat k)) (seq 0 (Z.to_nat n)).

Fixpoint store_bytes (b : buf) (i : Z) (l : list Z) : buf :=
  match l with
  | [] => b
  | x :: t => store_bytes (store8 b i x) (i + 1) t
  end.

(** [lzav_memcpy( dst + d, src + s, n )] between two objects.  Every call
    of the header copies between the source and the destination buffer or to
    and from a local variable, never inside one object, so the byte, word
    and SWAR paths of the C function all store the bytes the source holds. *)
Definition lzav_memcpy (dst : buf) (d : Z) (src : buf) (s n : Z) : buf :=
  store_bytes dst d (bytes_at src s n).

Definition lzav_memset (dst : buf) (d v n : Z) : buf :=
  store_bytes dst d (repeat (u8 v) (Z.to_nat n)).

(** [lzav_memmove( b + d, b + s, n )] with [s <= d]: a plain copy when the
    ranges are [n] apart, a backward copy otherwise; both store the bytes the
    range held before the call. *)
Definition lzav_memmove (b : buf) (d s n : Z) : buf :=
  store_bytes b d (bytes_at b s n).

(** [lzav_memcpy( op, &ov, 2 )] and [lzav_memcpy( op, &ov, 4 )]. *)
Definition store16 (b : buf) (i v : Z) : buf :=
  store_bytes b i [Z.land v 255; Z.land (Z.shiftr v 8) 255].

Definition store32 (b : buf) (i v : Z) : buf :=
  store_bytes b i [Z.land v 255; Z.land (Z.shiftr v 8) 255;
                   Z.land (Z.shiftr v 16) 255; Z.land (Z.shiftr v 24) 255].

(** The loop [while( cc != 0 ) { *op = *ipd; ++ipd; ++op; --cc; }] reading
    from another object. *)
Fixpoint copy_bytes (cc : nat) (dst : buf) (op : Z) (src : buf) (ipd : Z) : buf :=
  match cc with
  | O => dst
  | S n => copy_bytes n (store8 dst op (load8 src ipd)) (op + 1) src (ipd + 1)
  end.

(** The same loop reading from the object it writes to: a byte stored by one
    iteration is seen by the later ones. *)
Fixpoint copy_within (cc : nat) (dst : buf) (op ipd : Z) : buf :=
  match cc with
  | O => dst
  | S n => copy_within n (store8 dst op (load8 dst ipd)) (op + 1) (ipd + 1)
  end.

(** A pointer plus a [size_t]: the sum wraps at 64 bits, which for an object
    away from both ends of the address space moves the offset by the signed
    reading of the addend. *)
Definition padd (p n : Z) : Z := p + s64 n.

(** ** Match length *)

Fixpoint ctz_from (fuel : nat) (i v : Z) : Z :=
  match fuel with
  | O => i
  | S n => if Z.testbit v i then i else ctz_from n (i + 1) v
  end.

(** [__builtin_ctzll] and [__builtin_ctz] of a value that is not 0. *)
Definition ctzll (v : Z) : Z := ctz_from 64 0 v.
Definition ctz (v : Z) : Z := ctz_from 32 0 v.

(** The 8-byte loop of [lzav_match_len]: the result when a difference was
    found, the advanced pointers otherwise. *)
Fixpoint match_len_words (fuel : nat) (b : buf) (p1s p1e p1 p2 : Z)
  : Z + Z * Z :=
  match fuel with
  | O => inr (p1, p2)
  | S n =>
      if p1 + 7 <? p1e then
        let vd := Z.lxor (load64 b p1) (load64 b p2) in
        if negb (vd =? 0) then inl (p1 - p1s + Z.shiftr (ctzll vd) 3)
        else match_len_words n b p1s p1e (p1 + 8) (p2 + 8)
      else inr (p1, p2)
  end.

(** [lzav_match_len( b + p1, b + p2, ml )]. *)
Definition lzav_match_len (b : buf) (p1 p2 ml : Z) : Z :=
  let p1s := p1 in
  let p1e := padd p1 ml in
  match match_len_words (Z.to_nat ((p1e - p1) / 8 + 1)) b p1s p1e p1 p2 with
  | inl r => r
  | inr (p1, p2) =>
      let tail (p1 p2 : Z) : Z :=
        if p1 <? p1e then
          if negb (load8 b p1 =? load8 b p2) then p1 - p1s
          else
            let p1 := p1 + 1 in
            if p1 <? p1e then
              if negb (load8 b p1 =? load8 b (p2 + 1)) then p1 - p1s
              else
                let p1 := p1 + 1 in
                if p1 <? p1e then
                  if negb (load8 b p1 =? load8 b (p2 + 2)) then p1 - p1s
                  else ml
                else ml
            else ml
        else ml in
      if p1 + 3 <? p1e then
        let vd := Z.lxor (load32 b p1) (load32 b p2) in
        if negb (vd =? 0) then p1 - p1s + Z.shiftr (ctz vd) 3
        else tail (p1 + 4) (p2 + 4)
      else tail p1 p2
  end.

(** The 2-byte loop of [lzav_match_len_r]. *)
Fixpoint match_len_r_words (fuel : nat) (b : buf) (p1s p1e p1 p2 : Z)
  : Z + Z * Z :=
  match fuel with
  | O => inr (p1, p2)
  | S n =>
      if p1 >? p1e then
        let vd := Z.lxor (load16 b (p1 - 2)) (load16 b (p2 - 2)) in
        if negb (vd =? 0)
        then inl (p1s - p1 + b2z (Z.land vd 65280 =? 0))
        else match_len_r_words n b p1s p1e (p1 - 2) (p2 - 2)
      else inr (p1, p2)
  end.

(** [lzav_match_len_r( b + p1, b + p2, ml )]. *)
Definition lzav_match_len_r (b : buf) (p1 p2 ml : Z) : Z :=
  if ml =? 0 then 0
  else if negb (load8 b (p1 - 1) =? load8 b (p2 - 1)) then 0
  else if negb (ml =? 1) then
    let p1s := p1 in
    let p1e := p1 - ml + 1 in
    match match_len_r_words (Z.to_nat (ml / 2 + 1)) b p1s p1e (p1 - 1) (p2 - 1) with
    | inl r => r
    | inr (p1, p2) =>
        let p1e := p1e - 1 in
        if (p1 >? p1e) && negb (load8 b (p1 - 1) =? load8 b (p2 - 1))
        then p1s - p1
        else ml
    end
  else ml.

(** ** Block writer (stream format 2) *)

(** The destination, the output pointer and the carry state
    ([*cbpp], [*cshp]) after a block was written. *)
Record wstate : Type := mk_wstate {
  w_dst : buf;
  w_op : Z;
  w_cbp : Z;
  w_csh : Z
}.

(** [static const int ocsh[ 4 ] = { 0, 0, 0, 3 }]. *)
Definition ocsh (bt : Z) : Z := nth (Z.to_nat bt) [0; 0; 0; 3] 0.

(** [while( lcw > 127 ) { *op = (uint8_t) ( 0x80 | lcw ); lcw >>= 7; ++op; }] *)
Fixpoint write_len_loop (fuel : nat) (dst : buf) (op lcw : Z) : buf * Z * Z :=
  match fuel with
  | O => (dst, op, lcw)
  | S n =>
      if lcw >? 127
      then write_len_loop n (store8 dst op (u8 (Z.lor 128 lcw))) (op + 1) (Z.shiftr lcw 7)
      else (dst, op, lcw)
  end.

(** The literal block of [lzav_write_blk_2]: destination, output pointer and
    what is left of the offset. *)
Definition write_lit_2 (dst : buf) (op lc d : Z) (src : buf) (ipa : Z)
  : buf * Z * Z :=
  let cv := Z.shiftl (Z.land d 3) 6 in
  let d := Z.shiftr d 2 in
  if lc <? 9 then
    let dst := store8 dst op (u8 (Z.lor cv lc)) in
    let op := op + 1 in
    (lzav_memcpy dst op src ipa 8, op + lc, d)
  else if lc <? 16 then
    let dst := store8 dst op (u8 (Z.lor cv lc)) in
    let op := op + 1 in
    (lzav_memcpy dst op src ipa 16, op + lc, d)
  else if lc <? 16 + 128 then
    let ov := u16 (Z.lor (Z.shiftl (lc - 16) 8) cv) in
    let dst := store16 dst op ov in
    let op := op + 2 in
    let dst := lzav_memcpy dst op src ipa 16 in
    let dst := lzav_memcpy dst (op + 16) src (ipa + 16) 16 in
    if lc <? 33 then (dst, op + lc, d)
    else
      (copy_bytes (Z.to_nat (lc - 32)) dst (op + 32) src (ipa + 32),
       op + 32 + (lc - 32), d)
  else
    let dst := store8 dst op (u8 cv) in
    let op := op + 1 in
    let '(dst, op, lcw) := write_len_loop 10 dst op (lc - 16) in
    let dst := store8 dst op (u8 lcw) in
    let op := op + 1 in
    (lzav_memcpy dst op src ipa lc, op + lc, d).

(** [lzav_write_blk_2( dst + op, lc, rc, d, src + ipa, &cbp, &csh, mref )]. *)
Definition lzav_write_blk_2 (dst : buf) (op lc rc d : Z) (src : buf)
    (ipa cbp csh mref : Z) : wstate :=
  let rc := u64 (rc + 1 - mref) in
  let dst :=
    store8 dst cbp
      (Z.lor (load8 dst cbp) (u8 (Z.shiftr (u64 (Z.shiftl d 8)) csh))) in
  let d := Z.shiftr d csh in
  let '(dst, op, d) :=
    if negb (lc =? 0) then write_lit_2 dst op lc d src ipa else (dst, op, d) in
  let bt := 1 + b2z (d >? Z.shiftl 1 10 - 1) + b2z (d >? Z.shiftl 1 18 - 1) in
  if rc <? 16 then
    let ov := u32 (Z.lor (Z.lor (Z.shiftl d 6) (Z.shiftl bt 4)) rc) in
    let dst := store32 dst op ov in
    let op := op + bt in
    mk_wstate dst (op + 1) op (ocsh bt)
  else
    let ov := u32 (Z.lor (Z.shiftl d 6) (Z.shiftl bt 4)) in
    let dst := store32 dst op ov in
    let op := op + bt in
    if rc <? 16 + 255 then
      mk_wstate (store8 dst (op + 1) (u8 (rc - 16))) (op + 2) op (ocsh bt)
    else
      let dst := store8 dst (op + 1) 255 in
      mk_wstate (store8 dst (op + 2) (u8 (rc - 16 - 255))) (op + 3) op (ocsh bt).

(** [lzav_write_fin_2( dst + op, lc, src + ipa )]: destination and output
    pointer. *)
Definition lzav_write_fin_2 (dst : buf) (op lc : Z) (src : buf) (ipa : Z)
  : buf * Z :=
  let '(dst, op) :=
    if lc <? 16 then (store8 dst op (u8 lc), op + 1)
    else
      let dst := store8 dst op 0 in
      let op := op + 1 in
      let '(dst, op, lcw) := write_len_loop 10 dst op (lc - 16) in
      (store8 dst op (u8 lcw), op + 1) in
  (lzav_memcpy dst op src ipa lc, op + lc).

(** ** Default compressor *)

(** The hash table as an array of 32-bit words; [hp] below is the word index
    of a slot, the byte offset [hval & hmask] divided by 4. *)
Definition ht_get (ht : list Z) (i : Z) : Z :=
  if i <? 0 then 0 else nth (Z.to_nat i) ht 0.

Definition ht_set (ht : list Z) (i v : Z) : list Z :=
  if i <? 0 then ht else set_nth (Z.to_nat i) (u32 v) ht.

(** The table after the initialisation loop: [htsize / 8] copies of
    [initv]. *)
Definition ht_init (htsize iv0 iv1 : Z) : list Z :=
  concat (repeat [iv0; iv1] (Z.to_nat (htsize / 8))).

(** [hval] of the default compressor, from the 4 bytes [iw1] and the 2 bytes
    [iw2] at the input position. *)
Definition hash6 (iw1 iw2 : Z) : Z :=
  let Seed1 := Z.lxor 0x243F6A88 iw1 in
  let hm := u64 (Seed1 * u32 (Z.lxor 0x85A308D3 iw2)) in
  Z.lxor (u32 hm) (u32 (Z.shiftr hm 32)).

(** The state of the main loop of [lzav_compress]. *)
Record cstate : Type := mk_cstate {
  c_ip : Z;
  c_ipa : Z;
  c_op : Z;
  c_cbp : Z;
  c_csh : Z;
  c_mavg : Z;
  c_rndb : Z;
  c_ht : list Z;
  c_dst : buf
}.

(** The search of the two tuples of a slot: the window offset [wp] of the
    candidate, or [None] for [goto _no_match]. *)
Definition find_tuple (src : buf) (ht : list Z) (hp iw1 iw2 : Z) : option Z :=
  let hw1 := ht_get ht hp in
  let second : option Z :=
    if negb (iw1 =? ht_get ht (hp + 2)) then None
    else
      let wp := ht_get ht (hp + 3) in
      if negb (iw2 =? load16 src (wp + 4)) then None else Some wp in
  if negb (iw1 =? hw1) then second
  else
    let wp := ht_get ht (hp + 1) in
    if negb (iw2 =? load16 src (wp + 4)) then second else Some wp.

(** The label [_no_match]. *)
Definition step_no_match (st : cstate) (hp iw1 ipo : Z) : cstate :=
  let ip := c_ip st in
  let ht := ht_set (ht_set (c_ht st) (hp + 2) iw1) (hp + 3) ipo in
  let mavg := s64 (c_mavg st - Z.shiftr (c_mavg st) 11) in
  let '(ip, rndb) :=
    if (mavg <? Z.shiftl 200 14) && negb (ip =? c_ipa st) then
      let ip := ip + (1 + c_rndb st) in
      let rndb := Z.land ipo 1 in
      let ip :=
        if mavg <? Z.shiftl 130 14 then
          let ip := ip + 1 in
          if mavg <? Z.shiftl 100 14
          then ip + (100 - Z.shiftr mavg 14)
          else ip
        else ip in
      (ip, rndb)
    else (ip, c_rndb st) in
  mk_cstate (ip + 1) (c_ipa st) (c_op st) (c_cbp st) (c_csh st) mavg rndb ht
    (c_dst st).

(** The label [_d_oob]. *)
Definition step_d_oob (st : cstate) (hp iw1 hw1 ipo d : Z) : cstate :=
  let ht :=
    if d <? LZAV_WIN_LEN then c_ht st
    else ht_set (c_ht st) (hp + (1 + b2z (negb (iw1 =? hw1)) * 2)) ipo in
  mk_cstate (c_ip st + 1) (c_ipa st) (c_op st) (c_cbp st) (c_csh st)
    (c_mavg st) (c_rndb st) ht (c_dst st).

(** The extension of a match at [wp] with offset [d] and the block it
    writes. *)
Definition step_emit (src : buf) (srcl : Z) (st : cstate)
    (hp iw1 hw1 ipo wp d : Z) : cstate :=
  let ip := c_ip st in
  let ipe := srcl - LZAV_LIT_FIN in
  let ht := c_ht st in
  let ml := if d >? LZAV_REF_LEN then LZAV_REF_LEN else d in
  let ml := if padd ip ml >? ipe then u64 (ipe - ip) else ml in
  let ht :=
    if d >? 273 then
      if iw1 =? hw1 then ht_set ht (hp + 1) ipo
      else
        let ht := ht_set ht (hp + 2) hw1 in
        let ht := ht_set ht (hp + 3) (ht_get ht (hp + 1)) in
        let ht := ht_set ht hp iw1 in
        ht_set ht (hp + 1) ipo
    else ht in
  let rc :=
    u64 (LZAV_REF_MIN +
         lzav_match_len src (ip + LZAV_REF_MIN) (wp + LZAV_REF_MIN)
           (u64 (ml - LZAV_REF_MIN))) in
  let lc := u64 (ip - c_ipa st) in
  let '(rc, ip, lc) :=
    if negb (lc =? 0) then
      let ml := u64 (ml - rc) in
      let bmc := if lc >? 16 then 16 else lc in
      let ml := if ml >? bmc then bmc else ml in
      let bmc := lzav_match_len_r src ip wp ml in
      if negb (bmc =? 0)
      then (u64 (rc + bmc), ip - bmc, u64 (lc - bmc))
      else (rc, ip, lc)
    else (rc, ip, lc) in
  let w :=
    lzav_write_blk_2 (c_dst st) (c_op st) lc rc d src (c_ipa st) (c_cbp st)
      (c_csh st) LZAV_REF_MIN in
  let ip := ip + rc in
  let mavg :=
    s64 (c_mavg st + Z.shiftr (s64 (s64 (Z.shiftl rc 21) - c_mavg st)) 10) in
  mk_cstate ip ip (w_op w) (w_cbp w) (w_csh w) mavg (c_rndb st) ht (w_dst w).

(** What the position [c_ip st] holds for the matcher. *)
Record probe : Type := mk_probe {
  p_iw1 : Z;
  p_iw2 : Z;
  p_hp : Z;
  p_ipo : Z;
  p_hw1 : Z
}.

Definition probe_at (src : buf) (hmask : Z) (st : cstate) : probe :=
  let ip := c_ip st in
  let iw1 := load32 src ip in
  let iw2 := load16 src (ip + 4) in
  let hp := Z.land (hash6 iw1 iw2) hmask / 4 in
  mk_probe iw1 iw2 hp (u32 ip) (ht_get (c_ht st) hp).

(** The candidate of the position, with its reference offset
    [d = ip - wp]. *)
Definition candidate (src : buf) (hmask : Z) (st : cstate) : option (Z * Z) :=
  let p := probe_at src hmask st in
  match find_tuple src (c_ht st) (p_hp p) (p_iw1 p) (p_iw2 p) with
  | None => None
  | Some wp => Some (wp, u64 (c_ip st - wp))
  end.

(** One iteration of [while( ip < ipet )] of [lzav_compress]. *)
Definition compress_step (src : buf) (srcl hmask : Z) (st : cstate) : cstate :=
  let p := probe_at src hmask st in
  match candidate src hmask st with
  | None => step_no_match st (p_hp p) (p_iw1 p) (p_ipo p)
  | Some (wp, d) =>
      if (d <? 8) || (d >? LZAV_WIN_LEN - 1)
      then step_d_oob st (p_hp p) (p_iw1 p) (p_hw1 p) (p_ipo p) d
      else step_emit src srcl st (p_hp p) (p_iw1 p) (p_hw1 p) (p_ipo p) wp d
  end.

(** The main loop; [None] when the iteration budget of the model is used
    up. *)
Fixpoint compress_loop (fuel : nat) (src : buf) (srcl hmask : Z) (st : cstate)
  : option cstate :=
  if c_ip st <? srcl - LZAV_LIT_FIN - 9 then
    match fuel with
    | O => None
    | S n => compress_loop n src srcl hmask (compress_step src srcl hmask st)
    end
  else Some st.

(** The state before the first iteration: the matcher starts 16 bytes in,
    nothing is anchored or carried, and every tuple of the table holds the 4
    bytes at offset 16 with that offset. *)
Definition compress_init (src : buf) (srcl htsize op : Z) (dst : buf) : cstate :=
  let ipet := srcl - LZAV_LIT_FIN - 9 in
  let ip := 16 in
  let iv0 := if ip <? ipet then load32 src ip else 0 in
  mk_cstate ip 0 op op 0 (Z.shiftl 100 21) 0 (ht_init htsize iv0 16) dst.

(** The input pointer moved on by 1 and nothing was written. *)
Definition dead_offset (st st' : cstate) : Prop :=
  c_ip st' = c_ip st + 1 /\ c_op st' = c_op st /\ c_dst st' = c_dst st.

(** The output pointer moved on: a block was written. *)
Definition block_emitted (st st' : cstate) : Prop := c_op st < c_op st'.

(** [n] iterations of the main loop. *)
Fixpoint compress_steps (n : nat) (src : buf) (srcl hmask : Z) (st : cstate)
  : cstate :=
  match n with
  | O => st
  | S m => compress_steps m src srcl hmask (compress_step src srcl hmask st)
  end.

(** [lzav_tiny_compress]. *)
Definition lzav_tiny_compress (src dst : ptr) (srcl dstl : Z) : outcome :=
  if (srcl <=? 0) || (srcl >? LZAV_TINY_MAX) || (dstl <? srcl + 2)
  then Returns 0 dst
  else
    match dst with
    | None => Undefined
    | Some d =>
        let d := store8 d 0 (Z.lor (Z.shiftl LZAV_FMT_CUR 4) LZAV_REF_MIN) in
        let d := store8 d 1 (u8 srcl) in
        match src with
        | None => Undefined
        | Some s => Returns (srcl + 2) (Some (lzav_memcpy d 2 s 0 srcl))
        end
    end.

(** [while( htsize != limit && ( htsize >> 2 ) < srcl ) htsize <<= 1;] *)
Fixpoint htsize_grow (fuel : nat) (limit srcl htsize : Z) : Z :=
  match fuel with
  | O => htsize
  | S n =>
      if negb (htsize =? limit) && (Z.shiftr htsize 2 <? srcl)
      then htsize_grow n limit srcl (Z.shiftl htsize 1)
      else htsize
  end.

(** The loop of the external-buffer case, bounded by [htsizem]. *)
Fixpoint htsize_grow_ext (fuel : nat) (htsizem srcl htsize : Z) : Z :=
  match fuel with
  | O => htsize
  | S n =>
      if Z.shiftr htsize 2 <? srcl then
        let htsize2 := Z.shiftl htsize 1 in
        if htsize2 >? htsizem then htsize
        else htsize_grow_ext n htsizem srcl htsize2
      else htsize
  end.

(** [sizeof( stack_buf )]. *)
Definition STACK_BUF_SIZE : Z := 4096 * 4.

(** [lzav_compress].  [malloc_ok] tells whether [malloc] returns a block.
    The table is written in full before it is read, so what [ext_buf] holds
    does not matter, only whether it is null. *)
Definition lzav_compress (malloc_ok : bool) (src dst : ptr) (srcl dstl : Z)
    (ext_buf : ptr) (ext_bufl : Z) : outcome :=
  if srcl <=? LZAV_TINY_MAX then lzav_tiny_compress src dst srcl dstl
  else
    match src, dst with
    | Some s, Some d =>
        if (srcl <=? 0) || (dstl <? lzav_compress_bound srcl) then Returns 0 dst
        else
          let d := store8 d 0 (Z.lor (Z.shiftl LZAV_FMT_CUR 4) LZAV_REF_MIN) in
          let op := 1 in
          if srcl <? 16 then
            let d := store8 d op (u8 srcl) in
            let op := op + 1 in
            let d := lzav_memcpy d op s 0 srcl in
            if srcl >? LZAV_LIT_FIN - 1 then Returns (2 + srcl) (Some d)
            else
              Returns (2 + LZAV_LIT_FIN)
                (Some (lzav_memset d (op + srcl) 0 (LZAV_LIT_FIN - srcl)))
          else
            let htsize :=
              if srcl <=? LZAV_SMALL_MAX then LZAV_MIN_HTABLE
              else htsize_grow 20 (Z.shiftl 1 20) srcl (Z.shiftl 1 7 * 4 * 4) in
            let sized : option Z :=
              match ext_buf with
              | None =>
                  let htsize := htsize_grow 20 (Z.shiftl 1 20) srcl htsize in
                  if (htsize >? STACK_BUF_SIZE) && negb malloc_ok then None
                  else Some htsize
              | Some _ =>
                  let htsizem :=
                    if ext_bufl >? STACK_BUF_SIZE then ext_bufl
                    else STACK_BUF_SIZE in
                  Some (htsize_grow_ext 64 htsizem srcl htsize)
              end in
            match sized with
            | None => Returns 0 (Some d)
            | Some htsize =>
                let hmask := u32 (Z.lxor (htsize - 1) 15) in
                let ipe := srcl - LZAV_LIT_FIN in
                let st := compress_init s srcl htsize op d in
                match compress_loop (Z.to_nat srcl) s srcl hmask st with
                | None => OutOfFuel
                | Some st =>
                    let '(d, op) :=
                      lzav_write_fin_2 (c_dst st) (c_op st)
                        (u64 (ipe - c_ipa st + LZAV_LIT_FIN)) s (c_ipa st) in
                    Returns (s32 op) (Some d)
                end
            end
    | _, _ => Returns 0 dst
    end.

(** [lzav_compress_default]. *)
Definition lzav_compress_default (malloc_ok : bool) (src dst : ptr)
    (srcl dstl : Z) : outcome :=
  lzav_compress malloc_ok src dst srcl dstl None 0.

(** ** Higher-ratio compressor *)

(** [mref] and [mlen] of [lzav_compress_hi]. *)
Definition HI_MREF : Z := 5.
Definition HI_MLEN : Z := LZAV_REF_LEN - LZAV_REF_MIN + HI_MREF.

(** [hval] of the higher-ratio compressor, from [iw1] and the byte
    [ip[ 4 ]]. *)
Definition hash5 (iw1 b4 : Z) : Z :=
  let hm := u64 (u32 (Z.lxor 0x243F6A88 iw1) * u32 (Z.lxor 0x85A308D3 b4)) in
  Z.lxor (u32 hm) (u32 (Z.shiftr hm 32)).

(** The state of the main loop of [lzav_compress_hi]. *)
Record hstate : Type := mk_hstate {
  h_ip : Z;
  h_ipa : Z;
  h_op : Z;
  h_cbp : Z;
  h_csh : Z;
  h_ht : list Z;
  h_dst : buf;
  h_prc : Z;
  h_pd : Z;
  h_pip : Z
}.

(** The two [for( i1 = 0; i1 < 7; ++i1 )] loops over the tuples of a slot;
    [clamp] selects the second one, which keeps [LZAV_LIT_FIN] literals.
    The result is [(wp, rc, d)]: [d] is assigned in every iteration, so the
    loop leaves the offset of the last tuple it looked at. *)
Fixpoint hi_scan (n : nat) (clamp : bool) (src : buf) (ht : list Z)
    (hp ip ipe iw1 ti wp rc d : Z) : Z * Z * Z :=
  match n with
  | O => (wp, rc, d)
  | S m =>
      let ww1 := ht_get ht (hp + ti) in
      let wp0 := ht_get ht (hp + ti + 1) in
      let d := u64 (ip - wp0) in
      let ti := if ti =? 12 then 0 else ti + 2 in
      if iw1 =? ww1 then
        let ml := if d >? HI_MLEN then HI_MLEN else d in
        let ml :=
          if clamp && (padd ip ml >? ipe) then u64 (ipe - ip) else ml in
        let rc0 :=
          u64 (4 + lzav_match_len src (ip + 4) (wp0 + 4) (u64 (ml - 4))) in
        if rc0 >? rc + b2z (d >? Z.shiftl 1 18)
        then hi_scan m clamp src ht hp ip ipe iw1 ti wp0 rc0 d
        else hi_scan m clamp src ht hp ip ipe iw1 ti wp rc d
      else hi_scan m clamp src ht hp ip ipe iw1 ti wp rc d
  end.

(** The values the tuple index [ti] of a slot takes. *)
Definition slot_tis : list Z := [0; 2; 4; 6; 8; 10; 12].

(** The block size overhead estimate [ov] of a match. *)
Definition hi_overhead (csh lc d : Z) : Z :=
  let lb := b2z (negb (lc =? 0)) in
  let sh0 := 10 + b2z (negb (csh =? 0)) * 3 in
  let sh := sh0 + lb * 2 in
  lc + lb + b2z (lc >? 15) + 2 + b2z (d >=? Z.shiftl 1 sh)
  + b2z (d >=? Z.shiftl 1 (sh + 8)).

(** One iteration of [while( ip < ipet )] of [lzav_compress_hi]. *)
Definition compress_hi_step (src : buf) (srcl hmask : Z) (st : hstate) : hstate :=
  let ip := h_ip st in
  let ipa := h_ipa st in
  let ipe := srcl - LZAV_LIT_FIN in
  let ht := h_ht st in
  let iw1 := load32 src ip in
  let hp := Z.land (hash5 iw1 (load8 src (ip + 4))) hmask / 4 in
  let ipo := u32 ip in
  let ti0 := ht_get ht (hp + 15) in
  let '(wp, rc, d) :=
    hi_scan 7 (negb (padd ip HI_MLEN <? ipe)) src ht hp ip ipe iw1 ti0 ip 0 0 in
  let ht :=
    if (rc =? 0) || (d >? 273) then
      let ti0 := if ti0 =? 0 then 12 else ti0 - 2 in
      let ht := ht_set ht (hp + ti0) iw1 in
      let ht := ht_set ht (hp + ti0 + 1) ipo in
      ht_set ht (hp + 15) ti0
    else ht in
  if (rc <? HI_MREF + b2z (d >? Z.shiftl 1 18)) || (d <? 8)
     || (d >? LZAV_WIN_LEN - 1)
  then
    mk_hstate (ip + 1) ipa (h_op st) (h_cbp st) (h_csh st) ht (h_dst st)
      (h_prc st) (h_pd st) (h_pip st)
  else
    let ip0 := ip in
    let lc := u64 (ip - ipa) in
    let '(rc, ip, lc) :=
      if negb (lc =? 0) then
        let ml := if d >? HI_MLEN then HI_MLEN else d in
        let ml := if padd ip ml >? ipe then u64 (ipe - ip) else ml in
        let ml := u64 (ml - rc) in
        let wpo := wp in
        let ml := if ml >? lc then lc else ml in
        let ml := if ml >? wpo then wpo else ml in
        let bmc := lzav_match_len_r src ip wp ml in
        if negb (bmc =? 0)
        then (u64 (rc + bmc), ip - bmc, u64 (lc - bmc))
        else (rc, ip, lc)
      else (rc, ip, lc) in
    if h_prc st =? 0 then
      mk_hstate (ip0 + 1) ipa (h_op st) (h_cbp st) (h_csh st) ht (h_dst st)
        rc d ip
    else
      let prc := h_prc st in
      let pd := h_pd st in
      let pip := h_pip st in
      let ov := hi_overhead (h_csh st) lc d in
      let plc := u64 (pip - ipa) in
      let pov := hi_overhead (h_csh st) plc pd in
      let emit (lc rc d ip : Z) : hstate :=
        let w :=
          lzav_write_blk_2 (h_dst st) (h_op st) lc rc d src ipa (h_cbp st)
            (h_csh st) HI_MREF in
        let ip := ip + rc in
        mk_hstate ip ip (w_op w) (w_cbp w) (w_csh w) ht (w_dst w) 0 pd pip in
      if u64 (prc * ov) >? u64 (rc * pov) then
        if pip + prc <=? ip then
          let w :=
            lzav_write_blk_2 (h_dst st) (h_op st) plc prc pd src ipa
              (h_cbp st) (h_csh st) HI_MREF in
          mk_hstate (ip + 1) (pip + prc) (w_op w) (w_cbp w) (w_csh w) ht
            (w_dst w) rc d ip
        else emit plc prc pd pip
      else emit lc rc d ip.

Fixpoint compress_hi_loop (fuel : nat) (src : buf) (srcl hmask : Z)
    (st : hstate) : option hstate :=
  if h_ip st <? srcl - LZAV_LIT_FIN - 9 then
    match fuel with
    | O => None
    | S n =>
        compress_hi_loop n src srcl hmask (compress_hi_step src srcl hmask st)
    end
  else Some st.

(** [lzav_compress_hi]. *)
Definition lzav_compress_hi (malloc_ok : bool) (src dst : ptr) (srcl dstl : Z)
  : outcome :=
  match src, dst with
  | Some s, Some d =>
      if (srcl <=? 0) || (dstl <? lzav_compress_bound_hi srcl) then Returns 0 dst
      else
        let d := store8 d 0 (Z.lor (Z.shiftl LZAV_FMT_CUR 4) HI_MREF) in
        let op := 1 in
        if srcl <? 16 then
          let d := store8 d op (u8 srcl) in
          let op := op + 1 in
          let d := lzav_memcpy d op s 0 srcl in
          if srcl >? LZAV_LIT_FIN - 1 then Returns (2 + srcl) (Some d)
          else
            Returns (2 + LZAV_LIT_FIN)
              (Some (lzav_memset d (op + srcl) 0 (LZAV_LIT_FIN - srcl)))
        else
          let htsize :=
            htsize_grow 20 (Z.shiftl 1 23) srcl (Z.shiftl 1 7 * 4 * 2 * 8) in
          if negb malloc_ok then Returns 0 (Some d)
          else
            let hmask := u32 (Z.lxor (htsize - 1) 63) in
            let ipe := srcl - LZAV_LIT_FIN in
            let st :=
              mk_hstate 0 0 op op 0 (ht_init htsize (load32 s 0) 0) d 0 0 0 in
            match compress_hi_loop (2 * Z.to_nat srcl) s srcl hmask st with
            | None => OutOfFuel
            | Some st =>
                let w :=
                  if negb (h_prc st =? 0) then
                    let w :=
                      lzav_write_blk_2 (h_dst st) (h_op st)
                        (u64 (h_pip st - h_ipa st)) (h_prc st) (h_pd st) s
                        (h_ipa st) (h_cbp st) (h_csh st) HI_MREF in
                    (w_dst w, w_op w, h_pip st + h_prc st)
                  else (h_dst st, h_op st, h_ipa st) in
                let '(d, op, ipa) := w in
                let '(d, op) :=
                  lzav_write_fin_2 d op (u64 (ipe - ipa + LZAV_LIT_FIN)) s ipa in
                Returns (s32 op) (Some d)
            end
  | _, _ => Returns 0 dst
  end.

(** ** Decoder (stream format 2) *)

(** [LZAV_MEMMOVE( b + d, b + s, c )]: [c] bytes go to a local array and
    from there to their place, so the copy stores what the range held before
    it began. *)
Definition LZAV_MEMMOVE (b : buf) (d s c : Z) : buf :=
  let tmp := lzav_memcpy (repeat 0 (Z.to_nat c)) 0 b s c in
  lzav_memcpy b d tmp 0 c.

(** The state of the loop of [lzav_decompress_2]. *)
Record dstate : Type := mk_dstate {
  d_ip : Z;
  d_op : Z;
  d_bh : Z;
  d_cv : Z;
  d_csh : Z;
  d_dst : buf
}.

(** How a block ends: the loop goes on, or the function returns [value]
    with [*pwl] and the destination as given. *)
Inductive flow : Type :=
| Next (st : dstate)
| Stop (value pwl : Z) (dst : buf).

(** The expansion of a reference of [cc] bytes at distance [op - ipd], after
    the header was read.  [long] tells the branch with additional length
    bytes, which copies 64 bytes at once where the other copies 20.  [inl]
    is the destination and the output pointer after the copy; [inr] is
    [goto _err_dstoob_ref] with the destination, [op] and [ipd] reached. *)
Definition ref_expand (long : bool) (dst : buf) (op ipd cc opet ope : Z)
  : buf * Z + buf * Z * Z :=
  let slow (dst : buf) (op ipd cc : Z) : buf * Z + buf * Z * Z :=
    if op + cc >? ope then inr (dst, op, ipd)
    else inl (copy_within (Z.to_nat cc) dst op ipd, op + cc) in
  if op <? opet then
    if long then
      let dst := LZAV_MEMMOVE dst op ipd 16 in
      let dst := LZAV_MEMMOVE dst (op + 16) (ipd + 16) 16 in
      let dst := LZAV_MEMMOVE dst (op + 32) (ipd + 32) 16 in
      let dst := LZAV_MEMMOVE dst (op + 48) (ipd + 48) 16 in
      if cc <? 65 then inl (dst, op + cc)
      else slow dst (op + 64) (ipd + 64) (cc - 64)
    else
      let dst := LZAV_MEMMOVE dst op ipd 16 in
      let dst := LZAV_MEMMOVE dst (op + 16) (ipd + 16) 4 in
      inl (dst, op + cc)
  else slow dst op ipd cc.

(** The bytes of a literal length after the first one:
    [while(( lcw & 0x80 ) != 0 ) { ... }], at most 4 of them. *)
Fixpoint read_len_loop (fuel : nat) (src : buf) (ip lcw cc sh : Z) : Z * Z :=
  match fuel with
  | O => (ip, cc)
  | S n =>
      if negb (Z.land lcw 128 =? 0) then
        let lcw := load8 src ip in
        let ip := ip + 1 in
        let cc := Z.lor cc (Z.shiftl (Z.land lcw 127) sh) in
        if sh =? 28 then (ip, cc)
        else read_len_loop n src ip lcw cc (sh + 7)
      else (ip, cc)
  end.

(** The tail of a literal block, shared by its branches: carry update, the
    next header, the bounds checks and the byte loop. *)
Definition lit_tail_2 (src : buf) (srcl dstl : Z) (st : dstate)
    (ip op ipd cc ncv : Z) (dst : buf) : flow :=
  let ipe := srcl in
  let ope := dstl in
  let cv := Z.lor (d_cv st) ncv in
  let csh := s32 (d_csh st + 2) in
  let srcoob_lit : flow :=
    let cc := u64 (ipe - ipd) in
    if op + cc <? ope
    then Stop LZAV_E_SRCOOB (s32 (op + cc)) (lzav_memcpy dst op src ipd cc)
    else Stop LZAV_E_SRCOOB dstl (lzav_memcpy dst op src ipd (ope - op)) in
  let body (bh : Z) : flow :=
    if op + cc >? ope
    then Stop LZAV_E_DSTOOB dstl (lzav_memcpy dst op src ipd (ope - op))
    else
      Next (mk_dstate ip (op + cc) bh cv csh
              (copy_bytes (Z.to_nat cc) dst op src ipd)) in
  if ip <? ipe then body (load8 src ip)
  else if negb (ip =? ipe) then srcoob_lit
  else body (d_bh st).

(** A literal block.  [inl] is [goto _refblk]: a reference block follows
    and is read in the same iteration. *)
Definition dec_literal_2 (src : buf) (srcl dstl : Z) (st : dstate)
  : dstate + flow :=
  let ipe := srcl in
  let ope := dstl in
  let opet := ope - 63 in
  let bh := d_bh st in
  let op := d_op st in
  let dst := d_dst st in
  let ncv := Z.shiftr bh 6 in
  let ip := d_ip st + 1 in
  let cc := Z.land bh 15 in
  if negb (cc =? 0) then
    let ipd := ip in
    let ncv := u64 (Z.shiftl ncv (d_csh st)) in
    let ip := ip + cc in
    if (op <? opet) && (ipd <? ipe - 15 - 7) then
      inl (mk_dstate ip (op + cc) (load8 src ip) (Z.lor (d_cv st) ncv)
             (s32 (d_csh st + 2)) (lzav_memcpy dst op src ipd 16))
    else inr (lit_tail_2 src srcl dstl st ip op ipd cc ncv dst)
  else
    let lcw := load8 src ip in
    let ncv := u64 (Z.shiftl ncv (d_csh st)) in
    let ip := ip + 1 in
    let cc := Z.land lcw 127 in
    let '(ip, cc) := read_len_loop 5 src ip lcw cc 7 in
    let cc := cc + 16 in
    let ipd := ip in
    let ip := ip + cc in
    if (op <? opet) && (ipd <? ipe - 63 - 16) then
      let dst := lzav_memcpy dst op src ipd 16 in
      let dst := lzav_memcpy dst (op + 16) src (ipd + 16) 16 in
      let dst := lzav_memcpy dst (op + 32) src (ipd + 32) 16 in
      let dst := lzav_memcpy dst (op + 48) src (ipd + 48) 16 in
      if cc <? 65 then
        inl (mk_dstate ip (op + cc) (load8 src ip) (Z.lor (d_cv st) ncv)
               (s32 (d_csh st + 2)) dst)
      else
        inr (lit_tail_2 src srcl dstl st ip (op + 64) (ipd + 64) (cc - 64)
               ncv dst)
    else inr (lit_tail_2 src srcl dstl st ip op ipd cc ncv dst).

(** The label [_refblk]: a reference block. *)
Definition dec_refblk_2 (src : buf) (srcl dstl mref1 : Z) (st : dstate) : flow :=
  let ope := dstl in
  let opet := ope - 63 in
  let bh := d_bh st in
  let op := d_op st in
  let dst := d_dst st in
  let bt := Z.land (Z.shiftr bh 4) 3 in
  let ip := d_ip st + 1 in
  let bt8 := Z.shiftl bt 3 in
  let bv := load32 src ip in
  let om := u32 (Z.shiftl 1 bt8 - 1) in
  let ip := ip + bt in
  let o := Z.land bv om in
  let bv := Z.shiftr bv bt8 in
  let wcsh := ocsh bt in
  let d :=
    Z.lor (u64 (Z.shiftl (Z.lor (Z.shiftr bh 6)
                            (Z.shiftl (Z.land o 0x1FFFFF) 2)) (d_csh st)))
      (d_cv st) in
  let ipd := op - d in
  if d >? op then Stop LZAV_E_REFOOB (s32 op) dst
  else
    let csh := wcsh in
    let cv := Z.shiftr o 21 in
    let cc := Z.land bh 15 in
    let '(long, ip, bh, cc) :=
      if negb (cc =? 0) then (false, ip, Z.land bv 255, u64 (cc + mref1))
      else
        let bh := Z.land bv 255 in
        if bh =? 255
        then (true, ip + 2, load8 src (ip + 2),
              u64 (16 + mref1 + 255 + load8 src (ip + 1)))
        else (true, ip + 1, load8 src (ip + 1), u64 (16 + mref1 + bh)) in
    match ref_expand long dst op ipd cc opet ope with
    | inl (dst, op) => Next (mk_dstate ip op bh cv csh dst)
    | inr (dst, op, ipd) =>
        Stop LZAV_E_DSTOOB dstl (lzav_memmove dst op ipd (ope - op))
    end.

(** One iteration of [while( ip < ipet )]. *)
Definition dec_block_2 (src : buf) (srcl dstl mref1 : Z) (st : dstate) : flow :=
  if Z.land (d_bh st) 48 =? 0 then
    match dec_literal_2 src srcl dstl st with
    | inl st => dec_refblk_2 src srcl dstl mref1 st
    | inr f => f
    end
  else dec_refblk_2 src srcl dstl mref1 st.

(** The loop and the checks after it; [None] when the iteration budget of
    the model is used up. *)
Fixpoint dec_loop_2 (fuel : nat) (src : buf) (srcl dstl mref1 : Z)
    (st : dstate) : option (Z * Z * buf) :=
  if d_ip st <? srcl - 6 then
    match fuel with
    | O => None
    | S n =>
        match dec_block_2 src srcl dstl mref1 st with
        | Next st => dec_loop_2 n src srcl dstl mref1 st
        | Stop v pwl dst => Some (v, pwl, dst)
        end
    end
  else if negb (d_op st =? dstl)
  then Some (LZAV_E_DSTLEN, s32 (d_op st), d_dst st)
  else Some (s32 (d_op st), dstl, d_dst st).

(** [lzav_decompress_2]: the value returned, [*pwl] and the destination. *)
Definition lzav_decompress_2 (src dst : buf) (srcl dstl : Z)
  : option (Z * Z * buf) :=
  let ipet := srcl - 6 in
  let mref1 := u64 (Z.land (load8 src 0) 15 - 1) in
  let ip := 1 in
  if ip >=? ipet then Some (LZAV_E_SRCOOB, s32 0, dst)
  else
    dec_loop_2 (Z.to_nat srcl) src srcl dstl mref1
      (mk_dstate ip 0 (load8 src ip) 0 0 dst).

(** ** Decoder (stream format 1) *)

(** A literal block of [lzav_decompress_1]; [inl] is [goto _refblk]. *)
Definition dec_literal_1 (src : buf) (srcl dstl : Z) (st : dstate)
  : dstate + flow :=
  let ipe := srcl in
  let ope := dstl in
  let opet := ope - 63 in
  let bh := d_bh st in
  let op := d_op st in
  let dst := d_dst st in
  let cv := Z.shiftr bh 6 in
  let csh := 2 in
  let ip := d_ip st + 1 in
  let cc := Z.land bh 15 in
  let tail (ip op ipd cc : Z) (dst : buf) : flow :=
    let body (bh : Z) : flow :=
      if op + cc >? ope then Stop LZAV_E_DSTOOB dstl dst
      else
        Next (mk_dstate ip (op + cc) bh cv csh
                (copy_bytes (Z.to_nat cc) dst op src ipd)) in
    if ip <? ipe then body (load8 src ip)
    else if negb (ip =? ipe) then Stop LZAV_E_SRCOOB dstl dst
    else body bh in
  if negb (cc =? 0) then
    let ipd := ip in
    let ip := ip + cc in
    if (op <? opet) && (ipd <? ipe - 15 - 6) then
      inl (mk_dstate ip (op + cc) (load8 src ip) cv csh
             (lzav_memcpy dst op src ipd 16))
    else inr (tail ip op ipd cc dst)
  else
    let bv := load16 src ip in
    let l2 := Z.land bv 255 in
    let ip := ip + 1 in
    let lb := b2z (l2 =? 255) in
    let cc := 16 + (l2 + Z.land (Z.shiftr bv 8) (256 - lb)) in
    let ip := ip + lb in
    let ipd := ip in
    let ip := ip + cc in
    if (op <? opet) && (ipd <? ipe - 63 - 1) then
      let dst := lzav_memcpy dst op src ipd 16 in
      let dst := lzav_memcpy dst (op + 16) src (ipd + 16) 16 in
      let dst := lzav_memcpy dst (op + 32) src (ipd + 32) 16 in
      let dst := lzav_memcpy dst (op + 48) src (ipd + 48) 16 in
      if cc <? 65
      then inr (Next (mk_dstate ip (op + cc) (load8 src ip) cv csh dst))
      else inr (tail ip (op + 64) (ipd + 64) (cc - 64) dst)
    else inr (tail ip op ipd cc dst).

(** The label [_refblk] of [lzav_decompress_1]. *)
Definition dec_refblk_1 (src : buf) (srcl dstl mref1 : Z) (st : dstate) : flow :=
  let ope := dstl in
  let opet := ope - 63 in
  let bh := d_bh st in
  let ip := d_ip st in
  let op := d_op st in
  let dst := d_dst st in
  let cc := Z.land bh 15 in
  let carry (x : Z) : Z := Z.lor (u64 (Z.shiftl x (d_csh st))) (d_cv st) in
  let '(d, csh, cv, ip, bh) :=
    if Z.land bh 32 =? 0 then
      (carry (Z.lor (Z.shiftr bh 6) (Z.shiftl (load8 src (ip + 1)) 2)),
       0, 0, ip + 2, load8 src (ip + 2))
    else if Z.land bh 16 =? 0 then
      (carry (Z.lor (Z.shiftr bh 6) (Z.shiftl (load16 src (ip + 1)) 2)),
       0, 0, ip + 3, load8 src (ip + 3))
    else
      let bv := load32 src (ip + 1) in
      (carry (Z.land bv 0xFFFFFF), 2, Z.shiftr bh 6, ip + 4, Z.shiftr bv 24) in
  let ipd := op - d in
  if d >? op then Stop LZAV_E_REFOOB dstl dst
  else
    let '(long, ip, bh, cc) :=
      if negb (cc =? 0) then (false, ip, bh, u64 (cc + mref1))
      else (true, ip + 1, load8 src (ip + 1), u64 (16 + mref1 + bh)) in
    match ref_expand long dst op ipd cc opet ope with
    | inl (dst, op) => Next (mk_dstate ip op bh cv csh dst)
    | inr (dst, _, _) => Stop LZAV_E_DSTOOB dstl dst
    end.

Definition dec_block_1 (src : buf) (srcl dstl mref1 : Z) (st : dstate) : flow :=
  if Z.land (d_bh st) 48 =? 0 then
    match dec_literal_1 src srcl dstl st with
    | inl st => dec_refblk_1 src srcl dstl mref1 st
    | inr f => f
    end
  else dec_refblk_1 src srcl dstl mref1 st.

Fixpoint dec_loop_1 (fuel : nat) (src : buf) (srcl dstl mref1 : Z)
    (st : dstate) : option (Z * buf) :=
  if d_ip st <? srcl - 5 then
    match fuel with
    | O => None
    | S n =>
        match dec_block_1 src srcl dstl mref1 st with
        | Next st => dec_loop_1 n src srcl dstl mref1 st
        | Stop v _ dst => Some (v, dst)
        end
    end
  else if negb (d_op st =? dstl) then Some (LZAV_E_DSTLEN, d_dst st)
  else Some (s32 (d_op st), d_dst st).

(** [lzav_decompress_1]: the value returned and the destination. *)
Definition lzav_decompress_1 (src dst : buf) (srcl dstl : Z)
  : option (Z * buf) :=
  let ipet := srcl - 5 in
  let mref1 := u64 (Z.land (load8 src 0) 15 - 1) in
  let ip := 1 in
  if ip >=? ipet then Some (LZAV_E_SRCOOB, dst)
  else
    dec_loop_1 (Z.to_nat srcl) src srcl dstl mref1
      (mk_dstate ip 0 (load8 src ip) 0 0 dst).

(** ** Decompression entry points *)

(** [lzav_decompress_partial]. *)
Definition lzav_decompress_partial (src dst : ptr) (srcl dstl : Z) : outcome :=
  match src, dst with
  | Some s, Some d =>
      let fmt := Z.shiftr (load8 s 0) 4 in
      if fmt =? 2 then
        match lzav_decompress_2 s d srcl dstl with
        | Some (_, dl, d) => Returns (s32 dl) (Some d)
        | None => OutOfFuel
        end
      else Returns (s32 0) (Some d)
  | _, _ => Returns 0 dst
  end.

(** [lzav_decompress], with its path for tiny streams. *)
Definition lzav_decompress (src dst : ptr) (srcl dstl : Z) : outcome :=
  match src, dst with
  | Some s, Some d =>
      let fmt := Z.shiftr (load8 s 0) 4 in
      let tiny : option outcome :=
        if (srcl <=? LZAV_TINY_MAX + 2)
           && (Z.shiftr (load8 s 0) 4 =? LZAV_FMT_CUR) then
          let len := load8 s 1 in
          if (len <=? LZAV_TINY_MAX) && (len <=? dstl)
          then Some (Returns len (Some (lzav_memcpy d 0 s 2 len)))
          else None
        else None in
      match tiny with
      | Some r => r
      | None =>
          if fmt =? 2 then
            match lzav_decompress_2 s d srcl dstl with
            | Some (v, _, d) => Returns v (Some d)
            | None => OutOfFuel
            end
          else if fmt =? 1 then
            match lzav_decompress_1 s d srcl dstl with
            | Some (v, d) => Returns v (Some d)
            | None => OutOfFuel
            end
          else Returns LZAV_E_UNKFMT (Some d)
      end
  | _, _ => Returns LZAV_E_PARAMS dst
  end.

(** ** Streams *)

(** The value a call returned, if it returned. *)
Definition returned (o : outcome) : option Z :=
  match o with
  | Returns v _ => Some v
  | _ => None
  end.

(** The first [v] bytes of the destination of a call that returned [v]: the
    stream a compressor wrote, the data a decompressor produced. *)
Definition produced (o : outcome) : option (list Z) :=
  match o with
  | Returns v (Some d) => Some (firstn (Z.to_nat v) d)
  | _ => None
  end.

(** The bytes [lzav_write_fin_2] writes for the literals [lits]. *)
Definition terminal_block (lits : list Z) : list Z :=
  let lc := Z.of_nat (length lits) in
  let '(d, op) := lzav_write_fin_2 (repeat 0 (length lits + 6)) 0 lc lits 0 in
  firstn (Z.to_nat op) d.

(** A stream that finishes with [LZAV_LIT_FIN] literals: after the prefix
    byte and the blocks before it comes a terminal literal block of no fewer
    literals. *)
Definition ends_with_fin (stream : list Z) : Prop :=
  exists pre lits,
    stream = pre ++ terminal_block lits
    /\ (1 <= length pre)%nat
    /\ LZAV_LIT_FIN <= Z.of_nat (length lits).

(** The bytes of a reference of [rc] bytes at distance [d] expanded at
    [op] repeat the output [d] positions earlier, the bytes of the reference
    itself included. *)
Definition rle_feeds (out : buf) (op d rc : Z) : Prop :=
  forall i, 0 <= i < rc -> load8 out (op + i) = load8 out (op + i - d).

(** ** Example inputs *)

(** [hmask] of [lzav_compress] for a source of 33 to 128 bytes, whose table
    has [LZAV_MIN_HTABLE] bytes. *)
Definition min_table_hmask : Z := u32 (Z.lxor (LZAV_MIN_HTABLE - 1) 15).

(** The source ["ABCDEF" x 7] of 42 bytes. *)
Definition abcdef7 : buf := concat (repeat [65; 66; 67; 68; 69; 70] 7).

(** The state of the loop of [lzav_compress] at input offset 22. *)
Definition abcdef7_at_22 : cstate :=
  compress_steps 6 abcdef7 42 min_table_hmask
    (compress_init abcdef7 42 LZAV_MIN_HTABLE 1
       (store8 (repeat 0 61) 0 38)).

(** The 16 bytes 1, 2, ..., 16. *)
Definition bytes_1_16 : buf := map Z.of_nat (seq 1 16).

(** 100 bytes of the period ["ABCDEFGHI"]. *)
Definition period9 : buf :=
  map (fun i => Z.of_nat (65 + Nat.modulo i 9)) (seq 0 100).

(** The state of the loop of [lzav_compress] at offset 25 of [period9]. *)
Definition period9_at_25 : cstate :=
  compress_steps 9 period9 100 min_table_hmask
    (compress_init period9 100 LZAV_MIN_HTABLE 1
       (store8 (repeat 0 118) 0 38)).

(** What [lzav_compress_hi] writes for [period9]. *)
Definition period9_hi_stream : list Z :=
  [37; 137; 65; 66; 67; 68; 69; 70; 71; 72; 73; 150; 0; 31; 5; 208; 9; 17;
   223; 18; 6; 69; 70; 71; 72; 73; 65].

(** What [lzav_compress] writes for [period9]. *)
Definition period9_stream : list Z :=
  [38; 64; 9; 65; 66; 67; 68; 69; 70; 71; 72; 73; 65; 66; 67; 68; 69; 70; 71;
   72; 73; 65; 66; 67; 68; 69; 70; 71; 148; 0; 157; 4; 16; 9; 15; 12; 72; 73;
   65; 66; 67; 68; 69; 70; 71; 72; 73; 65].

(** ** Helper functions of the header *)

(** [~x] of a [size_t]. *)
Definition not64 (x : Z) : Z := u64 (Z.lnot x).

(** [(size_t) -1], the all-ones mask [-1ULL]. *)
Definition ALL_ONES : Z := 2 ^ 64 - 1.

Definition LZAV_HASH_L1_BITS : Z := 12.
Definition LZAV_HASH_L2_BITS : Z := 15.
Definition LZAV_HASH_L3_BITS : Z := 17.

Definition LZAV_HASH_L1_SIZE : Z := Z.shiftl 1 LZAV_HASH_L1_BITS.
Definition LZAV_HASH_L2_SIZE : Z := Z.shiftl 1 LZAV_HASH_L2_BITS.
Definition LZAV_HASH_L3_SIZE : Z := Z.shiftl 1 LZAV_HASH_L3_BITS.

Definition LZAV_HASH_L1_MASK : Z := LZAV_HASH_L1_SIZE - 1.
Definition LZAV_HASH_L2_MASK : Z := LZAV_HASH_L2_SIZE - 1.
Definition LZAV_HASH_L3_MASK : Z := LZAV_HASH_L3_SIZE - 1.

(** [fast_div_pow2]: [x / y] when [y] has two bits set or more, a shift by
    the trailing zeros of [y], counted in six steps, otherwise. *)
Definition fast_div_pow2 (x y : Z) : Z :=
  if negb (Z.land y (u64 (y - 1)) =? 0) then x / y
  else
    let shift := 0 in
    let mask := y in
    let '(shift, mask) :=
      if Z.land mask 0xFFFFFFFF =? 0 then (shift + 32, Z.shiftr mask 32)
      else (shift, mask) in
    let '(shift, mask) :=
      if Z.land mask 0xFFFF =? 0 then (shift + 16, Z.shiftr mask 16)
      else (shift, mask) in
    let '(shift, mask) :=
      if Z.land mask 0xFF =? 0 then (shift + 8, Z.shiftr mask 8)
      else (shift, mask) in
    let '(shift, mask) :=
      if Z.land mask 0xF =? 0 then (shift + 4, Z.shiftr mask 4)
      else (shift, mask) in
    let '(shift, mask) :=
      if Z.land mask 0x3 =? 0 then (shift + 2, Z.shiftr mask 2)
      else (shift, mask) in
    let shift := if Z.land mask 0x1 =? 0 then shift + 1 else shift in
    Z.shiftr x shift.

(** [lzav_get_hash_bits]. *)
Definition lzav_get_hash_bits (input_size : Z) : Z :=
  let word_size := 8 * 8 in
  let word_mask := word_size - 1 in
  let x := input_size in
  let x := Z.lor x (Z.shiftr x 1) in
  let x := Z.lor x (Z.shiftr x 2) in
  let x := Z.lor x (Z.shiftr x 4) in
  let x := Z.lor x (Z.shiftr x 8) in
  let x := Z.lor x (Z.shiftr x 16) in
  let x := Z.lor x (Z.shiftr x 32) in
  let top (k : Z) : Z :=
    b2z (negb (Z.land x (not64 (Z.shiftr x k)) =? 0)) in
  let leading_zeros :=
    u64 (word_mask -
         Z.lor (Z.lor (Z.lor (Z.lor (Z.lor
           (Z.shiftl (top 1) 0)
           (Z.shiftl (top 2) 1))
           (Z.shiftl (top 4) 2))
           (Z.shiftl (top 8) 3))
           (Z.shiftl (top 16) 4))
           (Z.shiftl (top 32) 5)) in
  let shift_13 := u64 (leading_zeros - 13) in
  let base_shift :=
    Z.land shift_13 (not64 (Z.shiftr shift_13 (word_size - 1))) in
  let base_bits :=
    Z.lor LZAV_HASH_L1_BITS
      (Z.land (u64 (base_shift + Z.shiftr base_shift 1))
         (if leading_zeros >? 13 then ALL_ONES else 0)) in
  let over := if base_bits >? LZAV_HASH_L3_BITS then ALL_ONES else 0 in
  let under := if base_bits <? LZAV_HASH_L1_BITS then ALL_ONES else 0 in
  Z.lor (Z.lor (Z.land (Z.land base_bits (not64 over)) (not64 under))
           (Z.land LZAV_HASH_L3_BITS over))
    (Z.land LZAV_HASH_L1_BITS under).

(** [lzav_get_hash_mask]. *)
Definition lzav_get_hash_mask (input_size : Z) : Z :=
  if input_size <=? Z.shiftl 16 10 then LZAV_HASH_L1_MASK
  else if input_size <=? Z.shiftl 128 10 then LZAV_HASH_L2_MASK
  else LZAV_HASH_L3_MASK.

(** [lzav_hash]. *)
Definition lzav_hash (x mask : Z) : Z :=
  let x_prime := u32 (x * 0x1E35A7BD) in
  let x_prime := Z.lxor x_prime (Z.shiftr x_prime LZAV_HASH_L1_BITS) in
  let x_prime := u32 (x_prime * 0x1E35A7BD) in
  Z.land x_prime mask.

(** [lzav_bitwise_rotate_left], for a shift the C operators define:
    [0 < shift < 32]. *)
Definition lzav_bitwise_rotate_left (val shift : Z) : Z :=
  Z.lor (u32 (Z.shiftl val shift)) (Z.shiftr val (32 - shift)).

(** [lzav_bitwise_xor]. *)
Definition lzav_bitwise_xor (a b : Z) : Z := Z.lxor a b.

(** The block header macros. *)
Definition LZAV_BLOCK_HEADER (type length : Z) : Z :=
  Z.lor (Z.shiftl type 4) length.
Definition LZAV_GET_BLOCK_TYPE (header : Z) : Z :=
  Z.land (Z.shiftr header 4) 3.
Definition LZAV_GET_BLOCK_LENGTH (header : Z) : Z := Z.land header 15.

(** ** Memory pool *)

Definition LZAV_POOL_SIZE : Z := 64.
Definition LZAV_POOL_BLOCK : Z := 2048.

(** [lzav_pool_t]: the addresses of the blocks, the bytes handed out of
    each, and the number of blocks.  Address 0 is the null pointer. *)
Record lzav_pool_t : Type := mk_pool {
  pool_blocks : list Z;
  pool_used : list Z;
  pool_count : Z
}.

(** An entry of one of the two arrays. *)
Definition word_at (a : list Z) (i : Z) : Z := nth (Z.to_nat i) a 0.

(** The loop [for (i = 0; i < pool->count; ++i)] of [lzav_pool_alloc] from
    index [i] on: the first block with [size] bytes left. *)
Fixpoint pool_scan (fuel : nat) (pool : lzav_pool_t) (size i : Z) : option Z :=
  match fuel with
  | O => None
  | S n =>
      if i <? pool_count pool then
        let remaining := u64 (LZAV_POOL_BLOCK - word_at (pool_used pool) i) in
        if remaining >=? size then Some i
        else pool_scan n pool size (i + 1)
      else None
  end.

(** [lzav_pool_alloc].  [block] is what [malloc] returns if the function
    calls it (it does so at most once).  The result is the pointer returned
    and the pool as the call leaves it. *)
Definition lzav_pool_alloc (pool : lzav_pool_t) (size block : Z)
  : Z * lzav_pool_t :=
  let size := Z.land (u64 (size + 7)) (not64 7) in
  match pool_scan (Z.to_nat (pool_count pool)) pool size 0 with
  | Some i =>
      let ptr := word_at (pool_blocks pool) i + word_at (pool_used pool) i in
      (ptr,
       mk_pool (pool_blocks pool)
         (set_nth (Z.to_nat i) (u64 (word_at (pool_used pool) i + size))
            (pool_used pool))
         (pool_count pool))
  | None =>
      if pool_count pool <? LZAV_POOL_SIZE then
        if block =? 0 then (0, pool)
        else
          (block,
           mk_pool
             (set_nth (Z.to_nat (pool_count pool)) block (pool_blocks pool))
             (set_nth (Z.to_nat (pool_count pool)) size (pool_used pool))
             (u64 (pool_count pool + 1)))
      else (block, pool)
  end.

(** [lzav_pool_free]: the blocks handed to [free], and the pool. *)
Definition lzav_pool_free (pool : lzav_pool_t) : list Z * lzav_pool_t :=
  (firstn (Z.to_nat (pool_count pool)) (pool_blocks pool),
   mk_pool (pool_blocks pool) (pool_used pool) 0).

(** A pool whose blocks were handed out within their [LZAV_POOL_BLOCK]
    bytes, in multiples of 8. *)
Definition pool_ok (pool : lzav_pool_t) : Prop :=
  length (pool_blocks pool) = 64%nat
  /\ length (pool_used pool) = 64%nat
  /\ 0 <= pool_count pool <= LZAV_POOL_SIZE
  /\ forall i, 0 <= i < pool_count pool ->
       0 <= word_at (pool_used pool) i <= LZAV_POOL_BLOCK
       /\ word_at (pool_used pool) i mod 8 = 0.

(** ** The copy functions as the header writes them

    The three functions over one flat memory in which [dest] and [src] are
    addresses, so that the alignment tests see the pointers themselves and
    an overlap of the two ranges shows. *)

Module Impl.

(** [*dw = word] for a [uintptr_t]. *)
Definition store64 (m : buf) (i v : Z) : buf :=
  store_bytes m i
    (map (fun k => Z.land (Z.shiftr v (8 * k)) 255) [0; 1; 2; 3; 4; 5; 6; 7]).

(** The word the loop [for (i = 0; i < word_size; i++)
    word |= ((uintptr_t)sw[i] << (i << 3))] builds. *)
Definition swar_word (m : buf) (sw : Z) : Z :=
  fold_left
    (fun word i => Z.lor word (Z.shiftl (load8 m (sw + i)) (Z.shiftl i 3)))
    [0; 1; 2; 3; 4; 5; 6; 7] 0.

(** [while (words--) { word = ...; *dw++ = word; sw += word_size; }] *)
Fixpoint copy_swar (words : nat) (m : buf) (dw sw : Z) : buf * Z * Z :=
  match words with
  | O => (m, dw, sw)
  | S k => copy_swar k (store64 m dw (swar_word m sw)) (dw + 8) (sw + 8)
  end.

(** [while (words >= 4) { dw[0] = sw[0]; ... dw[3] = sw[3];
    dw += 4; sw += 4; words -= 4; }] *)
Fixpoint copy_words4 (fuel : nat) (m : buf) (dw sw words : Z)
  : buf * Z * Z * Z :=
  match fuel with
  | O => (m, dw, sw, words)
  | S k =>
      if words >=? 4 then
        let m := store64 m dw (load64 m sw) in
        let m := store64 m (dw + 8) (load64 m (sw + 8)) in
        let m := store64 m (dw + 16) (load64 m (sw + 16)) in
        let m := store64 m (dw + 24) (load64 m (sw + 24)) in
        copy_words4 k m (dw + 32) (sw + 32) (words - 4)
      else (m, dw, sw, words)
  end.

(** [while (words--) *dw++ = *sw++;] *)
Fixpoint copy_words (words : nat) (m : buf) (dw sw : Z) : buf * Z * Z :=
  match words with
  | O => (m, dw, sw)
  | S k => copy_words k (store64 m dw (load64 m sw)) (dw + 8) (sw + 8)
  end.

(** [lzav_memcpy( dest, src, n )]; the byte loops
    [while (n--) *d++ = *s++] are [copy_within]. *)
Definition lzav_memcpy (m : buf) (dest src n : Z) : buf :=
  let d := dest in
  let s := src in
  let word_size := 8 in
  let word_mask := word_size - 1 in
  if n <? Z.shiftl word_size 1 then copy_within (Z.to_nat n) m d s
  else
    let head := Z.land (u64 (not64 d + 1)) word_mask in
    let '(m, d, s, n) :=
      if negb (head =? 0)
      then (copy_within (Z.to_nat head) m d s, d + head, s + head,
            u64 (n - head))
      else (m, d, s, n) in
    let dw := d in
    let '(m, dw, s) :=
      if negb (Z.land s word_mask =? 0) then
        let words := Z.shiftr n 3 in
        copy_swar (Z.to_nat words) m dw s
      else
        let words := Z.shiftr n 3 in
        let '(m, dw, sw, words) :=
          copy_words4 (Z.to_nat words) m dw s words in
        copy_words (Z.to_nat words) m dw sw in
    let d := dw in
    let n := Z.land n word_mask in
    copy_within (Z.to_nat n) m d s.

(** [while (n--) *d++ = value;] *)
Fixpoint fill (n : nat) (m : buf) (d value : Z) : buf * Z :=
  match n with
  | O => (m, d)
  | S k => fill k (store8 m d value) (d + 1) value
  end.

(** [while (words >= 8) { dw[0] = pattern; ... dw[7] = pattern;
    dw += 8; words -= 8; }] *)
Fixpoint fill_words8 (fuel : nat) (m : buf) (dw words pattern : Z)
  : buf * Z * Z :=
  match fuel with
  | O => (m, dw, words)
  | S k =>
      if words >=? 8 then
        let m := store64 m dw pattern in
        let m := store64 m (dw + 8) pattern in
        let m := store64 m (dw + 16) pattern in
        let m := store64 m (dw + 24) pattern in
        let m := store64 m (dw + 32) pattern in
        let m := store64 m (dw + 40) pattern in
        let m := store64 m (dw + 48) pattern in
        let m := store64 m (dw + 56) pattern in
        fill_words8 k m (dw + 64) (words - 8) pattern
      else (m, dw, words)
  end.

(** [while (words--) *dw++ = pattern;] *)
Fixpoint fill_words (words : nat) (m : buf) (dw pattern : Z) : buf * Z :=
  match words with
  | O => (m, dw)
  | S k => fill_words k (store64 m dw pattern) (dw + 8) pattern
  end.

(** [lzav_memset( dest, value, n )]. *)
Definition lzav_memset (m : buf) (dest value n : Z) : buf :=
  let d := dest in
  let word_size := 8 in
  let word_mask := word_size - 1 in
  if n <? Z.shiftl word_size 1 then fst (fill (Z.to_nat n) m d value)
  else
    let pattern := value in
    let pattern := Z.lor pattern (u64 (Z.shiftl pattern 8)) in
    let pattern := Z.lor pattern (u64 (Z.shiftl pattern 16)) in
    let pattern := Z.lor pattern (u64 (Z.shiftl pattern 32)) in
    let head := Z.land (u64 (not64 d + 1)) word_mask in
    let '(m, d, n) :=
      if negb (head =? 0) then
        let head := if head >? n then n else head in
        let '(m, d') := fill (Z.to_nat head) m d value in
        (m, d', u64 (n - head))
      else (m, d, n) in
    let dw := d in
    let words := Z.shiftr n 3 in
    let '(m, dw, words) := fill_words8 (Z.to_nat words) m dw words pattern in
    let '(m, dw) := fill_words (Z.to_nat words) m dw pattern in
    let d := dw in
    let n := Z.land n word_mask in
    fst (fill (Z.to_nat n) m d value).

(** [while (n--) *--d = *--s;] *)
Fixpoint copy_back (n : nat) (m : buf) (d s : Z) : buf * Z * Z :=
  match n with
  | O => (m, d, s)
  | S k =>
      let d := d - 1 in
      let s := s - 1 in
      copy_back k (store8 m d (load8 m s)) d s
  end.

(** [while (words--) { s -= word_size; --dw; word = ...; *dw = word; }] *)
Fixpoint copy_swar_back (words : nat) (m : buf) (dw s : Z) : buf * Z * Z :=
  match words with
  | O => (m, dw, s)
  | S k =>
      let s := s - 8 in
      let dw := dw - 8 in
      copy_swar_back k (store64 m dw (swar_word m s)) dw s
  end.

(** [while (words--) { --sw; --dw; *dw = *sw; }] *)
Fixpoint copy_words_back (words : nat) (m : buf) (dw sw : Z) : buf * Z * Z :=
  match words with
  | O => (m, dw, sw)
  | S k =>
      let sw := sw - 8 in
      let dw := dw - 8 in
      copy_words_back k (store64 m dw (load64 m sw)) dw sw
  end.

(** [lzav_memmove( dest, src, n )]. *)
Definition lzav_memmove (m : buf) (dest src n : Z) : buf :=
  let d := dest in
  let s := src in
  if u64 (d - s) >=? n then lzav_memcpy m dest src n
  else
    let word_size := 8 in
    let word_mask := word_size - 1 in
    let d := d + n in
    let s := s + n in
    if n <? Z.shiftl word_size 1
    then fst (fst (copy_back (Z.to_nat n) m d s))
    else
      let tail := Z.land d word_mask in
      let '(m, d, s, n) :=
        if negb (tail =? 0) then
          let '(m, d', s') := copy_back (Z.to_nat tail) m d s in
          (m, d', s', u64 (n - tail))
        else (m, d, s, n) in
      let dw := d in
      let '(m, dw, s) :=
        if negb (Z.land s word_mask =? 0) then
          let words := Z.shiftr n 3 in
          copy_swar_back (Z.to_nat words) m dw s
        else
          let words := Z.shiftr n 3 in
          copy_words_back (Z.to_nat words) m dw s in
      let d := dw in
      let n := Z.land n word_mask in
      fst (fst (copy_back (Z.to_nat n) m d s)).

End Impl.

(** Every byte of a memory is a byte. *)
Definition bytes_ok (m : buf) : Prop := Forall (fun x => 0 <= x < 256) m.

(** ** Match length, the variants with an alignment step *)

(** The number of continuously-matching leading bytes of [b + p1] and
    [b + p2], at most [ml]: what the header documents as the result of
    [lzav_match_len]. *)
Fixpoint matching_leading (ml : nat) (b : buf) (p1 p2 : Z) : Z :=
  match ml with
  | O => 0
  | S n =>
      if load8 b p1 =? load8 b p2
      then 1 + matching_leading n b (p1 + 1) (p2 + 1)
      else 0
  end.

(** The number of matching bytes before [b + p1] and [b + p2], at most
    [ml]. *)
Fixpoint matching_prior (ml : nat) (b : buf) (p1 p2 : Z) : Z :=
  match ml with
  | O => 0
  | S n =>
      if load8 b (p1 - 1) =? load8 b (p2 - 1)
      then 1 + matching_prior n b (p1 - 1) (p2 - 1)
      else 0
  end.

(** [while (len < ml && p1[len] == p2[len]) ++len;] *)
Fixpoint match_bytes (fuel : nat) (b : buf) (p1 p2 len ml : Z) : Z :=
  match fuel with
  | O => len
  | S n =>
      if (len <? ml) && (load8 b (p1 + len) =? load8 b (p2 + len))
      then match_bytes n b p1 p2 (len + 1) ml
      else len
  end.

(** [while (misalign-- && p1 < p1e && *p1 == *p2) { ++p1; ++p2; }] *)
Fixpoint match_align (fuel : nat) (b : buf) (p1e p1 p2 misalign : Z)
  : Z * Z :=
  match fuel with
  | O => (p1, p2)
  | S n =>
      if negb (misalign =? 0) && (p1 <? p1e)
         && (load8 b p1 =? load8 b p2)
      then match_align n b p1e (p1 + 1) (p2 + 1) (misalign - 1)
      else (p1, p2)
  end.

(** [while (p1 < p1e && *p1 == *p2) { ++p1; ++p2; }] *)
Fixpoint match_rest (fuel : nat) (b : buf) (p1e p1 p2 : Z) : Z :=
  match fuel with
  | O => p1
  | S n =>
      if (p1 <? p1e) && (load8 b p1 =? load8 b p2)
      then match_rest n b p1e (p1 + 1) (p2 + 1)
      else p1
  end.

(** [while (p1 + 7 < p1e)] of [lzav_match_len_opt], which compares the two
    words before it takes their difference. *)
Fixpoint match_words_opt (fuel : nat) (b : buf) (p1s p1e p1 p2 : Z)
  : Z + Z * Z :=
  match fuel with
  | O => inr (p1, p2)
  | S n =>
      if p1 + 7 <? p1e then
        let v1 := load64 b p1 in
        let v2 := load64 b p2 in
        if negb (v1 =? v2)
        then inl (p1 - p1s + Z.shiftr (ctzll (Z.lxor v1 v2)) 3)
        else match_words_opt n b p1s p1e (p1 + 8) (p2 + 8)
      else inr (p1, p2)
  end.

(** [lzav_match_len_opt( b + p1, b + p2, ml )] in a build without the
    vector extensions; [base] is the address of [b], which the alignment
    step looks at. *)
Definition lzav_match_len_opt (base : Z) (b : buf) (p1 p2 ml : Z) : Z :=
  if ml <? 8 then match_bytes (Z.to_nat ml) b p1 p2 0 ml
  else
    let p1s := p1 in
    let p1e := padd p1 ml in
    let misalign := Z.land (base + p1) 7 in
    let aligned : Z + Z * Z :=
      if negb (misalign =? 0) then
        let misalign := 8 - misalign in
        let '(p1, p2) := match_align 8 b p1e p1 p2 misalign in
        if (p1 <? p1e) && negb (load8 b p1 =? load8 b p2)
        then inl (p1 - p1s)
        else inr (p1, p2)
      else inr (p1, p2) in
    match aligned with
    | inl r => r
    | inr (p1, p2) =>
        match
          match_words_opt (Z.to_nat ((p1e - p1) / 8 + 1)) b p1s p1e p1 p2
        with
        | inl r => r
        | inr (p1, p2) => match_rest 8 b p1e p1 p2 - p1s
        end
    end.

(** [while (len < ml && p1[-len -1] == p2[-len -1]) ++len;] with the
    index, a [size_t], wrapping below 0. *)
Fixpoint match_bytes_r (fuel : nat) (b : buf) (p1 p2 len ml : Z) : Z :=
  match fuel with
  | O => len
  | S n =>
      if (len <? ml)
         && (load8 b (padd p1 (u64 (- len - 1)))
             =? load8 b (padd p2 (u64 (- len - 1))))
      then match_bytes_r n b p1 p2 (len + 1) ml
      else len
  end.

(** [while (misalign-- && p1 > p1e && p1[-1] == p2[-1]) { --p1; --p2; }] *)
Fixpoint match_align_r (fuel : nat) (b : buf) (p1e p1 p2 misalign : Z)
  : Z * Z :=
  match fuel with
  | O => (p1, p2)
  | S n =>
      if negb (misalign =? 0) && (p1 >? p1e)
         && (load8 b (p1 - 1) =? load8 b (p2 - 1))
      then match_align_r n b p1e (p1 - 1) (p2 - 1) (misalign - 1)
      else (p1, p2)
  end.

(** [while (p1 - 7 >= p1e)] of [lzav_match_len_opt_r]. *)
Fixpoint match_words_opt_r (fuel : nat) (b : buf) (p1s p1e p1 p2 : Z)
  : Z + Z * Z :=
  match fuel with
  | O => inr (p1, p2)
  | S n =>
      if p1 - 7 >=? p1e then
        let v1 := load64 b (p1 - 8) in
        let v2 := load64 b (p2 - 8) in
        if negb (v1 =? v2)
        then
          inl (u64 (p1s - (p1 - Z.shiftr (ctzll (Z.lxor v1 v2)) 3 + 8)))
        else match_words_opt_r n b p1s p1e (p1 - 8) (p2 - 8)
      else inr (p1, p2)
  end.

(** [while (p1 > p1e && p1[-1] == p2[-1]) { --p1; --p2; }] *)
Fixpoint match_rest_r (fuel : nat) (b : buf) (p1e p1 p2 : Z) : Z :=
  match fuel with
  | O => p1
  | S n =>
      if (p1 >? p1e) && (load8 b (p1 - 1) =? load8 b (p2 - 1))
      then match_rest_r n b p1e (p1 - 1) (p2 - 1)
      else p1
  end.

(** [lzav_match_len_opt_r( b + p1, b + p2, ml )] in a build without the
    vector extensions; [base] is the address of [b]. *)
Definition lzav_match_len_opt_r (base : Z) (b : buf) (p1 p2 ml : Z) : Z :=
  if ml <? 8 then match_bytes_r (Z.to_nat ml) b p1 p2 0 ml
  else
    let p1s := p1 in
    let p1e := p1 - ml in
    let misalign := Z.land (base + (p1 - 1)) 7 in
    let aligned : Z + Z * Z :=
      if negb (misalign =? 0) then
        let misalign := 8 - misalign in
        let '(p1, p2) := match_align_r 8 b p1e p1 p2 misalign in
        if (p1 >? p1e) && negb (load8 b (p1 - 1) =? load8 b (p2 - 1))
        then inl (p1s - p1)
        else inr (p1, p2)
      else inr (p1, p2) in
    match aligned with
    | inl r => r
    | inr (p1, p2) =>
        match
          match_words_opt_r (Z.to_nat ((p1 - p1e) / 8 + 1)) b p1s p1e p1 p2
        with
        | inl r => r
        | inr (p1, p2) => p1s - match_rest_r 8 b p1e p1 p2
        end
    end.

(** ** Length bytes *)

(** The bytes [lzav_write_blk_2] and [lzav_write_fin_2] lay down for a
    literal length above 15, less 16: 7 bits a byte, lowest first, the high
    bit set on every byte but the last. *)
Fixpoint len_bytes (fuel : nat) (lcw : Z) : list Z :=
  match fuel with
  | O => [u8 lcw]
  | S n =>
      if lcw >? 127
      then u8 (Z.lor 128 lcw) :: len_bytes n (Z.shiftr lcw 7)
      else [u8 lcw]
  end.

(** The stream of a source that goes out as literals alone: the prefix byte
    [p] at the front of the buffer [w], and behind it what
    [lzav_write_fin_2] writes for [lits].  The result is the buffer and the
    length of the stream. *)
Definition fin_stream (p : Z) (w lits : buf) : buf * Z :=
  lzav_write_fin_2 (store8 w 0 p) 1 (Z.of_nat (length lits)) lits 0.

(** ** What a call leaves alone *)

(** The buffer [a] is [b] from offset [k] on, and as long. *)
Definition untouched_from (k : Z) (a b : buf) : Prop :=
  length a = length b /\ forall j, k <= j -> load8 a j = load8 b j.

(** The decoder's output pointer [op] is inside the [dstl] bytes it may
    write, and [dst] is the destination [dst0] of the call behind them. *)
Definition confined (dstl : Z) (dst0 : buf) (op : Z) (dst : buf) : Prop :=
  0 <= op <= dstl /\ untouched_from dstl dst dst0.

(** The same of the state the loop goes on with, or of the destination and
    the count [*pwl] a return leaves. *)
Definition flow_confined (dstl : Z) (dst0 : buf) (f : flow) : Prop :=
  match f with
  | Next st => confined dstl dst0 (d_op st) (d_dst st)
  | Stop _ pwl dst => confined dstl dst0 pwl dst
  end.

(** ** What a match length is *)

(** The first [off] bytes of [b + p1] and [b + p2] match, and [off] is
    within the [ml] bytes to look at. *)
Definition matched (b : buf) (p1 p2 ml off : Z) : Prop :=
  0 <= off <= ml
  /\ forall i, 0 <= i < off -> load8 b (p1 + i) = load8 b (p2 + i).

(** [r] is the number of matching leading bytes, at most [ml]. *)
Definition is_match_len (b : buf) (p1 p2 ml r : Z) : Prop :=
  matched b p1 p2 ml r
  /\ (r < ml -> load8 b (p1 + r) <> load8 b (p2 + r)).

(** The [off] bytes before [b + p1] and [b + p2] match. *)
Definition matched_prior (b : buf) (p1 p2 ml off : Z) : Prop :=
  0 <= off <= ml
  /\ forall i, 1 <= i <= off -> load8 b (p1 - i) = load8 b (p2 - i).

(** [r] is the number of matching prior bytes, at most [ml]. *)
Definition is_prior_len (b : buf) (p1 p2 ml r : Z) : Prop :=
  matched_prior b p1 p2 ml r
  /\ (r < ml -> load8 b (p1 - (r + 1)) <> load8 b (p2 - (r + 1))).

(** ** Blocks in a stream *)

(** The bytes of [a] before offset [n] are those of [b]. *)
Definition same_prefix (n : Z) (a b : buf) : Prop :=
  forall i, 0 <= i < n -> load8 a i = load8 b i.

(** The number of header bytes [lzav_write_blk_2] and [lzav_write_fin_2]
    spend on a run of [lc] literals. *)
Definition lit_hdr (lc : Z) : Z :=
  if lc <? 16 then 1 else 1 + Z.of_nat (length (len_bytes 10 (lc - 16))).

(** A run of [lc] literals at [s + p]: the header with the two offset bits
    [c2], the length bytes of a run of 16 or more, and the [lc] bytes of
    [src + ipa]. *)
Definition lits_at (s : buf) (p c2 lc : Z) (src : buf) (ipa : Z) : Prop :=
  (if lc <? 16 then load8 s p = c2 * 64 + lc
   else load8 s p = c2 * 64
        /\ forall k, (k < length (len_bytes 10 (lc - 16)))%nat ->
             load8 s (p + 1 + Z.of_nat k) = nth k (len_bytes 10 (lc - 16)) 0)
  /\ forall k, 0 <= k < lc -> load8 s (p + lit_hdr lc + k) = load8 src (ipa + k).

(** The offset type [bt] of a reference whose header takes the offset
    [dq]: the number of offset bytes behind the header. *)
Definition ref_bt (dq : Z) : Z :=
  1 + b2z (dq >? Z.shiftl 1 10 - 1) + b2z (dq >? Z.shiftl 1 18 - 1).

(** The number of additional length bytes of a reference of [rc] bytes
    ([mref] is 6). *)
Definition ref_ext (rc : Z) : Z :=
  if rc - 5 <? 16 then 0 else if rc - 5 <? 16 + 255 then 1 else 2.

(** The number of bytes of a reference block. *)
Definition ref_size (dq rc : Z) : Z := 1 + ref_bt dq + ref_ext rc.

(** A reference block at [s + q] for the length [rc] and the offset part
    [dq]: the header with the two low bits of [dq], the type and the
    length, [bt] offset bytes with the 21 bits above them, whose last
    byte keeps its 3 high bits for the offset of the next block when [bt]
    is 3, and the additional length bytes. *)
Definition ref_at (s : buf) (q dq rc : Z) : Prop :=
  let bt := ref_bt dq in
  load8 s q = dq mod 4 * 64 + bt * 16 + (if rc - 5 <? 16 then rc - 5 else 0)
  /\ load8 s (q + 1) = dq / 4 mod 256
  /\ (2 <= bt -> load8 s (q + 2) = dq / 1024 mod 256)
  /\ (bt = 3 -> load8 s (q + 3) mod 32 = dq / 262144)
  /\ (ref_ext rc = 1 -> load8 s (q + bt + 1) = rc - 21)
  /\ (ref_ext rc = 2 ->
      load8 s (q + bt + 1) = 255 /\ load8 s (q + bt + 2) = rc - 276).

(** What the decoder holds as the carry of the offset when it is behind a
    reference block whose last offset byte is at [cbp]: the [csh] high
    bits of that byte. *)
Definition carried (s : buf) (cbp csh : Z) : Z := load8 s cbp / 2 ^ (8 - csh).

(** The stream [s] holds what was written to [dst] before [op]: every byte
    but the one at [cbp], whose [csh] high bits are left to the next
    block. *)
Definition agrees (s dst : buf) (op cbp csh : Z) : Prop :=
  (forall i, 0 <= i < op -> i <> cbp -> load8 s i = load8 dst i)
  /\ (cbp < op -> load8 s cbp mod 2 ^ (8 - csh) = load8 dst cbp).

(** The decoder gets from the state [a] to the state [b] in some
    iterations of its loop. *)
Definition dec_reaches (s : buf) (sl dstl mref1 : Z) (a b : dstate) : Prop :=
  exists n, forall f,
    dec_loop_2 (n + f) s sl dstl mref1 a = dec_loop_2 f s sl dstl mref1 b.

(** The destination while a reference of [cc] bytes is copied to [op]:
    the bytes before [op] and the first [k] bytes of the copy are those of
    the source, and nothing changed from [n] on. *)
Definition copied (src : buf) (op cc n : Z) (out0 out : buf) (k : Z) : Prop :=
  same_prefix op out src
  /\ (forall i, 0 <= i < k -> i < cc -> load8 out (op + i) = load8 src (op + i))
  /\ length out = length out0
  /\ (forall j, n <= j -> load8 out j = load8 out0 j).

(** ** The state of the default compressor *)

(** Every tuple of the hash table holds an offset of the source, 16 or
    more, and the four bytes the source has there. *)
Definition table_ok (src : buf) (ht : list Z) : Prop :=
  forall k, 0 <= k -> 2 * k + 1 < Z.of_nat (length ht) ->
    ht_get ht (2 * k) = load32 src (ht_get ht (2 * k + 1))
    /\ 16 <= ht_get ht (2 * k + 1) < 2 ^ 32.

(** Every hash selects a slot of four words inside a table of [tl]
    words. *)
Definition slots_ok (hmask tl : Z) : Prop :=
  forall x, exists m, Z.land x hmask / 4 = 4 * m /\ 0 <= m /\ 4 * m + 3 < tl.

(** What the matcher keeps between two iterations: the input pointer at
    or behind the anchor, the dither bit, and a table of tuples of the
    source. *)
Definition scan_ok (src : buf) (tl : Z) (st : cstate) : Prop :=
  16 <= c_ip st
  /\ 0 <= c_ipa st <= c_ip st
  /\ 0 <= c_rndb st
  /\ table_ok src (c_ht st)
  /\ Z.of_nat (length (c_ht st)) = tl.

(** What was written for the first [ipa] bytes of the source: [op] bytes
    at most 1/150 longer than the source, with the carry byte at [cbp],
    in a destination whose bytes from [lzav_compress_bound srcl] on are
    untouched; and the decoder, run on any stream that continues them,
    gets to offset [op] with the first [ipa] bytes of the source in its
    destination. *)
Definition stream_ok (src dst0 : buf) (srcl : Z) (ipa op cbp csh : Z)
    (dst : buf) : Prop :=
  ipa <= srcl - 6
  /\ 1 <= cbp <= op
  /\ (csh = 0 \/ csh = 3)
  /\ (cbp < op \/ csh = 0)
  /\ (cbp < op -> load8 dst cbp < 2 ^ (8 - csh))
  /\ op <= 1 + ipa + ipa / 150
  /\ (ipa = 0 /\ op = 1 \/ 29 <= op \/ 27 <= op /\ 34 <= op + (srcl - ipa))
  /\ length dst = length dst0
  /\ bytes_ok dst
  /\ load8 dst 0 = 38
  /\ (forall j, lzav_compress_bound srcl <= j -> load8 dst j = load8 dst0 j)
  /\ (forall s sl out,
        bytes_ok s -> agrees s dst op cbp csh -> op + 7 <= sl ->
        srcl <= Z.of_nat (length out) ->
        exists out',
          dec_reaches s sl srcl 5 (mk_dstate 1 0 (load8 s 1) 0 0 out)
            (mk_dstate op ipa (load8 s op) (carried s cbp csh) csh out')
          /\ same_prefix ipa out' src
          /\ length out' = length out
          /\ (forall j, srcl <= j -> load8 out' j = load8 out j)).
(** * Properties *)

(** ** Machine integers *)

Lemma s32_id x : - 2 ^ 31 <= x < 2 ^ 31 -> s32 x = x.
Proof.
  intros H. unfold s32, swrap.
  change (2 ^ (32 - 1)) with 2147483648. change (2 ^ 32) with 4294967296.
  change (2 ^ 31) with 2147483648 in H.
  rewrite Z.mod_small; lia.
Qed.

Lemma u8_id x : 0 <= x < 256 -> u8 x = x.
Proof. intros H. unfold u8, wrap. change (2 ^ 8) with 256. now apply Z.mod_small. Qed.

(** ** Compressed-size bounds *)

Section BoundArithmetic.

(** With [n = 150 q + r] the bound is [n + 16 + q + 2 * ceil (r / 144)]. *)
Lemma bound_unbounded_closed n :
  0 <= n ->
  bound_unbounded n = n + 16 + n / 150 + (n mod 150 + 143) / 144 * 2.
Proof.
  intros Hn. unfold bound_unbounded.
  replace (n - n / 150 * 6 + 143) with (n / 150 * 144 + (n mod 150 + 143))
    by (pose proof (Z.div_mod n 150 ltac:(lia)); lia).
  rewrite Z.div_add_l by lia. lia.
Qed.

Lemma bound_hi_unbounded_closed n :
  0 <= n ->
  bound_hi_unbounded n = n + 16 + n / 21 + (n mod 21 + 15) / 16 * 2.
Proof.
  intros Hn. unfold bound_hi_unbounded.
  replace (n - n / 21 * 5 + 15) with (n / 21 * 16 + (n mod 21 + 15))
    by (pose proof (Z.div_mod n 21 ltac:(lia)); lia).
  rewrite Z.div_add_l by lia. lia.
Qed.

Lemma ceil_term_range r k c :
  0 < k -> 0 < c < k -> 0 <= r < k + c ->
  0 <= (r + (k - 1)) / k <= 2 /\ (0 < r -> 1 <= (r + (k - 1)) / k)
  /\ (r <= k -> (r + (k - 1)) / k <= 1).
Proof.
  intros Hk Hc Hr. repeat split.
  - apply Z.div_pos; lia.
  - apply Z.lt_succ_r. apply Z.div_lt_upper_bound; lia.
  - intros Hp. apply Z.div_le_lower_bound; lia.
  - intros Hp. apply Z.lt_succ_r. apply Z.div_lt_upper_bound; lia.
Qed.

Lemma bound_unbounded_slack a b :
  0 <= a <= b -> bound_unbounded a <= bound_unbounded b + 2.
Proof.
  intros H. rewrite !bound_unbounded_closed by lia.
  pose proof (Z.div_le_mono a b 150 ltac:(lia) ltac:(lia)) as Hq.
  pose proof (Z.div_mod a 150 ltac:(lia)) as Ha.
  pose proof (Z.div_mod b 150 ltac:(lia)) as Hb.
  pose proof (Z.mod_pos_bound a 150 ltac:(lia)) as Hra.
  pose proof (Z.mod_pos_bound b 150 ltac:(lia)) as Hrb.
  destruct (ceil_term_range (a mod 150) 144 6) as [Ha2 _]; try lia.
  destruct (ceil_term_range (b mod 150) 144 6) as [Hb2 _]; try lia.
  change (144 - 1) with 143 in *.
  destruct (Z.eq_dec (a / 150) (b / 150)) as [E | E].
  - rewrite E in *.
    pose proof (Z.div_le_mono (a mod 150 + 143) (b mod 150 + 143) 144
                  ltac:(lia) ltac:(lia)).
    lia.
  - lia.
Qed.

Lemma bound_hi_unbounded_slack a b :
  0 <= a <= b -> bound_hi_unbounded a <= bound_hi_unbounded b + 2.
Proof.
  intros H. rewrite !bound_hi_unbounded_closed by lia.
  pose proof (Z.div_le_mono a b 21 ltac:(lia) ltac:(lia)) as Hq.
  pose proof (Z.div_mod a 21 ltac:(lia)) as Ha.
  pose proof (Z.div_mod b 21 ltac:(lia)) as Hb.
  pose proof (Z.mod_pos_bound a 21 ltac:(lia)) as Hra.
  pose proof (Z.mod_pos_bound b 21 ltac:(lia)) as Hrb.
  destruct (ceil_term_range (a mod 21) 16 5) as [Ha2 _]; try lia.
  destruct (ceil_term_range (b mod 21) 16 5) as [Hb2 _]; try lia.
  change (16 - 1) with 15 in *.
  destruct (Z.eq_dec (a / 21) (b / 21)) as [E | E].
  - rewrite E in *.
    pose proof (Z.div_le_mono (a mod 21 + 15) (b mod 21 + 15) 16
                  ltac:(lia) ltac:(lia)).
    lia.
  - lia.
Qed.

Lemma bound_unbounded_above n : 0 < n -> n + 16 < bound_unbounded n.
Proof.
  intros H. rewrite bound_unbounded_closed by lia.
  pose proof (Z.div_mod n 150 ltac:(lia)) as Hn.
  pose proof (Z.mod_pos_bound n 150 ltac:(lia)) as Hr.
  pose proof (Z.div_pos n 150 ltac:(lia) ltac:(lia)) as Hq.
  destruct (ceil_term_range (n mod 150) 144 6) as [Hc [Hc' _]]; try lia.
  change (144 - 1) with 143 in *.
  destruct (Z.eq_dec (n mod 150) 0); lia.
Qed.

Lemma bound_hi_unbounded_above n : 0 < n -> n + 16 < bound_hi_unbounded n.
Proof.
  intros H. rewrite bound_hi_unbounded_closed by lia.
  pose proof (Z.div_mod n 21 ltac:(lia)) as Hn.
  pose proof (Z.mod_pos_bound n 21 ltac:(lia)) as Hr.
  pose proof (Z.div_pos n 21 ltac:(lia) ltac:(lia)) as Hq.
  destruct (ceil_term_range (n mod 21) 16 5) as [Hc [Hc' _]]; try lia.
  change (16 - 1) with 15 in *.
  destruct (Z.eq_dec (n mod 21) 0); lia.
Qed.

(** Up to [BOUND_SAFE] no operation of [lzav_compress_bound] overflows. *)
Lemma lzav_compress_bound_exact n :
  0 < n <= BOUND_SAFE -> lzav_compress_bound n = bound_unbounded n.
Proof.
  unfold BOUND_SAFE. intros H. unfold lzav_compress_bound.
  destruct (Z.leb_spec n 0) as [Hle | _]; [lia |].
  cbv zeta. change (16 + 127 + 1) with 144. change (144 + 6) with 150.
  assert (Hb := bound_unbounded_closed n ltac:(lia)).
  unfold bound_unbounded in *.
  pose proof (Z.div_mod n 150 ltac:(lia)) as Hn.
  pose proof (Z.mod_pos_bound n 150 ltac:(lia)) as Hr.
  pose proof (Z.div_pos n 150 ltac:(lia) ltac:(lia)) as Hq.
  destruct (ceil_term_range (n mod 150) 144 6) as [Hc [_ Hc1]]; try lia.
  change (144 - 1) with 143 in *.
  assert (Hm : (n - n / 150 * 6 + 143) / 144 = n / 150 + (n mod 150 + 143) / 144).
  { replace (n - n / 150 * 6 + 143) with (n / 150 * 144 + (n mod 150 + 143)) by lia.
    now rewrite Z.div_add_l by lia. }
  unfold div32, mul32, sub32, add32.
  rewrite (Z.quot_div_nonneg n 150) by lia.
  rewrite (s32_id (n / 150)) by (change (2 ^ 31) with 2147483648; lia).
  rewrite (s32_id (n / 150 * 6)) by (change (2 ^ 31) with 2147483648; lia).
  rewrite (s32_id (n - n / 150 * 6)) by (change (2 ^ 31) with 2147483648; lia).
  rewrite (s32_id (n - n / 150 * 6 + 144)) by (change (2 ^ 31) with 2147483648; lia).
  replace (n - n / 150 * 6 + 144 - 1) with (n - n / 150 * 6 + 143) by lia.
  rewrite (s32_id (n - n / 150 * 6 + 143)) by (change (2 ^ 31) with 2147483648; lia).
  rewrite (Z.quot_div_nonneg (n - n / 150 * 6 + 143) 144) by lia.
  rewrite Hm in *.
  assert (Hsum : n + n / 150 + (n mod 150 + 143) / 144 * 2 <= 2147483631)
    by (destruct (Z.le_gt_cases (n mod 150) 144); [specialize (Hc1 ltac:(lia)) |]; lia).
  rewrite (s32_id (n / 150 + _)) by (change (2 ^ 31) with 2147483648; lia).
  rewrite (s32_id ((n / 150 + _) * 2)) by (change (2 ^ 31) with 2147483648; lia).
  rewrite (s32_id ((n / 150 + _) * 2 - _)) by (change (2 ^ 31) with 2147483648; lia).
  rewrite (s32_id ((n / 150 + _) * 2 - _ + n)) by (change (2 ^ 31) with 2147483648; lia).
  rewrite s32_id by (change (2 ^ 31) with 2147483648; lia).
  reflexivity.
Qed.

Lemma lzav_compress_bound_hi_exact n :
  0 < n <= BOUND_HI_SAFE -> lzav_compress_bound_hi n = bound_hi_unbounded n.
Proof.
  unfold BOUND_HI_SAFE. intros H. unfold lzav_compress_bound_hi.
  destruct (Z.leb_spec n 0) as [Hle | _]; [lia |].
  cbv zeta. change (16 + 5) with 21.
  assert (Hb := bound_hi_unbounded_closed n ltac:(lia)).
  unfold bound_hi_unbounded in *.
  pose proof (Z.div_mod n 21 ltac:(lia)) as Hn.
  pose proof (Z.mod_pos_bound n 21 ltac:(lia)) as Hr.
  pose proof (Z.div_pos n 21 ltac:(lia) ltac:(lia)) as Hq.
  destruct (ceil_term_range (n mod 21) 16 5) as [Hc [_ Hc1]]; try lia.
  change (16 - 1) with 15 in *.
  assert (Hm : (n - n / 21 * 5 + 15) / 16 = n / 21 + (n mod 21 + 15) / 16).
  { replace (n - n / 21 * 5 + 15) with (n / 21 * 16 + (n mod 21 + 15)) by lia.
    now rewrite Z.div_add_l by lia. }
  unfold div32, mul32, sub32, add32.
  rewrite (Z.quot_div_nonneg n 21) by lia.
  rewrite (s32_id (n / 21)) by (change (2 ^ 31) with 2147483648; lia).
  rewrite (s32_id (n / 21 * 5)) by (change (2 ^ 31) with 2147483648; lia).
  rewrite (s32_id (n - n / 21 * 5)) by (change (2 ^ 31) with 2147483648; lia).
  rewrite (s32_id (n - n / 21 * 5 + 15)) by (change (2 ^ 31) with 2147483648; lia).
  rewrite (Z.quot_div_nonneg (n - n / 21 * 5 + 15) 16) by lia.
  rewrite Hm in *.
  assert (Hsum : n + n / 21 + (n mod 21 + 15) / 16 * 2 <= 2147483631)
    by (destruct (Z.le_gt_cases (n mod 21) 16); [specialize (Hc1 ltac:(lia)) |]; lia).
  rewrite (s32_id (n / 21 + _)) by (change (2 ^ 31) with 2147483648; lia).
  rewrite (s32_id ((n / 21 + _) * 2)) by (change (2 ^ 31) with 2147483648; lia).
  rewrite (s32_id ((n / 21 + _) * 2 - _)) by (change (2 ^ 31) with 2147483648; lia).
  rewrite (s32_id ((n / 21 + _) * 2 - _ + n)) by (change (2 ^ 31) with 2147483648; lia).
  rewrite s32_id by (change (2 ^ 31) with 2147483648; lia).
  reflexivity.
Qed.

Lemma lzav_compress_bound_zero : lzav_compress_bound 0 = 16.
Proof. reflexivity. Qed.

Lemma lzav_compress_bound_hi_zero : lzav_compress_bound_hi 0 = 16.
Proof. reflexivity. Qed.

End BoundArithmetic.

(** C5, as stated, fails: [lzav_compress_bound] drops from 169 to 167
    between the lengths 149 and 150, and [lzav_compress_bound_hi] from 40 to
    38 between 20 and 21. *)
Lemma compress_bound_not_monotone :
  ~ (0 <= 149 <= 150 -> lzav_compress_bound 149 <= lzav_compress_bound 150)
  /\ ~ (0 <= 20 <= 21 ->
        lzav_compress_bound_hi 20 <= lzav_compress_bound_hi 21).
Proof.
  split; intros H; specialize (H ltac:(lia)); vm_compute in H; apply H;
    reflexivity.
Qed.

(** At the far end of [int] the sum wraps and the bound is negative. *)
Lemma compress_bound_wraps :
  lzav_compress_bound INT_MAX = -2133167074
  /\ lzav_compress_bound_hi INT_MAX = -2045222505.
Proof. split; reflexivity. Qed.

(** C5, amended: for [0 <= a <= b] up to the largest length whose bound
    fits an [int], each bound at [a] exceeds the bound at [b] by at most 2,
    and for every such [b > 0] the bound is strictly greater than [b]. *)
Theorem compress_bound_slack_and_above (a b : Z) :
  0 <= a -> a <= b ->
  (b <= BOUND_SAFE ->
     lzav_compress_bound a <= lzav_compress_bound b + 2
     /\ (0 < b -> b < lzav_compress_bound b))
  /\ (b <= BOUND_HI_SAFE ->
        lzav_compress_bound_hi a <= lzav_compress_bound_hi b + 2
        /\ (0 < b -> b < lzav_compress_bound_hi b)).
Proof.
  intros Ha Hab. split; intros Hb.
  - split.
    + destruct (Z.eq_dec b 0) as [-> | Hb0].
      { replace a with 0 by lia. vm_compute. discriminate. }
      destruct (Z.eq_dec a 0) as [-> | Ha0].
      { rewrite lzav_compress_bound_zero.
        rewrite lzav_compress_bound_exact by lia.
        pose proof (bound_unbounded_above b ltac:(lia)). lia. }
      rewrite !lzav_compress_bound_exact by lia.
      apply bound_unbounded_slack. lia.
    + intros Hp. rewrite lzav_compress_bound_exact by lia.
      pose proof (bound_unbounded_above b Hp). lia.
  - split.
    + destruct (Z.eq_dec b 0) as [-> | Hb0].
      { replace a with 0 by lia. vm_compute. discriminate. }
      destruct (Z.eq_dec a 0) as [-> | Ha0].
      { rewrite lzav_compress_bound_hi_zero.
        rewrite lzav_compress_bound_hi_exact by lia.
        pose proof (bound_hi_unbounded_above b ltac:(lia)). lia. }
      rewrite !lzav_compress_bound_hi_exact by lia.
      apply bound_hi_unbounded_slack. lia.
    + intros Hp. rewrite lzav_compress_bound_hi_exact by lia.
      pose proof (bound_hi_unbounded_above b Hp). lia.
Qed.

Lemma compress_bound_slack_and_above_witness :
  (lzav_compress_bound 149 <= lzav_compress_bound 150 + 2
   /\ 150 < lzav_compress_bound 150)
  /\ (lzav_compress_bound_hi 149 <= lzav_compress_bound_hi 150 + 2
      /\ 150 < lzav_compress_bound_hi 150).
Proof.
  destruct (compress_bound_slack_and_above 149 150 ltac:(lia) ltac:(lia))
    as [H1 H2].
  destruct (H1 ltac:(unfold BOUND_SAFE; lia)) as [H1a H1b].
  destruct (H2 ltac:(unfold BOUND_HI_SAFE; lia)) as [H2a H2b].
  split; (split; [assumption |]); [apply H1b | apply H2b]; lia.
Defined.

(** ** Memory *)

Section MemoryFacts.

Local Abbreviation len l := (Z.of_nat (length l)).

Lemma length_set_nth n v (b : buf) : length (set_nth n v b) = length b.
Proof.
  revert n; induction b as [| x t IH]; intros [| n]; simpl; auto.
Qed.

Lemma nth_set_nth_eq n v (b : buf) :
  (n < length b)%nat -> nth n (set_nth n v b) 0 = v.
Proof.
  revert n; induction b as [| x t IH]; intros [| n] H; simpl in *;
    try lia; auto.
  apply IH; lia.
Qed.

Lemma nth_set_nth_ne n m v (b : buf) :
  n <> m -> nth m (set_nth n v b) 0 = nth m b 0.
Proof.
  revert n m; induction b as [| x t IH]; intros [| n] [| m] H; simpl;
    try congruence; auto.
Qed.

Lemma length_store8 b i v : length (store8 b i v) = length b.
Proof.
  unfold store8. destruct (i <? 0); [reflexivity | apply length_set_nth].
Qed.

Lemma load8_store8_eq b i v :
  0 <= i < len b -> load8 (store8 b i v) i = v.
Proof.
  intros H. unfold load8, store8.
  destruct (Z.ltb_spec i 0); [lia |].
  apply nth_set_nth_eq; lia.
Qed.

Lemma load8_store8_ne b i j v :
  i <> j -> load8 (store8 b i v) j = load8 b j.
Proof.
  intros H. unfold load8, store8.
  destruct (Z.ltb_spec j 0); [reflexivity |].
  destruct (Z.ltb_spec i 0); [reflexivity |].
  apply nth_set_nth_ne. lia.
Qed.

Lemma length_store_bytes l : forall b i, length (store_bytes b i l) = length b.
Proof.
  induction l as [| x t IH]; intros b i; simpl; [reflexivity |].
  rewrite IH. apply length_store8.
Qed.

(** Outside the range it writes, [store_bytes] changes nothing. *)
Lemma load8_store_bytes_out l : forall b i j,
  j < i \/ i + len l <= j ->
  load8 (store_bytes b i l) j = load8 b j.
Proof.
  induction l as [| x t IH]; intros b i j H; simpl; [reflexivity |].
  rewrite IH by (simpl length in H; lia).
  apply load8_store8_ne. simpl length in H. lia.
Qed.

(** Inside it, the byte read is the byte of the list. *)
Lemma load8_store_bytes_in l : forall b i j,
  0 <= i -> i + len l <= len b -> i <= j < i + len l ->
  load8 (store_bytes b i l) j = nth (Z.to_nat (j - i)) l 0.
Proof.
  induction l as [| x t IH]; intros b i j Hi Hb Hj; simpl length in *;
    [lia |].
  simpl store_bytes.
  destruct (Z.eq_dec j i) as [-> | Hne].
  - rewrite load8_store_bytes_out by lia.
    rewrite load8_store8_eq by lia.
    now rewrite Z.sub_diag.
  - rewrite IH by (rewrite ?length_store8; lia).
    replace (Z.to_nat (j - i)) with (S (Z.to_nat (j - (i + 1)))) by lia.
    reflexivity.
Qed.

Lemma length_bytes_at b i n : length (bytes_at b i n) = Z.to_nat n.
Proof. unfold bytes_at. now rewrite length_map, length_seq. Qed.

Lemma nth_bytes_at b i n k :
  (k < Z.to_nat n)%nat -> nth k (bytes_at b i n) 0 = load8 b (i + Z.of_nat k).
Proof.
  intros H. unfold bytes_at.
  rewrite (nth_indep _ 0 ((fun k => load8 b (i + Z.of_nat k)) 0%nat))
    by (now rewrite length_map, length_seq).
  rewrite (map_nth (fun k => load8 b (i + Z.of_nat k))).
  now rewrite seq_nth.
Qed.

Lemma length_lzav_memcpy dst d src s n :
  length (lzav_memcpy dst d src s n) = length dst.
Proof. apply length_store_bytes. Qed.

Lemma load8_lzav_memcpy_in dst d src s n j :
  0 <= d -> 0 <= n -> d + n <= len dst -> d <= j < d + n ->
  load8 (lzav_memcpy dst d src s n) j = load8 src (s + (j - d)).
Proof.
  intros Hd Hn Hb Hj. unfold lzav_memcpy.
  rewrite load8_store_bytes_in by (rewrite ?length_bytes_at; lia).
  rewrite nth_bytes_at by lia.
  f_equal. lia.
Qed.

Lemma load8_lzav_memcpy_out dst d src s n j :
  0 <= n -> j < d \/ d + n <= j ->
  load8 (lzav_memcpy dst d src s n) j = load8 dst j.
Proof.
  intros Hn Hj. unfold lzav_memcpy.
  apply load8_store_bytes_out. rewrite length_bytes_at. lia.
Qed.

(** A buffer is the list of the bytes [load8] reads from it. *)
Lemma buf_ext (a b : buf) :
  length a = length b ->
  (forall j, 0 <= j < len a -> load8 a j = load8 b j) ->
  a = b.
Proof.
  intros Hl H. apply (nth_ext a b 0 0 Hl). intros n Hn.
  specialize (H (Z.of_nat n) ltac:(lia)). unfold load8 in H.
  destruct (Z.ltb_spec (Z.of_nat n) 0); [lia |].
  now rewrite Nat2Z.id in H.
Qed.

Lemma load8_firstn b n j :
  0 <= j < Z.of_nat n -> load8 (firstn n b) j = load8 b j.
Proof.
  intros H. unfold load8. destruct (Z.ltb_spec j 0); [lia |].
  rewrite nth_firstn.
  destruct (Nat.ltb_spec (Z.to_nat j) n); [reflexivity | lia].
Qed.

End MemoryFacts.

(** ** Entry guards and the tiny path *)

Section EntryFacts.

Local Abbreviation len l := (Z.of_nat (length l)).

Lemma load8_cons x (l : buf) j :
  0 <= j -> load8 (x :: l) j = if j =? 0 then x else load8 l (j - 1).
Proof.
  intros H. unfold load8.
  destruct (Z.ltb_spec j 0); [lia |].
  destruct (Z.eqb_spec j 0) as [-> | Hne]; [reflexivity |].
  destruct (Z.ltb_spec (j - 1) 0); [lia |].
  replace (Z.to_nat j) with (S (Z.to_nat (j - 1))) by lia. reflexivity.
Qed.

(** What [lzav_tiny_compress] leaves behind for a source of 1 to 32 bytes. *)
Lemma lzav_tiny_compress_spec (s d : buf) (srcl dstl : Z) :
  1 <= srcl <= 32 -> srcl + 2 <= dstl ->
  lzav_tiny_compress (Some s) (Some d) srcl dstl =
  Returns (srcl + 2)
    (Some (lzav_memcpy (store8 (store8 d 0 38) 1 srcl) 2 s 0 srcl)).
Proof.
  intros Hs Hd. unfold lzav_tiny_compress, LZAV_TINY_MAX.
  destruct (Z.leb_spec srcl 0); [lia |].
  destruct (Z.gtb_spec srcl 32); [lia |].
  destruct (Z.ltb_spec dstl (srcl + 2)); [lia |].
  cbn [orb]. rewrite u8_id by lia. reflexivity.
Qed.

Lemma lzav_compress_tiny (malloc_ok : bool) (src dst : ptr) (srcl dstl : Z)
    (ext_buf : ptr) (ext_bufl : Z) :
  srcl <= 32 ->
  lzav_compress malloc_ok src dst srcl dstl ext_buf ext_bufl =
  lzav_tiny_compress src dst srcl dstl.
Proof.
  intros H. unfold lzav_compress, LZAV_TINY_MAX.
  destruct (Z.leb_spec srcl 32); [reflexivity | lia].
Qed.

Lemma tiny_stream_bytes (s d : buf) (srcl : Z) :
  1 <= srcl <= 32 -> srcl <= len s -> srcl + 2 <= len d ->
  firstn (Z.to_nat (srcl + 2))
    (lzav_memcpy (store8 (store8 d 0 38) 1 srcl) 2 s 0 srcl) =
  38 :: srcl :: firstn (Z.to_nat srcl) s.
Proof.
  intros Hs Hl Hd.
  apply buf_ext.
  - rewrite length_firstn, length_lzav_memcpy, !length_store8.
    cbn [length]. rewrite length_firstn. lia.
  - rewrite length_firstn, length_lzav_memcpy, !length_store8.
    intros j Hj.
    rewrite load8_firstn by lia.
    rewrite load8_cons by lia.
    destruct (Z.eqb_spec j 0) as [-> | H0].
    { rewrite load8_lzav_memcpy_out by lia.
      rewrite load8_store8_ne by lia.
      apply load8_store8_eq. lia. }
    rewrite load8_cons by lia.
    destruct (Z.eqb_spec (j - 1) 0) as [H1 | H1].
    { replace j with 1 by lia.
      rewrite load8_lzav_memcpy_out by lia.
      apply load8_store8_eq. rewrite length_store8. lia. }
    rewrite load8_lzav_memcpy_in by (rewrite ?length_store8; lia).
    rewrite load8_firstn by lia.
    f_equal. lia.
Qed.

(** C10: for non-null and distinct [src] and [dst], [1 <= srcl <= 32] and
    [dstl >= srcl + 2], [lzav_compress] returns [srcl + 2] and the stream is
    the prefix byte [LZAV_FMT_CUR << 4 | 6], a byte holding [srcl] and the
    [srcl] source bytes, whatever the source holds and whatever [ext_buf]
    and [ext_bufl] are. *)
Theorem lzav_compress_tiny_stream (malloc_ok : bool) (s d : buf)
    (srcl dstl : Z) (ext_buf : ptr) (ext_bufl : Z) :
  1 <= srcl <= 32 ->
  srcl <= len s ->
  srcl + 2 <= dstl <= len d ->
  exists d',
    lzav_compress malloc_ok (Some s) (Some d) srcl dstl ext_buf ext_bufl =
      Returns (srcl + 2) (Some d')
    /\ firstn (Z.to_nat (srcl + 2)) d' =
         Z.lor (Z.shiftl LZAV_FMT_CUR 4) 6 :: srcl :: firstn (Z.to_nat srcl) s.
Proof.
  intros Hs Hl Hd.
  rewrite lzav_compress_tiny by lia.
  rewrite lzav_tiny_compress_spec by lia.
  eexists. split; [reflexivity |].
  change (Z.lor (Z.shiftl LZAV_FMT_CUR 4) 6) with 38.
  apply tiny_stream_bytes; lia.
Qed.

Lemma lzav_compress_tiny_stream_witness :
  exists d',
    lzav_compress true (Some [65; 66; 67]) (Some (repeat 0 8)) 3 8 None 0 =
      Returns 5 (Some d')
    /\ firstn 5 d' = [38; 3; 65; 66; 67].
Proof.
  exact (lzav_compress_tiny_stream true [65; 66; 67] (repeat 0 8) 3 8 None 0
           ltac:(lia) ltac:(simpl; lia) ltac:(simpl; lia)).
Defined.

(** The guard of the main path of [lzav_compress]. *)
Lemma lzav_compress_guard (malloc_ok : bool) (src dst : ptr) (srcl dstl : Z)
    (ext_buf : ptr) (ext_bufl : Z) :
  32 < srcl -> dstl < lzav_compress_bound srcl ->
  lzav_compress malloc_ok src dst srcl dstl ext_buf ext_bufl = Returns 0 dst.
Proof.
  intros Hs Hd. unfold lzav_compress, LZAV_TINY_MAX.
  destruct (Z.leb_spec srcl 32); [lia |].
  destruct src as [s |], dst as [d |]; try reflexivity.
  destruct (Z.ltb_spec dstl (lzav_compress_bound srcl)); [| lia].
  now rewrite orb_true_r.
Qed.

(** The guard of [lzav_compress_hi]. *)
Lemma lzav_compress_hi_guard (malloc_ok : bool) (src dst : ptr)
    (srcl dstl : Z) :
  dstl < lzav_compress_bound_hi srcl ->
  lzav_compress_hi malloc_ok src dst srcl dstl = Returns 0 dst.
Proof.
  intros Hd. unfold lzav_compress_hi.
  destruct src as [s |], dst as [d |]; try reflexivity.
  destruct (Z.ltb_spec dstl (lzav_compress_bound_hi srcl)); [| lia].
  now rewrite orb_true_r.
Qed.

(** A null source is turned down on the main path. *)
Lemma lzav_compress_null_src_main (malloc_ok : bool) (dst : ptr)
    (srcl dstl : Z) (ext_buf : ptr) (ext_bufl : Z) :
  32 < srcl ->
  lzav_compress malloc_ok None dst srcl dstl ext_buf ext_bufl = Returns 0 dst.
Proof.
  intros Hs. unfold lzav_compress, LZAV_TINY_MAX.
  destruct (Z.leb_spec srcl 32); [lia | reflexivity].
Qed.

Lemma write_len_loop_op fuel : forall d op lcw,
  op <= snd (fst (write_len_loop fuel d op lcw))
  /\ length (fst (fst (write_len_loop fuel d op lcw))) = length d.
Proof.
  induction fuel as [| n IH]; intros d op lcw; cbn [write_len_loop].
  { cbn [fst snd]. split; [lia | reflexivity]. }
  destruct (lcw >? 127); [| cbn [fst snd]; split; [lia | reflexivity]].
  destruct (IH (store8 d op (u8 (Z.lor 128 lcw))) (op + 1) (Z.shiftr lcw 7))
    as [H1 H2].
  rewrite length_store8 in H2. split; [lia | exact H2].
Qed.

(** A terminal block is at least one header byte longer than its
    literals. *)
Lemma terminal_block_length (lits : list Z) :
  (1 <= length lits)%nat ->
  (length lits + 1 <= length (terminal_block lits))%nat.
Proof.
  intros Hn. unfold terminal_block, lzav_write_fin_2.
  set (b := repeat 0 (length lits + 6)).
  assert (Hb : length b = (length lits + 6)%nat) by apply repeat_length.
  destruct (Z.of_nat (length lits) <? 16).
  - rewrite length_firstn, length_lzav_memcpy, length_store8. lia.
  - destruct (write_len_loop 10 (store8 b 0 0) (0 + 1)
                (Z.of_nat (length lits) - 16)) as [[d op] lcw] eqn:E.
    pose proof (write_len_loop_op 10 (store8 b 0 0) (0 + 1)
                  (Z.of_nat (length lits) - 16)) as [H1 H2].
    rewrite E in H1, H2. simpl in H1, H2. rewrite length_store8 in H2.
    rewrite length_firstn, length_lzav_memcpy, length_store8. lia.
Qed.

(** C3, as stated, fails: a 1-byte source is compressed on the tiny path,
    with the full bound as capacity and with one byte less alike. *)
Lemma tiny_path_accepts_undersized :
  returned (lzav_compress true (Some [65]) (Some (repeat 0 19)) 1
              (lzav_compress_bound 1) None 0) = Some 3
  /\ returned (lzav_compress true (Some [65]) (Some (repeat 0 19)) 1
                 (lzav_compress_bound 1 - 1) None 0) = Some 3
  /\ returned (lzav_compress true (Some [65]) (Some (repeat 0 19)) 1
                 (lzav_compress_bound 1 - 1) None 0) <> Some 0.
Proof. repeat split; vm_compute; congruence. Qed.

(** C3, amended: with [dstl] one less than its bound the higher-ratio
    compressor returns 0 for every source, and the default compressor
    returns 0 for every source of more than [LZAV_TINY_MAX] bytes; a source
    of 1 to 32 bytes goes through the tiny path, which asks for [srcl + 2]
    bytes only and returns [srcl + 2]. *)
Theorem undersized_destination (malloc_ok : bool) (src dst : ptr) (srcl : Z)
    (ext_buf : ptr) (ext_bufl : Z) :
  lzav_compress_hi malloc_ok src dst srcl (lzav_compress_bound_hi srcl - 1) =
    Returns 0 dst
  /\ (LZAV_TINY_MAX < srcl ->
      lzav_compress malloc_ok src dst srcl (lzav_compress_bound srcl - 1)
        ext_buf ext_bufl = Returns 0 dst)
  /\ (1 <= srcl <= LZAV_TINY_MAX ->
      forall s d, src = Some s -> dst = Some d ->
      returned (lzav_compress malloc_ok src dst srcl
                  (lzav_compress_bound srcl - 1) ext_buf ext_bufl) =
        Some (srcl + 2)).
Proof.
  unfold LZAV_TINY_MAX. repeat split.
  - apply lzav_compress_hi_guard. lia.
  - intros H. apply lzav_compress_guard; lia.
  - intros H s d -> ->.
    rewrite lzav_compress_tiny by lia.
    rewrite lzav_tiny_compress_spec; [reflexivity | lia |].
    rewrite lzav_compress_bound_exact by (unfold BOUND_SAFE; lia).
    pose proof (bound_unbounded_above srcl ltac:(lia)). lia.
Qed.

Lemma undersized_destination_witness :
  lzav_compress true (Some (repeat 7 40)) (Some (repeat 0 60)) 40
    (lzav_compress_bound 40 - 1) None 0 = Returns 0 (Some (repeat 0 60))
  /\ returned (lzav_compress true (Some [65; 66]) (Some (repeat 0 19)) 2
                 (lzav_compress_bound 2 - 1) None 0) = Some 4.
Proof.
  destruct (undersized_destination true (Some (repeat 7 40))
              (Some (repeat 0 60)) 40 None 0) as (_ & H & _).
  destruct (undersized_destination true (Some [65; 66])
              (Some (repeat 0 19)) 2 None 0) as (_ & _ & H').
  split.
  - apply H. unfold LZAV_TINY_MAX. lia.
  - apply (H' ltac:(unfold LZAV_TINY_MAX; lia) [65; 66] (repeat 0 19)
             eq_refl eq_refl).
Defined.

(** With a null source, 0 is returned on every path but one. *)
Lemma lzav_compress_null_src (malloc_ok : bool) (dst : ptr) (srcl dstl : Z)
    (ext_buf : ptr) (ext_bufl : Z) :
  lzav_compress malloc_ok None dst srcl dstl ext_buf ext_bufl = Returns 0 dst
  \/ (1 <= srcl <= LZAV_TINY_MAX /\ srcl + 2 <= dstl
      /\ lzav_compress malloc_ok None dst srcl dstl ext_buf ext_bufl =
           Undefined).
Proof.
  unfold lzav_compress, lzav_tiny_compress, LZAV_TINY_MAX.
  destruct (Z.leb_spec srcl 32); [| left; reflexivity].
  destruct (Z.leb_spec srcl 0); [left; reflexivity |].
  destruct (Z.gtb_spec srcl 32); [lia |].
  destruct (Z.ltb_spec dstl (srcl + 2)); [left; reflexivity |].
  cbn [orb]. right. destruct dst; repeat split; lia.
Qed.

(** C4 at [src = NULL], [srcl = 1], [dstl = 3]: the tiny path tests neither
    pointer, stores the prefix and the length byte and then reads through
    the null source. *)
Theorem lzav_compress_null_src_tiny :
  lzav_compress true None (Some [0; 0; 0]) 1 3 None 0 = Undefined.
Proof. vm_compute. reflexivity. Qed.

(** The predicate holds of what the main path writes: the 42 bytes
    ["ABCDEF" x 7] come out as the prefix and one terminal block. *)
Lemma main_path_stream_ends_with_fin :
  let s := concat (repeat [65; 66; 67; 68; 69; 70] 7) in
  produced (lzav_compress true (Some s) (Some (repeat 0 61)) 42 61 None 0)
    = Some (38 :: terminal_block s)
  /\ ends_with_fin (38 :: terminal_block s).
Proof.
  intros s. split; [vm_compute; reflexivity |].
  exists [38], s. split; [reflexivity |].
  split; [simpl; lia | vm_compute; discriminate].
Qed.

(** C6 at the 1-byte source ["A"]: the stream is 3 bytes, the prefix and a
    literal block of one byte; it does not finish with [LZAV_LIT_FIN]
    literals, and [lzav_decompress_2] stops at its header threshold with
    [LZAV_E_SRCOOB].  The higher-ratio compressor fills the same source up
    to 6 bytes after the header. *)
Theorem tiny_stream_lacks_fin :
  returned (lzav_compress true (Some [65]) (Some (repeat 0 19)) 1 19 None 0)
    = Some 3
  /\ produced (lzav_compress true (Some [65]) (Some (repeat 0 19)) 1 19 None 0)
    = Some [38; 1; 65]
  /\ ~ ends_with_fin [38; 1; 65]
  /\ lzav_decompress_2 [38; 1; 65] [0] 3 1 = Some (LZAV_E_SRCOOB, 0, [0])
  /\ produced (lzav_compress_hi true (Some [65]) (Some (repeat 0 19)) 1 19)
       = Some [37; 1; 65; 0; 0; 0; 0; 0].
Proof.
  split; [vm_compute; reflexivity |].
  split; [vm_compute; reflexivity |].
  split; [| split; vm_compute; reflexivity].
  intros (pre & lits & E & Hp & Hl).
  apply (f_equal (@length Z)) in E.
  rewrite length_app in E. cbn [length] in E.
  pose proof (terminal_block_length lits ltac:(unfold LZAV_LIT_FIN in Hl; lia)).
  unfold LZAV_LIT_FIN in Hl. lia.
Qed.

End EntryFacts.

(** ** Reference expansion *)

Section ExpandFacts.

Local Abbreviation len l := (Z.of_nat (length l)).

Lemma bytes_at_all (l : buf) : bytes_at l 0 (len l) = l.
Proof.
  apply (nth_ext _ _ 0 0).
  - rewrite length_bytes_at. lia.
  - intros n Hn. rewrite length_bytes_at in Hn.
    rewrite nth_bytes_at by lia. unfold load8.
    destruct (Z.ltb_spec (0 + Z.of_nat n) 0); [lia |].
    f_equal. lia.
Qed.

Lemma store_bytes_all (l : list Z) (b : buf) :
  length b = length l -> store_bytes b 0 l = l.
Proof.
  intros Hl. apply buf_ext.
  - now rewrite length_store_bytes.
  - rewrite length_store_bytes. intros j Hj.
    rewrite load8_store_bytes_in by lia.
    unfold load8. destruct (Z.ltb_spec j 0); [lia |].
    f_equal. lia.
Qed.

(** The copy through the local array stores the bytes the range held. *)
Lemma LZAV_MEMMOVE_eq b d s c :
  0 <= c -> LZAV_MEMMOVE b d s c = store_bytes b d (bytes_at b s c).
Proof.
  intros Hc. unfold LZAV_MEMMOVE, lzav_memcpy.
  rewrite store_bytes_all by (now rewrite repeat_length, length_bytes_at).
  replace c with (len (bytes_at b s c)) at 2
    by (rewrite length_bytes_at; lia).
  now rewrite bytes_at_all.
Qed.

Lemma length_LZAV_MEMMOVE b d s c :
  0 <= c -> length (LZAV_MEMMOVE b d s c) = length b.
Proof. intros H. rewrite LZAV_MEMMOVE_eq by lia. apply length_store_bytes. Qed.

Lemma load8_LZAV_MEMMOVE_in b d s c j :
  0 <= d -> 0 <= c -> d + c <= len b -> d <= j < d + c ->
  load8 (LZAV_MEMMOVE b d s c) j = load8 b (s + (j - d)).
Proof.
  intros Hd Hc Hb Hj. rewrite LZAV_MEMMOVE_eq by lia.
  now apply load8_lzav_memcpy_in.
Qed.

Lemma load8_LZAV_MEMMOVE_out b d s c j :
  0 <= c -> j < d \/ d + c <= j ->
  load8 (LZAV_MEMMOVE b d s c) j = load8 b j.
Proof.
  intros Hc Hj. rewrite LZAV_MEMMOVE_eq by lia.
  now apply load8_lzav_memcpy_out.
Qed.

(** One chunk of at most [d] bytes extends the part of the reference that
    repeats the output. *)
Lemma chunk_feeds b op d k c p s :
  1 <= d <= op -> 0 <= k -> 0 <= c <= d ->
  p = op + k -> s = op - d + k -> p + c <= len b ->
  rle_feeds b op d k ->
  rle_feeds (LZAV_MEMMOVE b p s c) op d (k + c)
  /\ (forall j, j < p -> load8 (LZAV_MEMMOVE b p s c) j = load8 b j)
  /\ length (LZAV_MEMMOVE b p s c) = length b.
Proof.
  intros Hd Hk Hc -> -> Hb Hf. split; [| split].
  - intros i Hi.
    destruct (Z.lt_ge_cases i k) as [Hlt | Hge].
    + rewrite !load8_LZAV_MEMMOVE_out by lia. apply Hf. lia.
    + rewrite load8_LZAV_MEMMOVE_in by lia.
      rewrite load8_LZAV_MEMMOVE_out by lia.
      f_equal. lia.
  - intros j Hj. apply load8_LZAV_MEMMOVE_out; lia.
  - apply length_LZAV_MEMMOVE. lia.
Qed.

(** The byte loop does the same one byte at a time, for any [d >= 1]. *)
Lemma copy_within_feeds n : forall b op d k p s,
  1 <= d <= op -> 0 <= k ->
  p = op + k -> s = op - d + k -> p + Z.of_nat n <= len b ->
  rle_feeds b op d k ->
  rle_feeds (copy_within n b p s) op d (k + Z.of_nat n)
  /\ (forall j, j < p -> load8 (copy_within n b p s) j = load8 b j)
  /\ length (copy_within n b p s) = length b.
Proof.
  induction n as [| n IH]; intros b op d k p s Hd Hk -> -> Hb Hf.
  - cbn [copy_within]. rewrite Z.add_0_r. auto.
  - cbn [copy_within].
    set (b1 := store8 b (op + k) (load8 b (op - d + k))).
    assert (Hf1 : rle_feeds b1 op d (k + 1)).
    { intros i Hi. unfold b1.
      destruct (Z.eq_dec i k) as [-> | Hne].
      - rewrite load8_store8_eq by lia.
        rewrite load8_store8_ne by lia. f_equal. lia.
      - rewrite !load8_store8_ne by lia. apply Hf. lia. }
    destruct (IH b1 op d (k + 1) (op + k + 1) (op - d + k + 1))
      as (H1 & H2 & H3); try lia; try assumption.
    { unfold b1. rewrite length_store8. lia. }
    split; [| split].
    + replace (k + Z.of_nat (S n)) with (k + 1 + Z.of_nat n) by lia.
      exact H1.
    + intros j Hj. rewrite H2 by lia. unfold b1.
      apply load8_store8_ne. lia.
    + rewrite H3. unfold b1. apply length_store8.
Qed.

Lemma rle_feeds_le out op d n m :
  m <= n -> rle_feeds out op d n -> rle_feeds out op d m.
Proof. intros H Hf i Hi. apply Hf. lia. Qed.

Lemma rle_feeds_0 out op d : rle_feeds out op d 0.
Proof. intros i Hi. lia. Qed.

(** C7, as stated, fails: with 63 bytes or more to the end of the
    destination a reference of 12 bytes at distance 1 is copied in chunks
    through a local array, and bytes of the destination's earlier content
    come out where the byte before should repeat.  The stream is a literal
    block ["A"], that reference and a terminal block of 70 literals;
    [lzav_decompress] returns [dstl = 83] for it. *)
Lemma fast_copy_breaks_rle :
  let stream := [38; 65; 65; 23; 0; 0; 54] ++ map Z.of_nat (seq 100 70) in
  (exists out,
     ref_expand false (65 :: repeat 238 82) 1 (1 - 1) 12 (83 - 63) 83 =
       inl (out, 1 + 12)
     /\ 1 < 12 /\ ~ rle_feeds out 1 1 12)
  /\ (exists out,
        lzav_decompress (Some stream) (Some (repeat 238 83)) 77 83 =
          Returns 83 (Some out)
        /\ ~ rle_feeds out 1 1 12).
Proof.
  split; eexists; (split; [vm_compute; reflexivity |]); [split; [lia |] |];
    intros H; specialize (H 1 ltac:(lia)); vm_compute in H; discriminate.
Qed.

(** C7, amended: a reference of [cc] bytes at distance [d], with [d] not
    above the bytes already produced and [cc] bytes free in the destination,
    is expanded so that every byte repeats the output [d] positions earlier
    when the byte loop does the copy (fewer than 64 bytes to the end of the
    destination) or when [d >= 16]; the branch without additional length
    bytes copies 20 bytes at most on its fast path. *)
Theorem ref_expand_feeds (long : bool) (dst : buf) (op d cc ope : Z) :
  1 <= d <= op ->
  0 <= cc ->
  op + cc <= ope <= len dst ->
  (long = false -> op < ope - 63 -> cc <= 20) ->
  16 <= d \/ ope - 63 <= op ->
  exists out,
    ref_expand long dst op (op - d) cc (ope - 63) ope = inl (out, op + cc)
    /\ rle_feeds out op d cc
    /\ (forall j, j < op -> load8 out j = load8 dst j)
    /\ length out = length dst.
Proof.
  intros Hd Hcc Hope Hshort Hcase. unfold ref_expand.
  destruct (Z.ltb_spec op (ope - 63)) as [Hfast | Hslow].
  - assert (Hd16 : 16 <= d) by lia.
    pose proof (rle_feeds_0 dst op d) as F0.
    destruct (chunk_feeds dst op d 0 16 op (op - d)) as (F1 & U1 & L1);
      try lia; try assumption.
    set (b1 := LZAV_MEMMOVE dst op (op - d) 16) in *.
    destruct long.
    + destruct (chunk_feeds b1 op d 16 16 (op + 16) (op - d + 16))
        as (F2 & U2 & L2); try lia; try assumption.
      set (b2 := LZAV_MEMMOVE b1 (op + 16) (op - d + 16) 16) in *.
      destruct (chunk_feeds b2 op d 32 16 (op + 32) (op - d + 32))
        as (F3 & U3 & L3); try lia; try assumption.
      set (b3 := LZAV_MEMMOVE b2 (op + 32) (op - d + 32) 16) in *.
      destruct (chunk_feeds b3 op d 48 16 (op + 48) (op - d + 48))
        as (F4 & U4 & L4); try lia; try assumption.
      set (b4 := LZAV_MEMMOVE b3 (op + 48) (op - d + 48) 16) in *.
      destruct (Z.ltb_spec cc 65) as [Hc | Hc].
      * exists b4. split; [reflexivity |]. split; [| split].
        -- apply (rle_feeds_le b4 op d (48 + 16)); [lia | exact F4].
        -- intros j Hj. rewrite U4, U3, U2, U1 by lia. reflexivity.
        -- lia.
      * destruct (Z.gtb_spec (op + 64 + (cc - 64)) ope); [lia |].
        destruct (copy_within_feeds (Z.to_nat (cc - 64)) b4 op d 64
                    (op + 64) (op - d + 64)) as (F5 & U5 & L5);
          try lia; try assumption.
        exists (copy_within (Z.to_nat (cc - 64)) b4 (op + 64) (op - d + 64)).
        split; [do 2 f_equal; lia |]. split; [| split].
        -- apply (rle_feeds_le _ op d (64 + Z.of_nat (Z.to_nat (cc - 64))));
             [lia | exact F5].
        -- intros j Hj. rewrite U5, U4, U3, U2, U1 by lia. reflexivity.
        -- lia.
    + destruct (chunk_feeds b1 op d 16 4 (op + 16) (op - d + 16))
        as (F2 & U2 & L2); try lia; try assumption.
      eexists. split; [reflexivity |]. split; [| split].
      * apply (rle_feeds_le _ op d (16 + 4)); [| exact F2].
        specialize (Hshort eq_refl Hfast). lia.
      * intros j Hj. rewrite U2, U1 by lia. reflexivity.
      * lia.
  - destruct (Z.gtb_spec (op + cc) ope); [lia |].
    destruct (copy_within_feeds (Z.to_nat cc) dst op d 0 op (op - d))
      as (F & U & L); try lia.
    { apply rle_feeds_0. }
    eexists. split; [reflexivity |]. split; [| split].
    + apply (rle_feeds_le _ op d (0 + Z.of_nat (Z.to_nat cc))); [lia | exact F].
    + exact U.
    + exact L.
Qed.

Lemma ref_expand_feeds_witness :
  exists out,
    ref_expand false (65 :: repeat 238 18) 1 (1 - 1) 12 (19 - 63) 19 =
      inl (out, 1 + 12)
    /\ rle_feeds out 1 1 12
    /\ (forall j, j < 1 -> load8 out j = load8 (65 :: repeat 238 18) j)
    /\ length out = length (65 :: repeat 238 18).
Proof.
  exact (ref_expand_feeds false (65 :: repeat 238 18) 1 1 12 19
           ltac:(lia) ltac:(lia) ltac:(simpl; lia) ltac:(lia)
           ltac:(right; lia)).
Defined.

End ExpandFacts.

(** ** The match step of the default compressor *)

Section StepFacts.

Lemma u64_nonneg x : 0 <= u64 x.
Proof.
  unfold u64, wrap. apply Z.mod_pos_bound. reflexivity.
Qed.

Lemma write_lit_2_op dst op lc d src ipa :
  0 <= lc -> op <= snd (fst (write_lit_2 dst op lc d src ipa)).
Proof.
  intros Hlc. unfold write_lit_2.
  destruct (lc <? 9); [cbn [fst snd]; lia |].
  destruct (lc <? 16); [cbn [fst snd]; lia |].
  destruct (lc <? 16 + 128).
  - destruct (lc <? 33); cbn [fst snd]; lia.
  - destruct (write_len_loop 10 (store8 dst op (u8 (Z.shiftl (Z.land d 3) 6)))
                (op + 1) (lc - 16)) as [[d1 op1] lcw] eqn:E.
    pose proof (write_len_loop_op 10
                  (store8 dst op (u8 (Z.shiftl (Z.land d 3) 6))) (op + 1)
                  (lc - 16)) as [H _].
    rewrite E in H. cbn [fst snd] in *. lia.
Qed.

(** A block pair is 2 bytes or more. *)
Lemma lzav_write_blk_2_op dst op lc rc d src ipa cbp csh mref :
  0 <= lc ->
  op + 2 <= w_op (lzav_write_blk_2 dst op lc rc d src ipa cbp csh mref).
Proof.
  intros Hlc. unfold lzav_write_blk_2.
  set (dst1 := store8 dst cbp _).
  set (d1 := Z.shiftr d csh).
  assert (Hlit : forall t : buf * Z * Z,
            t = (if negb (lc =? 0) then write_lit_2 dst1 op lc d1 src ipa
                 else (dst1, op, d1)) ->
            op <= snd (fst t)).
  { intros t ->. destruct (negb (lc =? 0)).
    - now apply write_lit_2_op.
    - cbn [fst snd]. lia. }
  destruct (if negb (lc =? 0) then write_lit_2 dst1 op lc d1 src ipa
            else (dst1, op, d1)) as [[dst2 op2] d2] eqn:E.
  specialize (Hlit _ eq_refl). cbn [fst snd] in Hlit.
  assert (Hbt : forall a b : bool, 1 <= 1 + b2z a + b2z b)
    by (intros [] []; cbn; lia).
  specialize (Hbt (d2 >? Z.shiftl 1 10 - 1) (d2 >? Z.shiftl 1 18 - 1)).
  destruct (u64 (rc + 1 - mref) <? 16); [cbn [w_op]; lia |].
  destruct (u64 (rc + 1 - mref) <? 16 + 255); cbn [w_op]; lia.
Qed.

Lemma step_emit_block src srcl st hp iw1 hw1 ipo wp d :
  block_emitted st (step_emit src srcl st hp iw1 hw1 ipo wp d).
Proof.
  unfold block_emitted, step_emit.
  match goal with
  | |- context [if negb (?lc =? 0) then ?a else ?b] =>
      destruct (if negb (lc =? 0) then a else b) as [[rc1 ip1] lc1] eqn:E;
      assert (Hlc : 0 <= lc1)
  end.
  { destruct (negb (u64 (c_ip st - c_ipa st) =? 0)).
    - match type of E with
      | (if ?c then _ else _) = _ => destruct c
      end; inversion E; subst; apply u64_nonneg.
    - inversion E; subst; apply u64_nonneg. }
  cbn [c_op].
  pose proof (lzav_write_blk_2_op (c_dst st) (c_op st) lc1 rc1 d src
                (c_ipa st) (c_cbp st) (c_csh st) LZAV_REF_MIN Hlc).
  lia.
Qed.

(** C8, as stated, fails: at offset 22 of ["ABCDEF" x 7] the candidate lies
    at offset 16, its distance 6 is within [LZAV_REF_MIN] and
    [LZAV_WIN_LEN - 1], and the step moves on by 1 without a block. *)
Lemma distance_6_is_dead :
  c_ip abcdef7_at_22 = 22
  /\ candidate abcdef7 min_table_hmask abcdef7_at_22 = Some (16, 6)
  /\ LZAV_REF_MIN <= 6 <= LZAV_WIN_LEN - 1
  /\ dead_offset abcdef7_at_22
       (compress_step abcdef7 42 min_table_hmask abcdef7_at_22)
  /\ ~ (dead_offset abcdef7_at_22
          (compress_step abcdef7 42 min_table_hmask abcdef7_at_22)
        <-> 6 < LZAV_REF_MIN \/ 6 > LZAV_WIN_LEN - 1).
Proof.
  assert (D : dead_offset abcdef7_at_22
                (compress_step abcdef7 42 min_table_hmask abcdef7_at_22)).
  { unfold dead_offset. repeat split; vm_compute; reflexivity. }
  split; [vm_compute; reflexivity |].
  split; [vm_compute; reflexivity |].
  split; [vm_compute; split; discriminate |].
  split; [exact D |].
  intros [H _]. specialize (H D). vm_compute in H.
  destruct H as [H | H]; discriminate.
Qed.

(** C8, amended: a candidate with distance [d] is a dead offset, the input
    pointer moving on by 1 with nothing written, exactly when [d < 8] or
    [d > LZAV_WIN_LEN - 1]; every candidate with
    [8 <= d <= LZAV_WIN_LEN - 1] is extended and written as a block. *)
Theorem dead_offset_iff (src : buf) (srcl hmask : Z) (st : cstate) (wp d : Z) :
  candidate src hmask st = Some (wp, d) ->
  let st' := compress_step src srcl hmask st in
  (dead_offset st st' <-> d < 8 \/ d > LZAV_WIN_LEN - 1)
  /\ (8 <= d <= LZAV_WIN_LEN - 1 ->
      block_emitted st st'
      /\ st' = step_emit src srcl st (p_hp (probe_at src hmask st))
                 (p_iw1 (probe_at src hmask st))
                 (p_hw1 (probe_at src hmask st))
                 (p_ipo (probe_at src hmask st)) wp d).
Proof.
  intros Hc st'. subst st'. unfold compress_step. rewrite Hc.
  destruct (Z.ltb_spec d 8) as [H8 | H8];
    destruct (Z.gtb_spec d (LZAV_WIN_LEN - 1)) as [Hw | Hw]; cbn [orb].
  1-3: (split; [split; [intros _; lia |] | intros H; lia]);
       intros _; unfold dead_offset, step_d_oob; cbn; auto.
  split.
  - split; [| intros H; lia].
    intros (_ & Hop & _).
    pose proof (step_emit_block src srcl st (p_hp (probe_at src hmask st))
                  (p_iw1 (probe_at src hmask st))
                  (p_hw1 (probe_at src hmask st))
                  (p_ipo (probe_at src hmask st)) wp d) as Hb.
    unfold block_emitted in Hb. lia.
  - intros _. split; [apply step_emit_block | reflexivity].
Qed.

Lemma dead_offset_iff_witness :
  (dead_offset abcdef7_at_22
     (compress_step abcdef7 42 min_table_hmask abcdef7_at_22)
   <-> 6 < 8 \/ 6 > LZAV_WIN_LEN - 1)
  /\ block_emitted period9_at_25
       (compress_step period9 100 min_table_hmask period9_at_25).
Proof.
  split.
  - apply (dead_offset_iff abcdef7 42 min_table_hmask abcdef7_at_22 16 6).
    vm_compute. reflexivity.
  - apply (dead_offset_iff period9 100 min_table_hmask period9_at_25 16 9).
    + vm_compute. reflexivity.
    + unfold LZAV_WIN_LEN. cbn. lia.
Defined.

End StepFacts.

(** ** Streams of the compressors through the decompressors *)

Section RoundTrip.

(** The path for tiny streams of [lzav_decompress]: a format-2 stream of at
    most 34 bytes whose second byte is at most 32 and at most [dstl] is not
    decoded; that many bytes after the second are copied and counted. *)
Lemma lzav_decompress_tiny_path (s d : buf) (srcl dstl : Z) :
  srcl <= LZAV_TINY_MAX + 2 ->
  Z.shiftr (load8 s 0) 4 = LZAV_FMT_CUR ->
  load8 s 1 <= LZAV_TINY_MAX ->
  load8 s 1 <= dstl ->
  lzav_decompress (Some s) (Some d) srcl dstl =
  Returns (load8 s 1) (Some (lzav_memcpy d 0 s 2 (load8 s 1))).
Proof.
  intros Hs Hf Hl Hd. unfold lzav_decompress. rewrite Hf.
  destruct (Z.leb_spec srcl (LZAV_TINY_MAX + 2)); [| lia].
  destruct (Z.leb_spec (load8 s 1) LZAV_TINY_MAX); [| lia].
  destruct (Z.leb_spec (load8 s 1) dstl); [| lia].
  rewrite Z.eqb_refl. reflexivity.
Qed.

(** So every such stream that begins with a literal block of 16 bytes or
    more and no carry, header byte 0, comes back as 0 bytes. *)
Lemma lzav_decompress_tiny_path_0 (s d : buf) (srcl dstl : Z) :
  srcl <= LZAV_TINY_MAX + 2 ->
  Z.shiftr (load8 s 0) 4 = LZAV_FMT_CUR ->
  load8 s 1 = 0 ->
  0 <= dstl ->
  lzav_decompress (Some s) (Some d) srcl dstl = Returns 0 (Some d).
Proof.
  intros Hs Hf H0 Hd.
  rewrite lzav_decompress_tiny_path by (unfold LZAV_TINY_MAX in *; lia).
  rewrite H0. reflexivity.
Qed.

(** C1 at the 16 bytes 1..16 and [lzav_compress_hi]: the stream is the
    prefix [0x25] and one terminal block, whose header byte 0 announces an
    additional length byte.  [lzav_decompress] takes the stream, 19 bytes
    long, for a tiny one, reads that header as the length 0, copies nothing
    and returns 0, where the source has 16 bytes. *)
Theorem hi_stream_read_as_tiny :
  returned (lzav_compress_hi true (Some bytes_1_16) (Some (repeat 0 34)) 16
              (lzav_compress_bound_hi 16)) = Some 19
  /\ produced (lzav_compress_hi true (Some bytes_1_16) (Some (repeat 0 34)) 16
              (lzav_compress_bound_hi 16))
    = Some (37 :: 0 :: 0 :: bytes_1_16)
  /\ lzav_decompress (Some (37 :: 0 :: 0 :: bytes_1_16))
       (Some (repeat 238 16)) 19 16
     = Returns 0 (Some (repeat 238 16)).
Proof. repeat split; vm_compute; reflexivity. Qed.

(** The same stream read by [lzav_decompress_2] gives the source back. *)
Lemma hi_stream_decompress_2 :
  lzav_decompress_2 (37 :: 0 :: 0 :: bytes_1_16) (repeat 238 16) 19 16
  = Some (16, 16, bytes_1_16).
Proof. vm_compute. reflexivity. Qed.

(** A second way [lzav_compress_hi] loses the source: the offset it writes
    is the one of the last tuple it looked at, not of the match it keeps.
    For [period9] the first block carries the offset 10 after 9 literals,
    and decompression ends with [LZAV_E_REFOOB]. *)
Lemma hi_writes_offset_of_last_tuple :
  produced (lzav_compress_hi true (Some period9) (Some (repeat 0 130)) 100
              (lzav_compress_bound_hi 100))
    = Some period9_hi_stream
  /\ returned (lzav_decompress (Some period9_hi_stream)
                 (Some (repeat 238 100)) 27 100)
     = Some LZAV_E_REFOOB.
Proof. split; vm_compute; reflexivity. Qed.

(** The default compressor's stream for the same source comes back. *)
Lemma default_roundtrip_period9 :
  produced (lzav_compress true (Some period9) (Some (repeat 0 120)) 100
              (lzav_compress_bound 100) None 0) = Some period9_stream
  /\ lzav_decompress (Some period9_stream) (Some (repeat 238 100)) 48 100
     = Returns 100 (Some period9).
Proof. split; vm_compute; reflexivity. Qed.

(** C2 at the stream [0x26, 1, "A"] of [lzav_compress] for ["A"] and
    [dstl = 5]: the path for tiny streams copies the one byte and returns 1,
    a value that is not negative and is not [dstl]. *)
Theorem tiny_decompress_ignores_dstl :
  lzav_decompress (Some [38; 1; 65]) (Some (repeat 0 5)) 3 5
  = Returns 1 (Some [65; 0; 0; 0; 0])
  /\ 0 <= 1 /\ 1 <> 5.
Proof. split; [vm_compute; reflexivity | lia]. Qed.

(** C9 at the full stream [0x26, 1, "A"] of [lzav_compress] for ["A"]:
    [lzav_decompress_partial] has no path for tiny streams, the 3 bytes end
    before the header threshold of [lzav_decompress_2], and the result is 0
    with the buffer untouched, where the source has 1 byte. *)
Theorem partial_rejects_tiny_stream :
  returned (lzav_compress true (Some [65]) (Some (repeat 0 19)) 1 19 None 0)
    = Some 3
  /\ produced (lzav_compress true (Some [65]) (Some (repeat 0 19)) 1 19 None 0)
    = Some [38; 1; 65]
  /\ lzav_decompress_partial (Some [38; 1; 65]) (Some [238]) 3 1
     = Returns 0 (Some [238]).
Proof. repeat split; vm_compute; reflexivity. Qed.

(** For 16 zero bytes the tiny stream's length byte 16 reads as a reference
    header; [lzav_decompress_partial] reports all 16 bytes written and has
    written none. *)
Lemma partial_reports_unwritten_bytes :
  produced (lzav_compress true (Some (repeat 0 16)) (Some (repeat 0 34)) 16
              34 None 0)
    = Some (38 :: 16 :: repeat 0 16)
  /\ lzav_decompress_partial (Some (38 :: 16 :: repeat 0 16))
       (Some (repeat 238 16)) 18 16
     = Returns 16 (Some (repeat 238 16)).
Proof. split; vm_compute; reflexivity. Qed.

End RoundTrip.

(** ** Values the decompressors return *)

Section ReturnValues.

Local Ltac split_ifs :=
  repeat match goal with
    | H : context [match ?c with _ => _ end] |- _ => destruct c
    end.

Lemma lit_tail_2_stop src srcl dstl st ip op ipd cc ncv dst v pwl d' :
  lit_tail_2 src srcl dstl st ip op ipd cc ncv dst = Stop v pwl d' -> v < 0.
Proof.
  unfold lit_tail_2, LZAV_E_SRCOOB, LZAV_E_DSTOOB. intros H.
  split_ifs; inversion H; lia.
Qed.

Lemma dec_refblk_2_stop src srcl dstl mref1 st v pwl d' :
  dec_refblk_2 src srcl dstl mref1 st = Stop v pwl d' -> v < 0.
Proof.
  unfold dec_refblk_2, LZAV_E_REFOOB, LZAV_E_DSTOOB. intros H.
  destruct (_ >? d_op st); [inversion H; lia |].
  match type of H with
  | match ?p with _ => _ end = _ => destruct p as [[[long ip] bh] cc]
  end.
  destruct (ref_expand _ _ _ _ _ _ _) as [[dst op] | [[dst op] ipd]];
    inversion H; lia.
Qed.

Lemma dec_block_2_stop src srcl dstl mref1 st v pwl d' :
  dec_block_2 src srcl dstl mref1 st = Stop v pwl d' -> v < 0.
Proof.
  unfold dec_block_2. intros H.
  destruct (Z.land (d_bh st) 48 =? 0); [| now apply dec_refblk_2_stop in H].
  destruct (dec_literal_2 src srcl dstl st) as [st1 | f] eqn:E.
  - now apply dec_refblk_2_stop in H.
  - subst f. unfold dec_literal_2 in E.
    destruct (negb (Z.land (d_bh st) 15 =? 0)).
    + destruct (_ && _); inversion E as [E'].
      now apply lit_tail_2_stop in E'.
    + destruct (read_len_loop _ _ _ _ _ _) as [ip cc].
      destruct (_ && _); [destruct (_ <? 65) |]; inversion E as [E'];
        now apply lit_tail_2_stop in E'.
Qed.

(** [lzav_decompress_2] returns a negative code or the expected length. *)
Lemma dec_loop_2_value fuel : forall src srcl dstl mref1 st v pwl d',
  dec_loop_2 fuel src srcl dstl mref1 st = Some (v, pwl, d') ->
  v < 0 \/ v = s32 dstl.
Proof.
  induction fuel as [| n IH]; intros src srcl dstl mref1 st v pwl d' H;
    cbn [dec_loop_2] in H.
  - destruct (d_ip st <? srcl - 6); [discriminate |].
    destruct (Z.eqb_spec (d_op st) dstl) as [E |]; cbn [negb] in H;
      inversion H; subst; [right; reflexivity | left; reflexivity].
  - destruct (d_ip st <? srcl - 6).
    + destruct (dec_block_2 src srcl dstl mref1 st) as [st1 | v1 p1 d1] eqn:E.
      * eapply IH; eassumption.
      * inversion H; subst. left. eapply dec_block_2_stop; eassumption.
    + destruct (Z.eqb_spec (d_op st) dstl) as [E |]; cbn [negb] in H;
        inversion H; subst; [right; reflexivity | left; reflexivity].
Qed.

Lemma lzav_decompress_2_value src dst srcl dstl v pwl d' :
  lzav_decompress_2 src dst srcl dstl = Some (v, pwl, d') ->
  v < 0 \/ v = s32 dstl.
Proof.
  unfold lzav_decompress_2. destruct (1 >=? srcl - 6).
  - intros H. inversion H. left. reflexivity.
  - apply dec_loop_2_value.
Qed.

Lemma dec_block_1_stop src srcl dstl mref1 st v pwl d' :
  dec_block_1 src srcl dstl mref1 st = Stop v pwl d' -> v < 0.
Proof.
  assert (R : forall st1 v pwl d',
             dec_refblk_1 src srcl dstl mref1 st1 = Stop v pwl d' -> v < 0).
  { clear. intros st v pwl d'.
    unfold dec_refblk_1, LZAV_E_REFOOB, LZAV_E_DSTOOB. intros H.
    match type of H with
    | match ?p with _ => _ end = _ => destruct p as [[[[d csh] cv] ip] bh]
    end.
    destruct (d >? d_op st); [inversion H; lia |].
    match type of H with
    | match ?p with _ => _ end = _ => destruct p as [[[long ip'] bh'] cc]
    end.
    destruct (ref_expand _ _ _ _ _ _ _) as [[dst op] | [[dst op] ipd]];
      inversion H; lia. }
  unfold dec_block_1. intros H.
  destruct (Z.land (d_bh st) 48 =? 0); [| now apply R in H].
  destruct (dec_literal_1 src srcl dstl st) as [st1 | f] eqn:E.
  - now apply R in H.
  - subst f. unfold dec_literal_1, LZAV_E_SRCOOB, LZAV_E_DSTOOB in E.
    destruct (negb (Z.land (d_bh st) 15 =? 0)).
    + destruct (_ && _); inversion E as [E']; clear E.
      split_ifs; inversion E'; lia.
    + destruct (_ && _); [destruct (_ <? 65) |]; inversion E as [E'];
        clear E; split_ifs; inversion E'; lia.
Qed.

Lemma lzav_decompress_1_value src dst srcl dstl v d' :
  lzav_decompress_1 src dst srcl dstl = Some (v, d') ->
  v < 0 \/ v = s32 dstl.
Proof.
  unfold lzav_decompress_1. destruct (1 >=? srcl - 5).
  - intros H. inversion H. left. reflexivity.
  - generalize (mk_dstate 1 0 (load8 src 1) 0 0 dst).
    generalize (u64 (Z.land (load8 src 0) 15 - 1)).
    induction (Z.to_nat srcl) as [| n IH]; intros mref1 st H;
      cbn [dec_loop_1] in H.
    + destruct (d_ip st <? srcl - 5); [discriminate |].
      destruct (Z.eqb_spec (d_op st) dstl) as [E |]; cbn [negb] in H;
        inversion H; subst; [right; reflexivity | left; reflexivity].
    + destruct (d_ip st <? srcl - 5).
      * destruct (dec_block_1 src srcl dstl mref1 st) as [st1 | v1 p1 d1] eqn:E.
        -- eapply IH; eassumption.
        -- inversion H; subst. left. eapply dec_block_1_stop; eassumption.
      * destruct (Z.eqb_spec (d_op st) dstl) as [E |]; cbn [negb] in H;
          inversion H; subst; [right; reflexivity | left; reflexivity].
Qed.

(** What [lzav_decompress] returns: a negative code, the expected length,
    or, on the path for tiny streams alone, the length byte of the stream,
    whatever [dstl] is. *)
Lemma lzav_decompress_value (s d : buf) (srcl dstl v : Z) (d' : ptr) :
  lzav_decompress (Some s) (Some d) srcl dstl = Returns v d' ->
  v < 0 \/ v = s32 dstl
  \/ (srcl <= LZAV_TINY_MAX + 2 /\ v = load8 s 1 /\ v <= LZAV_TINY_MAX
      /\ v <= dstl).
Proof.
  unfold lzav_decompress. intros H.
  destruct (Z.leb_spec srcl (LZAV_TINY_MAX + 2)) as [Ht |]; cbn [andb] in H.
  - destruct (Z.shiftr (load8 s 0) 4 =? LZAV_FMT_CUR) eqn:Ef.
    + destruct (Z.leb_spec (load8 s 1) LZAV_TINY_MAX) as [Hl |];
        cbn [andb] in H.
      * destruct (Z.leb_spec (load8 s 1) dstl) as [Hd |].
        { inversion H; subst. right. right. auto. }
        revert H. clear. intros H.
        destruct (Z.shiftr (load8 s 0) 4 =? 2).
        { destruct (lzav_decompress_2 s d srcl dstl) as [[[v1 p1] d1] |] eqn:E;
            [| discriminate].
          inversion H; subst. apply lzav_decompress_2_value in E. tauto. }
        destruct (Z.shiftr (load8 s 0) 4 =? 1).
        { destruct (lzav_decompress_1 s d srcl dstl) as [[v1 d1] |] eqn:E;
            [| discriminate].
          inversion H; subst. apply lzav_decompress_1_value in E. tauto. }
        inversion H. left. reflexivity.
      * revert H. clear. intros H.
        destruct (Z.shiftr (load8 s 0) 4 =? 2).
        { destruct (lzav_decompress_2 s d srcl dstl) as [[[v1 p1] d1] |] eqn:E;
            [| discriminate].
          inversion H; subst. apply lzav_decompress_2_value in E. tauto. }
        destruct (Z.shiftr (load8 s 0) 4 =? 1).
        { destruct (lzav_decompress_1 s d srcl dstl) as [[v1 d1] |] eqn:E;
            [| discriminate].
          inversion H; subst. apply lzav_decompress_1_value in E. tauto. }
        inversion H. left. reflexivity.
    + revert H. clear. intros H.
      destruct (Z.shiftr (load8 s 0) 4 =? 2).
      { destruct (lzav_decompress_2 s d srcl dstl) as [[[v1 p1] d1] |] eqn:E;
          [| discriminate].
        inversion H; subst. apply lzav_decompress_2_value in E. tauto. }
      destruct (Z.shiftr (load8 s 0) 4 =? 1).
      { destruct (lzav_decompress_1 s d srcl dstl) as [[v1 d1] |] eqn:E;
          [| discriminate].
        inversion H; subst. apply lzav_decompress_1_value in E. tauto. }
      inversion H. left. reflexivity.
  - revert H. clear. intros H.
    destruct (Z.shiftr (load8 s 0) 4 =? 2).
    { destruct (lzav_decompress_2 s d srcl dstl) as [[[v1 p1] d1] |] eqn:E;
        [| discriminate].
      inversion H; subst. apply lzav_decompress_2_value in E. tauto. }
    destruct (Z.shiftr (load8 s 0) 4 =? 1).
    { destruct (lzav_decompress_1 s d srcl dstl) as [[v1 d1] |] eqn:E;
        [| discriminate].
      inversion H; subst. apply lzav_decompress_1_value in E. tauto. }
    inversion H. left. reflexivity.
Qed.

End ReturnValues.

(** ** The decoding loops end *)

Section DecoderTotal.

Lemma land_nonneg_r a b : 0 <= b -> 0 <= Z.land a b.
Proof. intros H. apply Z.land_nonneg. now right. Qed.

Lemma read_len_loop_mono fuel : forall src ip lcw cc sh,
  0 <= cc -> 0 <= sh ->
  ip <= fst (read_len_loop fuel src ip lcw cc sh)
  /\ 0 <= snd (read_len_loop fuel src ip lcw cc sh).
Proof.
  induction fuel as [| n IH]; intros src ip lcw cc sh Hcc Hsh;
    cbn [read_len_loop].
  - cbn [fst snd]. lia.
  - destruct (negb (Z.land lcw 128 =? 0)); [| cbn [fst snd]; lia].
    assert (Hc : 0 <= Z.lor cc (Z.shiftl (Z.land (load8 src ip) 127) sh)).
    { apply Z.lor_nonneg. split; [exact Hcc |].
      apply Z.shiftl_nonneg. apply land_nonneg_r. lia. }
    destruct (sh =? 28); [cbn [fst snd]; lia |].
    destruct (IH src (ip + 1) (load8 src ip)
                (Z.lor cc (Z.shiftl (Z.land (load8 src ip) 127) sh)) (sh + 7))
      as [H1 H2]; try lia.
Qed.

Lemma lit_tail_2_next src srcl dstl st ip op ipd cc ncv dst st' :
  lit_tail_2 src srcl dstl st ip op ipd cc ncv dst = Next st' ->
  d_ip st' = ip.
Proof.
  unfold lit_tail_2. intros H.
  repeat match type of H with
    | context [if ?c then _ else _] => destruct c
    end; inversion H; reflexivity.
Qed.

Lemma dec_literal_2_progress src srcl dstl st :
  match dec_literal_2 src srcl dstl st with
  | inl st' | inr (Next st') => d_ip st < d_ip st'
  | inr (Stop _ _ _) => True
  end.
Proof.
  unfold dec_literal_2.
  pose proof (land_nonneg_r (d_bh st) 15 ltac:(lia)) as H15.
  destruct (negb (Z.land (d_bh st) 15 =? 0)).
  - destruct (_ && _); [cbn [d_ip]; lia |].
    destruct (lit_tail_2 _ _ _ _ _ _ _ _ _ _) as [st' | v p d] eqn:E;
      [| exact I].
    apply lit_tail_2_next in E. lia.
  - destruct (read_len_loop_mono 5 src (d_ip st + 1 + 1)
                (load8 src (d_ip st + 1))
                (Z.land (load8 src (d_ip st + 1)) 127) 7) as [H1 H2];
      [apply land_nonneg_r; lia | lia |].
    destruct (read_len_loop _ _ _ _ _ _) as [ip cc]. cbn [fst snd] in H1, H2.
    destruct (_ && _).
    + destruct (_ <? 65); [cbn [d_ip]; lia |].
      destruct (lit_tail_2 _ _ _ _ _ _ _ _ _ _) as [st' | v p d] eqn:E;
        [| exact I].
      apply lit_tail_2_next in E. lia.
    + destruct (lit_tail_2 _ _ _ _ _ _ _ _ _ _) as [st' | v p d] eqn:E;
        [| exact I].
      apply lit_tail_2_next in E. lia.
Qed.

Lemma dec_refblk_2_progress src srcl dstl mref1 st st' :
  dec_refblk_2 src srcl dstl mref1 st = Next st' -> d_ip st < d_ip st'.
Proof.
  unfold dec_refblk_2. intros H.
  pose proof (land_nonneg_r (Z.shiftr (d_bh st) 4) 3 ltac:(lia)) as Hbt.
  destruct (_ >? d_op st); [discriminate |].
  destruct (negb (Z.land (d_bh st) 15 =? 0));
    [| destruct (_ =? 255)];
    (destruct (ref_expand _ _ _ _ _ _ _) as [[dst op] | [[dst op] ipd]];
     inversion H; cbn [d_ip]; lia).
Qed.

Lemma dec_block_2_progress src srcl dstl mref1 st st' :
  dec_block_2 src srcl dstl mref1 st = Next st' -> d_ip st < d_ip st'.
Proof.
  unfold dec_block_2. intros H.
  destruct (Z.land (d_bh st) 48 =? 0);
    [| now apply dec_refblk_2_progress in H].
  pose proof (dec_literal_2_progress src srcl dstl st) as P.
  destruct (dec_literal_2 src srcl dstl st) as [st1 | f].
  - apply dec_refblk_2_progress in H. lia.
  - subst f. exact P.
Qed.

(** With an iteration for every byte left before the header threshold the
    loop of [lzav_decompress_2] reaches its end. *)
Lemma dec_loop_2_total fuel : forall src srcl dstl mref1 st,
  srcl - 6 - d_ip st <= Z.of_nat fuel ->
  dec_loop_2 fuel src srcl dstl mref1 st <> None.
Proof.
  induction fuel as [| n IH]; intros src srcl dstl mref1 st Hf;
    cbn [dec_loop_2].
  - destruct (Z.ltb_spec (d_ip st) (srcl - 6)); [lia |].
    destruct (negb _); discriminate.
  - destruct (Z.ltb_spec (d_ip st) (srcl - 6));
      [| destruct (negb _); discriminate].
    destruct (dec_block_2 src srcl dstl mref1 st) as [st1 | v p d] eqn:E;
      [| discriminate].
    apply dec_block_2_progress in E. apply IH. lia.
Qed.

Lemma lzav_decompress_2_total src dst srcl dstl :
  lzav_decompress_2 src dst srcl dstl <> None.
Proof.
  unfold lzav_decompress_2. destruct (1 >=? srcl - 6); [discriminate |].
  apply dec_loop_2_total. cbn [d_ip]. lia.
Qed.

(** [lzav_decompress_partial] returns for all arguments. *)
Lemma lzav_decompress_partial_returns src dst srcl dstl :
  exists v d', lzav_decompress_partial src dst srcl dstl = Returns v d'.
Proof.
  unfold lzav_decompress_partial.
  destruct src as [s |], dst as [d |]; try (eexists; eexists; reflexivity).
  destruct (_ =? 2); [| eexists; eexists; reflexivity].
  pose proof (lzav_decompress_2_total s d srcl dstl) as T.
  destruct (lzav_decompress_2 s d srcl dstl) as [[[v p] d1] |];
    [eexists; eexists; reflexivity | congruence].
Qed.

Lemma dec_literal_1_progress src srcl dstl st :
  match dec_literal_1 src srcl dstl st with
  | inl st' | inr (Next st') => d_ip st < d_ip st'
  | inr (Stop _ _ _) => True
  end.
Proof.
  unfold dec_literal_1. cbv zeta.
  pose proof (land_nonneg_r (d_bh st) 15 ltac:(lia)) as H15.
  set (bv := load16 src (d_ip st + 1)).
  assert (Hl : 0 <= b2z (Z.land bv 255 =? 255) <= 1)
    by (destruct (Z.land bv 255 =? 255); cbn; lia).
  pose proof (land_nonneg_r (Z.shiftr bv 8)
                (256 - b2z (Z.land bv 255 =? 255)) ltac:(lia)) as H8.
  pose proof (land_nonneg_r bv 255 ltac:(lia)) as H255.
  repeat match goal with
    | |- context [if ?c then _ else _] => destruct c
    end; cbn [d_ip]; try exact I; lia.
Qed.

Lemma dec_refblk_1_progress src srcl dstl mref1 st st' :
  dec_refblk_1 src srcl dstl mref1 st = Next st' -> d_ip st < d_ip st'.
Proof.
  intros H. unfold dec_refblk_1 in H.
  destruct (Z.land (d_bh st) 32 =? 0); [| destruct (Z.land (d_bh st) 16 =? 0)];
    (destruct (_ >? d_op st); [discriminate |]);
    (destruct (negb (Z.land (d_bh st) 15 =? 0)));
    (destruct (ref_expand _ _ _ _ _ _ _) as [[dst op] | [[dst op] ipd]];
     [| discriminate]);
    injection H as <-; cbn [d_ip]; lia.
Qed.

Lemma dec_block_1_progress src srcl dstl mref1 st st' :
  dec_block_1 src srcl dstl mref1 st = Next st' -> d_ip st < d_ip st'.
Proof.
  unfold dec_block_1. intros H.
  destruct (Z.land (d_bh st) 48 =? 0);
    [| now apply dec_refblk_1_progress in H].
  pose proof (dec_literal_1_progress src srcl dstl st) as P.
  destruct (dec_literal_1 src srcl dstl st) as [st1 | f].
  - apply dec_refblk_1_progress in H. lia.
  - subst f. exact P.
Qed.

Lemma lzav_decompress_1_total src dst srcl dstl :
  lzav_decompress_1 src dst srcl dstl <> None.
Proof.
  unfold lzav_decompress_1. destruct (1 >=? srcl - 5); [discriminate |].
  assert (T : forall fuel mref1 st,
             srcl - 5 - d_ip st <= Z.of_nat fuel ->
             dec_loop_1 fuel src srcl dstl mref1 st <> None).
  { induction fuel as [| n IH]; intros mref1 st Hf; cbn [dec_loop_1].
    - destruct (Z.ltb_spec (d_ip st) (srcl - 5)); [lia |].
      destruct (negb _); discriminate.
    - destruct (Z.ltb_spec (d_ip st) (srcl - 5));
        [| destruct (negb _); discriminate].
      destruct (dec_block_1 src srcl dstl mref1 st) as [st1 | v p d] eqn:E;
        [| discriminate].
      apply dec_block_1_progress in E. apply IH. lia. }
  apply T. cbn [d_ip]. lia.
Qed.

(** [lzav_decompress] returns for all arguments. *)
Lemma lzav_decompress_returns src dst srcl dstl :
  exists v d', lzav_decompress src dst srcl dstl = Returns v d'.
Proof.
  unfold lzav_decompress.
  destruct src as [s |], dst as [d |]; try (eexists; eexists; reflexivity).
  match goal with
  | |- context [match ?t with Some r => r | None => _ end] =>
      destruct t as [r |] eqn:E
  end.
  - destruct (_ && _); [| discriminate].
    destruct (_ && _); [| discriminate].
    inversion E. eexists; eexists; reflexivity.
  - destruct (_ =? 2).
    + pose proof (lzav_decompress_2_total s d srcl dstl) as T.
      destruct (lzav_decompress_2 s d srcl dstl) as [[[v p] d1] |];
        [eexists; eexists; reflexivity | congruence].
    + destruct (_ =? 1); [| eexists; eexists; reflexivity].
      pose proof (lzav_decompress_1_total s d srcl dstl) as T.
      destruct (lzav_decompress_1 s d srcl dstl) as [[v d1] |];
        [eexists; eexists; reflexivity | congruence].
Qed.

End DecoderTotal.

(** ** [lzav_compress_hi] on 16 bytes, for every source *)

Section HiSixteen.

(** The hash table after its initialisation: every pair is [(a, b)]. *)
Lemma nth_concat_pairs (a b : Z) n : forall k, (k < n)%nat ->
  nth (2 * k) (concat (repeat [a; b] n)) 0 = a
  /\ nth (2 * k + 1) (concat (repeat [a; b] n)) 0 = b.
Proof.
  induction n as [| n IH]; intros k Hk; [lia |].
  cbn [repeat concat app].
  destruct k as [| k]; [split; reflexivity |].
  replace (2 * S k)%nat with (S (S (2 * k))) by lia.
  replace (S (S (2 * k)) + 1)%nat with (S (S (2 * k + 1))) by lia.
  cbn [nth]. apply IH. lia.
Qed.

Lemma ht_get_init htsize a b k :
  0 <= k < htsize / 8 ->
  ht_get (ht_init htsize a b) (2 * k) = a
  /\ ht_get (ht_init htsize a b) (2 * k + 1) = b.
Proof.
  intros Hk. unfold ht_get, ht_init.
  destruct (Z.ltb_spec (2 * k) 0); [lia |].
  destruct (Z.ltb_spec (2 * k + 1) 0); [lia |].
  replace (Z.to_nat (2 * k)) with (2 * Z.to_nat k)%nat by lia.
  replace (Z.to_nat (2 * k + 1)) with (2 * Z.to_nat k + 1)%nat by lia.
  apply nth_concat_pairs. lia.
Qed.

(** With [hmask = 8128] a slot begins at a multiple of 16 words, below the
    2048 words of the smallest table. *)
Lemma slot_index x :
  exists k, Z.land x 8128 / 4 = 16 * k /\ 0 <= k < 128.
Proof.
  exists (Z.land (Z.shiftr x 6) (Z.ones 7)).
  assert (E : Z.land x 8128 = Z.shiftl (Z.land (Z.shiftr x 6) (Z.ones 7)) 6).
  { change 8128 with (Z.shiftl (Z.ones 7) 6).
    apply Z.bits_inj'. intros n Hn.
    rewrite Z.land_spec, !Z.shiftl_spec by lia.
    destruct (Z.lt_ge_cases n 6).
    - rewrite (Z.testbit_neg_r (Z.ones 7) (n - 6)) by lia.
      rewrite (Z.testbit_neg_r _ (n - 6)) by lia. apply andb_false_r.
    - rewrite Z.land_spec, Z.shiftr_spec by lia.
      replace (n - 6 + 6) with n by lia. reflexivity. }
  rewrite E. rewrite Z.land_ones by lia. change (2 ^ 7) with 128.
  pose proof (Z.mod_pos_bound (Z.shiftr x 6) 128 ltac:(lia)).
  split; [| lia].
  rewrite Z.shiftl_mul_pow2 by lia.
  change (2 ^ 6) with (16 * 4). rewrite Z.mul_assoc, Z.div_mul by lia. lia.
Qed.

(** The tuple of the initial table points at the source's start; the
    offset is 0, the match length bound [ml - 4] wraps and the match comes
    out with length 0. *)
Lemma match_len_wrapped (s : buf) :
  lzav_match_len s (0 + 4) (0 + 4) (u64 (0 - 4)) = 2 ^ 64 - 4.
Proof. reflexivity. Qed.

(** At the first position the scan of a slot of the initial table finds
    no match. *)
Lemma hi_scan_first (s : buf) (ht : list Z) (hp : Z) (c : bool) :
  (forall t, In t slot_tis ->
     ht_get ht (hp + t) = load32 s 0 /\ ht_get ht (hp + t + 1) = 0) ->
  forall n ti, In ti slot_tis ->
  hi_scan n c s ht hp 0 10 (load32 s 0) ti 0 0 0 = (0, 0, 0).
Proof.
  intros Hht. induction n as [| n IH]; intros ti Hti; [reflexivity |].
  cbn [hi_scan]. destruct (Hht ti Hti) as [-> ->].
  rewrite Z.eqb_refl. cbv zeta.
  assert (Hn : In (if ti =? 12 then 0 else ti + 2) slot_tis).
  { unfold slot_tis in *. cbn [In] in Hti.
    repeat (destruct Hti as [<- | Hti]; [cbn; tauto |]). contradiction. }
  lazymatch goal with
  | |- (if ?b then _ else _) = _ =>
      replace b with false by (destruct c; reflexivity)
  end.
  change (u64 (0 - 0)) with 0. apply IH, Hn.
Qed.

(** So the first iteration of the main loop goes one byte ahead and emits
    nothing. *)
Lemma hi_step_16 (s d0 : buf) :
  exists ht',
    compress_hi_step s 16 8128
      (mk_hstate 0 0 1 1 0 (ht_init 8192 (load32 s 0) 0) d0 0 0 0)
    = mk_hstate 1 0 1 1 0 ht' d0 0 0 0.
Proof.
  unfold compress_hi_step.
  cbn [h_ip h_ipa h_op h_cbp h_csh h_ht h_dst h_prc h_pd h_pip].
  destruct (slot_index (hash5 (load32 s 0) (load8 s (0 + 4)))) as [k [-> Hk]].
  assert (Hht : forall t, In t slot_tis ->
            ht_get (ht_init 8192 (load32 s 0) 0) (16 * k + t) = load32 s 0
            /\ ht_get (ht_init 8192 (load32 s 0) 0) (16 * k + t + 1) = 0).
  { intros t Ht.
    assert (E : exists j, t = 2 * j /\ 0 <= j < 7).
    { unfold slot_tis in Ht. cbn [In] in Ht.
      destruct Ht as [<- | [<- | [<- | [<- | [<- | [<- | [<- | []]]]]]]];
        [exists 0 | exists 1 | exists 2 | exists 3 | exists 4 | exists 5
         | exists 6]; lia. }
    destruct E as [j [-> Hj]].
    replace (16 * k + 2 * j) with (2 * (8 * k + j)) by lia.
    apply ht_get_init. change (8192 / 8) with 1024. lia. }
  assert (H15 : ht_get (ht_init 8192 (load32 s 0) 0) (16 * k + 15) = 0).
  { replace (16 * k + 15) with (2 * (8 * k + 7) + 1) by lia.
    apply ht_get_init. change (8192 / 8) with 1024. lia. }
  cbv zeta. rewrite H15.
  change (16 - LZAV_LIT_FIN) with 10.
  rewrite (hi_scan_first s _ _ _ Hht) by (unfold slot_tis; cbn; tauto).
  cbv beta iota. eexists. reflexivity.
Qed.

Lemma hi_loop_16 (s d0 : buf) :
  exists ht',
    compress_hi_loop 32 s 16 8128
      (mk_hstate 0 0 1 1 0 (ht_init 8192 (load32 s 0) 0) d0 0 0 0)
    = Some (mk_hstate 1 0 1 1 0 ht' d0 0 0 0).
Proof.
  destruct (hi_step_16 s d0) as [ht' E]. exists ht'.
  cbn [compress_hi_loop h_ip].
  change (0 <? 16 - LZAV_LIT_FIN - 9) with true. cbv iota.
  rewrite E. reflexivity.
Qed.

(** The prefix, the header 0 of a literal block with an additional length
    byte, that byte (0), and the 16 literals. *)
Lemma hi_stream_16_bytes (s d : buf) :
  length s = 16%nat -> (19 <= length d)%nat ->
  firstn 19 (lzav_memcpy (store8 (store8 (store8 d 0 37) 1 0) 2 0) 3 s 0 16)
  = 37 :: 0 :: 0 :: s.
Proof.
  intros Hs Hd. apply buf_ext.
  - rewrite length_firstn, length_lzav_memcpy, !length_store8.
    cbn [length]. lia.
  - rewrite length_firstn, length_lzav_memcpy, !length_store8.
    intros j Hj.
    rewrite load8_firstn by lia.
    rewrite load8_cons by lia.
    destruct (Z.eqb_spec j 0) as [-> | H0].
    { rewrite load8_lzav_memcpy_out by lia.
      rewrite !load8_store8_ne by lia.
      apply load8_store8_eq. lia. }
    rewrite load8_cons by lia.
    destruct (Z.eqb_spec (j - 1) 0) as [H1 | H1].
    { replace j with 1 by lia.
      rewrite load8_lzav_memcpy_out by lia.
      rewrite load8_store8_ne by lia.
      apply load8_store8_eq. rewrite length_store8. lia. }
    rewrite load8_cons by lia.
    destruct (Z.eqb_spec (j - 1 - 1) 0) as [H2 | H2].
    { replace j with 2 by lia.
      rewrite load8_lzav_memcpy_out by lia.
      apply load8_store8_eq. rewrite !length_store8. lia. }
    rewrite load8_lzav_memcpy_in by (rewrite ?length_store8; lia).
    f_equal. lia.
Qed.

(** [lzav_compress_hi] on any 16 bytes: the main loop runs once, and the
    whole source goes into the terminal block. *)
Lemma lzav_compress_hi_16 (s d : buf) (dstl : Z) :
  length s = 16%nat -> (19 <= length d)%nat ->
  lzav_compress_bound_hi 16 <= dstl ->
  lzav_compress_hi true (Some s) (Some d) 16 dstl
  = Returns 19
      (Some (lzav_memcpy (store8 (store8 (store8 d 0 37) 1 0) 2 0) 3 s 0 16)).
Proof.
  intros Hs Hd Hb. unfold lzav_compress_hi.
  destruct (Z.ltb_spec dstl (lzav_compress_bound_hi 16)); [lia |].
  change ((16 <=? 0) || false) with false. cbv iota.
  change (Z.lor (Z.shiftl LZAV_FMT_CUR 4) HI_MREF) with 37.
  cbv zeta. change (16 <? 16) with false. cbv iota.
  change (negb true) with false. cbv iota.
  change (htsize_grow 20 (Z.shiftl 1 23) 16 (Z.shiftl 1 7 * 4 * 2 * 8))
    with 8192.
  change (u32 (Z.lxor (8192 - 1) 63)) with 8128.
  change (2 * Z.to_nat 16)%nat with 32%nat.
  destruct (hi_loop_16 s (store8 d 0 37)) as [ht' ->].
  reflexivity.
Qed.

(** No source of 16 bytes comes back from [lzav_compress_hi] through
    [lzav_decompress]: the stream has 19 bytes and its second byte is 0, so
    the path for tiny streams answers 0 and writes nothing. *)
Lemma hi_16_bytes_come_back_empty (s d o : buf) :
  length s = 16%nat -> (19 <= length d)%nat ->
  produced (lzav_compress_hi true (Some s) (Some d) 16
              (lzav_compress_bound_hi 16))
    = Some (37 :: 0 :: 0 :: s)
  /\ lzav_decompress (Some (37 :: 0 :: 0 :: s)) (Some o) 19 16
     = Returns 0 (Some o).
Proof.
  intros Hs Hd. split.
  - rewrite lzav_compress_hi_16 by (assumption || lia).
    unfold produced. change (Z.to_nat 19) with 19%nat.
    now rewrite hi_stream_16_bytes.
  - apply lzav_decompress_tiny_path_0;
      [unfold LZAV_TINY_MAX; lia | reflexivity | reflexivity | lia].
Qed.

End HiSixteen.

(** ** Round trips of the shortest sources *)

Section TinyRoundTrip.

Local Abbreviation len l := (Z.of_nat (length l)).

Lemma firstn_lzav_memcpy_0 (o s : buf) (n : Z) :
  0 <= n -> n <= len s -> n <= len o ->
  firstn (Z.to_nat n) (lzav_memcpy o 0 s 0 n) = firstn (Z.to_nat n) s.
Proof.
  intros Hn Hs Ho. apply buf_ext.
  - rewrite !length_firstn, length_lzav_memcpy. lia.
  - rewrite length_firstn, length_lzav_memcpy. intros j Hj.
    rewrite !load8_firstn by lia.
    rewrite load8_lzav_memcpy_in by lia. f_equal. lia.
Qed.

Lemma lzav_memcpy_shift (o : buf) (x y : Z) (s : buf) (n : Z) :
  0 <= n ->
  lzav_memcpy o 0 (x :: y :: s) 2 n = lzav_memcpy o 0 s 0 n.
Proof.
  intros Hn. unfold lzav_memcpy. f_equal. unfold bytes_at.
  apply map_ext_in. intros k _.
  rewrite load8_cons by lia.
  destruct (Z.eqb_spec (2 + Z.of_nat k) 0); [lia |].
  rewrite load8_cons by lia.
  destruct (Z.eqb_spec (2 + Z.of_nat k - 1) 0); [lia |].
  f_equal. lia.
Qed.

(** X1: a source of 1 to 32 bytes goes through [lzav_compress] and
    [lzav_decompress] unchanged: the compressor's stream of [srcl + 2] bytes,
    given to the decompressor with [dstl = srcl], makes it return [srcl] and
    leave the source bytes in the destination. *)
Theorem tiny_round_trip (malloc_ok : bool) (s d o : buf) (dstl : Z)
    (ext_buf : ptr) (ext_bufl : Z) :
  1 <= len s <= 32 ->
  len s + 2 <= dstl -> len s + 2 <= len d ->
  len s <= len o ->
  exists stream o',
    produced (lzav_compress malloc_ok (Some s) (Some d) (len s) dstl
                ext_buf ext_bufl) = Some stream
    /\ len stream = len s + 2
    /\ lzav_decompress (Some stream) (Some o) (len s + 2) (len s)
       = Returns (len s) (Some o')
    /\ firstn (length s) o' = s
    /\ skipn (length s) o' = skipn (length s) o.
Proof.
  intros Hs Hd Hl Ho.
  rewrite lzav_compress_tiny by lia.
  rewrite lzav_tiny_compress_spec by lia.
  unfold produced. rewrite tiny_stream_bytes by lia.
  rewrite Nat2Z.id, firstn_all.
  eexists. eexists. split; [reflexivity |].
  split; [cbn [length]; lia |].
  rewrite lzav_decompress_tiny_path;
    change (load8 (38 :: len s :: s) 1) with (len s);
    [| unfold LZAV_TINY_MAX; lia | reflexivity
     | unfold LZAV_TINY_MAX; lia | lia].
  split; [reflexivity |].
  rewrite lzav_memcpy_shift by lia.
  split.
  - rewrite <- (Nat2Z.id (length s)) at 1.
    rewrite firstn_lzav_memcpy_0 by lia.
    rewrite Nat2Z.id. apply firstn_all.
  - apply buf_ext.
    + rewrite !length_skipn, length_lzav_memcpy. reflexivity.
    + rewrite length_skipn, length_lzav_memcpy. intros j Hj.
      unfold load8. destruct (Z.ltb_spec j 0); [lia |].
      rewrite !nth_skipn.
      pose proof (load8_lzav_memcpy_out o 0 s 0 (len s)
                    (len s + j) ltac:(lia) ltac:(lia)) as E.
      unfold load8 in E.
      destruct (Z.ltb_spec (len s + j) 0); [lia |].
      replace (Z.to_nat (len s + j)) with (length s + Z.to_nat j)%nat in E
        by lia.
      exact E.
Qed.

Lemma tiny_round_trip_witness :
  exists stream o',
    produced (lzav_compress true (Some [65; 66; 67]) (Some (repeat 0 8)) 3 8
                None 0) = Some stream
    /\ Z.of_nat (length stream) = 3 + 2
    /\ lzav_decompress (Some stream) (Some (repeat 238 4)) (3 + 2) 3
       = Returns 3 (Some o')
    /\ firstn 3 o' = [65; 66; 67]
    /\ skipn 3 o' = skipn 3 (repeat 238 4).
Proof.
  exact (tiny_round_trip true [65; 66; 67] (repeat 0 8) (repeat 238 4) 8
           None 0 ltac:(simpl; lia) ltac:(simpl; lia) ltac:(simpl; lia)
           ltac:(simpl; lia)).
Defined.

Lemma lzav_memcpy_from (o : buf) (a b : buf) (pa pb n : Z) :
  (forall k, 0 <= k < n -> load8 a (pa + k) = load8 b (pb + k)) ->
  lzav_memcpy o 0 a pa n = lzav_memcpy o 0 b pb n.
Proof.
  intros H. unfold lzav_memcpy. f_equal. unfold bytes_at.
  apply map_ext_in. intros k Hk. apply in_seq in Hk. apply H. lia.
Qed.

Lemma copy_to_front (o s : buf) :
  len s <= len o ->
  firstn (length s) (lzav_memcpy o 0 s 0 (len s)) = s
  /\ skipn (length s) (lzav_memcpy o 0 s 0 (len s)) = skipn (length s) o.
Proof.
  intros Ho. split.
  - rewrite <- (Nat2Z.id (length s)) at 1.
    rewrite firstn_lzav_memcpy_0 by lia.
    rewrite Nat2Z.id. apply firstn_all.
  - apply buf_ext.
    + rewrite !length_skipn, length_lzav_memcpy. reflexivity.
    + rewrite length_skipn, length_lzav_memcpy. intros j Hj.
      unfold load8. destruct (Z.ltb_spec j 0); [lia |].
      rewrite !nth_skipn.
      pose proof (load8_lzav_memcpy_out o 0 s 0 (len s)
                    (len s + j) ltac:(lia) ltac:(lia)) as E.
      unfold load8 in E.
      destruct (Z.ltb_spec (len s + j) 0); [lia |].
      replace (Z.to_nat (len s + j)) with (length s + Z.to_nat j)%nat in E
        by lia.
      exact E.
Qed.

(** What [lzav_compress_hi] leaves in the destination for a source of fewer
    than 16 bytes. *)
Lemma lzav_compress_hi_short (malloc_ok : bool) (s d : buf) (dstl : Z) :
  1 <= len s <= 15 -> lzav_compress_bound_hi (len s) <= dstl ->
  lzav_compress_hi malloc_ok (Some s) (Some d) (len s) dstl =
  let d2 := lzav_memcpy (store8 (store8 d 0 37) 1 (len s)) 2 s 0 (len s) in
  if len s >? 5 then Returns (2 + len s) (Some d2)
  else Returns 8 (Some (lzav_memset d2 (2 + len s) 0 (6 - len s))).
Proof.
  intros Hs Hd. unfold lzav_compress_hi.
  destruct (Z.leb_spec (len s) 0); [lia |].
  destruct (Z.ltb_spec dstl (lzav_compress_bound_hi (len s))); [lia |].
  cbn [orb]. cbv zeta.
  destruct (Z.ltb_spec (len s) 16); [| lia].
  rewrite u8_id by lia.
  change (Z.lor (Z.shiftl LZAV_FMT_CUR 4) HI_MREF) with 37.
  change (1 + 1) with 2. change (LZAV_LIT_FIN - 1) with 5.
  change (2 + LZAV_LIT_FIN) with 8. change LZAV_LIT_FIN with 6.
  reflexivity.
Qed.

Lemma load8_lzav_memset_out (b : buf) (d v n j : Z) :
  j < d -> load8 (lzav_memset b d v n) j = load8 b j.
Proof.
  intros H. unfold lzav_memset. apply load8_store_bytes_out. lia.
Qed.

Lemma length_lzav_memset (b : buf) (d v n : Z) :
  length (lzav_memset b d v n) = length b.
Proof. unfold lzav_memset. apply length_store_bytes. Qed.

(** X2: a source of 1 to 15 bytes goes through [lzav_compress_hi] and
    [lzav_decompress] unchanged: the stream, of [srcl + 2] bytes or of 8 if
    that is more, given to the decompressor with [dstl = srcl], makes it
    return [srcl] and leave the source bytes in the destination. *)
Theorem hi_short_round_trip (malloc_ok : bool) (s d o : buf) (dstl : Z) :
  1 <= len s <= 15 ->
  lzav_compress_bound_hi (len s) <= dstl -> 8 <= len d -> len s + 2 <= len d ->
  len s <= len o ->
  exists v stream o',
    returned (lzav_compress_hi malloc_ok (Some s) (Some d) (len s) dstl)
      = Some v
    /\ produced (lzav_compress_hi malloc_ok (Some s) (Some d) (len s) dstl)
      = Some stream
    /\ v = Z.max (len s + 2) 8
    /\ lzav_decompress (Some stream) (Some o) v (len s)
       = Returns (len s) (Some o')
    /\ firstn (length s) o' = s
    /\ skipn (length s) o' = skipn (length s) o.
Proof.
  intros Hs Hd Hl8 Hl Ho.
  rewrite lzav_compress_hi_short by assumption. cbv zeta.
  set (d2 := lzav_memcpy (store8 (store8 d 0 37) 1 (len s)) 2 s 0 (len s)).
  assert (L2 : length d2 = length d).
  { unfold d2. now rewrite length_lzav_memcpy, !length_store8. }
  assert (B0 : load8 d2 0 = 37).
  { unfold d2. rewrite load8_lzav_memcpy_out by lia.
    rewrite load8_store8_ne by lia. apply load8_store8_eq. lia. }
  assert (B1 : load8 d2 1 = len s).
  { unfold d2. rewrite load8_lzav_memcpy_out by lia.
    apply load8_store8_eq. rewrite length_store8. lia. }
  assert (B2 : forall k, 0 <= k < len s -> load8 d2 (2 + k) = load8 s (0 + k)).
  { intros k Hk. unfold d2.
    rewrite load8_lzav_memcpy_in by (rewrite ?length_store8; lia).
    f_equal. lia. }
  assert (R : forall stream v,
             v <= 34 ->
             load8 stream 0 = 37 -> load8 stream 1 = len s ->
             (forall k, 0 <= k < len s ->
                load8 stream (2 + k) = load8 s (0 + k)) ->
             exists o',
               lzav_decompress (Some stream) (Some o) v (len s)
               = Returns (len s) (Some o')
               /\ firstn (length s) o' = s
               /\ skipn (length s) o' = skipn (length s) o).
  { intros stream v Hv E0 E1 E2.
    rewrite lzav_decompress_tiny_path; rewrite ?E0, ?E1;
      [| unfold LZAV_TINY_MAX; lia | reflexivity
       | unfold LZAV_TINY_MAX; lia | lia].
    eexists. split; [reflexivity |].
    rewrite (lzav_memcpy_from o stream s 2 0 (len s) E2).
    now apply copy_to_front. }
  destruct (Z.gtb_spec (len s) 5) as [H5 | H5]; unfold returned, produced.
  - destruct (R (firstn (Z.to_nat (2 + len s)) d2) (2 + len s)) as [o' Ho'].
    + lia.
    + rewrite load8_firstn by lia. exact B0.
    + rewrite load8_firstn by lia. exact B1.
    + intros k Hk. rewrite load8_firstn by lia. now apply B2.
    + exists (2 + len s), (firstn (Z.to_nat (2 + len s)) d2), o'.
      repeat split; try apply Ho'. lia.
  - set (d3 := lzav_memset d2 (2 + len s) 0 (6 - len s)).
    destruct (R (firstn (Z.to_nat 8) d3) 8) as [o' Ho'].
    + lia.
    + rewrite load8_firstn by lia. unfold d3.
      rewrite load8_lzav_memset_out by lia. exact B0.
    + rewrite load8_firstn by lia. unfold d3.
      rewrite load8_lzav_memset_out by lia. exact B1.
    + intros k Hk. rewrite load8_firstn by lia. unfold d3.
      rewrite load8_lzav_memset_out by lia. now apply B2.
    + exists 8, (firstn (Z.to_nat 8) d3), o'.
      repeat split; try apply Ho'. lia.
Qed.

Lemma hi_short_round_trip_witness :
  exists v stream o',
    returned (lzav_compress_hi true (Some [65; 66; 67]) (Some (repeat 0 21))
                3 21) = Some v
    /\ produced (lzav_compress_hi true (Some [65; 66; 67])
                   (Some (repeat 0 21)) 3 21) = Some stream
    /\ v = Z.max (3 + 2) 8
    /\ lzav_decompress (Some stream) (Some (repeat 238 4)) v 3
       = Returns 3 (Some o')
    /\ firstn 3 o' = [65; 66; 67]
    /\ skipn 3 o' = skipn 3 (repeat 238 4).
Proof.
  exact (hi_short_round_trip true [65; 66; 67] (repeat 0 21) (repeat 238 4)
           21 ltac:(simpl; lia) ltac:(vm_compute; discriminate)
           ltac:(simpl; lia) ltac:(simpl; lia) ltac:(simpl; lia)).
Defined.

End TinyRoundTrip.

(** ** The terminal block through the decoder *)

Section FinRoundTrip.

Local Abbreviation len l := (Z.of_nat (length l)).

(** What the length loop of the writers and the store after it leave. *)
Lemma write_len_loop_bytes fuel : forall dst op lcw,
  store8 (fst (fst (write_len_loop fuel dst op lcw)))
    (snd (fst (write_len_loop fuel dst op lcw)))
    (u8 (snd (write_len_loop fuel dst op lcw)))
  = store_bytes dst op (len_bytes fuel lcw)
  /\ snd (fst (write_len_loop fuel dst op lcw)) + 1
     = op + len (len_bytes fuel lcw).
Proof.
  induction fuel as [| n IH]; intros dst op lcw;
    cbn [write_len_loop len_bytes].
  { cbn [fst snd store_bytes length]. split; [reflexivity | lia]. }
  destruct (lcw >? 127).
  - destruct (IH (store8 dst op (u8 (Z.lor 128 lcw))) (op + 1)
                (Z.shiftr lcw 7)) as [H1 H2].
    cbn [store_bytes length]. split; [exact H1 | lia].
  - cbn [fst snd store_bytes length]. split; [reflexivity | lia].
Qed.

Lemma len_bytes_length fuel : forall lcw,
  1 <= len (len_bytes fuel lcw) <= Z.of_nat fuel + 1.
Proof.
  induction fuel as [| n IH]; intros lcw; cbn [len_bytes].
  { cbn [length]. lia. }
  destruct (lcw >? 127); cbn [length]; [| lia].
  specialize (IH (Z.shiftr lcw 7)). lia.
Qed.

Lemma split_7 v : 0 <= v ->
  Z.lor (Z.land v 127) (Z.shiftl (Z.shiftr v 7) 7) = v.
Proof.
  intros Hv. change 127 with (Z.ones 7).
  apply Z.bits_inj'. intros i Hi.
  rewrite Z.lor_spec, Z.land_spec, Z.testbit_ones_nonneg by lia.
  destruct (Z.lt_ge_cases i 7).
  - rewrite Z.shiftl_spec_low by lia.
    destruct (Z.ltb_spec i 7); [| lia].
    now rewrite andb_true_r, orb_false_r.
  - rewrite Z.shiftl_spec, Z.shiftr_spec by lia.
    destruct (Z.ltb_spec i 7); [lia |].
    rewrite andb_false_r. cbn [orb]. f_equal. lia.
Qed.

Lemma u8_land v : u8 v = Z.land v 255.
Proof.
  unfold u8, wrap. change 255 with (Z.ones 8).
  now rewrite Z.land_ones by lia.
Qed.

Lemma land_u8_127 v : Z.land (u8 v) 127 = Z.land v 127.
Proof.
  rewrite u8_land, <- Z.land_assoc. reflexivity.
Qed.

Lemma land_u8_128 v : Z.land (u8 v) 128 = Z.land v 128.
Proof.
  rewrite u8_land, <- Z.land_assoc. reflexivity.
Qed.

Lemma land_128_small v : 0 <= v <= 127 -> Z.land v 128 = 0.
Proof.
  intros H. apply Z.bits_inj'. intros i Hi.
  rewrite Z.land_spec, Z.bits_0.
  destruct (Z.eq_dec i 7) as [-> | Hne].
  - rewrite (Z.bits_above_log2 v 7); [reflexivity | lia |].
    destruct (Z.eq_dec v 0) as [-> | Hv0]; [cbn; lia |].
    apply Z.log2_lt_pow2; lia.
  - change 128 with (Z.shiftl 1 7).
    rewrite Z.shiftl_spec by lia.
    destruct (Z.lt_ge_cases i 7).
    + rewrite (Z.testbit_neg_r 1) by lia. apply andb_false_r.
    + replace (i - 7) with (Z.succ (i - 8)) by lia.
      rewrite (Z.bits_above_log2 1) by (cbn; lia). apply andb_false_r.
Qed.

Lemma land_128_lor v : Z.land (Z.lor 128 v) 128 = 128.
Proof.
  rewrite Z.land_lor_distr_l. change (Z.land 128 128) with 128.
  apply Z.bits_inj'. intros i Hi.
  rewrite Z.lor_spec, Z.land_spec.
  destruct (Z.testbit 128 i); [reflexivity | now rewrite andb_false_r].
Qed.

Lemma land_127_lor v : Z.land (Z.lor 128 v) 127 = Z.land v 127.
Proof.
  rewrite Z.land_lor_distr_l. change (Z.land 128 127) with 0.
  apply Z.lor_0_l.
Qed.

Lemma shiftr_7_small v : 0 <= v <= 127 -> Z.shiftr v 7 = 0.
Proof.
  intros H. rewrite Z.shiftr_div_pow2 by lia. apply Z.div_small.
  change (2 ^ 7) with 128. lia.
Qed.

Lemma shiftr_7_bound v k : 0 <= k -> 0 <= v < 2 ^ (7 + k) ->
  0 <= Z.shiftr v 7 < 2 ^ k.
Proof.
  intros Hk H. rewrite Z.shiftr_div_pow2 by lia.
  rewrite Z.pow_add_r in H by lia.
  split; [apply Z.div_pos; lia |].
  apply Z.div_lt_upper_bound; lia.
Qed.

(** The low 7 bits and the high bit of the first byte of a length. *)
Lemma len_bytes_head wf v : 0 <= v ->
  Z.land (nth 0 (len_bytes wf v) 0) 127 = Z.land v 127.
Proof.
  intros Hv. destruct wf as [| n]; cbn [len_bytes].
  - cbn [nth]. apply land_u8_127.
  - destruct (v >? 127); cbn [nth].
    + rewrite land_u8_127. apply land_127_lor.
    + apply land_u8_127.
Qed.

(** The decoder's length loop reads a length back from its bytes.  [ip]
    is behind the first byte, of which [cc] holds the low 7 bits already;
    [r] more bytes may follow. *)
Lemma read_len_loop_bytes (src : buf) (r : nat) :
  forall fuel wf v ip cc sh,
  sh = 35 - 7 * Z.of_nat r -> (1 <= r <= 4)%nat ->
  (r <= fuel)%nat -> (r <= wf)%nat ->
  0 <= v < 2 ^ (7 * (Z.of_nat r + 1)) ->
  (forall k, (k < length (len_bytes wf v))%nat ->
     load8 src (ip - 1 + Z.of_nat k) = nth k (len_bytes wf v) 0) ->
  read_len_loop fuel src ip (load8 src (ip - 1)) cc sh
  = (ip - 1 + len (len_bytes wf v),
     Z.lor cc (Z.shiftl (Z.shiftr v 7) sh)).
Proof.
  induction r as [| r IH]; intros fuel wf v ip cc sh Hsh Hr Hf Hw Hv Hb;
    [lia |].
  destruct fuel as [| fuel]; [lia |].
  destruct wf as [| wf]; [lia |].
  pose proof (Hb 0%nat) as H0. rewrite Z.add_0_r in H0.
  cbn [read_len_loop]. cbn [len_bytes] in *.
  destruct (Z.gtb_spec v 127) as [Hbig | Hsmall].
  - cbn [length nth] in *.
    rewrite H0 by lia.
    rewrite land_u8_128, land_128_lor. cbn [Z.eqb negb].
    pose proof (Hb 1%nat) as H1. cbn [nth] in H1.
    replace (ip - 1 + Z.of_nat 1) with ip in H1 by lia.
    assert (Hl := len_bytes_length wf (Z.shiftr v 7)).
    assert (Hv' : 0 <= Z.shiftr v 7 < 2 ^ (7 * (Z.of_nat r + 1))).
    { apply shiftr_7_bound; [lia |].
      replace (7 + 7 * (Z.of_nat r + 1)) with (7 * (Z.of_nat (S r) + 1))
        by lia. exact Hv. }
    assert (Hc : Z.land (load8 src ip) 127 = Z.land (Z.shiftr v 7) 127).
    { rewrite H1 by lia. apply len_bytes_head. lia. }
    rewrite Hc.
    destruct (Z.eqb_spec sh 28) as [E28 | N28].
    + assert (r = 0)%nat by lia. subst r.
      change (7 * (Z.of_nat 0 + 1)) with 7 in Hv'.
      change (2 ^ 7) with 128 in Hv'.
      assert (Hs : Z.land (Z.shiftr v 7) 127 = Z.shiftr v 7).
      { change 127 with (Z.ones 7). rewrite Z.land_ones by lia.
        apply Z.mod_small. change (2 ^ 7) with 128. lia. }
      rewrite Hs. f_equal.
      destruct wf as [| wf']; cbn [len_bytes].
      * cbn [length]. lia.
      * destruct (Z.gtb_spec (Z.shiftr v 7) 127); [lia |]. cbn [length]. lia.
    + rewrite <- (Z.add_simpl_r ip 1) at 2.
      replace (load8 src ip) with (load8 src (ip + 1 - 1))
        by (f_equal; lia).
      rewrite (IH fuel wf (Z.shiftr v 7) (ip + 1)); try lia.
      * f_equal; [lia |].
        rewrite <- Z.lor_assoc. f_equal.
        rewrite (Z.add_comm sh 7), <- Z.shiftl_shiftl by lia.
        rewrite <- Z.shiftl_lor. f_equal. apply split_7. lia.
      * intros k Hk. specialize (Hb (S k) ltac:(lia)).
        cbn [nth] in Hb. rewrite <- Hb. f_equal. lia.
  - cbn [length nth] in *.
    rewrite H0 by lia.
    rewrite land_u8_128, land_128_small by lia. cbn [Z.eqb negb].
    rewrite shiftr_7_small, Z.shiftl_0_l, Z.lor_0_r by lia.
    f_equal. lia.
Qed.

Lemma bytes_at_cons (b : buf) (i : Z) (n : nat) :
  bytes_at b i (Z.of_nat (S n)) = load8 b i :: bytes_at b (i + 1) (Z.of_nat n).
Proof.
  unfold bytes_at. rewrite !Nat2Z.id. cbn [seq map].
  rewrite Z.add_0_r. f_equal.
  rewrite <- seq_shift, map_map. apply map_ext. intros k. f_equal. lia.
Qed.

Lemma copy_bytes_memcpy (n : nat) : forall dst op src ipd,
  copy_bytes n dst op src ipd = lzav_memcpy dst op src ipd (Z.of_nat n).
Proof.
  induction n as [| n IH]; intros dst op src ipd.
  - reflexivity.
  - cbn [copy_bytes]. rewrite IH. unfold lzav_memcpy.
    rewrite bytes_at_cons. reflexivity.
Qed.

Lemma store_bytes_app (l1 l2 : list Z) : forall b i,
  store_bytes b i (l1 ++ l2)
  = store_bytes (store_bytes b i l1) (i + len l1) l2.
Proof.
  induction l1 as [| x l1 IH]; intros b i; cbn [app store_bytes length].
  - now rewrite Z.add_0_r.
  - rewrite IH. f_equal. lia.
Qed.

Lemma bytes_at_app (b : buf) (i : Z) (n1 n2 : nat) :
  bytes_at b i (Z.of_nat (n1 + n2))
  = bytes_at b i (Z.of_nat n1) ++ bytes_at b (i + Z.of_nat n1) (Z.of_nat n2).
Proof.
  revert i. induction n1 as [| n1 IH]; intros i.
  - cbn [Nat.add app]. unfold bytes_at at 2. cbn. now rewrite Z.add_0_r.
  - replace (S n1 + n2)%nat with (S (n1 + n2)) by lia.
    rewrite !bytes_at_cons, IH. cbn [app]. do 3 f_equal. lia.
Qed.

(** Two copies one after the other are one copy. *)
Lemma lzav_memcpy_join (dst : buf) (op : Z) (src : buf) (s a b : Z) :
  0 <= a -> 0 <= b ->
  lzav_memcpy (lzav_memcpy dst op src s a) (op + a) src (s + a) b
  = lzav_memcpy dst op src s (a + b).
Proof.
  intros Ha Hb. unfold lzav_memcpy.
  rewrite <- (Z2Nat.id a), <- (Z2Nat.id b) by lia.
  rewrite <- Nat2Z.inj_add, bytes_at_app, store_bytes_app.
  rewrite length_bytes_at, !Nat2Z.id. reflexivity.
Qed.

Lemma dec_loop_2_done fuel src srcl dstl mref1 st :
  srcl - 6 <= d_ip st -> d_op st = dstl -> - 2 ^ 31 <= dstl < 2 ^ 31 ->
  dec_loop_2 fuel src srcl dstl mref1 st = Some (dstl, dstl, d_dst st).
Proof.
  intros Hip Hop Hd.
  destruct fuel; cbn [dec_loop_2];
    (destruct (Z.ltb_spec (d_ip st) (srcl - 6)); [lia |]);
    rewrite Hop, Z.eqb_refl; cbn [negb]; now rewrite s32_id.
Qed.

(** A literal block that ends the stream and fills the destination. *)
Lemma lit_tail_2_at_end src srcl dstl st op ipd cc ncv dst :
  0 <= cc -> op + cc = dstl ->
  lit_tail_2 src srcl dstl st srcl op ipd cc ncv dst
  = Next (mk_dstate srcl dstl (d_bh st) (Z.lor (d_cv st) ncv)
            (s32 (d_csh st + 2)) (lzav_memcpy dst op src ipd cc)).
Proof.
  intros Hc Ho. unfold lit_tail_2.
  rewrite Z.ltb_irrefl, Z.eqb_refl. cbn [negb].
  destruct (Z.gtb_spec (op + cc) dstl); [lia |].
  rewrite copy_bytes_memcpy, Z2Nat.id, Ho by lia. reflexivity.
Qed.

(** The decoder on a stream that holds nothing but a terminal block: the
    prefix byte, the header ([hdr] bytes, read as the length [lc]) and the
    literals. *)
Lemma dec_terminal (S o : buf) (hdr lc : Z) :
  6 <= lc < 2 ^ 31 -> lc <= len o -> 1 <= hdr ->
  (lc < 16 /\ hdr = 1 /\ load8 S 1 = lc
   \/ 16 <= lc /\ load8 S 1 = 0
      /\ hdr = 1 + len (len_bytes 10 (lc - 16))
      /\ forall k, (k < length (len_bytes 10 (lc - 16)))%nat ->
           load8 S (2 + Z.of_nat k) = nth k (len_bytes 10 (lc - 16)) 0) ->
  lzav_decompress_2 S o (1 + hdr + lc) lc
  = Some (lc, lc, lzav_memcpy o 0 S (1 + hdr) lc).
Proof.
  intros Hlc Ho Hh Hdr. unfold lzav_decompress_2. cbv zeta.
  destruct (Z.geb_spec 1 (1 + hdr + lc - 6)); [lia |].
  destruct (Z.to_nat (1 + hdr + lc)) as [| fuel] eqn:Ef; [lia |].
  cbn [dec_loop_2 d_ip].
  destruct (Z.ltb_spec 1 (1 + hdr + lc - 6)); [| lia].
  set (mref1 := u64 _).
  assert (Hdone : forall st dst',
            d_ip st = 1 + hdr + lc -> d_op st = lc -> d_dst st = dst' ->
            dec_loop_2 fuel S (1 + hdr + lc) lc mref1 st
            = Some (lc, lc, dst')).
  { intros st dst' E1 E2 E3. rewrite dec_loop_2_done; [now rewrite E3 | |
      assumption |]; lia. }
  unfold dec_block_2. cbn [d_bh].
  destruct Hdr as [[Hs [-> Hb]] | [Hl [Hb [Hh' Hbytes]]]].
  - (* fewer than 16 literals: the header is the length *)
    rewrite Hb.
    assert (H48 : Z.land lc 48 = 0).
    { assert (lc = 6 \/ lc = 7 \/ lc = 8 \/ lc = 9 \/ lc = 10 \/ lc = 11
              \/ lc = 12 \/ lc = 13 \/ lc = 14 \/ lc = 15) as C by lia.
      destruct C as [-> | [-> | [-> | [-> | [-> | [-> | [-> | [-> |
                     [-> | ->]]]]]]]]]; reflexivity. }
    assert (H15 : Z.land lc 15 = lc).
    { change 15 with (Z.ones 4). rewrite Z.land_ones by lia.
      apply Z.mod_small. change (2 ^ 4) with 16. lia. }
    rewrite H48. cbn [Z.eqb].
    unfold dec_literal_2. cbn [d_bh d_op d_dst d_ip d_csh d_cv]. cbv zeta.
    rewrite H15.
    destruct (Z.eqb_spec lc 0); [lia |]. cbn [negb].
    destruct (Z.ltb_spec (1 + 1) (1 + 1 + lc - 15 - 7)); [lia |].
    rewrite andb_false_r.
    replace (1 + 1 + lc) with (1 + 1 + lc) by reflexivity.
    rewrite lit_tail_2_at_end by lia.
    apply Hdone; reflexivity.
  - (* 16 literals or more: a header of 0 and the length bytes *)
    rewrite Hb. cbn [Z.land Z.eqb].
    unfold dec_literal_2. cbn [d_bh d_op d_dst d_ip d_csh d_cv]. cbv zeta.
    cbn [Z.land Z.eqb negb].
    assert (Hl' := len_bytes_length 10 (lc - 16)).
    assert (Hr : read_len_loop 5 S (1 + 1 + 1) (load8 S (1 + 1))
                   (Z.land (load8 S (1 + 1)) 127) 7
                 = (1 + hdr, lc - 16)).
    { assert (E2 : load8 S (1 + 1) = nth 0 (len_bytes 10 (lc - 16)) 0).
      { rewrite <- Hbytes by lia. f_equal. }
      rewrite E2 at 2. rewrite len_bytes_head by lia.
      replace (load8 S (1 + 1)) with (load8 S (1 + 1 + 1 - 1))
        by (f_equal; lia).
      rewrite (read_len_loop_bytes S 4 5 10 (lc - 16)); try lia.
      - f_equal; [lia | apply split_7; lia].
      - intros k Hk. rewrite <- Hbytes by lia. f_equal; lia. }
    rewrite Hr. cbv beta iota.
    replace (lc - 16 + 16) with lc by lia.
    replace (1 + hdr + lc) with (1 + hdr + lc) by reflexivity.
    destruct ((0 <? lc - 63) && (1 + hdr <? 1 + hdr + lc - 63 - 16)) eqn:Ef'.
    + (* 64 bytes at once, the rest in the byte loop *)
      apply andb_prop in Ef' as [F1 F2].
      apply Z.ltb_lt in F1, F2.
      destruct (Z.ltb_spec lc 65); [lia |].
      rewrite lit_tail_2_at_end by lia.
      apply Hdone; try reflexivity. cbn [d_dst].
      change (0 + 32) with (0 + (16 + 16)).
      change (0 + 48) with (0 + (16 + 16 + 16)).
      change (0 + 64) with (0 + (16 + 16 + 16 + 16)).
      pose proof (lzav_memcpy_join o 0 S (1 + hdr)) as J.
      rewrite (J 16 16) by lia.
      replace (1 + hdr + 32) with (1 + hdr + (16 + 16)) by lia.
      rewrite (J (16 + 16) 16) by lia.
      replace (1 + hdr + 48) with (1 + hdr + (16 + 16 + 16)) by lia.
      rewrite (J (16 + 16 + 16) 16) by lia.
      replace (1 + hdr + 64) with (1 + hdr + (16 + 16 + 16 + 16)) by lia.
      rewrite (J (16 + 16 + 16 + 16) (lc - 64)) by lia.
      f_equal. lia.
    + rewrite lit_tail_2_at_end by lia.
      apply Hdone; reflexivity.
Qed.

Lemma len_bytes_short fuel : forall v k,
  1 <= k -> 0 <= v < 2 ^ (7 * k) -> len (len_bytes fuel v) <= k.
Proof.
  induction fuel as [| n IH]; intros v k Hk Hv; cbn [len_bytes].
  { cbn [length]. lia. }
  destruct (Z.gtb_spec v 127); cbn [length]; [| lia].
  destruct (Z.eq_dec k 1) as [-> | Hk1].
  { change (2 ^ (7 * 1)) with 128 in Hv. lia. }
  specialize (IH (Z.shiftr v 7) (k - 1) ltac:(lia)).
  assert (0 <= Z.shiftr v 7 < 2 ^ (7 * (k - 1))).
  { apply shiftr_7_bound; [lia |].
    now replace (7 + 7 * (k - 1)) with (7 * k) by lia. }
  lia.
Qed.

(** The stream [lzav_write_fin_2] leaves behind a prefix byte. *)
Lemma write_fin_stream (p : Z) (w lits : buf) :
  len lits < 2 ^ 31 -> len lits + 7 <= len w ->
  let S := fst (lzav_write_fin_2 (store8 w 0 p) 1 (len lits) lits 0) in
  let n := snd (lzav_write_fin_2 (store8 w 0 p) 1 (len lits) lits 0) in
  exists hdr,
    n = 1 + hdr + len lits /\ 1 <= hdr
    /\ load8 S 0 = p
    /\ (forall k, 0 <= k < len lits ->
          load8 S (1 + hdr + k) = load8 lits (0 + k))
    /\ (len lits < 16 /\ hdr = 1 /\ load8 S 1 = len lits
        \/ 16 <= len lits /\ load8 S 1 = 0
           /\ hdr = 1 + len (len_bytes 10 (len lits - 16))
           /\ forall k, (k < length (len_bytes 10 (len lits - 16)))%nat ->
                load8 S (2 + Z.of_nat k)
                = nth k (len_bytes 10 (len lits - 16)) 0).
Proof.
  intros Hlc Hw. unfold lzav_write_fin_2.
  destruct (Z.ltb_spec (len lits) 16) as [Hs | Hl].
  - cbn [fst snd]. exists 1. rewrite u8_id by lia.
    split; [lia |]. split; [lia |]. split.
    { rewrite load8_lzav_memcpy_out by lia.
      rewrite load8_store8_ne by lia. apply load8_store8_eq. lia. }
    split.
    { intros k Hk.
      rewrite load8_lzav_memcpy_in by (rewrite ?length_store8; lia).
      f_equal. lia. }
    left. split; [lia |]. split; [reflexivity |].
    rewrite load8_lzav_memcpy_out by lia.
    apply load8_store8_eq. rewrite length_store8. lia.
  - set (d := store8 (store8 w 0 p) 1 0).
    pose proof (write_len_loop_bytes 10 d (1 + 1) (len lits - 16))
      as [W1 W2].
    destruct (write_len_loop 10 d (1 + 1) (len lits - 16))
      as [[d1 op1] lcw1].
    cbn [fst snd] in *. rewrite W1.
    set (enc := len_bytes 10 (len lits - 16)) in *.
    assert (He : 1 <= len enc <= 5).
    { split; [apply len_bytes_length |].
      apply len_bytes_short; [lia |].
      change (2 ^ (7 * 5)) with 34359738368.
      change (2 ^ 31) with 2147483648 in Hlc. lia. }
    assert (Ld : length d = length w).
    { unfold d. now rewrite !length_store8. }
    exists (1 + len enc).
    split; [lia |]. split; [lia |]. split.
    { rewrite load8_lzav_memcpy_out by lia.
      rewrite load8_store_bytes_out by lia. unfold d.
      rewrite load8_store8_ne by lia. apply load8_store8_eq. lia. }
    split.
    { intros k Hk.
      rewrite load8_lzav_memcpy_in
        by (rewrite ?length_store_bytes, ?Ld; lia).
      f_equal. lia. }
    right. split; [lia |]. split.
    { rewrite load8_lzav_memcpy_out by lia.
      rewrite load8_store_bytes_out by lia. unfold d.
      apply load8_store8_eq. rewrite length_store8. lia. }
    split; [reflexivity |].
    intros k Hk.
    rewrite load8_lzav_memcpy_out by lia.
    rewrite load8_store_bytes_in by lia.
    f_equal. lia.
Qed.

(** What [lzav_write_fin_2] writes, [lzav_decompress_2] reads back, for
    every prefix byte. *)
Lemma write_fin_decompress_2 (p : Z) (w lits o : buf) :
  6 <= len lits < 2 ^ 31 -> len lits + 7 <= len w -> len lits <= len o ->
  lzav_decompress_2 (fst (fin_stream p w lits)) o (snd (fin_stream p w lits))
    (len lits)
  = Some (len lits, len lits, lits ++ skipn (length lits) o).
Proof.
  intros Hlc Hw Ho. unfold fin_stream.
  destruct (write_fin_stream p w lits ltac:(lia) Hw)
    as [hdr [En [Hh [_ [Hlits Hdr]]]]].
  rewrite En, (dec_terminal _ o hdr (len lits)) by assumption.
  rewrite (lzav_memcpy_from o _ lits (1 + hdr) 0 (len lits) Hlits).
  destruct (copy_to_front o lits Ho) as [F K].
  rewrite <- (firstn_skipn (length lits) (lzav_memcpy o 0 lits 0 (len lits))).
  now rewrite F, K.
Qed.

Lemma prefix_format (mref : Z) :
  0 <= mref <= 15 ->
  Z.shiftr (Z.lor (Z.shiftl LZAV_FMT_CUR 4) mref) 4 = LZAV_FMT_CUR.
Proof.
  intros H. rewrite Z.shiftr_lor, Z.shiftr_shiftl_l by lia.
  rewrite (Z.shiftr_div_pow2 mref) by lia.
  rewrite (Z.div_small mref) by (change (2 ^ 4) with 16; lia).
  reflexivity.
Qed.

(** X3: a source that goes out as literals alone comes back.  For 6 bytes
    or more, the stream made of a format-2 prefix byte and the block
    [lzav_write_fin_2] writes makes [lzav_decompress_partial] return their
    number and leave them in the destination; [lzav_decompress] does the
    same unless the source has 16 to 31 bytes. *)
Theorem terminal_block_round_trip (mref : Z) (w lits o : buf) :
  0 <= mref <= 15 ->
  6 <= len lits < 2 ^ 31 -> len lits + 7 <= len w -> len lits <= len o ->
  lzav_decompress_partial
    (Some (fst (fin_stream (Z.lor (Z.shiftl LZAV_FMT_CUR 4) mref) w lits)))
    (Some o)
    (snd (fin_stream (Z.lor (Z.shiftl LZAV_FMT_CUR 4) mref) w lits))
    (len lits)
  = Returns (len lits) (Some (lits ++ skipn (length lits) o))
  /\ (len lits < 16 \/ 32 <= len lits ->
      lzav_decompress
        (Some (fst (fin_stream (Z.lor (Z.shiftl LZAV_FMT_CUR 4) mref) w lits)))
        (Some o)
        (snd (fin_stream (Z.lor (Z.shiftl LZAV_FMT_CUR 4) mref) w lits))
        (len lits)
      = Returns (len lits) (Some (lits ++ skipn (length lits) o))).
Proof.
  intros Hm Hlc Hw Ho.
  set (p := Z.lor (Z.shiftl LZAV_FMT_CUR 4) mref).
  pose proof (write_fin_decompress_2 p w lits o Hlc Hw Ho) as D.
  unfold fin_stream in *.
  destruct (write_fin_stream p w lits ltac:(lia) Hw)
    as [hdr [En [Hh [H0 [Hlits Hdr]]]]].
  set (S := fst _) in *. set (n := snd _) in *.
  assert (Hf : Z.shiftr (load8 S 0) 4 = 2).
  { rewrite H0. unfold p. now apply prefix_format. }
  split.
  - unfold lzav_decompress_partial. rewrite Hf, D. cbn [Z.eqb].
    rewrite s32_id by lia. reflexivity.
  - intros Hr. unfold lzav_decompress. rewrite Hf.
    change (2 =? LZAV_FMT_CUR) with true. rewrite andb_true_r.
    destruct (Z.leb_spec n (LZAV_TINY_MAX + 2)) as [Hn | Hn];
      unfold LZAV_TINY_MAX in Hn.
    + pose proof (len_bytes_length 10 (len lits - 16)) as Hl10.
      destruct Hdr as [[Hs [-> Hb]] | [Hl [Hb [Hh' _]]]]; [| lia].
      rewrite Hb.
      destruct (Z.leb_spec (len lits) LZAV_TINY_MAX);
        [| unfold LZAV_TINY_MAX in *; lia].
      rewrite Z.leb_refl. cbn [andb]. do 2 f_equal.
      replace 2 with (1 + 1) by reflexivity.
      rewrite (lzav_memcpy_from o S lits (1 + 1) 0 (len lits) Hlits).
      destruct (copy_to_front o lits Ho) as [F K].
      rewrite <- (firstn_skipn (length lits)
                    (lzav_memcpy o 0 lits 0 (len lits))).
      now rewrite F, K.
    + cbn [Z.eqb]. rewrite D. reflexivity.
Qed.

Lemma terminal_block_round_trip_witness :
  lzav_decompress_partial
    (Some (fst (fin_stream (Z.lor (Z.shiftl LZAV_FMT_CUR 4) 6)
                  (repeat 0 13) [1; 2; 3; 4; 5; 6])))
    (Some (repeat 238 7))
    (snd (fin_stream (Z.lor (Z.shiftl LZAV_FMT_CUR 4) 6)
            (repeat 0 13) [1; 2; 3; 4; 5; 6]))
    6
  = Returns 6 (Some ([1; 2; 3; 4; 5; 6] ++ skipn 6 (repeat 238 7)))
  /\ (6 < 16 \/ 32 <= 6 ->
      lzav_decompress
        (Some (fst (fin_stream (Z.lor (Z.shiftl LZAV_FMT_CUR 4) 6)
                      (repeat 0 13) [1; 2; 3; 4; 5; 6])))
        (Some (repeat 238 7))
        (snd (fin_stream (Z.lor (Z.shiftl LZAV_FMT_CUR 4) 6)
                (repeat 0 13) [1; 2; 3; 4; 5; 6]))
        6
      = Returns 6 (Some ([1; 2; 3; 4; 5; 6] ++ skipn 6 (repeat 238 7)))).
Proof.
  exact (terminal_block_round_trip 6 (repeat 0 13) [1; 2; 3; 4; 5; 6]
           (repeat 238 7) ltac:(lia) ltac:(simpl; lia) ltac:(simpl; lia)
           ltac:(simpl; lia)).
Defined.

End FinRoundTrip.

(** ** The decoder writes inside the [dstl] bytes of its destination *)

Section DecoderConfined.

Local Abbreviation len l := (Z.of_nat (length l)).

Variable dstl : Z.
Variable dst0 : buf.
Hypothesis dstl_range : 0 <= dstl < 2 ^ 31.

Lemma untouched_refl k b : untouched_from k b b.
Proof. split; auto. Qed.

Lemma untouched_trans k a b c :
  untouched_from k a b -> untouched_from k b c -> untouched_from k a c.
Proof.
  intros [L1 H1] [L2 H2]. split; [congruence |].
  intros j Hj. now rewrite H1, H2.
Qed.

Lemma untouched_store8 k b i v : i < k -> untouched_from k (store8 b i v) b.
Proof.
  intros H. split; [apply length_store8 |].
  intros j Hj. apply load8_store8_ne. lia.
Qed.

Lemma untouched_store_bytes k l b i :
  i + len l <= k -> untouched_from k (store_bytes b i l) b.
Proof.
  intros H. split; [apply length_store_bytes |].
  intros j Hj. apply load8_store_bytes_out. lia.
Qed.

Lemma untouched_lzav_memcpy k dst d src s n :
  d <= k -> d + n <= k -> untouched_from k (lzav_memcpy dst d src s n) dst.
Proof.
  intros H1 H2. unfold lzav_memcpy. apply untouched_store_bytes.
  rewrite length_bytes_at. lia.
Qed.

Lemma untouched_lzav_memmove k b d s n :
  d <= k -> d + n <= k -> untouched_from k (lzav_memmove b d s n) b.
Proof.
  intros H1 H2. unfold lzav_memmove. apply untouched_store_bytes.
  rewrite length_bytes_at. lia.
Qed.

Lemma untouched_LZAV_MEMMOVE k b d s c :
  0 <= c -> d + c <= k -> untouched_from k (LZAV_MEMMOVE b d s c) b.
Proof.
  intros H1 H2. rewrite LZAV_MEMMOVE_eq by lia. apply untouched_store_bytes.
  rewrite length_bytes_at. lia.
Qed.

Lemma untouched_copy_within k n : forall b p s,
  p + Z.of_nat n <= k -> untouched_from k (copy_within n b p s) b.
Proof.
  induction n as [| n IH]; intros b p s H; cbn [copy_within].
  - apply untouched_refl.
  - eapply untouched_trans; [apply IH; lia | apply untouched_store8; lia].
Qed.

Lemma untouched_copy_bytes k n b p src s :
  p + Z.of_nat n <= k -> untouched_from k (copy_bytes n b p src s) b.
Proof.
  intros H. rewrite copy_bytes_memcpy. apply untouched_lzav_memcpy; lia.
Qed.

Lemma confined_step op dst op' dst' :
  confined dstl dst0 op dst -> 0 <= op' <= dstl ->
  untouched_from dstl dst' dst -> confined dstl dst0 op' dst'.
Proof.
  intros [_ U] H U'. split; [exact H |].
  eapply untouched_trans; eassumption.
Qed.

(** The expansion of a reference. *)
Lemma ref_expand_confined long dst op ipd cc :
  confined dstl dst0 op dst -> 0 <= cc -> (long = false -> cc <= 63) ->
  match ref_expand long dst op ipd cc (dstl - 63) dstl with
  | inl (dst', op') => confined dstl dst0 op' dst'
  | inr (dst', op', _) => confined dstl dst0 op' dst'
  end.
Proof.
  intros C Hcc Hs. pose proof C as [Hop _].
  assert (Slow : forall dst1 op1 ipd1 cc1,
            confined dstl dst0 op1 dst1 -> 0 <= cc1 ->
            match (if op1 + cc1 >? dstl
                   then inr (dst1, op1, ipd1)
                   else inl (copy_within (Z.to_nat cc1) dst1 op1 ipd1,
                             op1 + cc1))
                  : buf * Z + buf * Z * Z
            with
            | inl (dst', op') => confined dstl dst0 op' dst'
            | inr (dst', op', _) => confined dstl dst0 op' dst'
            end).
  { intros dst1 op1 ipd1 cc1 C1 Hc1. pose proof C1 as [Hop1 _].
    destruct (Z.gtb_spec (op1 + cc1) dstl); [exact C1 |].
    eapply confined_step; [exact C1 | lia |].
    apply untouched_copy_within. lia. }
  unfold ref_expand.
  destruct (Z.ltb_spec op (dstl - 63)) as [Hfast | Hslow];
    [| now apply Slow].
  destruct long.
  - set (d1 := LZAV_MEMMOVE dst op ipd 16).
    set (d2 := LZAV_MEMMOVE d1 (op + 16) (ipd + 16) 16).
    set (d3 := LZAV_MEMMOVE d2 (op + 32) (ipd + 32) 16).
    set (d4 := LZAV_MEMMOVE d3 (op + 48) (ipd + 48) 16).
    assert (U4 : untouched_from dstl d4 dst).
    { unfold d4, d3, d2, d1.
      repeat (eapply untouched_trans;
              [apply untouched_LZAV_MEMMOVE; lia |]).
      apply untouched_refl. }
    destruct (Z.ltb_spec cc 65).
    + eapply confined_step; [exact C | lia | exact U4].
    + apply Slow; [| lia].
      eapply confined_step; [exact C | lia | exact U4].
  - specialize (Hs eq_refl).
    eapply confined_step; [exact C | lia |].
    repeat (eapply untouched_trans;
            [apply untouched_LZAV_MEMMOVE; lia |]).
    apply untouched_refl.
Qed.

Lemma land_15_range x : 0 <= Z.land x 15 <= 15.
Proof.
  change (Z.land x 15) with (Z.land x (Z.ones 4)).
  rewrite Z.land_ones by lia.
  pose proof (Z.mod_pos_bound x (2 ^ 4) ltac:(lia)).
  change (2 ^ 4) with 16 in *. lia.
Qed.

(** The length of a reference without additional length bytes. *)
Lemma short_ref_length (c m : Z) :
  1 <= c <= 15 -> 0 <= m <= 15 -> 0 <= u64 (c + u64 (m - 1)) <= 29.
Proof.
  intros Hc Hm. unfold u64, wrap.
  destruct (Z.eq_dec m 0) as [-> | Hm0].
  - change ((0 - 1) mod 2 ^ 64) with (2 ^ 64 - 1).
    replace (c + (2 ^ 64 - 1)) with (c - 1 + 1 * 2 ^ 64) by lia.
    rewrite Z_mod_plus_full, Z.mod_small by lia. lia.
  - rewrite (Z.mod_small (m - 1)) by lia.
    rewrite Z.mod_small by lia. lia.
Qed.

(** A reference block. *)
Lemma dec_refblk_2_confined src srcl m st :
  0 <= m <= 15 ->
  confined dstl dst0 (d_op st) (d_dst st) ->
  flow_confined dstl dst0 (dec_refblk_2 src srcl dstl (u64 (m - 1)) st).
Proof.
  intros Hm C. pose proof C as [Hop U]. unfold dec_refblk_2. cbv zeta.
  match goal with
  | |- context [if ?c then Stop _ _ _ else _] => destruct c
  end.
  { cbn [flow_confined]. rewrite s32_id by lia. exact C. }
  pose proof (land_15_range (d_bh st)) as H15.
  assert (G : forall long ip bh cc, 0 <= cc -> (long = false -> cc <= 63) ->
            flow_confined dstl dst0
              match
                ref_expand long (d_dst st) (d_op st)
                  (d_op st -
                   Z.lor
                     (u64
                        (Z.shiftl
                           (Z.lor (Z.shiftr (d_bh st) 6)
                              (Z.shiftl
                                 (Z.land
                                    (Z.land (load32 src (d_ip st + 1))
                                       (u32
                                          (Z.shiftl 1
                                             (Z.shiftl
                                                (Z.land
                                                   (Z.shiftr (d_bh st) 4) 3)
                                                3) - 1))) 2097151) 2))
                           (d_csh st))) (d_cv st)) cc (dstl - 63) dstl
              with
              | inl (dst, op) =>
                  Next (mk_dstate ip op bh
                          (Z.shiftr
                             (Z.land (load32 src (d_ip st + 1))
                                (u32
                                   (Z.shiftl 1
                                      (Z.shiftl
                                         (Z.land (Z.shiftr (d_bh st) 4) 3) 3)
                                    - 1))) 21)
                          (ocsh (Z.land (Z.shiftr (d_bh st) 4) 3)) dst)
              | inr (dst, op, ipd) =>
                  Stop LZAV_E_DSTOOB dstl (lzav_memmove dst op ipd (dstl - op))
              end).
  { intros long ip bh cc Hcc Hs.
    pose proof (ref_expand_confined long (d_dst st) (d_op st)
                  (d_op st -
                   Z.lor
                     (u64
                        (Z.shiftl
                           (Z.lor (Z.shiftr (d_bh st) 6)
                              (Z.shiftl
                                 (Z.land
                                    (Z.land (load32 src (d_ip st + 1))
                                       (u32
                                          (Z.shiftl 1
                                             (Z.shiftl
                                                (Z.land
                                                   (Z.shiftr (d_bh st) 4) 3)
                                                3) - 1))) 2097151) 2))
                           (d_csh st))) (d_cv st)) cc C Hcc Hs) as R.
    destruct (ref_expand _ _ _ _ _ _ _) as [[dst op] | [[dst op] ipd]];
      cbn [flow_confined d_op d_dst].
    - exact R.
    - pose proof R as [Hop' _].
      eapply confined_step; [exact R | lia |].
      apply untouched_lzav_memmove; lia. }
  destruct (Z.eqb_spec (Z.land (d_bh st) 15) 0) as [E0 | N0]; cbn [negb].
  - match goal with
    | |- context [if ?c then _ else _] => destruct c
    end; apply G; try apply u64_nonneg; discriminate.
  - apply G.
    + apply short_ref_length; lia.
    + intros _. pose proof (short_ref_length (Z.land (d_bh st) 15) m
                              ltac:(lia) Hm). lia.
Qed.

(** The tail of a literal block. *)
Lemma lit_tail_2_confined src srcl st ip op ipd cc ncv dst :
  confined dstl dst0 op dst -> 0 <= cc ->
  flow_confined dstl dst0 (lit_tail_2 src srcl dstl st ip op ipd cc ncv dst).
Proof.
  intros C Hcc. pose proof C as [Hop _]. unfold lit_tail_2. cbv zeta.
  assert (Body : forall bh,
            flow_confined dstl dst0
              (if op + cc >? dstl
               then Stop LZAV_E_DSTOOB dstl
                      (lzav_memcpy dst op src ipd (dstl - op))
               else Next (mk_dstate ip (op + cc) bh
                            (Z.lor (d_cv st) ncv) (s32 (d_csh st + 2))
                            (copy_bytes (Z.to_nat cc) dst op src ipd)))).
  { intros bh. destruct (Z.gtb_spec (op + cc) dstl);
      cbn [flow_confined d_op d_dst].
    - eapply confined_step; [exact C | lia |].
      apply untouched_lzav_memcpy; lia.
    - eapply confined_step; [exact C | lia |].
      apply untouched_copy_bytes. lia. }
  destruct (ip <? srcl); [apply Body |].
  destruct (negb (ip =? srcl)); [| apply Body].
  pose proof (u64_nonneg (srcl - ipd)).
  destruct (Z.ltb_spec (op + u64 (srcl - ipd)) dstl); cbn [flow_confined].
  - rewrite s32_id by lia.
    eapply confined_step; [exact C | lia |].
    apply untouched_lzav_memcpy; lia.
  - eapply confined_step; [exact C | lia |].
    apply untouched_lzav_memcpy; lia.
Qed.

(** A literal block. *)
Lemma dec_literal_2_confined src srcl st :
  confined dstl dst0 (d_op st) (d_dst st) ->
  match dec_literal_2 src srcl dstl st with
  | inl st' => confined dstl dst0 (d_op st') (d_dst st')
  | inr f => flow_confined dstl dst0 f
  end.
Proof.
  intros C. pose proof C as [Hop _]. unfold dec_literal_2. cbv zeta.
  pose proof (land_15_range (d_bh st)) as H15.
  destruct (negb (Z.land (d_bh st) 15 =? 0)).
  - destruct (Z.ltb_spec (d_op st) (dstl - 63)); cbn [andb].
    + destruct (d_ip st + 1 <? srcl - 15 - 7).
      * cbn [d_op d_dst].
        eapply confined_step; [exact C | lia |].
        apply untouched_lzav_memcpy; lia.
      * apply lit_tail_2_confined; [exact C | lia].
    + apply lit_tail_2_confined; [exact C | lia].
  - pose proof (read_len_loop_mono 5 src (d_ip st + 1 + 1)
                  (load8 src (d_ip st + 1))
                  (Z.land (load8 src (d_ip st + 1)) 127) 7
                  ltac:(apply land_nonneg_r; lia) ltac:(lia)) as [_ Hcc].
    destruct (read_len_loop 5 src (d_ip st + 1 + 1)
                (load8 src (d_ip st + 1))
                (Z.land (load8 src (d_ip st + 1)) 127) 7) as [ip cc].
    cbn [snd] in Hcc.
    destruct (Z.ltb_spec (d_op st) (dstl - 63)); cbn [andb];
      [| apply lit_tail_2_confined; [exact C | lia]].
    destruct (ip <? srcl - 63 - 16);
      [| apply lit_tail_2_confined; [exact C | lia]].
    assert (C4 : forall op', 0 <= op' <= dstl ->
              confined dstl dst0 op'
                (lzav_memcpy
                   (lzav_memcpy
                      (lzav_memcpy (lzav_memcpy (d_dst st) (d_op st) src ip 16)
                         (d_op st + 16) src (ip + 16) 16)
                      (d_op st + 32) src (ip + 32) 16)
                   (d_op st + 48) src (ip + 48) 16)).
    { intros op' Hop'. eapply confined_step; [exact C | exact Hop' |].
      repeat (eapply untouched_trans;
              [apply untouched_lzav_memcpy; lia |]).
      apply untouched_refl. }
    destruct (Z.ltb_spec (cc + 16) 65).
    + cbn [d_op d_dst]. apply C4. lia.
    + apply lit_tail_2_confined; [apply C4; lia | lia].
Qed.

Lemma dec_block_2_confined src srcl m st :
  0 <= m <= 15 ->
  confined dstl dst0 (d_op st) (d_dst st) ->
  flow_confined dstl dst0 (dec_block_2 src srcl dstl (u64 (m - 1)) st).
Proof.
  intros Hm C. unfold dec_block_2.
  destruct (Z.land (d_bh st) 48 =? 0);
    [| now apply dec_refblk_2_confined].
  pose proof (dec_literal_2_confined src srcl st C) as L.
  destruct (dec_literal_2 src srcl dstl st) as [st1 | f]; [| exact L].
  now apply dec_refblk_2_confined.
Qed.

Lemma dec_loop_2_confined src srcl m fuel : forall st v pwl dst',
  0 <= m <= 15 ->
  confined dstl dst0 (d_op st) (d_dst st) ->
  dec_loop_2 fuel src srcl dstl (u64 (m - 1)) st = Some (v, pwl, dst') ->
  confined dstl dst0 pwl dst'.
Proof.
  induction fuel as [| n IH]; intros st v pwl dst' Hm C H;
    cbn [dec_loop_2] in H; pose proof C as [Hop _].
  - destruct (d_ip st <? srcl - 6); [discriminate |].
    destruct (negb (d_op st =? dstl)); injection H as <- <- <-.
    + rewrite s32_id by lia. exact C.
    + eapply confined_step; [exact C | lia | apply untouched_refl].
  - destruct (d_ip st <? srcl - 6).
    + pose proof (dec_block_2_confined src srcl m st Hm C) as B.
      destruct (dec_block_2 src srcl dstl (u64 (m - 1)) st)
        as [st1 | v1 p1 d1].
      * eapply IH; eassumption.
      * injection H as <- <- <-. exact B.
    + destruct (negb (d_op st =? dstl)); injection H as <- <- <-.
      * rewrite s32_id by lia. exact C.
      * eapply confined_step; [exact C | lia | apply untouched_refl].
Qed.

(** The same for the blocks of stream format 1. *)
Lemma dec_literal_1_confined src srcl st :
  confined dstl dst0 (d_op st) (d_dst st) ->
  match dec_literal_1 src srcl dstl st with
  | inl st' => confined dstl dst0 (d_op st') (d_dst st')
  | inr f => flow_confined dstl dst0 f
  end.
Proof.
  intros C. pose proof C as [Hop _]. unfold dec_literal_1. cbv zeta.
  pose proof (land_15_range (d_bh st)) as H15.
  assert (Tail : forall ip op ipd cc dst,
            confined dstl dst0 op dst -> 0 <= cc ->
            flow_confined dstl dst0
              (if ip <? srcl
               then
                 if op + cc >? dstl then Stop LZAV_E_DSTOOB dstl dst
                 else Next (mk_dstate ip (op + cc) (load8 src ip)
                              (Z.shiftr (d_bh st) 6) 2
                              (copy_bytes (Z.to_nat cc) dst op src ipd))
               else if negb (ip =? srcl) then Stop LZAV_E_SRCOOB dstl dst
               else
                 if op + cc >? dstl then Stop LZAV_E_DSTOOB dstl dst
                 else Next (mk_dstate ip (op + cc) (d_bh st)
                              (Z.shiftr (d_bh st) 6) 2
                              (copy_bytes (Z.to_nat cc) dst op src ipd)))).
  { intros ip op ipd cc dst C1 Hcc. pose proof C1 as [Hop1 U1].
    assert (S : forall v, flow_confined dstl dst0 (Stop v dstl dst)).
    { intros v. cbn [flow_confined]. split; [lia | exact U1]. }
    assert (N : forall bh, op + cc <= dstl ->
              flow_confined dstl dst0
                (Next (mk_dstate ip (op + cc) bh (Z.shiftr (d_bh st) 6) 2
                         (copy_bytes (Z.to_nat cc) dst op src ipd)))).
    { intros bh Hle. cbn [flow_confined d_op d_dst].
      eapply confined_step; [exact C1 | lia |].
      apply untouched_copy_bytes. lia. }
    destruct (ip <? srcl); [| destruct (negb (ip =? srcl))];
      try apply S;
      (destruct (Z.gtb_spec (op + cc) dstl); [apply S | now apply N]). }
  destruct (negb (Z.land (d_bh st) 15 =? 0)).
  - destruct (Z.ltb_spec (d_op st) (dstl - 63)); cbn [andb].
    + destruct (d_ip st + 1 <? srcl - 15 - 6).
      * cbn [d_op d_dst].
        eapply confined_step; [exact C | lia |].
        apply untouched_lzav_memcpy; lia.
      * apply Tail; [exact C | lia].
    + apply Tail; [exact C | lia].
  - set (bv := load16 src (d_ip st + 1)).
    set (l2 := Z.land bv 255).
    set (lb := b2z (l2 =? 255)).
    assert (Hl2 : 0 <= l2) by (apply land_nonneg_r; lia).
    assert (Hlb : 0 <= 256 - lb).
    { unfold lb. destruct (l2 =? 255); cbn [b2z]; lia. }
    assert (Hc : 0 <= l2 + Z.land (Z.shiftr bv 8) (256 - lb)).
    { pose proof (land_nonneg_r (Z.shiftr bv 8) (256 - lb) Hlb). lia. }
    set (cc := 16 + (l2 + Z.land (Z.shiftr bv 8) (256 - lb))) in *.
    set (ipd := d_ip st + 1 + 1 + lb).
    destruct (Z.ltb_spec (d_op st) (dstl - 63)); cbn [andb];
      [| apply Tail; [exact C | lia]].
    destruct (ipd <? srcl - 63 - 1); [| apply Tail; [exact C | lia]].
    assert (C4 : forall op', 0 <= op' <= dstl ->
              confined dstl dst0 op'
                (lzav_memcpy
                   (lzav_memcpy
                      (lzav_memcpy
                         (lzav_memcpy (d_dst st) (d_op st) src ipd 16)
                         (d_op st + 16) src (ipd + 16) 16)
                      (d_op st + 32) src (ipd + 32) 16)
                   (d_op st + 48) src (ipd + 48) 16)).
    { intros op' Hop'. eapply confined_step; [exact C | exact Hop' |].
      repeat (eapply untouched_trans;
              [apply untouched_lzav_memcpy; lia |]).
      apply untouched_refl. }
    destruct (Z.ltb_spec cc 65).
    + cbn [flow_confined d_op d_dst]. apply C4. lia.
    + apply Tail; [apply C4; lia | lia].
Qed.

Lemma dec_refblk_1_confined src srcl m st :
  0 <= m <= 15 ->
  confined dstl dst0 (d_op st) (d_dst st) ->
  flow_confined dstl dst0 (dec_refblk_1 src srcl dstl (u64 (m - 1)) st).
Proof.
  intros Hm C. pose proof C as [Hop U]. unfold dec_refblk_1. cbv zeta.
  pose proof (land_15_range (d_bh st)) as H15.
  assert (G : forall long ipd cc ip bh cv csh,
            0 <= cc -> (long = false -> cc <= 63) ->
            flow_confined dstl dst0
              match ref_expand long (d_dst st) (d_op st) ipd cc (dstl - 63) dstl
              with
              | inl (dst, op) => Next (mk_dstate ip op bh cv csh dst)
              | inr (dst, _, _) => Stop LZAV_E_DSTOOB dstl dst
              end).
  { intros long ipd cc ip bh cv csh Hcc Hs.
    pose proof (ref_expand_confined long (d_dst st) (d_op st) ipd cc
                  C Hcc Hs) as R.
    destruct (ref_expand _ _ _ _ _ _ _) as [[dst op] | [[dst op] ipd']];
      cbn [flow_confined d_op d_dst].
    - exact R.
    - destruct R as [_ R]. split; [lia | exact R]. }
  assert (Stp : flow_confined dstl dst0 (Stop LZAV_E_REFOOB dstl (d_dst st))).
  { cbn [flow_confined]. split; [lia | exact U]. }
  assert (Short := short_ref_length (Z.land (d_bh st) 15) m).
  destruct (Z.land (d_bh st) 32 =? 0);
    [| destruct (Z.land (d_bh st) 16 =? 0)];
    (match goal with
     | |- context [if ?c then Stop _ _ _ else _] => destruct c
     end; [exact Stp |]);
    (destruct (Z.eqb_spec (Z.land (d_bh st) 15) 0); cbn [negb];
     apply G; try apply u64_nonneg; try discriminate; intros; lia).
Qed.

Lemma dec_block_1_confined src srcl m st :
  0 <= m <= 15 ->
  confined dstl dst0 (d_op st) (d_dst st) ->
  flow_confined dstl dst0 (dec_block_1 src srcl dstl (u64 (m - 1)) st).
Proof.
  intros Hm C. unfold dec_block_1.
  destruct (Z.land (d_bh st) 48 =? 0);
    [| now apply dec_refblk_1_confined].
  pose proof (dec_literal_1_confined src srcl st C) as L.
  destruct (dec_literal_1 src srcl dstl st) as [st1 | f]; [| exact L].
  now apply dec_refblk_1_confined.
Qed.

Lemma dec_loop_1_confined src srcl m fuel : forall st v dst',
  0 <= m <= 15 ->
  confined dstl dst0 (d_op st) (d_dst st) ->
  dec_loop_1 fuel src srcl dstl (u64 (m - 1)) st = Some (v, dst') ->
  untouched_from dstl dst' dst0.
Proof.
  induction fuel as [| n IH]; intros st v dst' Hm C H;
    cbn [dec_loop_1] in H; pose proof C as [Hop U].
  - destruct (d_ip st <? srcl - 5); [discriminate |].
    destruct (negb (d_op st =? dstl)); injection H as <- <-; exact U.
  - destruct (d_ip st <? srcl - 5).
    + pose proof (dec_block_1_confined src srcl m st Hm C) as B.
      destruct (dec_block_1 src srcl dstl (u64 (m - 1)) st)
        as [st1 | v1 p1 d1].
      * eapply IH; eassumption.
      * injection H as <- <-. apply B.
    + destruct (negb (d_op st =? dstl)); injection H as <- <-; exact U.
Qed.

End DecoderConfined.

Section DecoderConfinedEntry.

Local Abbreviation len l := (Z.of_nat (length l)).

(** What [lzav_decompress_2] leaves: [*pwl] is inside the destination
    length, and the destination is as it was from there on. *)
Lemma lzav_decompress_2_confined (s d : buf) (srcl dstl v pwl : Z) (d' : buf) :
  0 <= dstl < 2 ^ 31 ->
  lzav_decompress_2 s d srcl dstl = Some (v, pwl, d') ->
  confined dstl d pwl d'.
Proof.
  intros Hd H. unfold lzav_decompress_2 in H. cbv zeta in H.
  destruct (1 >=? srcl - 6).
  - inversion H; subst. split; [cbn; lia | apply untouched_refl].
  - eapply (dec_loop_2_confined dstl d Hd s srcl (Z.land (load8 s 0) 15));
      [apply land_15_range | | exact H].
    cbn [d_op d_dst]. split; [lia | apply untouched_refl].
Qed.

Lemma lzav_decompress_1_confined (s d : buf) (srcl dstl v : Z) (d' : buf) :
  0 <= dstl < 2 ^ 31 ->
  lzav_decompress_1 s d srcl dstl = Some (v, d') ->
  untouched_from dstl d' d.
Proof.
  intros Hd H. unfold lzav_decompress_1 in H. cbv zeta in H.
  destruct (1 >=? srcl - 5).
  - injection H as <- <-. apply untouched_refl.
  - eapply (dec_loop_1_confined dstl d Hd s srcl (Z.land (load8 s 0) 15));
      [apply land_15_range | | exact H].
    cbn [d_op d_dst]. split; [lia | apply untouched_refl].
Qed.





End DecoderConfinedEntry.

(** ** Words and their bytes *)

Section WordBytes.

Local Abbreviation len l := (Z.of_nat (length l)).

Variable b : buf.
Hypothesis b_ok : bytes_ok b.

Lemma load8_byte i : 0 <= load8 b i < 256.
Proof.
  unfold load8. destruct (i <? 0); [lia |].
  destruct (nth_in_or_default (Z.to_nat i) b 0) as [Hin | ->]; [| lia].
  unfold bytes_ok in b_ok. rewrite Forall_forall in b_ok. now apply b_ok.
Qed.

Lemma testbit_byte_high x j : 0 <= x < 256 -> 8 <= j -> Z.testbit x j = false.
Proof.
  intros Hx Hj. destruct (Z.eq_dec x 0) as [-> | Hx0]; [apply Z.bits_0 |].
  apply Z.bits_above_log2; [lia |].
  apply Z.lt_le_trans with 8; [| exact Hj].
  apply Z.log2_lt_pow2; [lia |]. change (2 ^ 8) with 256. lia.
Qed.

Lemma testbit_load8_high i j : 8 <= j -> Z.testbit (load8 b i) j = false.
Proof. apply testbit_byte_high, load8_byte. Qed.

Lemma testbit_load16 q j :
  Z.testbit (load16 b q) j =
  if j <? 8 then Z.testbit (load8 b q) j
  else Z.testbit (load8 b (q + 1)) (j - 8).
Proof.
  unfold load16. destruct (Z.lt_ge_cases j 0) as [Hn | Hp].
  { rewrite !Z.testbit_neg_r by lia. now destruct (j <? 8). }
  rewrite Z.lor_spec, Z.shiftl_spec by lia.
  destruct (Z.ltb_spec j 8).
  - rewrite (Z.testbit_neg_r _ (j - 8)) by lia. apply orb_false_r.
  - now rewrite testbit_load8_high by lia.
Qed.

Lemma testbit_load16_high q j : 16 <= j -> Z.testbit (load16 b q) j = false.
Proof.
  intros H. rewrite testbit_load16.
  destruct (Z.ltb_spec j 8); [lia |]. apply testbit_load8_high. lia.
Qed.

Lemma testbit_load32 q j :
  Z.testbit (load32 b q) j =
  if j <? 16 then Z.testbit (load16 b q) j
  else Z.testbit (load16 b (q + 2)) (j - 16).
Proof.
  unfold load32. destruct (Z.lt_ge_cases j 0) as [Hn | Hp].
  { rewrite !Z.testbit_neg_r by lia. now destruct (j <? 16). }
  rewrite Z.lor_spec, Z.shiftl_spec by lia.
  destruct (Z.ltb_spec j 16).
  - rewrite (Z.testbit_neg_r _ (j - 16)) by lia. apply orb_false_r.
  - now rewrite testbit_load16_high by lia.
Qed.

Lemma testbit_load32_high q j : 32 <= j -> Z.testbit (load32 b q) j = false.
Proof.
  intros H. rewrite testbit_load32.
  destruct (Z.ltb_spec j 16); [lia |]. apply testbit_load16_high. lia.
Qed.

Lemma testbit_load64 q j :
  Z.testbit (load64 b q) j =
  if j <? 32 then Z.testbit (load32 b q) j
  else Z.testbit (load32 b (q + 4)) (j - 32).
Proof.
  unfold load64. destruct (Z.lt_ge_cases j 0) as [Hn | Hp].
  { rewrite !Z.testbit_neg_r by lia. now destruct (j <? 32). }
  rewrite Z.lor_spec, Z.shiftl_spec by lia.
  destruct (Z.ltb_spec j 32).
  - rewrite (Z.testbit_neg_r _ (j - 32)) by lia. apply orb_false_r.
  - now rewrite testbit_load32_high by lia.
Qed.

(** Bit [8 * k + t] of a word is bit [t] of its byte [k]. *)
Lemma testbit_load16_byte q k t :
  0 <= k < 2 -> 0 <= t < 8 ->
  Z.testbit (load16 b q) (8 * k + t) = Z.testbit (load8 b (q + k)) t.
Proof.
  intros Hk Ht. rewrite testbit_load16.
  assert (k = 0 \/ k = 1) as [-> | ->] by lia.
  - destruct (Z.ltb_spec (8 * 0 + t) 8); [| lia].
    now replace (q + 0) with q by lia.
  - destruct (Z.ltb_spec (8 * 1 + t) 8); [lia |].
    now replace (8 * 1 + t - 8) with t by lia.
Qed.

Lemma testbit_load32_byte q k t :
  0 <= k < 4 -> 0 <= t < 8 ->
  Z.testbit (load32 b q) (8 * k + t) = Z.testbit (load8 b (q + k)) t.
Proof.
  intros Hk Ht. rewrite testbit_load32.
  destruct (Z.ltb_spec (8 * k + t) 16).
  - apply testbit_load16_byte; lia.
  - replace (8 * k + t - 16) with (8 * (k - 2) + t) by lia.
    rewrite testbit_load16_byte by lia.
    now replace (q + 2 + (k - 2)) with (q + k) by lia.
Qed.

Lemma testbit_load64_byte q k t :
  0 <= k < 8 -> 0 <= t < 8 ->
  Z.testbit (load64 b q) (8 * k + t) = Z.testbit (load8 b (q + k)) t.
Proof.
  intros Hk Ht. rewrite testbit_load64.
  destruct (Z.ltb_spec (8 * k + t) 32).
  - apply testbit_load32_byte; lia.
  - replace (8 * k + t - 32) with (8 * (k - 4) + t) by lia.
    rewrite testbit_load32_byte by lia.
    now replace (q + 4 + (k - 4)) with (q + k) by lia.
Qed.

Lemma testbit_load64_high q j : 64 <= j -> Z.testbit (load64 b q) j = false.
Proof.
  intros H. rewrite testbit_load64.
  destruct (Z.ltb_spec j 32); [lia |]. apply testbit_load32_high. lia.
Qed.

Lemma load64_range q : 0 <= load64 b q < 2 ^ 64.
Proof.
  assert (N : 0 <= load64 b q).
  { apply Z.bits_iff_nonneg_ex. exists 64. intros m Hm.
    apply testbit_load64_high. lia. }
  split; [exact N |].
  destruct (Z.eq_dec (load64 b q) 0) as [-> | Hne]; [reflexivity |].
  apply Z.log2_lt_pow2; [lia |].
  destruct (Z.lt_ge_cases (Z.log2 (load64 b q)) 64) as [Hl | Hl];
    [exact Hl |].
  pose proof (Z.bit_log2 (load64 b q) ltac:(lia)) as Hb.
  rewrite testbit_load64_high in Hb by lia. discriminate.
Qed.

(** Two bytes differ in one of their 8 bits. *)
Lemma byte_diff_bit x y :
  0 <= x < 256 -> 0 <= y < 256 -> x <> y ->
  exists t, 0 <= t < 8 /\ Z.testbit x t <> Z.testbit y t.
Proof.
  intros Hx Hy Hne.
  assert (A : (forall t, 0 <= t < 8 -> Z.testbit x t = Z.testbit y t) ->
              x = y).
  { intros A. apply Z.bits_inj'. intros n Hn.
    destruct (Z.lt_ge_cases n 8);
      [apply A; lia | now rewrite !testbit_byte_high by lia]. }
  destruct (Bool.bool_dec (Z.testbit x 0) (Z.testbit y 0));
    [| exists 0; split; [lia | assumption]].
  destruct (Bool.bool_dec (Z.testbit x 1) (Z.testbit y 1));
    [| exists 1; split; [lia | assumption]].
  destruct (Bool.bool_dec (Z.testbit x 2) (Z.testbit y 2));
    [| exists 2; split; [lia | assumption]].
  destruct (Bool.bool_dec (Z.testbit x 3) (Z.testbit y 3));
    [| exists 3; split; [lia | assumption]].
  destruct (Bool.bool_dec (Z.testbit x 4) (Z.testbit y 4));
    [| exists 4; split; [lia | assumption]].
  destruct (Bool.bool_dec (Z.testbit x 5) (Z.testbit y 5));
    [| exists 5; split; [lia | assumption]].
  destruct (Bool.bool_dec (Z.testbit x 6) (Z.testbit y 6));
    [| exists 6; split; [lia | assumption]].
  destruct (Bool.bool_dec (Z.testbit x 7) (Z.testbit y 7));
    [| exists 7; split; [lia | assumption]].
  exfalso. apply Hne, A. intros t Ht.
  assert (t = 0 \/ t = 1 \/ t = 2 \/ t = 3 \/ t = 4 \/ t = 5 \/ t = 6
          \/ t = 7) as C by lia.
  destruct C as [-> | [-> | [-> | [-> | [-> | [-> | [-> | ->]]]]]]];
    assumption.
Qed.

End WordBytes.

(** ** Match lengths *)

Section MatchingSpec.

Variable b : buf.

(** [matching_leading] is the index of the first pair of bytes that
    differ. *)
Lemma matching_leading_spec n : forall p1 p2,
  0 <= matching_leading n b p1 p2 <= Z.of_nat n
  /\ (forall i, 0 <= i < matching_leading n b p1 p2 ->
        load8 b (p1 + i) = load8 b (p2 + i))
  /\ (matching_leading n b p1 p2 < Z.of_nat n ->
      load8 b (p1 + matching_leading n b p1 p2)
      <> load8 b (p2 + matching_leading n b p1 p2)).
Proof.
  induction n as [| n IH]; intros p1 p2; cbn [matching_leading].
  { split; [lia |]. split; [intros; lia | lia]. }
  destruct (Z.eqb_spec (load8 b p1) (load8 b p2)) as [E | N].
  - destruct (IH (p1 + 1) (p2 + 1)) as [H1 [H2 H3]].
    split; [lia |]. split.
    + intros i Hi. destruct (Z.eq_dec i 0) as [-> | Hi0].
      * now rewrite !Z.add_0_r.
      * specialize (H2 (i - 1) ltac:(lia)).
        now replace (p1 + 1 + (i - 1)) with (p1 + i) in H2 by lia;
          replace (p2 + 1 + (i - 1)) with (p2 + i) in H2 by lia.
    + intros Hlt. specialize (H3 ltac:(lia)).
      replace (p1 + (1 + matching_leading n b (p1 + 1) (p2 + 1)))
        with (p1 + 1 + matching_leading n b (p1 + 1) (p2 + 1)) by lia.
      replace (p2 + (1 + matching_leading n b (p1 + 1) (p2 + 1)))
        with (p2 + 1 + matching_leading n b (p1 + 1) (p2 + 1)) by lia.
      exact H3.
  - split; [lia |]. split; [intros; lia |].
    intros _. now rewrite !Z.add_0_r.
Qed.

Lemma matching_leading_unique n p1 p2 k :
  0 <= k <= Z.of_nat n ->
  (forall i, 0 <= i < k -> load8 b (p1 + i) = load8 b (p2 + i)) ->
  (k < Z.of_nat n -> load8 b (p1 + k) <> load8 b (p2 + k)) ->
  matching_leading n b p1 p2 = k.
Proof.
  intros Hk He Hd.
  destruct (matching_leading_spec n p1 p2) as [H1 [H2 H3]].
  destruct (Z.lt_trichotomy (matching_leading n b p1 p2) k) as [L | [E | G]].
  - exfalso. apply H3; [lia |]. apply He. lia.
  - exact E.
  - exfalso. apply Hd; [lia |]. apply H2. lia.
Qed.

End MatchingSpec.

Section CountTrailingZeros.

(** [ctz_from] stops at a set bit, no later than any set bit in its
    reach. *)
Lemma ctz_from_le fuel : forall i v j,
  i <= j < i + Z.of_nat fuel -> Z.testbit v j = true ->
  i <= ctz_from fuel i v <= j /\ Z.testbit v (ctz_from fuel i v) = true.
Proof.
  induction fuel as [| n IH]; intros i v j Hj Hb; [lia |].
  cbn [ctz_from]. destruct (Z.testbit v i) eqn:E.
  - split; [lia | exact E].
  - assert (j <> i) by (intros ->; congruence).
    destruct (IH (i + 1) v j ltac:(lia) Hb) as [H1 H2].
    split; [lia | exact H2].
Qed.

End CountTrailingZeros.

Section WordCompare.

Variable b : buf.
Hypothesis b_ok : bytes_ok b.

(** A little-endian load of [W] bytes. *)
Variable W : Z.
Variable ld : Z -> Z.
Hypothesis W_pos : 1 <= W.
Hypothesis ld_byte : forall q k t,
  0 <= k < W -> 0 <= t < 8 ->
  Z.testbit (ld q) (8 * k + t) = Z.testbit (load8 b (q + k)) t.
Hypothesis ld_high : forall q j, 8 * W <= j -> Z.testbit (ld q) j = false.

Lemma word_eq_bytes p1 p2 :
  (forall k, 0 <= k < W -> load8 b (p1 + k) = load8 b (p2 + k)) ->
  ld p1 = ld p2.
Proof.
  intros H. apply Z.bits_inj'. intros n Hn.
  destruct (Z.lt_ge_cases n (8 * W)) as [Hl | Hg];
    [| now rewrite !ld_high by lia].
  rewrite (Z.div_mod n 8) by lia.
  pose proof (Z.mod_pos_bound n 8 ltac:(lia)).
  assert (0 <= n / 8 < W).
  { split; [apply Z.div_pos; lia | apply Z.div_lt_upper_bound; lia]. }
  rewrite !ld_byte by lia. now rewrite H by lia.
Qed.

Lemma word_bytes_eq p1 p2 :
  ld p1 = ld p2 ->
  forall k, 0 <= k < W -> load8 b (p1 + k) = load8 b (p2 + k).
Proof.
  intros E k Hk.
  destruct (Z.eq_dec (load8 b (p1 + k)) (load8 b (p2 + k))) as [|N];
    [assumption | exfalso].
  destruct (byte_diff_bit _ _ (load8_byte b b_ok (p1 + k))
              (load8_byte b b_ok (p2 + k)) N) as [t [Ht D]].
  apply D. rewrite <- !ld_byte by lia. now rewrite E.
Qed.

(** The trailing zeros of the difference of two words, in bytes, count the
    leading bytes the words share. *)
Lemma word_diff_ctz p1 p2 fuel :
  Z.lxor (ld p1) (ld p2) <> 0 -> 8 * W <= Z.of_nat fuel ->
  exists k,
    0 <= k < W
    /\ (forall i, 0 <= i < k -> load8 b (p1 + i) = load8 b (p2 + i))
    /\ load8 b (p1 + k) <> load8 b (p2 + k)
    /\ Z.shiftr (ctz_from fuel 0 (Z.lxor (ld p1) (ld p2))) 3 = k.
Proof.
  intros Hne Hf.
  destruct (matching_leading_spec b (Z.to_nat W) p1 p2) as [H1 [H2 H3]].
  set (k := matching_leading (Z.to_nat W) b p1 p2) in *.
  rewrite Z2Nat.id in H1, H3 by lia.
  destruct (Z.eq_dec k W) as [EW | NW].
  { exfalso. apply Hne. rewrite (word_eq_bytes p1 p2); [apply Z.lxor_nilpotent |].
    intros i Hi. apply H2. lia. }
  specialize (H3 ltac:(lia)).
  exists k. split; [lia |]. split; [exact H2 |]. split; [exact H3 |].
  destruct (byte_diff_bit _ _ (load8_byte b b_ok (p1 + k))
              (load8_byte b b_ok (p2 + k)) H3) as [t [Ht D]].
  set (vd := Z.lxor (ld p1) (ld p2)).
  assert (Hset : Z.testbit vd (8 * k + t) = true).
  { unfold vd. rewrite Z.lxor_spec, !ld_byte by lia.
    destruct (Z.testbit (load8 b (p1 + k)) t),
             (Z.testbit (load8 b (p2 + k)) t); try reflexivity;
      exfalso; now apply D. }
  destruct (ctz_from_le fuel 0 vd (8 * k + t) ltac:(lia) Hset) as [[C0 C1] C2].
  set (c := ctz_from fuel 0 vd) in *.
  assert (Hlow : 8 * k <= c).
  { destruct (Z.lt_ge_cases c (8 * k)) as [Hl | Hg]; [exfalso | exact Hg].
    pose proof (Z.mod_pos_bound c 8 ltac:(lia)).
    assert (0 <= c / 8 < k).
    { split; [apply Z.div_pos; lia | apply Z.div_lt_upper_bound; lia]. }
    rewrite (Z.div_mod c 8) in C2 by lia. unfold vd in C2.
    rewrite Z.lxor_spec, !ld_byte in C2 by lia.
    rewrite H2 in C2 by lia.
    now rewrite xorb_nilpotent in C2. }
  rewrite Z.shiftr_div_pow2 by lia. change (2 ^ 3) with 8.
  symmetry. apply (Z.div_unique c 8 k (c - 8 * k)); lia.
Qed.

End WordCompare.

Section WordCompareInstances.

Variable b : buf.
Hypothesis b_ok : bytes_ok b.

(** The test and the count of the 8-byte loop. *)
Lemma words64_equal p1 p2 :
  Z.lxor (load64 b p1) (load64 b p2) = 0 ->
  forall k, 0 <= k < 8 -> load8 b (p1 + k) = load8 b (p2 + k).
Proof.
  intros E. apply Z.lxor_eq in E.
  apply (word_bytes_eq b b_ok 8 (load64 b));
    first [ exact E | (intros; now apply testbit_load64_byte) ].
Qed.

Lemma words64_differ p1 p2 :
  Z.lxor (load64 b p1) (load64 b p2) <> 0 ->
  exists k,
    0 <= k < 8
    /\ (forall i, 0 <= i < k -> load8 b (p1 + i) = load8 b (p2 + i))
    /\ load8 b (p1 + k) <> load8 b (p2 + k)
    /\ Z.shiftr (ctzll (Z.lxor (load64 b p1) (load64 b p2))) 3 = k.
Proof.
  intros N.
  apply (word_diff_ctz b b_ok 8 (load64 b));
    first [ lia | exact N | (intros; now apply testbit_load64_byte)
          | (intros; now apply testbit_load64_high) | (cbn; lia) ].
Qed.

(** The same for the 4-byte step. *)
Lemma words32_equal p1 p2 :
  Z.lxor (load32 b p1) (load32 b p2) = 0 ->
  forall k, 0 <= k < 4 -> load8 b (p1 + k) = load8 b (p2 + k).
Proof.
  intros E. apply Z.lxor_eq in E.
  apply (word_bytes_eq b b_ok 4 (load32 b));
    first [ exact E | (intros; now apply testbit_load32_byte) ].
Qed.

Lemma words32_differ p1 p2 :
  Z.lxor (load32 b p1) (load32 b p2) <> 0 ->
  exists k,
    0 <= k < 4
    /\ (forall i, 0 <= i < k -> load8 b (p1 + i) = load8 b (p2 + i))
    /\ load8 b (p1 + k) <> load8 b (p2 + k)
    /\ Z.shiftr (ctz (Z.lxor (load32 b p1) (load32 b p2))) 3 = k.
Proof.
  intros N.
  apply (word_diff_ctz b b_ok 4 (load32 b));
    first [ lia | exact N | (intros; now apply testbit_load32_byte)
          | (intros; now apply testbit_load32_high) | (cbn; lia) ].
Qed.

End WordCompareInstances.

Section MatchLen.

Variable b : buf.
Hypothesis b_ok : bytes_ok b.

Lemma s64_small x : - 2 ^ 63 <= x < 2 ^ 63 -> s64 x = x.
Proof.
  intros H. unfold s64, swrap.
  change (2 ^ (64 - 1)) with 9223372036854775808.
  change (2 ^ 64) with 18446744073709551616.
  change (2 ^ 63) with 9223372036854775808 in H.
  rewrite Z.mod_small by lia. lia.
Qed.

Lemma padd_small p n : 0 <= n < 2 ^ 63 -> padd p n = p + n.
Proof.
  intros H. unfold padd. rewrite s64_small; [reflexivity |].
  change (2 ^ 63) with 9223372036854775808 in *. lia.
Qed.

Variables p1 p2 ml : Z.
Hypothesis ml_range : 0 <= ml < 2 ^ 63.

Local Abbreviation matched off := (matched b p1 p2 ml off).
Local Abbreviation is_match_len r := (is_match_len b p1 p2 ml r).

Lemma matched_more off k :
  matched off -> 0 <= k -> off + k <= ml ->
  (forall i, 0 <= i < k -> load8 b (p1 + off + i) = load8 b (p2 + off + i)) ->
  matched (off + k).
Proof.
  intros [Ho Hm] Hk Hle He. split; [lia |].
  intros i Hi. destruct (Z.lt_ge_cases i off); [apply Hm; lia |].
  specialize (He (i - off) ltac:(lia)).
  now replace (p1 + off + (i - off)) with (p1 + i) in He by lia;
    replace (p2 + off + (i - off)) with (p2 + i) in He by lia.
Qed.

Lemma matched_stop off k :
  matched off -> 0 <= k -> off + k < ml ->
  (forall i, 0 <= i < k -> load8 b (p1 + off + i) = load8 b (p2 + off + i)) ->
  load8 b (p1 + off + k) <> load8 b (p2 + off + k) ->
  is_match_len (off + k).
Proof.
  intros M Hk Hlt He Hd.
  split; [apply matched_more; try assumption; lia |]. intros _.
  now rewrite !Z.add_assoc.
Qed.

Lemma matched_all : matched ml -> is_match_len ml.
Proof. intros M. split; [exact M | lia]. Qed.

Lemma matched_end r : r = ml -> matched r -> is_match_len r.
Proof. intros E M. split; [exact M | lia]. Qed.

(** The 8-byte loop. *)
Lemma match_len_words_inv fuel : forall off,
  matched off -> (p1 + ml - (p1 + off)) / 8 < Z.of_nat fuel ->
  match match_len_words fuel b p1 (p1 + ml) (p1 + off) (p2 + off) with
  | inl r => is_match_len r
  | inr (q1, q2) =>
      exists off', q1 = p1 + off' /\ q2 = p2 + off' /\ matched off'
                   /\ ml - off' <= 7
  end.
Proof.
  induction fuel as [| n IH]; intros off M Hf; cbn [match_len_words].
  - exists off. repeat split; try apply M.
    destruct (Z.lt_ge_cases (ml - off) 8) as [|G]; [lia | exfalso].
    assert (1 <= (p1 + ml - (p1 + off)) / 8); [| lia].
    apply Z.div_le_lower_bound; lia.
  - pose proof M as [Ho _].
    destruct (Z.ltb_spec (p1 + off + 7) (p1 + ml)) as [Hlt | Hge].
    + destruct (Z.eqb_spec (Z.lxor (load64 b (p1 + off)) (load64 b (p2 + off)))
                  0) as [E | N]; cbn [negb].
      * replace (p1 + off + 8) with (p1 + (off + 8)) by lia.
        replace (p2 + off + 8) with (p2 + (off + 8)) by lia.
        apply IH.
        -- apply matched_more; try lia; [exact M |].
           now apply words64_equal.
        -- replace (p1 + ml - (p1 + (off + 8)))
             with (p1 + ml - (p1 + off) + (-1) * 8) by lia.
           rewrite Z.div_add by lia. lia.
      * destruct (words64_differ b b_ok _ _ N) as [k [Hk [He [Hd Hc]]]].
        rewrite Hc.
        replace (p1 + off - p1 + k) with (off + k) by lia.
        apply matched_stop; try lia; assumption.
    + exists off. repeat split; try apply M. lia.
Qed.

(** The last three bytes. *)
Lemma match_len_tail o :
  matched o -> ml - o <= 3 ->
  is_match_len
    (if p1 + o <? p1 + ml
     then
       if negb (load8 b (p1 + o) =? load8 b (p2 + o))
       then p1 + o - p1
       else
         if p1 + o + 1 <? p1 + ml
         then
           if negb (load8 b (p1 + o + 1) =? load8 b (p2 + o + 1))
           then p1 + o + 1 - p1
           else
             if p1 + o + 1 + 1 <? p1 + ml
             then
               if negb (load8 b (p1 + o + 1 + 1) =? load8 b (p2 + o + 2))
               then p1 + o + 1 + 1 - p1
               else ml
             else ml
         else ml
     else ml).
Proof.
  intros Mo Hr. pose proof Mo as [Hoo _].
  assert (One : forall o', matched o' -> o' < ml ->
            load8 b (p1 + o') = load8 b (p2 + o') -> matched (o' + 1)).
  { intros o' M' Hlt E. apply matched_more; try lia; [exact M' |].
    intros i Hi. replace i with 0 by lia. now rewrite !Z.add_0_r. }
  assert (Stop : forall o', matched o' -> o' < ml ->
            load8 b (p1 + o') <> load8 b (p2 + o') -> is_match_len o').
  { intros o' M' Hlt N. replace o' with (o' + 0) by lia.
    apply matched_stop; try lia; [exact M' |].
    now rewrite !Z.add_0_r. }
  assert (All : forall o', matched o' -> ml <= o' -> is_match_len ml).
  { intros o' M' Hle. destruct M' as [? ?].
    apply matched_all. now replace ml with o' by lia. }
  destruct (Z.ltb_spec (p1 + o) (p1 + ml)); [| now apply (All o); try lia].
  destruct (Z.eqb_spec (load8 b (p1 + o)) (load8 b (p2 + o))) as [E0 | N0];
    cbn [negb];
    [| replace (p1 + o - p1) with o by lia; apply Stop; [exact Mo | lia |];
       assumption].
  pose proof (One o Mo ltac:(lia) E0) as M1.
  destruct (Z.ltb_spec (p1 + o + 1) (p1 + ml));
    [| now apply (All (o + 1)); try lia].
  destruct (Z.eqb_spec (load8 b (p1 + o + 1)) (load8 b (p2 + o + 1)))
    as [E1 | N1]; cbn [negb];
    [| replace (p1 + o + 1 - p1) with (o + 1) by lia;
       apply Stop; [exact M1 | lia |]; now rewrite !Z.add_assoc].
  rewrite <- !Z.add_assoc in E1.
  pose proof (One (o + 1) M1 ltac:(lia) E1) as M2.
  destruct (Z.ltb_spec (p1 + o + 1 + 1) (p1 + ml));
    [| now apply (All (o + 1 + 1)); try lia].
  replace (p2 + o + 2) with (p2 + (o + 1 + 1)) by lia.
  replace (p1 + o + 1 + 1) with (p1 + (o + 1 + 1)) by lia.
  destruct (Z.eqb_spec (load8 b (p1 + (o + 1 + 1)))
              (load8 b (p2 + (o + 1 + 1)))) as [E2 | N2]; cbn [negb];
    [| replace (p1 + (o + 1 + 1) - p1) with (o + 1 + 1) by lia;
       apply Stop; [exact M2 | lia |]; assumption].
  pose proof (One (o + 1 + 1) M2 ltac:(lia) E2) as M3.
  now apply (All (o + 1 + 1 + 1)); try lia.
Qed.

Lemma lzav_match_len_is : is_match_len (lzav_match_len b p1 p2 ml).
Proof.
  unfold lzav_match_len. cbv zeta. rewrite padd_small by exact ml_range.
  assert (M0 : matched 0) by (split; [lia | intros; lia]).
  pose proof (match_len_words_inv
                (Z.to_nat ((p1 + ml - p1) / 8 + 1)) 0 M0) as L.
  rewrite !Z.add_0_r in L.
  assert (0 <= (p1 + ml - p1) / 8) by (apply Z.div_pos; lia).
  specialize (L ltac:(lia)).
  destruct (match_len_words _ b p1 (p1 + ml) p1 p2)
    as [r | [q1 q2]]; [exact L |].
  destruct L as [off [-> [-> [M Hrem]]]]. pose proof M as [Ho _].
  destruct (Z.ltb_spec (p1 + off + 3) (p1 + ml));
    [| apply match_len_tail; [exact M | lia]].
  destruct (Z.eqb_spec
              (Z.lxor (load32 b (p1 + off)) (load32 b (p2 + off))) 0)
    as [E | N]; cbn [negb].
  - replace (p1 + off + 4) with (p1 + (off + 4)) by lia.
    replace (p2 + off + 4) with (p2 + (off + 4)) by lia.
    apply match_len_tail; [| lia].
    apply matched_more; try lia; [exact M |].
    now apply words32_equal.
  - destruct (words32_differ b b_ok _ _ N) as [k [Hk [He [Hd Hc]]]].
    rewrite Hc. replace (p1 + off - p1 + k) with (off + k) by lia.
    apply matched_stop; try lia; assumption.
Qed.

(** X6: [lzav_match_len] returns the number of continuously-matching
    leading bytes, at most [ml], as its comment says: the index of the
    first position where the two ranges differ, found 8, 4 or 1 bytes at a
    time. *)
Theorem lzav_match_len_correct :
  lzav_match_len b p1 p2 ml = matching_leading (Z.to_nat ml) b p1 p2.
Proof.
  destruct lzav_match_len_is as [[H1 H2] H3].
  symmetry. apply matching_leading_unique; rewrite ?Z2Nat.id by lia;
    assumption.
Qed.

(** The byte loops of [lzav_match_len_opt]. *)
Lemma match_bytes_inv fuel : forall off,
  matched off -> ml - off <= Z.of_nat fuel ->
  is_match_len (match_bytes fuel b p1 p2 off ml).
Proof.
  induction fuel as [| n IH]; intros off M Hf; cbn [match_bytes];
    pose proof M as [Ho _].
  - apply matched_end; [lia | exact M].
  - destruct (Z.ltb_spec off ml); cbn [andb];
      [| apply matched_end; [lia | exact M]].
    destruct (Z.eqb_spec (load8 b (p1 + off)) (load8 b (p2 + off)))
      as [E | N].
    + apply IH; [| lia].
      apply matched_more; try lia; [exact M |].
      intros i Hi. replace i with 0 by lia. now rewrite !Z.add_0_r.
    + replace off with (off + 0) by lia.
      apply matched_stop; try lia; [exact M |]. now rewrite !Z.add_0_r.
Qed.

Lemma match_align_inv fuel : forall off misalign,
  matched off ->
  exists off',
    match_align fuel b (p1 + ml) (p1 + off) (p2 + off) misalign
    = (p1 + off', p2 + off')
    /\ matched off'.
Proof.
  induction fuel as [| n IH]; intros off misalign M; cbn [match_align].
  - exists off. split; [reflexivity | exact M].
  - pose proof M as [Ho _].
    destruct (negb (misalign =? 0)); cbn [andb];
      [| exists off; split; [reflexivity | exact M]].
    destruct (Z.ltb_spec (p1 + off) (p1 + ml)); cbn [andb];
      [| exists off; split; [reflexivity | exact M]].
    destruct (Z.eqb_spec (load8 b (p1 + off)) (load8 b (p2 + off)))
      as [E | N]; [| exists off; split; [reflexivity | exact M]].
    replace (p1 + off + 1) with (p1 + (off + 1)) by lia.
    replace (p2 + off + 1) with (p2 + (off + 1)) by lia.
    apply IH. apply matched_more; try lia; [exact M |].
    intros i Hi. replace i with 0 by lia. now rewrite !Z.add_0_r.
Qed.

Lemma match_rest_inv fuel : forall off,
  matched off -> ml - off <= Z.of_nat fuel ->
  is_match_len (match_rest fuel b (p1 + ml) (p1 + off) (p2 + off) - p1).
Proof.
  induction fuel as [| n IH]; intros off M Hf; cbn [match_rest];
    pose proof M as [Ho _].
  - replace (p1 + off - p1) with off by lia.
    apply matched_end; [lia | exact M].
  - destruct (Z.ltb_spec (p1 + off) (p1 + ml)); cbn [andb];
      [| replace (p1 + off - p1) with off by lia;
         apply matched_end; [lia | exact M]].
    destruct (Z.eqb_spec (load8 b (p1 + off)) (load8 b (p2 + off)))
      as [E | N].
    + replace (p1 + off + 1) with (p1 + (off + 1)) by lia.
      replace (p2 + off + 1) with (p2 + (off + 1)) by lia.
      apply IH; [| lia].
      apply matched_more; try lia; [exact M |].
      intros i Hi. replace i with 0 by lia. now rewrite !Z.add_0_r.
    + replace (p1 + off - p1) with (off + 0) by lia.
      apply matched_stop; try lia; [exact M |]. now rewrite !Z.add_0_r.
Qed.

(** Its 8-byte loop. *)
Lemma match_words_opt_inv fuel : forall off,
  matched off -> (p1 + ml - (p1 + off)) / 8 < Z.of_nat fuel ->
  match match_words_opt fuel b p1 (p1 + ml) (p1 + off) (p2 + off) with
  | inl r => is_match_len r
  | inr (q1, q2) =>
      exists off', q1 = p1 + off' /\ q2 = p2 + off' /\ matched off'
                   /\ ml - off' <= 7
  end.
Proof.
  induction fuel as [| n IH]; intros off M Hf; cbn [match_words_opt].
  - exists off. repeat split; try apply M.
    destruct (Z.lt_ge_cases (ml - off) 8) as [|G]; [lia | exfalso].
    assert (1 <= (p1 + ml - (p1 + off)) / 8); [| lia].
    apply Z.div_le_lower_bound; lia.
  - pose proof M as [Ho _].
    destruct (Z.ltb_spec (p1 + off + 7) (p1 + ml)) as [Hlt | Hge].
    + cbv zeta.
      destruct (Z.eqb_spec (load64 b (p1 + off)) (load64 b (p2 + off)))
        as [E | N]; cbn [negb].
      * replace (p1 + off + 8) with (p1 + (off + 8)) by lia.
        replace (p2 + off + 8) with (p2 + (off + 8)) by lia.
        apply IH.
        -- apply matched_more; try lia; [exact M |].
           apply words64_equal; [exact b_ok |].
           rewrite E. apply Z.lxor_nilpotent.
        -- replace (p1 + ml - (p1 + (off + 8)))
             with (p1 + ml - (p1 + off) + (-1) * 8) by lia.
           rewrite Z.div_add by lia. lia.
      * assert (N' : Z.lxor (load64 b (p1 + off)) (load64 b (p2 + off)) <> 0).
        { intros Z0. apply N. now apply Z.lxor_eq. }
        destruct (words64_differ b b_ok _ _ N') as [k [Hk [He [Hd Hc]]]].
        rewrite Hc.
        replace (p1 + off - p1 + k) with (off + k) by lia.
        apply matched_stop; try lia; assumption.
    + exists off. repeat split; try apply M. lia.
Qed.

Lemma lzav_match_len_opt_is (base : Z) :
  is_match_len (lzav_match_len_opt base b p1 p2 ml).
Proof.
  unfold lzav_match_len_opt.
  assert (M0 : matched 0) by (split; [lia | intros; lia]).
  destruct (Z.ltb_spec ml 8); [apply match_bytes_inv; [exact M0 | lia] |].
  cbv zeta. rewrite padd_small by exact ml_range.
  assert (Words : forall off, matched off ->
            is_match_len
              match
                match_words_opt
                  (Z.to_nat ((p1 + ml - (p1 + off)) / 8 + 1)) b p1 (p1 + ml)
                  (p1 + off) (p2 + off)
              with
              | inl r => r
              | inr (q1, q2) => match_rest 8 b (p1 + ml) q1 q2 - p1
              end).
  { intros off M. pose proof M as [Ho _].
    assert (0 <= (p1 + ml - (p1 + off)) / 8) by (apply Z.div_pos; lia).
    pose proof (match_words_opt_inv
                  (Z.to_nat ((p1 + ml - (p1 + off)) / 8 + 1)) off M
                  ltac:(lia)) as L.
    destruct (match_words_opt _ b p1 (p1 + ml) (p1 + off) (p2 + off))
      as [r | [q1 q2]]; [exact L |].
    destruct L as [off' [-> [-> [M' Hrem]]]].
    apply match_rest_inv; [exact M' | lia]. }
  destruct (negb (Z.land (base + p1) 7 =? 0)).
  - pose proof (match_align_inv 8 0 (8 - Z.land (base + p1) 7) M0) as A.
    rewrite !Z.add_0_r in A. destruct A as [off [-> M]].
    pose proof M as [Ho _].
    destruct (Z.ltb_spec (p1 + off) (p1 + ml)); cbn [andb];
      [| apply Words; exact M].
    destruct (Z.eqb_spec (load8 b (p1 + off)) (load8 b (p2 + off)))
      as [E | N]; cbn [negb]; [apply Words; exact M |].
    replace (p1 + off - p1) with (off + 0) by lia.
    apply matched_stop; try lia; [exact M |]. now rewrite !Z.add_0_r.
  - specialize (Words 0 M0). now rewrite !Z.add_0_r in Words.
Qed.

(** X7: [lzav_match_len_opt], built without the vector extensions,
    returns the number of matching leading bytes as [lzav_match_len] does,
    wherever the first buffer lies. *)
Theorem lzav_match_len_opt_correct (base : Z) :
  lzav_match_len_opt base b p1 p2 ml
  = matching_leading (Z.to_nat ml) b p1 p2
  /\ lzav_match_len_opt base b p1 p2 ml = lzav_match_len b p1 p2 ml.
Proof.
  assert (E : lzav_match_len_opt base b p1 p2 ml
              = matching_leading (Z.to_nat ml) b p1 p2).
  { destruct (lzav_match_len_opt_is base) as [[H1 H2] H3].
    symmetry. apply matching_leading_unique; rewrite ?Z2Nat.id by lia;
      assumption. }
  split; [exact E |].
  destruct lzav_match_len_is as [[H1 H2] H3].
  rewrite E. apply matching_leading_unique; rewrite ?Z2Nat.id by lia;
    assumption.
Qed.

End MatchLen.

Section MatchingPriorSpec.

Variable b : buf.

Lemma matching_prior_spec n : forall p1 p2,
  0 <= matching_prior n b p1 p2 <= Z.of_nat n
  /\ (forall i, 1 <= i <= matching_prior n b p1 p2 ->
        load8 b (p1 - i) = load8 b (p2 - i))
  /\ (matching_prior n b p1 p2 < Z.of_nat n ->
      load8 b (p1 - (matching_prior n b p1 p2 + 1))
      <> load8 b (p2 - (matching_prior n b p1 p2 + 1))).
Proof.
  induction n as [| n IH]; intros p1 p2; cbn [matching_prior].
  { split; [lia |]. split; [intros; lia | lia]. }
  destruct (Z.eqb_spec (load8 b (p1 - 1)) (load8 b (p2 - 1))) as [E | N].
  - destruct (IH (p1 - 1) (p2 - 1)) as [H1 [H2 H3]].
    set (k := matching_prior n b (p1 - 1) (p2 - 1)) in *.
    split; [lia |]. split.
    + intros i Hi. destruct (Z.eq_dec i 1) as [-> | Hi1]; [exact E |].
      specialize (H2 (i - 1) ltac:(lia)).
      now replace (p1 - 1 - (i - 1)) with (p1 - i) in H2 by lia;
        replace (p2 - 1 - (i - 1)) with (p2 - i) in H2 by lia.
    + intros Hlt. specialize (H3 ltac:(lia)).
      now replace (p1 - (1 + k + 1)) with (p1 - 1 - (k + 1)) by lia;
        replace (p2 - (1 + k + 1)) with (p2 - 1 - (k + 1)) by lia.
  - split; [lia |]. split; [intros; lia |]. intros _. exact N.
Qed.

Lemma matching_prior_unique n p1 p2 k :
  0 <= k <= Z.of_nat n ->
  (forall i, 1 <= i <= k -> load8 b (p1 - i) = load8 b (p2 - i)) ->
  (k < Z.of_nat n -> load8 b (p1 - (k + 1)) <> load8 b (p2 - (k + 1))) ->
  matching_prior n b p1 p2 = k.
Proof.
  intros Hk He Hd.
  destruct (matching_prior_spec n p1 p2) as [H1 [H2 H3]].
  destruct (Z.lt_trichotomy (matching_prior n b p1 p2) k) as [L | [E | G]].
  - exfalso. apply H3; [lia |]. apply He. lia.
  - exact E.
  - exfalso. apply Hd; [lia |]. apply H2. lia.
Qed.

End MatchingPriorSpec.

Section MatchLenR.

Variable b : buf.
Hypothesis b_ok : bytes_ok b.

(** The two tests of the 2-byte loop. *)
Lemma words16_equal q1 q2 :
  Z.lxor (load16 b q1) (load16 b q2) = 0 ->
  load8 b q1 = load8 b q2 /\ load8 b (q1 + 1) = load8 b (q2 + 1).
Proof.
  intros E. apply Z.lxor_eq in E.
  assert (H : forall k, 0 <= k < 2 -> load8 b (q1 + k) = load8 b (q2 + k)).
  { apply (word_bytes_eq b b_ok 2 (load16 b));
      first [ exact E | (intros; now apply testbit_load16_byte) ]. }
  split; [| apply H; lia].
  specialize (H 0 ltac:(lia)). now rewrite !Z.add_0_r in H.
Qed.

Lemma words16_high q1 q2 :
  (Z.land (Z.lxor (load16 b q1) (load16 b q2)) 65280 =? 0)
  = (load8 b (q1 + 1) =? load8 b (q2 + 1)).
Proof.
  destruct (Z.eqb_spec (load8 b (q1 + 1)) (load8 b (q2 + 1))) as [E | N].
  - apply Z.eqb_eq. apply Z.bits_inj'. intros n Hn.
    rewrite Z.land_spec, Z.lxor_spec, Z.bits_0.
    change 65280 with (Z.shiftl (Z.ones 8) 8).
    rewrite Z.shiftl_spec by lia.
    destruct (Z.lt_ge_cases n 8) as [Hl | Hg].
    { rewrite (Z.testbit_neg_r (Z.ones 8)) by lia. apply andb_false_r. }
    destruct (Z.lt_ge_cases n 16) as [Hl' | Hg'].
    + replace n with (8 * 1 + (n - 8)) at 1 2 by lia.
      rewrite !testbit_load16_byte by (assumption || lia).
      rewrite E, xorb_nilpotent. reflexivity.
    + rewrite !testbit_load16_high by (assumption || lia). reflexivity.
  - apply Z.eqb_neq. intros Z0.
    destruct (byte_diff_bit _ _ (load8_byte b b_ok (q1 + 1))
                (load8_byte b b_ok (q2 + 1)) N) as [t [Ht D]].
    assert (B : Z.testbit
                  (Z.land (Z.lxor (load16 b q1) (load16 b q2)) 65280)
                  (8 * 1 + t) = true).
    { rewrite Z.land_spec, Z.lxor_spec.
      rewrite !testbit_load16_byte by (assumption || lia).
      change 65280 with (Z.shiftl (Z.ones 8) 8).
      rewrite Z.shiftl_spec by lia.
      rewrite Z.testbit_ones_nonneg by lia.
      replace (8 * 1 + t - 8 <? 8) with true
        by (symmetry; apply Z.ltb_lt; lia).
      rewrite andb_true_r.
      destruct (Z.testbit (load8 b (q1 + 1)) t),
               (Z.testbit (load8 b (q2 + 1)) t); try reflexivity;
        exfalso; now apply D. }
    rewrite Z0, Z.bits_0 in B. discriminate.
Qed.

Variables p1 p2 ml : Z.
Hypothesis ml_range : 0 <= ml.

Local Abbreviation matched_prior off := (matched_prior b p1 p2 ml off).
Local Abbreviation is_prior_len r := (is_prior_len b p1 p2 ml r).

Lemma prior_more off :
  matched_prior off -> off < ml ->
  load8 b (p1 - off - 1) = load8 b (p2 - off - 1) ->
  matched_prior (off + 1).
Proof.
  intros [Ho Hm] Hlt E. split; [lia |].
  intros i Hi. destruct (Z.eq_dec i (off + 1)) as [-> | Hne].
  - now replace (p1 - (off + 1)) with (p1 - off - 1) by lia;
      replace (p2 - (off + 1)) with (p2 - off - 1) by lia.
  - apply Hm. lia.
Qed.

Lemma prior_stop off :
  matched_prior off -> off < ml ->
  load8 b (p1 - off - 1) <> load8 b (p2 - off - 1) ->
  is_prior_len off.
Proof.
  intros M Hlt N. split; [exact M |]. intros _.
  now replace (p1 - (off + 1)) with (p1 - off - 1) by lia;
    replace (p2 - (off + 1)) with (p2 - off - 1) by lia.
Qed.

Lemma prior_all r : r = ml -> matched_prior r -> is_prior_len r.
Proof. intros E M. split; [exact M | lia]. Qed.

(** The 2-byte loop; [off] bytes before the origin match, and the pointers
    are that many bytes back. *)
Lemma match_len_r_words_inv fuel : forall off,
  matched_prior off -> 1 <= off -> (ml - off) / 2 < Z.of_nat fuel ->
  match
    match_len_r_words fuel b p1 (p1 - ml + 1) (p1 - off) (p2 - off)
  with
  | inl r => is_prior_len r
  | inr (q1, q2) =>
      exists off', q1 = p1 - off' /\ q2 = p2 - off' /\ matched_prior off'
                   /\ ml - 1 <= off'
  end.
Proof.
  induction fuel as [| n IH]; intros off M H1 Hf; cbn [match_len_r_words].
  - exists off. repeat split; try apply M.
    destruct (Z.lt_ge_cases (ml - off) 2) as [| G]; [lia | exfalso].
    assert (1 <= (ml - off) / 2); [| lia].
    apply Z.div_le_lower_bound; lia.
  - pose proof M as [Ho _].
    destruct (Z.gtb_spec (p1 - off) (p1 - ml + 1)) as [Hgt | Hle].
    + destruct (Z.eqb_spec
                  (Z.lxor (load16 b (p1 - off - 2)) (load16 b (p2 - off - 2)))
                  0) as [E | N]; cbn [negb].
      * apply words16_equal in E as [E0 E1].
        replace (p1 - off - 2 + 1) with (p1 - off - 1) in E1 by lia.
        replace (p2 - off - 2 + 1) with (p2 - off - 1) in E1 by lia.
        replace (p1 - off - 2) with (p1 - (off + 1 + 1)) by lia.
        replace (p2 - off - 2) with (p2 - (off + 1 + 1)) by lia.
        apply IH; [| lia |].
        -- apply prior_more; [apply prior_more; [exact M | lia | exact E1]
                             | lia |].
           now replace (p1 - (off + 1) - 1) with (p1 - off - 2) by lia;
             replace (p2 - (off + 1) - 1) with (p2 - off - 2) by lia.
        -- replace (ml - (off + 1 + 1)) with (ml - off + (-1) * 2) by lia.
           rewrite Z.div_add by lia. lia.
      * rewrite words16_high.
        replace (p1 - off - 2 + 1) with (p1 - off - 1) by lia.
        replace (p2 - off - 2 + 1) with (p2 - off - 1) by lia.
        replace (p1 - (p1 - off)) with off by lia.
        destruct (Z.eqb_spec (load8 b (p1 - off - 1)) (load8 b (p2 - off - 1)))
          as [E1 | N1]; cbn [b2z].
        -- apply prior_stop; [apply prior_more; [exact M | lia | exact E1]
                             | lia |].
           intros E0. apply N.
           replace (p1 - (off + 1) - 1) with (p1 - off - 2) in E0 by lia.
           replace (p2 - (off + 1) - 1) with (p2 - off - 2) in E0 by lia.
           rewrite (word_eq_bytes b 2 (load16 b)
                      (fun q k t Hk Ht => testbit_load16_byte b b_ok q k t Hk Ht)
                      (fun q j Hj => testbit_load16_high b b_ok q j Hj)
                      (p1 - off - 2) (p2 - off - 2));
             [apply Z.lxor_nilpotent |].
           intros k Hk. assert (k = 0 \/ k = 1) as [-> | ->] by lia.
           ++ now rewrite !Z.add_0_r.
           ++ now replace (p1 - off - 2 + 1) with (p1 - off - 1) by lia;
                replace (p2 - off - 2 + 1) with (p2 - off - 1) by lia.
        -- rewrite Z.add_0_r. apply prior_stop; [exact M | lia | exact N1].
    + exists off. repeat split; try apply M. lia.
Qed.

Lemma lzav_match_len_r_is : is_prior_len (lzav_match_len_r b p1 p2 ml).
Proof.
  unfold lzav_match_len_r.
  assert (M0 : matched_prior 0) by (split; [lia | intros; lia]).
  destruct (Z.eqb_spec ml 0) as [E0 | Hm0];
    [apply prior_all; [lia | exact M0] |].
  destruct (Z.eqb_spec (load8 b (p1 - 1)) (load8 b (p2 - 1))) as [E | N];
    cbn [negb];
    [| apply prior_stop; [exact M0 | lia |]; now rewrite !Z.sub_0_r].
  assert (M1 : matched_prior 1).
  { apply (prior_more 0 M0); [lia |]. now rewrite !Z.sub_0_r. }
  destruct (Z.eqb_spec ml 1) as [E1 | N1]; cbn [negb].
  { replace ml with 1 at 2 by lia. apply prior_all; [lia | exact M1]. }
  pose proof (match_len_r_words_inv (Z.to_nat (ml / 2 + 1)) 1 M1
                ltac:(lia)) as L.
  assert (0 <= ml / 2) by (apply Z.div_pos; lia).
  assert ((ml - 1) / 2 <= ml / 2) by (apply Z.div_le_mono; lia).
  specialize (L ltac:(lia)).
  destruct (match_len_r_words _ b p1 (p1 - ml + 1) (p1 - 1) (p2 - 1))
    as [r | [q1 q2]]; [exact L |].
  destruct L as [off [-> [-> [M Hrem]]]]. pose proof M as [Ho _].
  destruct (Z.gtb_spec (p1 - off) (p1 - ml + 1 - 1)); cbn [andb].
  - destruct (Z.eqb_spec (load8 b (p1 - off - 1)) (load8 b (p2 - off - 1)))
      as [E2 | N2]; cbn [negb].
    + replace ml with (off + 1) at 2 by lia. apply prior_all; [lia |].
      apply prior_more; [exact M | lia | exact E2].
    + replace (p1 - (p1 - off)) with off by lia.
      apply prior_stop; [exact M | lia | exact N2].
  - replace ml with off at 2 by lia. apply prior_all; [lia | exact M].
Qed.

(** X8: [lzav_match_len_r] returns the number of matching bytes before
    the two origins, at most [ml], found 2 bytes at a time. *)
Theorem lzav_match_len_r_correct :
  lzav_match_len_r b p1 p2 ml = matching_prior (Z.to_nat ml) b p1 p2.
Proof.
  destruct lzav_match_len_r_is as [[H1 H2] H3].
  symmetry. apply matching_prior_unique; rewrite ?Z2Nat.id by lia;
    assumption.
Qed.

End MatchLenR.

Section MatchLenWitnesses.

Lemma bytes_ok_abcdef7 : bytes_ok abcdef7.
Proof. unfold bytes_ok, abcdef7. cbn. repeat constructor; lia. Qed.

Lemma lzav_match_len_correct_witness :
  lzav_match_len abcdef7 2 8 30 = matching_leading (Z.to_nat 30) abcdef7 2 8.
Proof.
  exact (lzav_match_len_correct abcdef7 bytes_ok_abcdef7 2 8 30
           ltac:(lia)).
Defined.

Lemma lzav_match_len_opt_correct_witness :
  lzav_match_len_opt 3 abcdef7 2 8 30
  = matching_leading (Z.to_nat 30) abcdef7 2 8
  /\ lzav_match_len_opt 3 abcdef7 2 8 30 = lzav_match_len abcdef7 2 8 30.
Proof.
  exact (lzav_match_len_opt_correct abcdef7 bytes_ok_abcdef7 2 8 30
           ltac:(lia) 3).
Defined.

Lemma lzav_match_len_r_correct_witness :
  lzav_match_len_r abcdef7 20 26 12
  = matching_prior (Z.to_nat 12) abcdef7 20 26.
Proof.
  exact (lzav_match_len_r_correct abcdef7 bytes_ok_abcdef7 20 26 12
           ltac:(lia)).
Defined.

End MatchLenWitnesses.

(** ** The copy functions of the header *)

Section Snapshot.

Local Abbreviation len l := (Z.of_nat (length l)).

(** [lzav_memmove] of the model, the copy of what the range held before,
    byte by byte. *)
Lemma load8_snapshot m d s n j :
  0 <= d -> 0 <= n -> d + n <= len m ->
  load8 (lzav_memmove m d s n) j
  = if (d <=? j) && (j <? d + n) then load8 m (s + (j - d)) else load8 m j.
Proof.
  intros Hd Hn Hb. unfold lzav_memmove.
  destruct (Z.leb_spec d j); cbn [andb];
    [| apply load8_store_bytes_out; lia].
  destruct (Z.ltb_spec j (d + n)).
  - rewrite load8_store_bytes_in by (rewrite ?length_bytes_at; lia).
    rewrite nth_bytes_at by lia. f_equal. lia.
  - apply load8_store_bytes_out. rewrite length_bytes_at. lia.
Qed.

Lemma length_snapshot m d s n : length (lzav_memmove m d s n) = length m.
Proof. unfold lzav_memmove. apply length_store_bytes. Qed.

(** A copy done front to back in two pieces. *)
Lemma snapshot_forward m d s a c :
  0 <= d -> 0 <= a -> 0 <= c -> d + a + c <= len m ->
  d <= s \/ s + a + c <= d ->
  lzav_memmove (lzav_memmove m d s a) (d + a) (s + a) c
  = lzav_memmove m d s (a + c).
Proof.
  intros Hd Ha Hc Hb Hsafe. apply buf_ext.
  - now rewrite !length_snapshot.
  - rewrite !length_snapshot. intros j Hj.
    rewrite !load8_snapshot by (rewrite ?length_snapshot; lia).
    destruct (Z.leb_spec (d + a) j), (Z.ltb_spec j (d + a + c)),
             (Z.leb_spec d j), (Z.ltb_spec j (d + (a + c))),
             (Z.ltb_spec j (d + a)); cbn [andb]; try lia;
      try reflexivity.
    + destruct (Z.leb_spec d (s + a + (j - (d + a)))),
               (Z.ltb_spec (s + a + (j - (d + a))) (d + a));
        cbn [andb]; try lia; f_equal; lia.
Qed.

(** A copy done back to front in two pieces. *)
Lemma snapshot_backward m d s a c :
  0 <= d -> 0 <= a -> 0 <= c -> d + c + a <= len m ->
  s <= d \/ d + c + a <= s ->
  lzav_memmove (lzav_memmove m (d + c) (s + c) a) d s c
  = lzav_memmove m d s (c + a).
Proof.
  intros Hd Ha Hc Hb Hsafe. apply buf_ext.
  - now rewrite !length_snapshot.
  - rewrite !length_snapshot. intros j Hj.
    rewrite !load8_snapshot by (rewrite ?length_snapshot; lia).
    destruct (Z.leb_spec (d + c) j), (Z.ltb_spec j (d + c + a)),
             (Z.leb_spec d j), (Z.ltb_spec j (d + (c + a))),
             (Z.ltb_spec j (d + c)); cbn [andb]; try lia;
      try reflexivity; try (f_equal; lia).
    + destruct (Z.leb_spec (d + c) (s + (j - d))),
               (Z.ltb_spec (s + (j - d)) (d + c + a));
        cbn [andb]; try lia; f_equal; lia.
Qed.

Lemma snapshot_0 m d s : lzav_memmove m d s 0 = m.
Proof. reflexivity. Qed.

Lemma bytes_ok_load8 m i : bytes_ok m -> 0 <= load8 m i < 256.
Proof. intros H. now apply load8_byte. Qed.

Lemma bytes_ok_store8 m i v :
  bytes_ok m -> 0 <= v < 256 -> bytes_ok (store8 m i v).
Proof.
  intros H Hv. unfold store8. destruct (i <? 0); [exact H |].
  unfold bytes_ok in *. revert H. generalize (Z.to_nat i) as k.
  induction m as [| x m IH]; intros k H; destruct k; cbn [set_nth];
    try constructor; inversion H; subst; auto.
Qed.

Lemma bytes_ok_store_bytes l : forall m i,
  bytes_ok m -> Forall (fun x => 0 <= x < 256) l ->
  bytes_ok (store_bytes m i l).
Proof.
  induction l as [| x l IH]; intros m i H Hl; cbn [store_bytes];
    [exact H |].
  inversion Hl; subst. apply IH; [now apply bytes_ok_store8 | assumption].
Qed.

Lemma bytes_ok_snapshot m d s n :
  bytes_ok m -> bytes_ok (lzav_memmove m d s n).
Proof.
  intros H. unfold lzav_memmove. apply bytes_ok_store_bytes; [exact H |].
  unfold bytes_at. apply Forall_map, Forall_forall.
  intros k _. now apply bytes_ok_load8.
Qed.

(** The three ways the header moves bytes, as copies of what was there. *)
Lemma store8_snapshot m d s :
  store8 m d (load8 m s) = lzav_memmove m d s 1.
Proof.
  unfold lzav_memmove, bytes_at. change (Z.to_nat 1) with 1%nat.
  cbn [seq map store_bytes]. change (Z.of_nat 0) with 0.
  now rewrite Z.add_0_r.
Qed.

Lemma byte_of_load64 m q k :
  bytes_ok m -> 0 <= k < 8 ->
  Z.land (Z.shiftr (load64 m q) (8 * k)) 255 = load8 m (q + k).
Proof.
  intros H Hk. apply Z.bits_inj'. intros t Ht.
  change 255 with (Z.ones 8).
  rewrite Z.land_spec, Z.shiftr_spec, Z.testbit_ones_nonneg by lia.
  destruct (Z.ltb_spec t 8).
  - rewrite andb_true_r. replace (t + 8 * k) with (8 * k + t) by lia.
    now apply testbit_load64_byte.
  - rewrite andb_false_r. symmetry. now apply testbit_load8_high.
Qed.

Lemma store64_snapshot m d s :
  bytes_ok m -> Impl.store64 m d (load64 m s) = lzav_memmove m d s 8.
Proof.
  intros H. unfold Impl.store64, lzav_memmove, bytes_at. f_equal.
  change (Z.to_nat 8) with 8%nat. cbn [map seq].
  rewrite !byte_of_load64 by (assumption || lia).
  reflexivity.
Qed.

Lemma swar_word_load64 m s : Impl.swar_word m s = load64 m s.
Proof.
  unfold Impl.swar_word, load64, load32, load16. cbn [fold_left].
  change (Z.shiftl 0 3) with 0. change (Z.shiftl 1 3) with 8.
  change (Z.shiftl 2 3) with 16. change (Z.shiftl 3 3) with 24.
  change (Z.shiftl 4 3) with 32. change (Z.shiftl 5 3) with 40.
  change (Z.shiftl 6 3) with 48. change (Z.shiftl 7 3) with 56.
  rewrite !Z.shiftl_lor, !Z.shiftl_shiftl by lia.
  rewrite Z.lor_0_l, Z.shiftl_0_r, Z.add_0_r.
  replace (s + 2 + 1) with (s + 3) by lia.
  replace (s + 4 + 1) with (s + 5) by lia.
  replace (s + 4 + 2) with (s + 6) by lia.
  replace (s + 6 + 1) with (s + 7) by lia.
  cbn [Z.add Pos.add Pos.succ].
  rewrite !Z.lor_assoc. reflexivity.
Qed.

End Snapshot.

Section CopyLoops.

Local Abbreviation len l := (Z.of_nat (length l)).

(** Front to back: the source range is not behind the destination range
    and over it. *)
Lemma copy_within_snapshot n : forall m d s,
  0 <= d -> d + Z.of_nat n <= len m -> d <= s \/ s + Z.of_nat n <= d ->
  copy_within n m d s = lzav_memmove m d s (Z.of_nat n).
Proof.
  induction n as [| n IH]; intros m d s Hd Hb Hs; [reflexivity |].
  cbn [copy_within]. rewrite store8_snapshot.
  rewrite IH by (rewrite ?length_snapshot; lia).
  rewrite snapshot_forward by lia. f_equal. lia.
Qed.

Lemma copy_words_snapshot n : forall m dw sw,
  bytes_ok m -> 0 <= dw -> dw + 8 * Z.of_nat n <= len m ->
  dw <= sw \/ sw + 8 * Z.of_nat n <= dw ->
  Impl.copy_words n m dw sw
  = (lzav_memmove m dw sw (8 * Z.of_nat n), dw + 8 * Z.of_nat n,
     sw + 8 * Z.of_nat n).
Proof.
  induction n as [| n IH]; intros m dw sw Hm Hd Hb Hs.
  { cbn [Impl.copy_words]. change (8 * Z.of_nat 0) with 0.
    now rewrite snapshot_0, !Z.add_0_r. }
  cbn [Impl.copy_words]. rewrite store64_snapshot by exact Hm.
  rewrite IH by (rewrite ?length_snapshot; try apply bytes_ok_snapshot;
                 assumption || lia).
  rewrite snapshot_forward by lia.
  f_equal; [f_equal |]; try (f_equal; lia); lia.
Qed.

Lemma copy_swar_snapshot n : forall m dw sw,
  bytes_ok m -> 0 <= dw -> dw + 8 * Z.of_nat n <= len m ->
  dw <= sw \/ sw + 8 * Z.of_nat n <= dw ->
  Impl.copy_swar n m dw sw
  = (lzav_memmove m dw sw (8 * Z.of_nat n), dw + 8 * Z.of_nat n,
     sw + 8 * Z.of_nat n).
Proof.
  induction n as [| n IH]; intros m dw sw Hm Hd Hb Hs.
  { cbn [Impl.copy_swar]. change (8 * Z.of_nat 0) with 0.
    now rewrite snapshot_0, !Z.add_0_r. }
  cbn [Impl.copy_swar]. rewrite swar_word_load64.
  rewrite store64_snapshot by exact Hm.
  rewrite IH by (rewrite ?length_snapshot; try apply bytes_ok_snapshot;
                 assumption || lia).
  rewrite snapshot_forward by lia.
  f_equal; [f_equal |]; try (f_equal; lia); lia.
Qed.

Lemma copy_words4_snapshot fuel : forall m dw sw words,
  bytes_ok m -> 0 <= dw -> 0 <= words -> dw + 8 * words <= len m ->
  dw <= sw \/ sw + 8 * words <= dw ->
  words <= 4 * Z.of_nat fuel + 3 ->
  exists q,
    0 <= q /\ 0 <= words - 4 * q < 4
    /\ Impl.copy_words4 fuel m dw sw words
       = (lzav_memmove m dw sw (32 * q), dw + 32 * q, sw + 32 * q,
          words - 4 * q).
Proof.
  induction fuel as [| n IH]; intros m dw sw words Hm Hd Hw Hb Hs Hf.
  { exists 0. cbn [Impl.copy_words4]. change (32 * 0) with 0.
    rewrite snapshot_0, !Z.add_0_r, Z.sub_0_r. repeat split; lia. }
  cbn [Impl.copy_words4].
  destruct (Z.geb_spec words 4) as [H4 | H4].
  - rewrite (store64_snapshot m dw sw Hm).
    rewrite (store64_snapshot (lzav_memmove m dw sw 8) (dw + 8) (sw + 8))
      by (repeat apply bytes_ok_snapshot; exact Hm).
    rewrite (snapshot_forward m dw sw 8 8) by lia.
    rewrite (store64_snapshot (lzav_memmove m dw sw (8 + 8)))
      by (repeat apply bytes_ok_snapshot; exact Hm).
    rewrite (store64_snapshot
               (lzav_memmove (lzav_memmove m dw sw (8 + 8)) (dw + 16)
                  (sw + 16) 8))
      by (repeat apply bytes_ok_snapshot; exact Hm).
    replace (dw + 16) with (dw + (8 + 8)) by lia.
    replace (sw + 16) with (sw + (8 + 8)) by lia.
    rewrite (snapshot_forward m dw sw (8 + 8) 8) by lia.
    replace (dw + 24) with (dw + (8 + 8 + 8)) by lia.
    replace (sw + 24) with (sw + (8 + 8 + 8)) by lia.
    rewrite (snapshot_forward m dw sw (8 + 8 + 8) 8) by lia.
    change (8 + 8 + 8 + 8) with 32.
    destruct (IH (lzav_memmove m dw sw 32) (dw + 32) (sw + 32) (words - 4))
      as [q [Hq [Hr E]]];
      rewrite ?length_snapshot; try apply bytes_ok_snapshot;
      try assumption; try lia.
    exists (q + 1). split; [lia |]. split; [lia |].
    rewrite E. rewrite snapshot_forward by lia.
    f_equal; [f_equal; [f_equal |] |]; try (f_equal; lia); lia.
  - exists 0. change (32 * 0) with 0.
    rewrite snapshot_0, !Z.add_0_r, Z.sub_0_r. repeat split; lia.
Qed.

End CopyLoops.

Section MemcpyCorrect.

Local Abbreviation len l := (Z.of_nat (length l)).

Lemma land_7_range x : 0 <= Z.land x 7 <= 7.
Proof.
  change (Z.land x 7) with (Z.land x (Z.ones 3)).
  rewrite Z.land_ones by lia.
  pose proof (Z.mod_pos_bound x (2 ^ 3) ltac:(lia)).
  change (2 ^ 3) with 8 in *. lia.
Qed.

Lemma words_and_rest n :
  0 <= n -> n = 8 * Z.shiftr n 3 + Z.land n 7 /\ 0 <= Z.shiftr n 3.
Proof.
  intros H. rewrite Z.shiftr_div_pow2 by lia.
  change (Z.land n 7) with (Z.land n (Z.ones 3)).
  rewrite Z.land_ones by lia. change (2 ^ 3) with 8.
  split; [apply Z.div_mod; lia | apply Z.div_pos; lia].
Qed.

(** The word loop of either kind and the bytes after it. *)
Lemma memcpy_words_rest m d s n :
  bytes_ok m -> 0 <= d -> 0 <= n -> d + n <= len m ->
  d <= s \/ s + n <= d ->
  (let '(m', dw, s') :=
     if negb (Z.land s (8 - 1) =? 0) then
       let words := Z.shiftr n 3 in
       Impl.copy_swar (Z.to_nat words) m d s
     else
       let words := Z.shiftr n 3 in
       let '(m, dw, sw, words) :=
         Impl.copy_words4 (Z.to_nat words) m d s words in
       Impl.copy_words (Z.to_nat words) m dw sw in
   copy_within (Z.to_nat (Z.land n (8 - 1))) m' dw s')
  = lzav_memmove m d s n.
Proof.
  intros Hm Hd Hn Hb Hs. change (8 - 1) with 7.
  destruct (words_and_rest n Hn) as [En Hw].
  pose proof (land_7_range n) as Hr.
  set (w := Z.shiftr n 3) in *. set (r := Z.land n 7) in *.
  assert (Words :
            (if negb (Z.land s 7 =? 0) then
               Impl.copy_swar (Z.to_nat w) m d s
             else
               let '(m, dw, sw, words) :=
                 Impl.copy_words4 (Z.to_nat w) m d s w in
               Impl.copy_words (Z.to_nat words) m dw sw)
            = (lzav_memmove m d s (8 * w), d + 8 * w, s + 8 * w)).
  { destruct (negb (Z.land s 7 =? 0)).
    - rewrite copy_swar_snapshot by (rewrite ?Z2Nat.id; assumption || lia).
      now rewrite Z2Nat.id by lia.
    - destruct (copy_words4_snapshot (Z.to_nat w) m d s w)
        as [q [Hq [Hrem E]]]; try assumption; try lia.
      rewrite E.
      rewrite copy_words_snapshot
        by (rewrite ?length_snapshot, ?Z2Nat.id;
            try apply bytes_ok_snapshot; assumption || lia).
      rewrite Z2Nat.id by lia.
      rewrite snapshot_forward by lia.
      f_equal; [f_equal |]; try (f_equal; lia); lia. }
  cbv zeta. rewrite Words.
  rewrite copy_within_snapshot
    by (rewrite ?length_snapshot, ?Z2Nat.id; lia).
  rewrite Z2Nat.id by lia.
  rewrite snapshot_forward by lia. f_equal. lia.
Qed.

(** The forward copy of [Impl.lzav_memcpy] against the snapshot copy. *)
Lemma impl_memcpy_snapshot (m : buf) (dest src n : Z) :
  bytes_ok m -> 0 <= dest -> 0 <= n < 2 ^ 64 -> dest + n <= len m ->
  dest <= src \/ src + n <= dest ->
  Impl.lzav_memcpy m dest src n = lzav_memmove m dest src n.
Proof.
  intros Hm Hd Hn Hb Hs. unfold Impl.lzav_memcpy. cbv zeta.
  change (Z.shiftl 8 1) with 16.
  destruct (Z.ltb_spec n 16).
  { rewrite copy_within_snapshot by (rewrite ?Z2Nat.id; lia).
    now rewrite Z2Nat.id by lia. }
  pose proof (land_7_range (u64 (not64 dest + 1))) as Hh.
  change (8 - 1) with 7 in *.
  set (head := Z.land (u64 (not64 dest + 1)) 7) in *.
  assert (E : (if negb (head =? 0)
               then (copy_within (Z.to_nat head) m dest src, dest + head,
                     src + head, u64 (n - head))
               else (m, dest, src, n))
              = (lzav_memmove m dest src head, dest + head, src + head,
                 n - head)).
  { destruct (Z.eqb_spec head 0) as [E0 | N0]; cbn [negb].
    - rewrite E0, snapshot_0, !Z.add_0_r, Z.sub_0_r. reflexivity.
    - rewrite copy_within_snapshot by (rewrite ?Z2Nat.id; lia).
      rewrite Z2Nat.id by lia.
      unfold u64, wrap. rewrite Z.mod_small by lia. reflexivity. }
  rewrite E.
  pose proof (memcpy_words_rest (lzav_memmove m dest src head)
                (dest + head) (src + head) (n - head)) as R.
  change (8 - 1) with 7 in R. cbv zeta in R |- *.
  rewrite R; rewrite ?length_snapshot; try apply bytes_ok_snapshot;
    try assumption; try lia.
  rewrite snapshot_forward by lia. f_equal. lia.
Qed.

(** X9: [lzav_memcpy] copies.  Whatever the alignment of the two
    pointers, and so whichever of its byte, word and shift-and-or loops
    run, the [n] bytes at [dest] become the bytes the memory held at [src]
    and nothing else changes, when the destination does not begin inside
    the source range behind its first byte. *)
Theorem impl_memcpy_correct (m : buf) (dest src n : Z) :
  bytes_ok m -> 0 <= dest -> 0 <= n < 2 ^ 64 -> dest + n <= len m ->
  dest <= src \/ src + n <= dest ->
  Impl.lzav_memcpy m dest src n = lzav_memmove m dest src n.
Proof.
  exact (impl_memcpy_snapshot m dest src n).
Qed.

End MemcpyCorrect.

Section MemmoveCorrect.

Local Abbreviation len l := (Z.of_nat (length l)).

(** Back to front: the destination range is not before the source range
    and over it.  [d] and [s] are the ends of the two ranges. *)
Lemma copy_back_snapshot n : forall m d s,
  0 <= d - Z.of_nat n -> d <= len m -> s <= d \/ d <= s - Z.of_nat n ->
  Impl.copy_back n m d s
  = (lzav_memmove m (d - Z.of_nat n) (s - Z.of_nat n) (Z.of_nat n),
     d - Z.of_nat n, s - Z.of_nat n).
Proof.
  induction n as [| n IH]; intros m d s Hd Hb Hs.
  { cbn [Impl.copy_back]. change (Z.of_nat 0) with 0.
    now rewrite snapshot_0, !Z.sub_0_r. }
  cbn [Impl.copy_back]. cbv zeta. rewrite store8_snapshot.
  rewrite IH by (rewrite ?length_snapshot; lia).
  replace (d - 1) with (d - 1 - Z.of_nat n + Z.of_nat n) at 1 by lia.
  replace (s - 1) with (s - 1 - Z.of_nat n + Z.of_nat n) at 1 by lia.
  rewrite snapshot_backward by lia.
  f_equal; [f_equal |]; try (f_equal; lia); lia.
Qed.

Lemma copy_words_back_snapshot n : forall m dw sw,
  bytes_ok m -> 0 <= dw - 8 * Z.of_nat n -> dw <= len m ->
  sw <= dw \/ dw <= sw - 8 * Z.of_nat n ->
  Impl.copy_words_back n m dw sw
  = (lzav_memmove m (dw - 8 * Z.of_nat n) (sw - 8 * Z.of_nat n)
       (8 * Z.of_nat n),
     dw - 8 * Z.of_nat n, sw - 8 * Z.of_nat n).
Proof.
  induction n as [| n IH]; intros m dw sw Hm Hd Hb Hs.
  { cbn [Impl.copy_words_back]. change (8 * Z.of_nat 0) with 0.
    now rewrite snapshot_0, !Z.sub_0_r. }
  cbn [Impl.copy_words_back]. cbv zeta.
  rewrite store64_snapshot by exact Hm.
  rewrite IH by (rewrite ?length_snapshot; try apply bytes_ok_snapshot;
                 assumption || lia).
  replace (dw - 8) with (dw - 8 - 8 * Z.of_nat n + 8 * Z.of_nat n) at 1
    by lia.
  replace (sw - 8) with (sw - 8 - 8 * Z.of_nat n + 8 * Z.of_nat n) at 1
    by lia.
  rewrite snapshot_backward by lia.
  f_equal; [f_equal |]; try (f_equal; lia); lia.
Qed.

Lemma copy_swar_back_snapshot n : forall m dw s,
  bytes_ok m -> 0 <= dw - 8 * Z.of_nat n -> dw <= len m ->
  s <= dw \/ dw <= s - 8 * Z.of_nat n ->
  Impl.copy_swar_back n m dw s
  = (lzav_memmove m (dw - 8 * Z.of_nat n) (s - 8 * Z.of_nat n)
       (8 * Z.of_nat n),
     dw - 8 * Z.of_nat n, s - 8 * Z.of_nat n).
Proof.
  induction n as [| n IH]; intros m dw s Hm Hd Hb Hs.
  { cbn [Impl.copy_swar_back]. change (8 * Z.of_nat 0) with 0.
    now rewrite snapshot_0, !Z.sub_0_r. }
  cbn [Impl.copy_swar_back]. cbv zeta. rewrite swar_word_load64.
  rewrite store64_snapshot by exact Hm.
  rewrite IH by (rewrite ?length_snapshot; try apply bytes_ok_snapshot;
                 assumption || lia).
  replace (dw - 8) with (dw - 8 - 8 * Z.of_nat n + 8 * Z.of_nat n) at 1
    by lia.
  replace (s - 8) with (s - 8 - 8 * Z.of_nat n + 8 * Z.of_nat n) at 1
    by lia.
  rewrite snapshot_backward by lia.
  f_equal; [f_equal |]; try (f_equal; lia); lia.
Qed.

(** X10: [lzav_memmove] copies overlapping ranges.  For every placement
    of the two ranges in a memory, overlapping or not, and every alignment,
    the [n] bytes at [dest] become the bytes the memory held at [src]
    before the call, and nothing else changes. *)
Theorem impl_memmove_correct (m : buf) (dest src n : Z) :
  bytes_ok m -> len m < 2 ^ 63 ->
  0 <= dest -> 0 <= src < 2 ^ 63 -> 0 <= n -> dest + n <= len m ->
  Impl.lzav_memmove m dest src n = lzav_memmove m dest src n.
Proof.
  intros Hm Hl Hd Hs Hn Hb. unfold Impl.lzav_memmove. cbv zeta.
  change (2 ^ 63) with 9223372036854775808 in *.
  assert (Hu : u64 (dest - src)
               = if dest <? src then dest - src + 2 ^ 64 else dest - src).
  { unfold u64, wrap. change (2 ^ 64) with 18446744073709551616.
    destruct (Z.ltb_spec dest src).
    - rewrite <- (Z_mod_plus_full (dest - src) 1).
      rewrite Z.mod_small by lia. lia.
    - apply Z.mod_small. lia. }
  change (2 ^ 64) with 18446744073709551616 in Hu.
  destruct (Z.geb_spec (u64 (dest - src)) n) as [Hfwd | Hbwd].
  { apply impl_memcpy_snapshot; try assumption.
    - change (2 ^ 64) with 18446744073709551616. lia.
    - rewrite Hu in Hfwd. destruct (Z.ltb_spec dest src); lia. }
  assert (Hov : src <= dest).
  { rewrite Hu in Hbwd. destruct (Z.ltb_spec dest src); lia. }
  change (Z.shiftl 8 1) with 16. change (8 - 1) with 7.
  destruct (Z.ltb_spec n 16).
  { rewrite copy_back_snapshot by (rewrite ?Z2Nat.id; lia).
    cbn [fst]. rewrite Z2Nat.id by lia. f_equal; lia. }
  pose proof (land_7_range (dest + n)) as Ht.
  set (tail := Z.land (dest + n) 7) in *.
  assert (E : (if negb (tail =? 0)
               then
                 let '(m0, d', s') :=
                   Impl.copy_back (Z.to_nat tail) m (dest + n) (src + n) in
                 (m0, d', s', u64 (n - tail))
               else (m, dest + n, src + n, n))
              = (lzav_memmove m (dest + n - tail) (src + n - tail) tail,
                 dest + n - tail, src + n - tail, n - tail)).
  { destruct (Z.eqb_spec tail 0) as [E0 | N0]; cbn [negb].
    - rewrite E0, snapshot_0, !Z.sub_0_r. reflexivity.
    - rewrite copy_back_snapshot by (rewrite ?Z2Nat.id; lia).
      rewrite Z2Nat.id by lia.
      unfold u64, wrap. rewrite Z.mod_small by lia. reflexivity. }
  rewrite E. clear E.
  set (m1 := lzav_memmove m (dest + n - tail) (src + n - tail) tail).
  assert (Hm1 : bytes_ok m1) by (apply bytes_ok_snapshot; exact Hm).
  assert (Ll : length m1 = length m) by apply length_snapshot.
  destruct (words_and_rest (n - tail) ltac:(lia)) as [En Hw].
  pose proof (land_7_range (n - tail)) as Hr.
  set (w := Z.shiftr (n - tail) 3) in *.
  set (r := Z.land (n - tail) 7) in *.
  assert (Words :
            (if negb (Z.land (src + n - tail) 7 =? 0)
             then Impl.copy_swar_back (Z.to_nat w) m1 (dest + n - tail)
                    (src + n - tail)
             else Impl.copy_words_back (Z.to_nat w) m1 (dest + n - tail)
                    (src + n - tail))
            = (lzav_memmove m1 (dest + n - tail - 8 * w)
                 (src + n - tail - 8 * w) (8 * w),
               dest + n - tail - 8 * w, src + n - tail - 8 * w)).
  { destruct (negb (Z.land (src + n - tail) 7 =? 0)).
    - rewrite copy_swar_back_snapshot
        by (rewrite ?Z2Nat.id, ?Ll; assumption || lia).
      now rewrite Z2Nat.id by lia.
    - rewrite copy_words_back_snapshot
        by (rewrite ?Z2Nat.id, ?Ll; assumption || lia).
      now rewrite Z2Nat.id by lia. }
  rewrite Words.
  rewrite copy_back_snapshot
    by (rewrite ?length_snapshot, ?Z2Nat.id, ?Ll; lia).
  cbn [fst]. rewrite Z2Nat.id by lia.
  replace (dest + n - tail - 8 * w - r) with dest by lia.
  replace (src + n - tail - 8 * w - r) with src by lia.
  replace (dest + n - tail - 8 * w) with (dest + r) by lia.
  replace (src + n - tail - 8 * w) with (src + r) by lia.
  rewrite snapshot_backward by (rewrite ?Ll; lia).
  unfold m1.
  replace (dest + n - tail) with (dest + (r + 8 * w)) by lia.
  replace (src + n - tail) with (src + (r + 8 * w)) by lia.
  rewrite snapshot_backward by lia.
  f_equal. lia.
Qed.

End MemmoveCorrect.

Section MemsetCorrect.

Local Abbreviation len l := (Z.of_nat (length l)).

(** The pattern word holds the value in each of its bytes. *)
Lemma pattern_bytes (value : Z) :
  0 <= value < 256 ->
  let pattern := value in
  let pattern := Z.lor pattern (u64 (Z.shiftl pattern 8)) in
  let pattern := Z.lor pattern (u64 (Z.shiftl pattern 16)) in
  let pattern := Z.lor pattern (u64 (Z.shiftl pattern 32)) in
  map (fun k => Z.land (Z.shiftr pattern (8 * k)) 255)
    [0; 1; 2; 3; 4; 5; 6; 7]
  = repeat value 8.
Proof.
  intros Hv.
  assert (A : forallb
                (fun v =>
                   let pattern := v in
                   let pattern := Z.lor pattern (u64 (Z.shiftl pattern 8)) in
                   let pattern := Z.lor pattern (u64 (Z.shiftl pattern 16)) in
                   let pattern := Z.lor pattern (u64 (Z.shiftl pattern 32)) in
                   forallb (fun k => Z.land (Z.shiftr pattern (8 * k)) 255 =? v)
                     [0; 1; 2; 3; 4; 5; 6; 7])
                (map Z.of_nat (seq 0 256)) = true)
    by (vm_compute; reflexivity).
  rewrite forallb_forall in A.
  specialize (A value).
  assert (I : In value (map Z.of_nat (seq 0 256))).
  { rewrite <- (Z2Nat.id value) by lia. apply in_map, in_seq. lia. }
  specialize (A I). cbv zeta in A |- *.
  cbn [forallb] in A.
  repeat (apply andb_prop in A; destruct A as [?E A]).
  cbn [map repeat].
  repeat match goal with
         | H : (_ =? _) = true |- _ => apply Z.eqb_eq in H; rewrite H; clear H
         end.
  reflexivity.
Qed.

Lemma fill_bytes n : forall m d value,
  Impl.fill n m d value
  = (store_bytes m d (repeat value n), d + Z.of_nat n).
Proof.
  induction n as [| n IH]; intros m d value.
  { cbn [Impl.fill repeat store_bytes]. now rewrite Z.add_0_r. }
  cbn [Impl.fill repeat store_bytes]. rewrite IH. f_equal. lia.
Qed.

Lemma store_bytes_repeat m d value (a b : nat) :
  store_bytes (store_bytes m d (repeat value a)) (d + Z.of_nat a)
    (repeat value b)
  = store_bytes m d (repeat value (a + b)).
Proof.
  rewrite repeat_app, store_bytes_app, repeat_length. reflexivity.
Qed.

Section Pattern.

Variables value pattern : Z.
Hypothesis pattern_ok :
  map (fun k => Z.land (Z.shiftr pattern (8 * k)) 255)
    [0; 1; 2; 3; 4; 5; 6; 7]
  = repeat value 8.

Lemma store64_pattern m dw :
  Impl.store64 m dw pattern = store_bytes m dw (repeat value 8).
Proof. unfold Impl.store64. now rewrite pattern_ok. Qed.

Lemma fill_words_bytes n : forall m dw,
  Impl.fill_words n m dw pattern
  = (store_bytes m dw (repeat value (8 * n)), dw + 8 * Z.of_nat n).
Proof.
  induction n as [| n IH]; intros m dw.
  { cbn [Impl.fill_words Nat.mul repeat store_bytes]. f_equal. lia. }
  cbn [Impl.fill_words]. rewrite store64_pattern, IH.
  replace (dw + 8) with (dw + Z.of_nat 8) by reflexivity.
  rewrite store_bytes_repeat.
  f_equal; [f_equal; f_equal; lia | lia].
Qed.

Lemma fill_words8_bytes fuel : forall m dw words,
  0 <= words -> words <= 8 * Z.of_nat fuel + 7 ->
  exists q : nat,
    0 <= words - 8 * Z.of_nat q < 8
    /\ Impl.fill_words8 fuel m dw words pattern
       = (store_bytes m dw (repeat value (64 * q)), dw + 64 * Z.of_nat q,
          words - 8 * Z.of_nat q).
Proof.
  induction fuel as [| n IH]; intros m dw words Hw Hf.
  { exists 0%nat. cbn [Impl.fill_words8 Nat.mul repeat store_bytes].
    split; [lia |]. f_equal; [f_equal |]; lia. }
  cbn [Impl.fill_words8].
  destruct (Z.geb_spec words 8) as [H8 | H8].
  - rewrite !store64_pattern.
    replace (dw + 8) with (dw + Z.of_nat 8) by reflexivity.
    rewrite store_bytes_repeat.
    replace (dw + 16) with (dw + Z.of_nat (8 + 8)) by reflexivity.
    rewrite store_bytes_repeat.
    replace (dw + 24) with (dw + Z.of_nat (8 + 8 + 8)) by reflexivity.
    rewrite store_bytes_repeat.
    replace (dw + 32) with (dw + Z.of_nat (8 + 8 + 8 + 8)) by reflexivity.
    rewrite store_bytes_repeat.
    replace (dw + 40) with (dw + Z.of_nat (8 + 8 + 8 + 8 + 8))
      by reflexivity.
    rewrite store_bytes_repeat.
    replace (dw + 48) with (dw + Z.of_nat (8 + 8 + 8 + 8 + 8 + 8))
      by reflexivity.
    rewrite store_bytes_repeat.
    replace (dw + 56) with (dw + Z.of_nat (8 + 8 + 8 + 8 + 8 + 8 + 8))
      by reflexivity.
    rewrite store_bytes_repeat.
    change (8 + 8 + 8 + 8 + 8 + 8 + 8 + 8)%nat with 64%nat.
    destruct (IH (store_bytes m dw (repeat value 64)) (dw + 64) (words - 8))
      as [q [Hr E]]; try lia.
    exists (S q). split; [lia |]. rewrite E.
    replace (dw + 64) with (dw + Z.of_nat 64) by reflexivity.
    rewrite store_bytes_repeat.
    f_equal; [f_equal; [f_equal; f_equal; lia | lia] | lia].
  - exists 0%nat. cbn [Nat.mul repeat store_bytes].
    split; [lia |]. f_equal; [f_equal |]; lia.
Qed.

End Pattern.

(** X11: [lzav_memset] fills.  Whatever the alignment of [dest], the [n]
    bytes at [dest] become [value] and nothing else changes. *)
Theorem impl_memset_correct (m : buf) (dest value n : Z) :
  0 <= value < 256 -> 0 <= n < 2 ^ 64 ->
  Impl.lzav_memset m dest value n = lzav_memset m dest value n.
Proof.
  intros Hv Hn. unfold Impl.lzav_memset, lzav_memset. cbv zeta.
  rewrite u8_id by exact Hv.
  change (Z.shiftl 8 1) with 16. change (8 - 1) with 7.
  destruct (Z.ltb_spec n 16).
  { rewrite fill_bytes. reflexivity. }
  pose proof (pattern_bytes value Hv) as P. cbv zeta in P.
  set (pattern := Z.lor _ (u64 (Z.shiftl _ 32))) in *.
  pose proof (land_7_range (u64 (not64 dest + 1))) as Hh.
  set (head := Z.land (u64 (not64 dest + 1)) 7) in *.
  assert (E : (if negb (head =? 0)
               then
                 let '(m0, d') :=
                   Impl.fill (Z.to_nat (if head >? n then n else head)) m
                     dest value in
                 (m0, d', u64 (n - (if head >? n then n else head)))
               else (m, dest, n))
              = (store_bytes m dest (repeat value (Z.to_nat head)),
                 dest + head, n - head)).
  { destruct (Z.eqb_spec head 0) as [E0 | N0]; cbn [negb].
    - rewrite E0. cbn [Z.to_nat repeat store_bytes].
      now rewrite Z.add_0_r, Z.sub_0_r.
    - destruct (Z.gtb_spec head n); [lia |].
      rewrite fill_bytes, Z2Nat.id by lia.
      unfold u64, wrap. rewrite Z.mod_small by lia. reflexivity. }
  rewrite E. clear E.
  destruct (words_and_rest (n - head) ltac:(lia)) as [En Hw].
  pose proof (land_7_range (n - head)) as Hr.
  set (w := Z.shiftr (n - head) 3) in *.
  set (r := Z.land (n - head) 7) in *.
  destruct (fill_words8_bytes value pattern P (Z.to_nat w)
              (store_bytes m dest (repeat value (Z.to_nat head)))
              (dest + head) w Hw ltac:(lia)) as [q [Hq E8]].
  rewrite E8. rewrite (fill_words_bytes value pattern P).
  rewrite fill_bytes. cbn [fst].
  replace (dest + head) with (dest + Z.of_nat (Z.to_nat head)) by lia.
  rewrite store_bytes_repeat.
  replace (dest + Z.of_nat (Z.to_nat head) + 64 * Z.of_nat q)
    with (dest + Z.of_nat (Z.to_nat head + 64 * q)) by lia.
  rewrite store_bytes_repeat.
  replace (dest + Z.of_nat (Z.to_nat head + 64 * q)
           + 8 * Z.of_nat (Z.to_nat (w - 8 * Z.of_nat q)))
    with (dest + Z.of_nat (Z.to_nat head + 64 * q
                           + 8 * Z.to_nat (w - 8 * Z.of_nat q))) by lia.
  rewrite store_bytes_repeat.
  f_equal. f_equal. lia.
Qed.

End MemsetCorrect.

Section CopyWitnesses.

Lemma impl_memcpy_correct_witness :
  Impl.lzav_memcpy abcdef7 3 20 17 = lzav_memmove abcdef7 3 20 17.
Proof.
  exact (impl_memcpy_correct abcdef7 3 20 17 bytes_ok_abcdef7 ltac:(lia)
           ltac:(lia) ltac:(vm_compute; discriminate) ltac:(lia)).
Defined.

Lemma impl_memmove_correct_witness :
  Impl.lzav_memmove abcdef7 5 2 30 = lzav_memmove abcdef7 5 2 30.
Proof.
  exact (impl_memmove_correct abcdef7 5 2 30 bytes_ok_abcdef7
           ltac:(vm_compute; reflexivity) ltac:(lia) ltac:(lia) ltac:(lia)
           ltac:(vm_compute; discriminate)).
Defined.

Lemma impl_memset_correct_witness :
  Impl.lzav_memset abcdef7 3 7 20 = lzav_memset abcdef7 3 7 20.
Proof.
  exact (impl_memset_correct abcdef7 3 7 20 ltac:(lia) ltac:(lia)).
Defined.

End CopyWitnesses.

(** ** Helper functions *)

Section Helpers.

(** A value without a bit in common with its predecessor is a power of
    two. *)
Lemma power_of_two y :
  0 < y -> Z.land y (y - 1) = 0 -> y = 2 ^ Z.log2 y.
Proof.
  intros Hy H.
  destruct (Z.log2_spec y Hy) as [Hlo Hhi].
  destruct (Z.eq_dec y (2 ^ Z.log2 y)) as [E | N]; [exact E | exfalso].
  assert (Hk : 0 <= Z.log2 y) by apply Z.log2_nonneg.
  assert (L : Z.log2 (y - 1) = Z.log2 y).
  { apply Z.log2_unique; [exact Hk |].
    rewrite Z.pow_succ_r in Hhi by exact Hk. fold (Z.succ (Z.log2 y)).
    rewrite Z.pow_succ_r by exact Hk. lia. }
  assert (B1 : Z.testbit (y - 1) (Z.log2 y) = true).
  { rewrite <- L. apply Z.bit_log2.
    assert (0 < 2 ^ Z.log2 y) by (apply Z.pow_pos_nonneg; lia). lia. }
  assert (B2 : Z.testbit y (Z.log2 y) = true) by (apply Z.bit_log2; lia).
  assert (B : Z.testbit (Z.land y (y - 1)) (Z.log2 y) = true).
  { now rewrite Z.land_spec, B1, B2. }
  rewrite H, Z.bits_0 in B. discriminate.
Qed.

(** X12: [fast_div_pow2] divides.  For every [x] and every [y] other
    than 0 the result is the quotient [x / y], through the division for a
    [y] with two bits set or more and through the shift by the counted
    trailing zeros for a power of two; for [y = 0] the result is
    [x >> 63], and no division is done. *)
Theorem fast_div_pow2_correct (x y : Z) :
  0 <= x < 2 ^ 64 -> 0 <= y < 2 ^ 64 ->
  fast_div_pow2 x y = if y =? 0 then Z.shiftr x 63 else x / y.
Proof.
  intros Hx Hy.
  pose (s := fun y : Z =>
    let shift := 0 in
    let mask := y in
    let '(shift, mask) :=
      if Z.land mask 0xFFFFFFFF =? 0 then (shift + 32, Z.shiftr mask 32)
      else (shift, mask) in
    let '(shift, mask) :=
      if Z.land mask 0xFFFF =? 0 then (shift + 16, Z.shiftr mask 16)
      else (shift, mask) in
    let '(shift, mask) :=
      if Z.land mask 0xFF =? 0 then (shift + 8, Z.shiftr mask 8)
      else (shift, mask) in
    let '(shift, mask) :=
      if Z.land mask 0xF =? 0 then (shift + 4, Z.shiftr mask 4)
      else (shift, mask) in
    let '(shift, mask) :=
      if Z.land mask 0x3 =? 0 then (shift + 2, Z.shiftr mask 2)
      else (shift, mask) in
    if Z.land mask 0x1 =? 0 then shift + 1 else shift).
  assert (F : fast_div_pow2 x y
              = if negb (Z.land y (u64 (y - 1)) =? 0) then x / y
                else Z.shiftr x (s y)).
  { unfold fast_div_pow2, s. destruct (negb _); [reflexivity |].
    cbv zeta.
    repeat match goal with
           | |- context [if ?c then (_, _) else _] => destruct c
           end;
      reflexivity. }
  rewrite F. clear F.
  assert (S2 : forallb (fun k => s (2 ^ Z.of_nat k) =? Z.of_nat k)
                 (seq 0 64) = true) by (vm_compute; reflexivity).
  rewrite forallb_forall in S2.
  destruct (Z.eqb_spec y 0) as [-> | Hy0].
  { reflexivity. }
  assert (Hu : u64 (y - 1) = y - 1).
  { unfold u64, wrap. apply Z.mod_small. lia. }
  rewrite Hu.
  destruct (Z.eqb_spec (Z.land y (y - 1)) 0) as [E | N]; cbn [negb];
    [| reflexivity].
  pose proof (power_of_two y ltac:(lia) E) as P.
  assert (Hk : 0 <= Z.log2 y < 64).
  { split; [apply Z.log2_nonneg |].
    apply Z.log2_lt_pow2; lia. }
  specialize (S2 (Z.to_nat (Z.log2 y))).
  rewrite Z2Nat.id in S2 by lia. rewrite <- P in S2.
  rewrite (proj1 (Z.eqb_eq _ _) (S2 ltac:(apply in_seq; lia))).
  rewrite Z.shiftr_div_pow2 by lia. now rewrite <- P.
Qed.

Lemma fast_div_pow2_correct_witness :
  fast_div_pow2 1000 8 = if 8 =? 0 then Z.shiftr 1000 63 else 1000 / 8.
Proof.
  exact (fast_div_pow2_correct 1000 8 ltac:(lia) ltac:(lia)).
Defined.

(** The steps that spread the highest set bit downwards keep a value
    inside 64 bits and apart from 0. *)
Lemma smear_step a k :
  0 <= k -> 0 < a < 2 ^ 64 -> 0 < Z.lor a (Z.shiftr a k) < 2 ^ 64.
Proof.
  intros Hk Ha.
  assert (Hs : 0 <= Z.shiftr a k <= a).
  { rewrite Z.shiftr_div_pow2 by lia.
    assert (0 < 2 ^ k) by (apply Z.pow_pos_nonneg; lia).
    split; [apply Z.div_pos; lia |].
    apply Z.div_le_upper_bound; [lia |]. nia. }
  assert (N : 0 <= Z.lor a (Z.shiftr a k)) by (apply Z.lor_nonneg; lia).
  assert (Z0 : Z.lor a (Z.shiftr a k) <> 0).
  { intros E. apply Z.lor_eq_0_iff in E. lia. }
  split; [lia |].
  apply Z.log2_lt_pow2; [lia |].
  rewrite Z.log2_lor by lia.
  assert (Z.log2 (Z.shiftr a k) <= Z.log2 a) by (apply Z.log2_le_mono; lia).
  assert (Z.log2 a < 64) by (apply Z.log2_lt_pow2; lia).
  lia.
Qed.

(** The highest set bit of a value is not set in the value shifted
    right. *)
Lemma top_bit_survives y k :
  0 < y < 2 ^ 64 -> 1 <= k ->
  (Z.land y (not64 (Z.shiftr y k)) =? 0) = false.
Proof.
  intros Hy Hk. apply Z.eqb_neq. intros E.
  assert (Hh : 0 <= Z.log2 y < 64).
  { split; [apply Z.log2_nonneg | apply Z.log2_lt_pow2; lia]. }
  assert (B : Z.testbit (Z.land y (not64 (Z.shiftr y k))) (Z.log2 y) = true).
  { rewrite Z.land_spec, Z.bit_log2 by lia.
    unfold not64, u64, wrap.
    rewrite Z.mod_pow2_bits_low, Z.lnot_spec, Z.shiftr_spec by lia.
    rewrite Z.bits_above_log2 by lia. reflexivity. }
  rewrite E, Z.bits_0 in B. discriminate.
Qed.

(** X13: [lzav_get_hash_bits] does not look at the size: it returns
    [LZAV_HASH_L1_BITS = 12] for every input size other than 0 and
    [LZAV_HASH_L3_BITS = 17] for 0.  Each of its six tests for the
    leading-zero count holds as soon as one bit of the size is set. *)
Theorem lzav_get_hash_bits_constant (input_size : Z) :
  0 <= input_size < 2 ^ 64 ->
  lzav_get_hash_bits input_size
  = if input_size =? 0 then LZAV_HASH_L3_BITS else LZAV_HASH_L1_BITS.
Proof.
  intros H. destruct (Z.eqb_spec input_size 0) as [-> | N];
    [vm_compute; reflexivity |].
  unfold lzav_get_hash_bits. cbv zeta.
  assert (X1 := smear_step input_size 1 ltac:(lia) ltac:(lia)).
  assert (X2 := smear_step _ 2 ltac:(lia) X1).
  assert (X3 := smear_step _ 4 ltac:(lia) X2).
  assert (X4 := smear_step _ 8 ltac:(lia) X3).
  assert (X5 := smear_step _ 16 ltac:(lia) X4).
  assert (X6 := smear_step _ 32 ltac:(lia) X5).
  match type of X6 with
  | 0 < ?x < _ => set (x6 := x) in *
  end.
  rewrite !(top_bit_survives x6) by (assumption || lia).
  vm_compute. reflexivity.
Qed.

Lemma lzav_get_hash_bits_constant_witness :
  lzav_get_hash_bits 1000000
  = if 1000000 =? 0 then LZAV_HASH_L3_BITS else LZAV_HASH_L1_BITS.
Proof.
  exact (lzav_get_hash_bits_constant 1000000 ltac:(lia)).
Defined.

(** Multiplication by the odd constant of [lzav_hash] can be undone. *)
Lemma hash_mul_injective a b :
  0 <= a < 2 ^ 32 -> 0 <= b < 2 ^ 32 ->
  u32 (a * 0x1E35A7BD) = u32 (b * 0x1E35A7BD) -> a = b.
Proof.
  intros Ha Hb E. unfold u32, wrap in E.
  assert (I : forall c, 0 <= c < 2 ^ 32 ->
            ((c * 0x1E35A7BD) mod 2 ^ 32 * 582306709) mod 2 ^ 32 = c).
  { intros c Hc. rewrite Z.mul_mod_idemp_l by lia.
    rewrite <- Z.mul_assoc, <- Z.mul_mod_idemp_r by lia.
    change ((0x1E35A7BD * 582306709) mod 2 ^ 32) with 1.
    rewrite Z.mul_1_r. apply Z.mod_small. exact Hc. }
  rewrite <- (I a Ha), <- (I b Hb). now rewrite E.
Qed.

Lemma testbit_u32_high x j :
  0 <= x < 2 ^ 32 -> 32 <= j -> Z.testbit x j = false.
Proof.
  intros Hx Hj. destruct (Z.eq_dec x 0) as [-> | N]; [apply Z.bits_0 |].
  apply Z.bits_above_log2; [lia |].
  apply Z.lt_le_trans with 32; [| exact Hj].
  apply Z.log2_lt_pow2; lia.
Qed.

(** So can the step [x ^= x >> 12] on a 32-bit value. *)
Lemma hash_xorshift_inverse x :
  0 <= x < 2 ^ 32 ->
  let y := Z.lxor x (Z.shiftr x 12) in
  Z.lxor (Z.lxor y (Z.shiftr y 12)) (Z.shiftr y 24) = x.
Proof.
  intros Hx y. unfold y. apply Z.bits_inj'. intros i Hi.
  rewrite !Z.lxor_spec, !Z.shiftr_spec, !Z.lxor_spec, !Z.shiftr_spec by lia.
  replace (i + 12 + 12) with (i + 24) by lia.
  replace (i + 24 + 12) with (i + 36) by lia.
  rewrite (testbit_u32_high x (i + 36)) by lia.
  destruct (Z.testbit x i), (Z.testbit x (i + 12)), (Z.testbit x (i + 24));
    reflexivity.
Qed.

Lemma lxor_u32 a b :
  0 <= a < 2 ^ 32 -> 0 <= b < 2 ^ 32 -> 0 <= Z.lxor a b < 2 ^ 32.
Proof.
  intros Ha Hb.
  assert (N : 0 <= Z.lxor a b) by (apply Z.lxor_nonneg; lia).
  split; [exact N |].
  destruct (Z.eq_dec (Z.lxor a b) 0) as [-> | Z0]; [lia |].
  apply Z.log2_lt_pow2; [lia |].
  destruct (Z.lt_ge_cases (Z.log2 (Z.lxor a b)) 32) as [L | G]; [exact L |].
  pose proof (Z.bit_log2 (Z.lxor a b) ltac:(lia)) as B.
  rewrite Z.lxor_spec, !testbit_u32_high in B by lia. discriminate.
Qed.

(** X14: [lzav_hash] loses nothing before it masks: with the mask of all
    32 bits two different 32-bit values have different hashes, so that
    with a smaller mask two values collide only in the bits the mask
    removes. *)
Theorem lzav_hash_injective (x1 x2 : Z) :
  0 <= x1 < 2 ^ 32 -> 0 <= x2 < 2 ^ 32 ->
  lzav_hash x1 0xFFFFFFFF = lzav_hash x2 0xFFFFFFFF -> x1 = x2.
Proof.
  intros H1 H2. unfold lzav_hash. cbv zeta.
  assert (R : forall x, 0 <= u32 x < 2 ^ 32).
  { intros x. unfold u32, wrap. apply Z.mod_pos_bound. lia. }
  assert (M : forall v, 0 <= v < 2 ^ 32 -> Z.land v 0xFFFFFFFF = v).
  { intros v Hv. change 0xFFFFFFFF with (Z.ones 32).
    rewrite Z.land_ones by lia. apply Z.mod_small. exact Hv. }
  rewrite !M by apply R. intros E.
  assert (S : forall x, 0 <= x < 2 ^ 32 -> 0 <= Z.shiftr x 12 < 2 ^ 32).
  { intros x Hx. rewrite Z.shiftr_div_pow2 by lia.
    split; [apply Z.div_pos; lia |].
    apply Z.div_lt_upper_bound; lia. }
  apply hash_mul_injective in E;
    try (apply lxor_u32; [apply R | apply S, R]).
  apply hash_mul_injective; try assumption.
  rewrite <- (hash_xorshift_inverse (u32 (x1 * 0x1E35A7BD)) (R _)).
  rewrite <- (hash_xorshift_inverse (u32 (x2 * 0x1E35A7BD)) (R _)).
  cbv zeta. unfold LZAV_HASH_L1_BITS in E. now rewrite E.
Qed.

Lemma lzav_hash_injective_witness : 7 = 7.
Proof.
  exact (lzav_hash_injective 7 7 ltac:(lia) ltac:(lia) eq_refl).
Defined.

(** Bit [i] of a rotated word. *)
Lemma testbit_rotate_left v s i :
  0 <= v < 2 ^ 32 -> 0 < s < 32 -> 0 <= i ->
  Z.testbit (lzav_bitwise_rotate_left v s) i
  = if i <? s then Z.testbit v (i + 32 - s)
    else if i <? 32 then Z.testbit v (i - s) else false.
Proof.
  intros Hv Hs Hi. unfold lzav_bitwise_rotate_left, u32, wrap.
  rewrite Z.lor_spec, Z.shiftr_spec by lia.
  replace (i + (32 - s)) with (i + 32 - s) by lia.
  destruct (Z.ltb_spec i s).
  - rewrite Z.mod_pow2_bits_low, Z.shiftl_spec_low by lia. reflexivity.
  - rewrite (testbit_u32_high v (i + 32 - s)) by lia.
    rewrite orb_false_r.
    destruct (Z.ltb_spec i 32).
    + rewrite Z.mod_pow2_bits_low, Z.shiftl_spec by lia. reflexivity.
    + apply Z.mod_pow2_bits_high. lia.
Qed.

Lemma rotate_left_range v s :
  0 <= v < 2 ^ 32 -> 0 < s < 32 ->
  0 <= lzav_bitwise_rotate_left v s < 2 ^ 32.
Proof.
  intros Hv Hs.
  assert (N : 0 <= lzav_bitwise_rotate_left v s).
  { unfold lzav_bitwise_rotate_left. apply Z.lor_nonneg. split.
    - unfold u32, wrap. apply Z.mod_pos_bound. lia.
    - apply Z.shiftr_nonneg. lia. }
  split; [exact N |].
  destruct (Z.eq_dec (lzav_bitwise_rotate_left v s) 0) as [-> | Z0]; [lia |].
  apply Z.log2_lt_pow2; [lia |].
  destruct (Z.lt_ge_cases (Z.log2 (lzav_bitwise_rotate_left v s)) 32)
    as [L | G]; [exact L |].
  pose proof (Z.bit_log2 (lzav_bitwise_rotate_left v s) ltac:(lia)) as B.
  rewrite testbit_rotate_left in B by (assumption || lia).
  destruct (Z.ltb_spec (Z.log2 (lzav_bitwise_rotate_left v s)) s); [lia |].
  destruct (Z.ltb_spec (Z.log2 (lzav_bitwise_rotate_left v s)) 32); [lia |].
  discriminate.
Qed.

(** X15: [lzav_bitwise_rotate_left] rotates.  For a shift from 1 to 31
    the result is a 32-bit value whose bit [i] is bit [i - shift] of the
    argument, counted modulo 32, and the rotation by [32 - shift] gives the
    argument back. *)
Theorem lzav_bitwise_rotate_left_inverse (val shift : Z) :
  0 <= val < 2 ^ 32 -> 0 < shift < 32 ->
  (forall i, 0 <= i < 32 ->
     Z.testbit (lzav_bitwise_rotate_left val shift) i
     = Z.testbit val ((i - shift) mod 32))
  /\ lzav_bitwise_rotate_left (lzav_bitwise_rotate_left val shift)
       (32 - shift) = val.
Proof.
  intros Hv Hs. split.
  - intros i Hi. rewrite testbit_rotate_left by (assumption || lia).
    destruct (Z.ltb_spec i shift).
    + f_equal. symmetry.
      rewrite <- (Z_mod_plus_full (i - shift) 1 32).
      rewrite Z.mod_small by lia. lia.
    + destruct (Z.ltb_spec i 32); [| lia].
      f_equal. symmetry. apply Z.mod_small. lia.
  - pose proof (rotate_left_range val shift Hv Hs) as R.
    apply Z.bits_inj'. intros i Hi.
    rewrite testbit_rotate_left by (assumption || lia).
    destruct (Z.ltb_spec i (32 - shift)).
    + rewrite testbit_rotate_left by (assumption || lia).
      destruct (Z.ltb_spec (i + 32 - (32 - shift)) shift); [lia |].
      destruct (Z.ltb_spec (i + 32 - (32 - shift)) 32); [| lia].
      f_equal. lia.
    + destruct (Z.ltb_spec i 32).
      * rewrite testbit_rotate_left by (assumption || lia).
        destruct (Z.ltb_spec (i - (32 - shift)) shift); [| lia].
        f_equal. lia.
      * symmetry. apply testbit_u32_high; lia.
Qed.

Lemma lzav_bitwise_rotate_left_inverse_witness :
  (forall i, 0 <= i < 32 ->
     Z.testbit (lzav_bitwise_rotate_left 0x12345678 8) i
     = Z.testbit 0x12345678 ((i - 8) mod 32))
  /\ lzav_bitwise_rotate_left (lzav_bitwise_rotate_left 0x12345678 8)
       (32 - 8) = 0x12345678.
Proof.
  exact (lzav_bitwise_rotate_left_inverse 0x12345678 8 ltac:(lia)
           ltac:(lia)).
Defined.

End Helpers.

(** ** The memory pool *)

Section Pool.

(** The size a request is rounded up to. *)
Lemma round_up_8 size :
  0 <= size < 2 ^ 63 ->
  Z.land (u64 (size + 7)) (not64 7) = (size + 7) / 8 * 8.
Proof.
  intros H. change (2 ^ 63) with 9223372036854775808 in H.
  unfold u64, wrap. change (2 ^ 64) with 18446744073709551616.
  rewrite Z.mod_small by lia.
  replace ((size + 7) / 8 * 8)
    with (Z.shiftl (Z.shiftr (size + 7) 3) 3)
    by (rewrite Z.shiftl_mul_pow2, Z.shiftr_div_pow2 by lia; reflexivity).
  apply Z.bits_inj'. intros i Hi.
  rewrite Z.land_spec. unfold not64, u64, wrap.
  destruct (Z.lt_ge_cases i 3) as [L3 | G3].
  - rewrite Z.shiftl_spec_low by lia.
    rewrite Z.mod_pow2_bits_low, Z.lnot_spec by lia.
    assert (i = 0 \/ i = 1 \/ i = 2) as [-> | [-> | ->]] by lia;
      apply andb_false_r.
  - rewrite Z.shiftl_spec, Z.shiftr_spec by lia.
    replace (i - 3 + 3) with i by lia.
    destruct (Z.lt_ge_cases i 64) as [L | G].
    + rewrite Z.mod_pow2_bits_low, Z.lnot_spec by lia.
      replace (Z.testbit 7 i) with false; [apply andb_true_r |].
      symmetry. apply Z.bits_above_log2; [lia |].
      change (Z.log2 7) with 2. lia.
    + rewrite Z.mod_pow2_bits_high by lia. rewrite andb_false_r.
      symmetry. apply Z.bits_above_log2; [lia |].
      apply Z.lt_le_trans with 64; [| exact G].
      apply Z.log2_lt_pow2; lia.
Qed.

Lemma round_up_8_range size :
  0 <= size <= LZAV_POOL_BLOCK ->
  size <= (size + 7) / 8 * 8 <= LZAV_POOL_BLOCK
  /\ ((size + 7) / 8 * 8) mod 8 = 0.
Proof.
  unfold LZAV_POOL_BLOCK. intros H.
  pose proof (Z.div_mod (size + 7) 8 ltac:(lia)).
  pose proof (Z.mod_pos_bound (size + 7) 8 ltac:(lia)).
  split; [| apply Z_mod_mult].
  split; [lia |].
  assert ((size + 7) / 8 < 257); [| lia].
  apply Z.div_lt_upper_bound; lia.
Qed.

(** The scan finds a block in use with room for the request. *)
Lemma pool_scan_found fuel : forall pool size i k,
  0 <= i -> pool_scan fuel pool size i = Some k ->
  i <= k < pool_count pool
  /\ u64 (LZAV_POOL_BLOCK - word_at (pool_used pool) k) >= size.
Proof.
  induction fuel as [| n IH]; intros pool size i k Hi H;
    cbn [pool_scan] in H; [discriminate |].
  destruct (Z.ltb_spec i (pool_count pool)); [| discriminate].
  cbv zeta in H.
  destruct (Z.geb_spec (u64 (LZAV_POOL_BLOCK - word_at (pool_used pool) i))
              size).
  - injection H as <-. split; lia.
  - apply IH in H; [| lia]. destruct H as [? ?]. split; lia.
Qed.

Lemma word_at_set_eq k v (a : list Z) :
  0 <= k < Z.of_nat (length a) -> word_at (set_nth (Z.to_nat k) v a) k = v.
Proof. intros H. unfold word_at. apply nth_set_nth_eq. lia. Qed.

Lemma word_at_set_ne k j v (a : list Z) :
  0 <= k -> 0 <= j -> j <> k ->
  word_at (set_nth (Z.to_nat k) v a) j = word_at a j.
Proof. intros Hk Hj N. unfold word_at. apply nth_set_nth_ne. lia. Qed.



End Pool.

(** ** The reverse match length with an alignment step *)

Section MatchLenOptR.

Variable b : buf.
Hypothesis b_ok : bytes_ok b.

Lemma index_before p len :
  0 <= len < 2 ^ 63 -> padd p (u64 (- len - 1)) = p - len - 1.
Proof.
  intros H. change (2 ^ 63) with 9223372036854775808 in H.
  unfold padd, s64, swrap, u64, wrap.
  change (2 ^ (64 - 1)) with 9223372036854775808.
  change (2 ^ 64) with 18446744073709551616.
  rewrite <- (Z_mod_plus_full (- len - 1) 1 18446744073709551616).
  rewrite (Z.mod_small (- len - 1 + 1 * 18446744073709551616)) by lia.
  replace (- len - 1 + 1 * 18446744073709551616 + 9223372036854775808)
    with (- len - 1 + 9223372036854775808 + 1 * 18446744073709551616) by lia.
  rewrite Z_mod_plus_full, Z.mod_small by lia. lia.
Qed.

Variables p1 p2 ml : Z.

Local Abbreviation matched_prior off := (matched_prior b p1 p2 ml off).
Local Abbreviation is_prior_len r := (is_prior_len b p1 p2 ml r).

Lemma match_bytes_r_inv fuel : forall off,
  ml < 2 ^ 63 ->
  matched_prior off -> ml - off <= Z.of_nat fuel ->
  is_prior_len (match_bytes_r fuel b p1 p2 off ml).
Proof.
  induction fuel as [| n IH]; intros off Hml M Hf; cbn [match_bytes_r];
    pose proof M as [Ho _].
  - apply prior_all; [lia | exact M].
  - destruct (Z.ltb_spec off ml); cbn [andb];
      [| apply prior_all; [lia | exact M]].
    rewrite !index_before by lia.
    destruct (Z.eqb_spec (load8 b (p1 - off - 1)) (load8 b (p2 - off - 1)))
      as [E | N].
    + apply IH; [exact Hml | | lia].
      apply prior_more; [exact M | lia | exact E].
    + apply prior_stop; [exact M | lia | exact N].
Qed.

(** X17: with fewer than 8 bytes to look at, [lzav_match_len_opt_r]
    returns the number of matching bytes before the two origins: the bytes
    at [p1 - 1 - i] and [p2 - 1 - i] are equal for every [i] below the
    result, and differ at the result unless it is [ml]. *)
Theorem lzav_match_len_opt_r_short (base : Z) :
  0 <= ml < 8 ->
  lzav_match_len_opt_r base b p1 p2 ml
  = matching_prior (Z.to_nat ml) b p1 p2.
Proof.
  intros H8. unfold lzav_match_len_opt_r.
  destruct (Z.ltb_spec ml 8); [| lia].
  assert (M0 : matched_prior 0) by (split; [lia | intros; lia]).
  destruct (match_bytes_r_inv (Z.to_nat ml) 0 ltac:(lia) M0 ltac:(lia))
    as [[H1 H2] H3].
  symmetry. apply matching_prior_unique; rewrite ?Z2Nat.id by lia;
    assumption.
Qed.

(** X18: with 8 or more bytes to look at, an origin [p1] that needs no
    alignment step and two words before the origins that differ,
    [lzav_match_len_opt_r], built without the vector extensions, returns
    the number of bytes the two words share at their low addresses, less 8,
    as a [size_t]: a value of [2 ^ 64 - 8] or more, above [ml]. *)
Theorem lzav_match_len_opt_r_first_word (base : Z) :
  8 <= ml < 2 ^ 63 ->
  Z.land (base + (p1 - 1)) 7 = 0 ->
  load64 b (p1 - 8) <> load64 b (p2 - 8) ->
  lzav_match_len_opt_r base b p1 p2 ml
  = 2 ^ 64 - 8 + matching_leading 8 b (p1 - 8) (p2 - 8)
  /\ ml < lzav_match_len_opt_r base b p1 p2 ml.
Proof.
  intros H8 Ha Hd.
  assert (E : lzav_match_len_opt_r base b p1 p2 ml
              = 2 ^ 64 - 8 + matching_leading 8 b (p1 - 8) (p2 - 8)).
  { unfold lzav_match_len_opt_r.
    destruct (Z.ltb_spec ml 8); [lia |].
    cbv zeta. rewrite Ha. cbn [Z.eqb negb].
    replace (p1 - (p1 - ml)) with ml by lia.
    assert (0 <= ml / 8) by (apply Z.div_pos; lia).
    destruct (Z.to_nat (ml / 8 + 1)) as [| n] eqn:En; [lia |].
    cbn [match_words_opt_r].
    destruct (Z.geb_spec (p1 - 7) (p1 - ml)); [| lia].
    cbv zeta.
    destruct (Z.eqb_spec (load64 b (p1 - 8)) (load64 b (p2 - 8)));
      [contradiction |].
    cbn [negb].
    assert (N' : Z.lxor (load64 b (p1 - 8)) (load64 b (p2 - 8)) <> 0).
    { intros Z0. apply Hd. now apply Z.lxor_eq. }
    destruct (words64_differ b b_ok _ _ N') as [k [Hk [He [Hdk Hc]]]].
    rewrite Hc.
    rewrite (matching_leading_unique b 8 (p1 - 8) (p2 - 8) k);
      try (intros; assumption); [| cbn; lia | exact He].
    replace (p1 - (p1 - k + 8)) with (k - 8) by lia.
    unfold u64, wrap.
    rewrite <- (Z_mod_plus_full (k - 8) 1 (2 ^ 64)).
    rewrite Z.mod_small; lia. }
  split; [exact E |]. rewrite E.
  destruct (matching_leading_spec b 8 (p1 - 8) (p2 - 8)) as [[H0 _] _].
  change (2 ^ 63) with 9223372036854775808 in H8.
  change (2 ^ 64) with 18446744073709551616. lia.
Qed.

End MatchLenOptR.

Section MatchLenOptRWitness.

Lemma lzav_match_len_opt_r_short_witness :
  lzav_match_len_opt_r 0 abcdef7 20 26 5
  = matching_prior (Z.to_nat 5) abcdef7 20 26.
Proof.
  exact (lzav_match_len_opt_r_short abcdef7 20 26 5 0 ltac:(lia)).
Defined.

Lemma lzav_match_len_opt_r_first_word_witness :
  lzav_match_len_opt_r 0 abcdef7 9 17 8
  = 2 ^ 64 - 8 + matching_leading 8 abcdef7 (9 - 8) (17 - 8)
  /\ 8 < lzav_match_len_opt_r 0 abcdef7 9 17 8.
Proof.
  exact (lzav_match_len_opt_r_first_word abcdef7 bytes_ok_abcdef7 9 17 8 0
           ltac:(lia) ltac:(reflexivity)
           ltac:(vm_compute; discriminate)).
Defined.

End MatchLenOptRWitness.

(** ** The length contract of the decoder *)

Section LengthContract.



End LengthContract.

(** * Round trip of the default compressor *)

(** ** Bit operations as arithmetic *)

(** Linear arithmetic with division and remainder by constants. *)
Ltac zlia := Z.div_mod_to_equations; lia.

Section BitArithmetic.

Lemma testbit_below a k n :
  0 <= a < 2 ^ k -> k <= n -> Z.testbit a n = false.
Proof.
  intros [H0 H1] Hk.
  destruct (Z.eq_dec a 0) as [-> | N]; [apply Z.bits_0 |].
  apply Z.bits_above_log2; [lia |].
  assert (0 <= k).
  { destruct (Z.le_gt_cases 0 k); [assumption |].
    rewrite Z.pow_neg_r in H1 by lia. lia. }
  assert (Z.log2 a < k) by (apply Z.log2_lt_pow2; lia). lia.
Qed.

Lemma lor_plus a b k :
  0 <= k -> 0 <= a < 2 ^ k -> Z.lor a (b * 2 ^ k) = a + b * 2 ^ k.
Proof.
  intros Hk Ha.
  assert (D : Z.land a (b * 2 ^ k) = 0).
  { apply Z.bits_inj'. intros n Hn. rewrite Z.land_spec, Z.bits_0.
    destruct (Z.lt_ge_cases n k).
    - rewrite Z.mul_pow2_bits_low by lia. apply andb_false_r.
    - rewrite (testbit_below a k n) by lia. reflexivity. }
  rewrite <- Z.lxor_lor by exact D.
  symmetry. apply Z.add_nocarry_lxor. exact D.
Qed.

Lemma lor_plus_l a b k :
  0 <= k -> 0 <= a < 2 ^ k -> Z.lor (b * 2 ^ k) a = b * 2 ^ k + a.
Proof.
  intros. rewrite Z.lor_comm, lor_plus by assumption. lia.
Qed.

Lemma land_low a k : 0 <= k -> Z.land a (2 ^ k - 1) = a mod 2 ^ k.
Proof.
  intros. rewrite <- Z.land_ones by assumption.
  now rewrite Z.ones_equiv, <- Z.sub_1_r.
Qed.

Lemma land_3 a : Z.land a 3 = a mod 4.
Proof. exact (land_low a 2 ltac:(lia)). Qed.

Lemma land_15 a : Z.land a 15 = a mod 16.
Proof. exact (land_low a 4 ltac:(lia)). Qed.

Lemma land_127 a : Z.land a 127 = a mod 128.
Proof. exact (land_low a 7 ltac:(lia)). Qed.

Lemma land_255 a : Z.land a 255 = a mod 256.
Proof. exact (land_low a 8 ltac:(lia)). Qed.

Lemma land_2097151 a : Z.land a 2097151 = a mod 2097152.
Proof. exact (land_low a 21 ltac:(lia)). Qed.

Lemma land_shifted a m k :
  0 <= k -> Z.land a (m * 2 ^ k) = Z.land (a / 2 ^ k) m * 2 ^ k.
Proof.
  intros Hk.
  rewrite <- Z.shiftr_div_pow2, <- !Z.shiftl_mul_pow2 by lia.
  apply Z.bits_inj'. intros n Hn.
  rewrite Z.land_spec.
  destruct (Z.lt_ge_cases n k).
  - rewrite !Z.shiftl_spec_low by lia. apply andb_false_r.
  - rewrite !Z.shiftl_spec by lia.
    rewrite Z.land_spec, Z.shiftr_spec by lia.
    now replace (n - k + k) with n by lia.
Qed.

Lemma land_48 a : Z.land a 48 = a / 16 mod 4 * 16.
Proof.
  rewrite <- land_3. exact (land_shifted a 3 4 ltac:(lia)).
Qed.

Lemma land_128 a : Z.land a 128 = a / 128 mod 2 * 128.
Proof.
  rewrite <- (land_low _ 1) by lia. exact (land_shifted a 1 7 ltac:(lia)).
Qed.

Lemma shiftl_times a k : 0 <= k -> Z.shiftl a k = a * 2 ^ k.
Proof. intros. now apply Z.shiftl_mul_pow2. Qed.

Lemma shiftr_over a k : 0 <= k -> Z.shiftr a k = a / 2 ^ k.
Proof. intros. now apply Z.shiftr_div_pow2. Qed.

Lemma u8_mod a : u8 a = a mod 256.
Proof. reflexivity. Qed.

Lemma u16_mod a : u16 a = a mod 65536.
Proof. reflexivity. Qed.

Lemma u32_mod a : u32 a = a mod 4294967296.
Proof. reflexivity. Qed.

Lemma u64_mod a : u64 a = a mod 18446744073709551616.
Proof. reflexivity. Qed.

Lemma u64_small a : 0 <= a < 2 ^ 64 -> u64 a = a.
Proof. intros. unfold u64, wrap. now apply Z.mod_small. Qed.

Lemma u32_small a : 0 <= a < 2 ^ 32 -> u32 a = a.
Proof. intros. unfold u32, wrap. now apply Z.mod_small. Qed.

Lemma load16_sum (b : buf) (i : Z) :
  bytes_ok b -> load16 b i = load8 b i + 256 * load8 b (i + 1).
Proof.
  intros Hb. unfold load16.
  pose proof (bytes_ok_load8 b i Hb).
  rewrite shiftl_times by lia. change (2 ^ 8) with 256.
  rewrite (lor_plus _ _ 8) by (change (2 ^ 8) with 256; lia).
  change (2 ^ 8) with 256. lia.
Qed.

Lemma load32_sum (b : buf) (i : Z) :
  bytes_ok b ->
  load32 b i = load8 b i + 256 * load8 b (i + 1) + 65536 * load8 b (i + 2)
               + 16777216 * load8 b (i + 3).
Proof.
  intros Hb. unfold load32. rewrite !load16_sum by assumption.
  pose proof (bytes_ok_load8 b i Hb).
  pose proof (bytes_ok_load8 b (i + 1) Hb).
  rewrite shiftl_times by lia.
  rewrite (lor_plus _ _ 16) by (change (2 ^ 16) with 65536; lia).
  change (2 ^ 16) with 65536.
  replace (i + 2 + 1) with (i + 3) by lia. lia.
Qed.

End BitArithmetic.


(** ** What the decoder makes of a block *)

Section ExpandCopy.

Local Abbreviation len l := (Z.of_nat (length l)).

Variable src : buf.
Variables op d cc n : Z.
Hypothesis d_range : 1 <= d <= op.
Hypothesis cc_range : 0 <= cc <= d.
Hypothesis fits : op + cc <= n.
Hypothesis seen : forall i, 0 <= i < cc ->
  load8 src (op + i) = load8 src (op - d + i).

Local Abbreviation copied := (copied src op cc n).

Lemma copied_chunk out0 out k c :
  0 <= k -> 0 <= c -> op + k + c <= n -> n <= len out0 ->
  copied out0 out k ->
  copied out0 (LZAV_MEMMOVE out (op + k) (op - d + k) c) (k + c).
Proof.
  intros Hk Hc Hn Hl (P & C & L & U).
  repeat split.
  - intros i Hi. rewrite load8_LZAV_MEMMOVE_out by lia. now apply P.
  - intros i Hi Hi'.
    destruct (Z.lt_ge_cases i k).
    + rewrite load8_LZAV_MEMMOVE_out by lia. apply C; lia.
    + rewrite load8_LZAV_MEMMOVE_in by lia.
      replace (op - d + k + (op + i - (op + k))) with (op - d + i) by lia.
      rewrite P by lia. symmetry. apply seen. lia.
  - rewrite length_LZAV_MEMMOVE by lia. exact L.
  - intros j Hj. rewrite load8_LZAV_MEMMOVE_out by lia. now apply U.
Qed.

Lemma copied_bytes m : forall out0 out k,
  0 <= k -> k + Z.of_nat m <= cc -> n <= len out0 ->
  copied out0 out k ->
  copied out0 (copy_within m out (op + k) (op - d + k)) (k + Z.of_nat m).
Proof.
  induction m as [| m IH]; intros out0 out k Hk Hm Hl Q.
  - cbn [copy_within]. now rewrite Z.add_0_r.
  - cbn [copy_within].
    replace (k + Z.of_nat (S m)) with (k + 1 + Z.of_nat m) by lia.
    replace (op + k + 1) with (op + (k + 1)) by lia.
    replace (op - d + k + 1) with (op - d + (k + 1)) by lia.
    apply IH; try lia.
    destruct Q as (P & C & L & U).
    repeat split.
    + intros i Hi. rewrite load8_store8_ne by lia. now apply P.
    + intros i Hi Hi'.
      destruct (Z.eq_dec i k) as [-> | N].
      * rewrite load8_store8_eq by lia.
        rewrite P by lia. symmetry. apply seen. lia.
      * rewrite load8_store8_ne by lia. apply C; lia.
    + rewrite length_store8. exact L.
    + intros j Hj. rewrite load8_store8_ne by lia. now apply U.
Qed.

Lemma copied_0 out : same_prefix op out src -> copied out out 0.
Proof.
  intros P. repeat split; [exact P | intros; lia].
Qed.

(** A reference no longer than its offset comes out as the source has
    it, on every path of the copy. *)
Lemma ref_expand_copy (long : bool) (out : buf) :
  n <= len out ->
  (long = false -> cc <= 20) ->
  same_prefix op out src ->
  exists out',
    ref_expand long out op (op - d) cc (n - 63) n = inl (out', op + cc)
    /\ same_prefix (op + cc) out' src
    /\ length out' = length out
    /\ (forall j, n <= j -> load8 out' j = load8 out j).
Proof.
  intros Hl Hs P.
  assert (Fin : forall out', copied out out' cc ->
            same_prefix (op + cc) out' src
            /\ length out' = length out
            /\ (forall j, n <= j -> load8 out' j = load8 out j)).
  { intros out' (P' & C & L & U). repeat split; try assumption.
    intros i Hi. destruct (Z.lt_ge_cases i op); [apply P'; lia |].
    replace i with (op + (i - op)) by lia. apply C; lia. }
  assert (Slow : forall out1 k, 0 <= k <= cc -> copied out out1 k ->
            exists out',
              (if op + k + (cc - k) >? n then inr (out1, op + k, op - d + k)
               else inl (copy_within (Z.to_nat (cc - k)) out1 (op + k)
                           (op - d + k), op + k + (cc - k)))
              = inl (out', op + cc) :> (buf * Z + buf * Z * Z)
              /\ copied out out' cc).
  { intros out1 k Hk Q.
    destruct (Z.gtb_spec (op + k + (cc - k)) n); [lia |].
    eexists. split; [f_equal; f_equal; lia |].
    pose proof (copied_bytes (Z.to_nat (cc - k)) out out1 k ltac:(lia)
                  ltac:(lia) Hl Q) as Q'.
    replace (k + Z.of_nat (Z.to_nat (cc - k))) with cc in Q' by lia.
    exact Q'. }
  pose proof (copied_0 out P) as Q0.
  unfold ref_expand.
  destruct (Z.ltb_spec op (n - 63)) as [Hf | Hf].
  - destruct long.
    + pose proof (copied_chunk out out 0 16 ltac:(lia) ltac:(lia) ltac:(lia)
                    Hl Q0) as Q1.
      pose proof (copied_chunk out _ (0 + 16) 16 ltac:(lia) ltac:(lia)
                    ltac:(lia) Hl Q1) as Q2.
      pose proof (copied_chunk out _ (0 + 16 + 16) 16 ltac:(lia) ltac:(lia)
                    ltac:(lia) Hl Q2) as Q3.
      pose proof (copied_chunk out _ (0 + 16 + 16 + 16) 16 ltac:(lia)
                    ltac:(lia) ltac:(lia) Hl Q3) as Q4.
      rewrite !Z.add_0_r in *.
      replace (op + 32) with (op + (16 + 16)) by lia.
      replace (op - d + 32) with (op - d + (16 + 16)) by lia.
      replace (op + 48) with (op + (16 + 16 + 16)) by lia.
      replace (op - d + 48) with (op - d + (16 + 16 + 16)) by lia.
      cbn [Z.add Pos.add Pos.succ] in Q4.
      destruct (Z.ltb_spec cc 65).
      * eexists. split; [reflexivity |]. apply Fin.
        destruct Q4 as (P' & C & L & U). repeat split; try assumption.
        intros i Hi Hi'. apply C; lia.
      * destruct (Slow _ 64 ltac:(lia) Q4) as (out' & E & Q').
        exists out'. split; [| now apply Fin].
        rewrite <- E.
        replace (op + 64 + (cc - 64)) with (op + 64 + (cc - 64)) by lia.
        reflexivity.
    + pose proof (copied_chunk out out 0 16 ltac:(lia) ltac:(lia) ltac:(lia)
                    Hl Q0) as Q1.
      pose proof (copied_chunk out _ (0 + 16) 4 ltac:(lia) ltac:(lia)
                    ltac:(lia) Hl Q1) as Q2.
      rewrite !Z.add_0_r in *.
      eexists. split; [reflexivity |]. apply Fin.
      destruct Q2 as (P' & C & L & U). repeat split; try assumption.
      intros i Hi Hi'. apply C; [| lia]. specialize (Hs eq_refl).
      cbn. lia.
  - destruct (Slow out 0 ltac:(lia) Q0) as (out' & E & Q').
    exists out'. split; [| now apply Fin].
    rewrite <- E. rewrite !Z.add_0_r, Z.sub_0_r. reflexivity.
Qed.

End ExpandCopy.

Section DecodeRef.

Local Abbreviation len l := (Z.of_nat (length l)).

Variable s : buf.
Hypothesis s_ok : bytes_ok s.

Lemma ref_bt_cases dq :
  0 <= dq < 8388608 ->
  ref_bt dq = 1 /\ dq <= 1023
  \/ ref_bt dq = 2 /\ 1023 < dq <= 262143
  \/ ref_bt dq = 3 /\ 262143 < dq.
Proof.
  intros H. unfold ref_bt.
  change (Z.shiftl 1 10 - 1) with 1023. change (Z.shiftl 1 18 - 1) with 262143.
  destruct (Z.gtb_spec dq 1023), (Z.gtb_spec dq 262143); cbn [b2z]; lia.
Qed.

Lemma ref_ext_cases rc :
  6 <= rc <= 530 ->
  ref_ext rc = 0 /\ rc <= 20
  \/ ref_ext rc = 1 /\ 21 <= rc <= 275
  \/ ref_ext rc = 2 /\ 276 <= rc.
Proof.
  intros H. unfold ref_ext.
  destruct (Z.ltb_spec (rc - 5) 16), (Z.ltb_spec (rc - 5) (16 + 255)); lia.
Qed.

(** The fields of the header of a reference block. *)
Lemma ref_header_fields (bh c2 bt rcf : Z) :
  bh = c2 * 64 + bt * 16 + rcf ->
  0 <= c2 < 4 -> 1 <= bt <= 3 -> 0 <= rcf < 16 ->
  Z.land (Z.shiftr bh 4) 3 = bt
  /\ Z.shiftr bh 6 = c2
  /\ Z.land bh 15 = rcf
  /\ (Z.land bh 48 =? 0) = false.
Proof.
  intros -> Hc Hb Hr.
  rewrite land_3, land_15, land_48, !shiftr_over by lia.
  change (2 ^ 4) with 16. change (2 ^ 6) with 64.
  repeat split; zlia.
Qed.

(** The offset the decoder puts together from the header, the offset
    bytes and what it carries. *)
Lemma ref_offset_value (q dq rc cv csh : Z) :
  ref_at s q dq rc ->
  6 <= rc ->
  0 <= dq < 8388608 ->
  csh = 0 \/ csh = 2 \/ csh = 3 \/ csh = 5 ->
  0 <= cv < 2 ^ csh ->
  dq * 2 ^ csh + cv < 8388608 ->
  let bt := ref_bt dq in
  let bv := load32 s (q + 1) in
  let o := Z.land bv (u32 (Z.shiftl 1 (Z.shiftl bt 3) - 1)) in
  Z.lor (u64 (Z.shiftl (Z.lor (Z.shiftr (load8 s q) 6)
                          (Z.shiftl (Z.land o 2097151) 2)) csh)) cv
  = dq * 2 ^ csh + cv
  /\ Z.shiftr o 21 = carried s (q + bt) (ocsh bt)
  /\ Z.land (Z.shiftr bv (Z.shiftl bt 3)) 255 = load8 s (q + bt + 1).
Proof.
  intros (Hh & H1 & H2 & H3 & _) Hrc Hdq Hcsh Hcv Hd. cbv zeta.
  pose proof (bytes_ok_load8 s (q + 1) s_ok) as B1.
  pose proof (bytes_ok_load8 s (q + 2) s_ok) as B2.
  pose proof (bytes_ok_load8 s (q + 3) s_ok) as B3.
  pose proof (bytes_ok_load8 s (q + 4) s_ok) as B4.
  assert (Hq : Z.shiftr (load8 s q) 6 = dq mod 4).
  { rewrite Hh, shiftr_over by lia. change (2 ^ 6) with 64.
    destruct (ref_bt_cases dq Hdq) as [[-> _] | [[-> _] | [-> _]]];
      destruct (rc - 5 <? 16) eqn:E;
      try (apply Z.ltb_lt in E); zlia. }
  rewrite Hq, load32_sum by assumption.
  replace (q + 1 + 1) with (q + 2) by lia.
  replace (q + 1 + 2) with (q + 3) by lia.
  replace (q + 1 + 3) with (q + 4) by lia.
  rewrite land_2097151, land_255.
  assert (Hsh : forall x, 0 <= x < 8388608 ->
            Z.lor (u64 (Z.shiftl x csh)) cv = x * 2 ^ csh + cv).
  { intros x Hx. rewrite shiftl_times by lia.
    rewrite u64_small, Z.lor_comm, lor_plus; try lia.
    destruct Hcsh as [-> | [-> | [-> | ->]]]; cbn; lia. }
  unfold carried.
  destruct (ref_bt_cases dq Hdq) as [[Eb Hb] | [[Eb Hb] | [Eb Hb]]];
    rewrite Eb in *.
  - change (u32 (Z.shiftl 1 (Z.shiftl 1 3) - 1)) with (2 ^ 8 - 1).
    change (Z.shiftl 1 3) with 8. change (ocsh 1) with 0.
    rewrite land_low, !shiftr_over, (shiftl_times _ 2) by lia.
    change (2 ^ 8) with 256. change (2 ^ 21) with 2097152.
    change (2 ^ (8 - 0)) with 256.
    replace (q + 1 + 1) with (q + 2) by lia.
    split; [| split]; try zlia.
    rewrite (lor_plus _ _ 2) by (change (2 ^ 2) with 4; zlia).
    rewrite <- Hsh by lia. do 3 f_equal.
    change (2 ^ 2) with 4. zlia.
  - specialize (H2 ltac:(lia)).
    change (u32 (Z.shiftl 1 (Z.shiftl 2 3) - 1)) with (2 ^ 16 - 1).
    change (Z.shiftl 2 3) with 16. change (ocsh 2) with 0.
    rewrite land_low, !shiftr_over, (shiftl_times _ 2) by lia.
    change (2 ^ 16) with 65536. change (2 ^ 21) with 2097152.
    change (2 ^ (8 - 0)) with 256.
    replace (q + 2 + 1) with (q + 3) by lia.
    split; [| split]; try zlia.
    rewrite (lor_plus _ _ 2) by (change (2 ^ 2) with 4; zlia).
    rewrite <- Hsh by lia. do 3 f_equal.
    change (2 ^ 2) with 4. zlia.
  - specialize (H2 ltac:(lia)). specialize (H3 eq_refl).
    change (u32 (Z.shiftl 1 (Z.shiftl 3 3) - 1)) with (2 ^ 24 - 1).
    change (Z.shiftl 3 3) with 24. change (ocsh 3) with 3.
    rewrite land_low, !shiftr_over, (shiftl_times _ 2) by lia.
    change (2 ^ 24) with 16777216. change (2 ^ 21) with 2097152.
    change (2 ^ (8 - 3)) with 32.
    replace (q + 3 + 1) with (q + 4) by lia.
    split; [| split]; try zlia.
    rewrite (lor_plus _ _ 2) by (change (2 ^ 2) with 4; zlia).
    rewrite <- Hsh by lia. do 3 f_equal.
    change (2 ^ 2) with 4. zlia.
Qed.

Variable src : buf.
Variables sl n : Z.

(** A reference block no longer than its offset: the decoder reads the
    offset and the length the block was written for, copies the bytes
    the source has there and stands at the next block. *)
Lemma dec_refblk_2_block (q op cv csh dq rc d : Z) (out : buf) :
  ref_at s q dq rc ->
  0 <= dq ->
  csh = 0 \/ csh = 2 \/ csh = 3 \/ csh = 5 ->
  0 <= cv < 2 ^ csh ->
  d = dq * 2 ^ csh + cv -> d < 8388608 ->
  1 <= d <= op -> 6 <= rc <= d -> rc <= 530 ->
  op + rc <= n -> n <= len out -> n < 2 ^ 31 ->
  same_prefix op out src ->
  (forall i, 0 <= i < rc -> load8 src (op + i) = load8 src (op - d + i)) ->
  exists out',
    dec_refblk_2 s sl n 5 (mk_dstate q op (load8 s q) cv csh out)
    = Next (mk_dstate (q + ref_size dq rc) (op + rc)
              (load8 s (q + ref_size dq rc))
              (carried s (q + ref_bt dq) (ocsh (ref_bt dq)))
              (ocsh (ref_bt dq)) out')
    /\ same_prefix (op + rc) out' src
    /\ length out' = length out
    /\ (forall j, n <= j -> load8 out' j = load8 out j).
Proof.
  intros R Hdq0 Hcsh Hcv Hd Hd23 Hdo Hrc Hrc' Hfit Hlen Hn P M.
  assert (Hp : 1 <= 2 ^ csh).
  { destruct Hcsh as [-> | [-> | [-> | ->]]]; cbn; lia. }
  assert (Hdq : 0 <= dq < 8388608) by nia.
  pose proof (ref_offset_value q dq rc cv csh R ltac:(lia) Hdq Hcsh Hcv
                ltac:(lia)) as (Ed & Ecv & Ebh).
  destruct R as (Hh & _ & _ & _ & X1 & X2).
  assert (Hbt : 1 <= ref_bt dq <= 3).
  { destruct (ref_bt_cases dq Hdq) as [[-> _] | [[-> _] | [-> _]]]; lia. }
  assert (Hm : 0 <= dq mod 4 < 4) by zlia.
  set (rcf := if rc - 5 <? 16 then rc - 5 else 0) in Hh.
  assert (Hrcf : 0 <= rcf < 16).
  { subst rcf. destruct (Z.ltb_spec (rc - 5) 16); lia. }
  destruct (ref_header_fields (load8 s q) (dq mod 4) (ref_bt dq) rcf Hh Hm
              Hbt Hrcf) as (F1 & F2 & F3 & _).
  unfold dec_refblk_2. cbn [d_bh d_op d_dst d_ip d_cv d_csh]. cbv zeta.
  rewrite F1, F3. change 0x1FFFFF with 2097151.
  rewrite Ed, Ecv, Ebh, <- Hd.
  destruct (Z.gtb_spec d op); [lia |].
  destruct (ref_expand_copy src op d rc n ltac:(lia) ltac:(lia) Hfit M
              (negb (rc - 5 <? 16)) out Hlen) as (out' & Ex & P' & L' & U');
    [ destruct (Z.ltb_spec (rc - 5) 16); cbn; intros; [lia | discriminate]
    | exact P |].
  exists out'. split; [| now repeat split].
  unfold ref_size.
  destruct (ref_ext_cases rc ltac:(lia)) as [[Ee He] | [[Ee He] | [Ee He]]];
    rewrite Ee; unfold ref_ext in Ee; subst rcf.
  - revert Ex. destruct (Z.ltb_spec (rc - 5) 16); [| lia].
    destruct (Z.eqb_spec (rc - 5) 0); [lia |]. cbn [negb]. intros Ex.
    rewrite u64_small by lia.
    replace (rc - 5 + 5) with rc by lia. rewrite Ex.
    replace (q + 1 + ref_bt dq) with (q + (1 + ref_bt dq + 0)) by lia.
    replace (q + ref_bt dq + 1) with (q + (1 + ref_bt dq + 0)) by lia.
    reflexivity.
  - revert Ex. destruct (Z.ltb_spec (rc - 5) 16); [lia |].
    cbn [Z.eqb negb]. intros Ex.
    rewrite (X1 ltac:(unfold ref_ext;
                      destruct (Z.ltb_spec (rc - 5) 16); [lia |];
                      destruct (Z.ltb_spec (rc - 5) (16 + 255)); lia)).
    destruct (Z.eqb_spec (rc - 21) 255); [lia |].
    rewrite u64_small by lia.
    replace (16 + 5 + (rc - 21)) with rc by lia. rewrite Ex.
    replace (q + 1 + ref_bt dq + 1) with (q + (1 + ref_bt dq + 1)) by lia.
    reflexivity.
  - revert Ex. destruct (Z.ltb_spec (rc - 5) 16); [lia |].
    cbn [Z.eqb negb]. intros Ex.
    destruct (X2 ltac:(unfold ref_ext;
                       destruct (Z.ltb_spec (rc - 5) 16); [lia |];
                       destruct (Z.ltb_spec (rc - 5) (16 + 255)); lia))
      as [Y1 Y2].
    rewrite Y1, Z.eqb_refl.
    replace (q + 1 + ref_bt dq + 1) with (q + ref_bt dq + 2) by lia.
    rewrite Y2.
    rewrite u64_small by lia.
    replace (16 + 5 + 255 + (rc - 276)) with rc by lia. rewrite Ex.
    replace (q + 1 + ref_bt dq + 2) with (q + (1 + ref_bt dq + 2)) by lia.
    reflexivity.
Qed.

End DecodeRef.

Section DecodeLiterals.

Local Abbreviation len l := (Z.of_nat (length l)).

Variable s : buf.
Hypothesis s_ok : bytes_ok s.
Variable src : buf.
Variables sl n : Z.

(** A copy from the stream to the destination, which may run past the
    literals. *)
Lemma copied_memcpy (op lc ipd : Z) (out0 out : buf) (k c : Z) :
  0 <= op -> 0 <= k -> 0 <= c -> op + k + c <= n -> n <= len out0 ->
  (forall i, 0 <= i < lc -> load8 s (ipd + i) = load8 src (op + i)) ->
  copied src op lc n out0 out k ->
  copied src op lc n out0 (lzav_memcpy out (op + k) s (ipd + k) c) (k + c).
Proof.
  intros Hop Hk Hc Hn Hl Hs (P & C & L & U).
  repeat split.
  - intros i Hi. rewrite load8_lzav_memcpy_out by lia. now apply P.
  - intros i Hi Hi'.
    destruct (Z.lt_ge_cases i k).
    + rewrite load8_lzav_memcpy_out by lia. apply C; lia.
    + rewrite load8_lzav_memcpy_in by lia.
      replace (ipd + k + (op + i - (op + k))) with (ipd + i) by lia.
      apply Hs. lia.
  - rewrite length_lzav_memcpy. exact L.
  - intros j Hj. rewrite load8_lzav_memcpy_out by lia. now apply U.
Qed.

Lemma copied_all (op lc : Z) (out0 out : buf) (k : Z) :
  lc <= k -> copied src op lc n out0 out k ->
  same_prefix (op + lc) out src
  /\ length out = length out0
  /\ (forall j, n <= j -> load8 out j = load8 out0 j).
Proof.
  intros Hk (P & C & L & U). repeat split; try assumption.
  intros i Hi. destruct (Z.lt_ge_cases i op); [apply P; lia |].
  replace i with (op + (i - op)) by lia. apply C; lia.
Qed.

(** The length bytes of a run of 16 literals or more, as the decoder
    reads them. *)
Lemma read_len_bytes (p lc : Z) :
  16 <= lc < 2 ^ 31 ->
  (forall k, (k < length (len_bytes 10 (lc - 16)))%nat ->
     load8 s (p + 1 + Z.of_nat k) = nth k (len_bytes 10 (lc - 16)) 0) ->
  read_len_loop 5 s (p + 1 + 1) (load8 s (p + 1))
    (Z.land (load8 s (p + 1)) 127) 7
  = (p + lit_hdr lc, lc - 16).
Proof.
  intros Hlc Hbytes.
  assert (Hl' := len_bytes_length 10 (lc - 16)).
  assert (E2 : load8 s (p + 1) = nth 0 (len_bytes 10 (lc - 16)) 0).
  { rewrite <- Hbytes by lia. f_equal. lia. }
  rewrite E2 at 2. rewrite len_bytes_head by lia.
  replace (load8 s (p + 1)) with (load8 s (p + 1 + 1 - 1)) by (f_equal; lia).
  rewrite (read_len_loop_bytes s 4 5 10 (lc - 16)); try lia.
  - unfold lit_hdr. destruct (Z.ltb_spec lc 16); [lia |].
    f_equal; [lia | apply split_7; lia].
  - intros k Hk. rewrite <- Hbytes by lia. f_equal; lia.
Qed.

(** The literals of a block: the decoder copies them and stands behind
    them, in the same iteration of its loop when a reference header
    follows, or at the start of the next one. *)
Lemma dec_literal_2_block (p op cv csh c2 lc : Z) (out : buf) :
  lits_at s p c2 lc src op ->
  1 <= lc < 2 ^ 31 -> 0 <= c2 < 4 ->
  csh = 0 \/ csh = 3 -> 0 <= cv < 2 ^ csh ->
  0 <= p -> p + lit_hdr lc + lc <= sl ->
  0 <= op -> op + lc <= n -> n <= len out -> n < 2 ^ 31 ->
  same_prefix op out src ->
  exists out' bh,
    let st' :=
      mk_dstate (p + lit_hdr lc + lc) (op + lc) bh (cv + c2 * 2 ^ csh)
        (csh + 2) out' in
    (p + lit_hdr lc + lc < sl -> bh = load8 s (p + lit_hdr lc + lc))
    /\ (dec_literal_2 s sl n (mk_dstate p op (load8 s p) cv csh out)
        = inl st' /\ p + lit_hdr lc + lc < sl
        \/ dec_literal_2 s sl n (mk_dstate p op (load8 s p) cv csh out)
           = inr (Next st'))
    /\ same_prefix (op + lc) out' src
    /\ length out' = length out
    /\ (forall j, n <= j -> load8 out' j = load8 out j).
Proof.
  intros (Hh & Hl) Hlc Hc2 Hcsh Hcv Hp Hsl Hop Hfit Hlen Hn P.
  assert (Hpw : 1 <= 2 ^ csh <= 8).
  { destruct Hcsh as [-> | ->]; cbn; lia. }
  assert (Encv : forall bh, Z.shiftr bh 6 = c2 ->
            Z.lor cv (u64 (Z.shiftl (Z.shiftr bh 6) csh))
            = cv + c2 * 2 ^ csh).
  { intros bh ->. rewrite shiftl_times by lia.
    rewrite u64_small by nia. apply lor_plus; lia. }
  assert (Ecsh : s32 (csh + 2) = csh + 2).
  { apply s32_id. destruct Hcsh as [-> | ->]; cbn; lia. }
  pose proof (copied_0 src op lc n out P) as Q0.
  assert (Tail : forall out1 k, 0 <= k -> k < lc \/ k = 0 ->
            copied src op lc n out out1 k ->
            exists out' bh,
              (p + lit_hdr lc + lc < sl -> bh = load8 s (p + lit_hdr lc + lc))
              /\ lit_tail_2 s sl n (mk_dstate p op (load8 s p) cv csh out)
                   (p + lit_hdr lc + lc) (op + k) (p + lit_hdr lc + k)
                   (lc - k)
                   (u64 (Z.shiftl (Z.shiftr (load8 s p) 6) csh)) out1
                 = Next (mk_dstate (p + lit_hdr lc + lc) (op + lc) bh
                           (Z.lor cv (u64 (Z.shiftl (Z.shiftr (load8 s p) 6)
                                             csh)))
                           (csh + 2) out')
              /\ copied src op lc n out out' lc).
  { intros out1 k Hk Hk' Q.
    pose proof (copied_memcpy op lc (p + lit_hdr lc) out out1 k (lc - k)
                  Hop Hk ltac:(lia) ltac:(lia) Hlen Hl Q) as Q'.
    replace (k + (lc - k)) with lc in Q' by lia.
    unfold lit_tail_2. cbn [d_cv d_csh d_bh]. cbv zeta.
    destruct (Z.gtb_spec (op + k + (lc - k)) n); [lia |].
    rewrite Ecsh, copy_bytes_memcpy, Z2Nat.id by lia.
    destruct (Z.ltb_spec (p + lit_hdr lc + lc) sl).
    - eexists; eexists. split; [reflexivity |].
      split; [do 2 f_equal; lia | exact Q'].
    - destruct (Z.eqb_spec (p + lit_hdr lc + lc) sl); [| lia].
      cbn [negb].
      eexists; eexists. split; [intros; lia |].
      split; [do 2 f_equal; lia | exact Q']. }
  unfold dec_literal_2. cbn [d_bh d_op d_dst d_ip d_csh d_cv]. cbv zeta.
  unfold lit_hdr in *.
  destruct (Z.ltb_spec lc 16) as [Hs | Hs].
  - (* fewer than 16 literals *)
    assert (F : Z.land (load8 s p) 15 = lc /\ Z.shiftr (load8 s p) 6 = c2).
    { rewrite Hh, land_15, shiftr_over by lia. change (2 ^ 6) with 64.
      split; zlia. }
    destruct F as [F1 F2]. rewrite F1.
    destruct (Z.eqb_spec lc 0); [lia |]. cbn [negb].
    destruct ((op <? n - 63) && (p + 1 <? sl - 15 - 7)) eqn:Ef.
    + apply andb_prop in Ef as [G1 G2]. apply Z.ltb_lt in G1, G2.
      pose proof (copied_memcpy op lc (p + 1) out out 0 16 Hop ltac:(lia)
                    ltac:(lia) ltac:(lia) Hlen Hl Q0) as Q1.
      rewrite !Z.add_0_r in Q1. cbn [Z.add] in Q1.
      eexists; eexists. split; [reflexivity |].
      split; [left | apply (copied_all op lc out _ 16); [lia | exact Q1]].
      rewrite Ecsh, (Encv _ F2). split; [reflexivity | lia].
    + destruct (Tail out 0 ltac:(lia) ltac:(lia) Q0) as (out' & bh & B & E & Q').
      rewrite !Z.add_0_r, Z.sub_0_r in E.
      exists out', bh. split; [exact B |].
      split; [right | apply (copied_all op lc out _ lc); [lia | exact Q']].
      rewrite E, (Encv _ F2). reflexivity.
  - (* 16 literals or more *)
    destruct Hh as [Hh Hbytes].
    assert (F : Z.land (load8 s p) 15 = 0 /\ Z.shiftr (load8 s p) 6 = c2).
    { rewrite Hh, land_15, shiftr_over by lia. change (2 ^ 6) with 64.
      split; zlia. }
    destruct F as [F1 F2]. rewrite F1. cbn [Z.eqb negb].
    rewrite (read_len_bytes p lc ltac:(lia) Hbytes).
    unfold lit_hdr. destruct (Z.ltb_spec lc 16); [lia |].
    set (hdr := 1 + len (len_bytes 10 (lc - 16))) in *.
    replace (lc - 16 + 16) with lc by lia.
    destruct ((op <? n - 63) && (p + hdr <? sl - 63 - 16)) eqn:Ef.
    + apply andb_prop in Ef as [G1 G2]. apply Z.ltb_lt in G1, G2.
      pose proof (copied_memcpy op lc (p + hdr) out out 0 16 Hop ltac:(lia)
                    ltac:(lia) ltac:(lia) Hlen Hl Q0) as Q1.
      pose proof (copied_memcpy op lc (p + hdr) out _ (0 + 16) 16 Hop
                    ltac:(lia) ltac:(lia) ltac:(lia) Hlen Hl Q1) as Q2.
      pose proof (copied_memcpy op lc (p + hdr) out _ (0 + 16 + 16) 16 Hop
                    ltac:(lia) ltac:(lia) ltac:(lia) Hlen Hl Q2) as Q3.
      pose proof (copied_memcpy op lc (p + hdr) out _ (0 + 16 + 16 + 16) 16
                    Hop ltac:(lia) ltac:(lia) ltac:(lia) Hlen Hl Q3) as Q4.
      rewrite !Z.add_0_r in Q4. cbn [Z.add Pos.add Pos.succ] in Q4.
      destruct (Z.ltb_spec lc 65).
      * eexists; eexists. split; [reflexivity |].
        split; [left | apply (copied_all op lc out _ 64); [lia | exact Q4]].
        rewrite Ecsh, (Encv _ F2). split; [reflexivity | lia].
      * destruct (Tail _ 64 ltac:(lia) ltac:(lia) Q4)
          as (out' & bh & B & E & Q').
        exists out', bh. split; [exact B |].
        split; [right | apply (copied_all op lc out _ lc); [lia | exact Q']].
        unfold lit_hdr in E. destruct (Z.ltb_spec lc 16); [lia |].
        fold hdr in E. rewrite E, (Encv _ F2). reflexivity.
    + destruct (Tail out 0 ltac:(lia) ltac:(lia) Q0)
        as (out' & bh & B & E & Q').
      rewrite !Z.add_0_r, Z.sub_0_r in E.
      exists out', bh. split; [exact B |].
      split; [right | apply (copied_all op lc out _ lc); [lia | exact Q']].
      unfold lit_hdr in E. destruct (Z.ltb_spec lc 16); [lia |].
      fold hdr in E. rewrite E, (Encv _ F2). reflexivity.
Qed.

End DecodeLiterals.

Section DecodeBlocks.

Local Abbreviation len l := (Z.of_nat (length l)).

Variable s : buf.
Hypothesis s_ok : bytes_ok s.
Variable src : buf.
Variables sl n : Z.

Local Abbreviation dec_reaches := (dec_reaches s sl n 5).

Lemma ref_size_range dq rc : 2 <= ref_size dq rc <= 6.
Proof.
  unfold ref_size, ref_bt, ref_ext.
  destruct (dq >? Z.shiftl 1 10 - 1), (dq >? Z.shiftl 1 18 - 1),
    (rc - 5 <? 16), (rc - 5 <? 16 + 255); cbn [b2z]; lia.
Qed.

Lemma dec_reaches_refl a : dec_reaches a a.
Proof. exists 0%nat. reflexivity. Qed.

Lemma dec_reaches_trans a b c :
  dec_reaches a b -> dec_reaches b c -> dec_reaches a c.
Proof.
  intros [k1 H1] [k2 H2]. exists (k1 + k2)%nat. intros f.
  rewrite <- Nat.add_assoc, H1, H2. reflexivity.
Qed.

Lemma dec_reaches_step a b :
  d_ip a < sl - 6 -> dec_block_2 s sl n 5 a = Next b -> dec_reaches a b.
Proof.
  intros Hi Hb. exists 1%nat. intros f. cbn [Nat.add dec_loop_2].
  destruct (Z.ltb_spec (d_ip a) (sl - 6)); [| lia].
  now rewrite Hb.
Qed.

(** The result of the loop does not depend on the iteration budget. *)
Lemma dec_loop_2_fuel f1 : forall f2 st r,
  dec_loop_2 f1 s sl n 5 st = Some r ->
  dec_loop_2 f2 s sl n 5 st <> None ->
  dec_loop_2 f2 s sl n 5 st = Some r.
Proof.
  induction f1 as [| f1 IH]; intros f2 st r H1 H2.
  - destruct f2; cbn [dec_loop_2] in *;
      destruct (d_ip st <? sl - 6); congruence.
  - destruct f2; cbn [dec_loop_2] in *;
      destruct (d_ip st <? sl - 6); try congruence.
    destruct (dec_block_2 s sl n 5 st); [| congruence].
    now apply IH.
Qed.

(** A block of [lc] literals and a reference of [rc] bytes at the offset
    [d], read with the carry [d mod 2 ^ csh]: the decoder appends what the
    source has there and stands at the next block. *)
Lemma dec_block (p op csh d lc rc : Z) (out : buf) :
  let sh := csh + (if lc =? 0 then 0 else 2) in
  let q := p + (if lc =? 0 then 0 else lit_hdr lc + lc) in
  (lc <> 0 -> lits_at s p (d / 2 ^ csh mod 4) lc src op) ->
  ref_at s q (d / 2 ^ sh) rc ->
  csh = 0 \/ csh = 3 ->
  0 <= lc < 2 ^ 31 ->
  6 <= rc <= d -> rc <= 530 -> d < 8388608 -> d <= op + lc ->
  0 <= p -> q + ref_size (d / 2 ^ sh) rc + 7 <= sl ->
  0 <= op -> op + lc + rc <= n -> n <= len out -> n < 2 ^ 31 ->
  same_prefix op out src ->
  (forall i, 0 <= i < rc ->
     load8 src (op + lc + i) = load8 src (op + lc - d + i)) ->
  exists out',
    dec_reaches (mk_dstate p op (load8 s p) (d mod 2 ^ csh) csh out)
      (mk_dstate (q + ref_size (d / 2 ^ sh) rc) (op + lc + rc)
         (load8 s (q + ref_size (d / 2 ^ sh) rc))
         (carried s (q + ref_bt (d / 2 ^ sh)) (ocsh (ref_bt (d / 2 ^ sh))))
         (ocsh (ref_bt (d / 2 ^ sh))) out')
    /\ same_prefix (op + lc + rc) out' src
    /\ length out' = length out
    /\ (forall j, n <= j -> load8 out' j = load8 out j).
Proof.
  cbv zeta. intros L R Hcsh Hlc Hrc Hrc' Hd Hdo Hp Hsl Hop Hfit Hlen Hn P M.
  assert (Hsz : 2 <= ref_size (d / 2 ^ (csh + (if lc =? 0 then 0 else 2))) rc).
  { apply ref_size_range. }
  assert (Hh1 : 1 <= lit_hdr lc).
  { unfold lit_hdr. destruct (lc <? 16); lia. }
  assert (Hr : forall q' op' cv' csh' out1,
            ref_at s q' (d / 2 ^ csh') rc ->
            csh' = 0 \/ csh' = 2 \/ csh' = 3 \/ csh' = 5 ->
            cv' = d mod 2 ^ csh' ->
            op' = op + lc -> n <= len out1 ->
            same_prefix op' out1 src ->
            exists out',
              dec_refblk_2 s sl n 5 (mk_dstate q' op' (load8 s q') cv' csh' out1)
              = Next (mk_dstate (q' + ref_size (d / 2 ^ csh') rc) (op' + rc)
                        (load8 s (q' + ref_size (d / 2 ^ csh') rc))
                        (carried s (q' + ref_bt (d / 2 ^ csh'))
                           (ocsh (ref_bt (d / 2 ^ csh'))))
                        (ocsh (ref_bt (d / 2 ^ csh'))) out')
              /\ same_prefix (op' + rc) out' src
              /\ length out' = length out1
              /\ (forall j, n <= j -> load8 out' j = load8 out1 j)).
  { intros q' op' cv' csh' out1 R' Hc' -> -> Hl1 P1.
    assert (0 < 2 ^ csh').
    { destruct Hc' as [-> | [-> | [-> | ->]]]; cbn; lia. }
    apply (dec_refblk_2_block s s_ok src sl n q' (op + lc) (d mod 2 ^ csh')
             csh' (d / 2 ^ csh') rc d out1); try assumption; try lia.
    - apply Z.div_pos; lia.
    - apply Z.mod_pos_bound. lia.
    - rewrite Z.mul_comm. apply Z.div_mod. lia. }
  destruct (lc =? 0) eqn:Ez;
    [apply Z.eqb_eq in Ez; subst lc | apply Z.eqb_neq in Ez; rename Ez into Nlc].
  - rewrite !Z.add_0_r in *.
    destruct (Hr p op (d mod 2 ^ csh) csh out R ltac:(lia) eq_refl
                ltac:(lia) Hlen P) as (out' & E & Q).
    exists out'. split; [| exact Q].
    apply dec_reaches_step; [cbn [d_ip]; lia |].
    unfold dec_block_2. cbn [d_bh].
    destruct R as (Hh & _).
    assert (F : (Z.land (load8 s p) 48 =? 0) = false).
    { set (rcf := if rc - 5 <? 16 then rc - 5 else 0) in Hh.
      assert (0 <= rcf < 16).
      { subst rcf. destruct (Z.ltb_spec (rc - 5) 16); lia. }
      assert (0 < 2 ^ csh) by (destruct Hcsh as [-> | ->]; cbn; lia).
      assert (0 <= d / 2 ^ csh < 8388608).
      { split; [apply Z.div_pos; lia |].
        apply Z.div_lt_upper_bound; nia. }
      destruct (ref_header_fields (load8 s p) (d / 2 ^ csh mod 4)
                  (ref_bt (d / 2 ^ csh)) rcf Hh
                  ltac:(apply Z.mod_pos_bound; lia)) as (_ & _ & _ & F);
        [| assumption | exact F].
      destruct (ref_bt_cases (d / 2 ^ csh) ltac:(lia))
        as [[-> _] | [[-> _] | [-> _]]]; lia. }
    rewrite F. rewrite E. reflexivity.
  - specialize (L Nlc).
    assert (Hpw : 0 < 2 ^ csh) by (destruct Hcsh as [-> | ->]; cbn; lia).
    destruct (dec_literal_2_block s src sl n p op (d mod 2 ^ csh) csh
                (d / 2 ^ csh mod 4) lc out L ltac:(lia)
                ltac:(apply Z.mod_pos_bound; lia) Hcsh
                ltac:(apply Z.mod_pos_bound; lia) Hp ltac:(lia) Hop
                ltac:(lia) Hlen Hn P)
      as (out1 & bh & B & E & P1 & L1 & U1).
    specialize (B ltac:(lia)). subst bh.
    assert (Ecv : d mod 2 ^ csh + d / 2 ^ csh mod 4 * 2 ^ csh
                  = d mod 2 ^ (csh + 2)).
    { destruct Hcsh as [-> | ->];
        [ change (2 ^ 0) with 1; change (2 ^ (0 + 2)) with 4
        | change (2 ^ 3) with 8; change (2 ^ (3 + 2)) with 32 ]; zlia. }
    rewrite Ecv in E.
    destruct (Hr (p + (lit_hdr lc + lc)) (op + lc) (d mod 2 ^ (csh + 2))
                (csh + 2) out1 R ltac:(lia) eq_refl eq_refl
                ltac:(rewrite L1; lia) P1) as (out' & E2 & P2 & L2 & U2).
    exists out'.
    split; [| split; [| split]].
    + replace (p + lit_hdr lc + lc) with (p + (lit_hdr lc + lc)) in E by lia.
      destruct E as [[E _] | E].
      * apply dec_reaches_step; [cbn [d_ip]; lia |].
        unfold dec_block_2. cbn [d_bh].
        assert (F : (Z.land (load8 s p) 48 =? 0) = true).
        { destruct L as [Hh _]. rewrite land_48.
          assert (0 <= d / 2 ^ csh mod 4 < 4)
            by (apply Z.mod_pos_bound; lia).
          set (c2 := d / 2 ^ csh mod 4) in *.
          destruct (Z.ltb_spec lc 16); [| destruct Hh as [Hh _]];
            rewrite Hh; zlia. }
        rewrite F, E, E2. reflexivity.
      * eapply dec_reaches_trans.
        -- apply dec_reaches_step; [cbn [d_ip]; lia |].
           unfold dec_block_2. cbn [d_bh].
           assert (F : (Z.land (load8 s p) 48 =? 0) = true).
           { destruct L as [Hh _]. rewrite land_48.
             assert (0 <= d / 2 ^ csh mod 4 < 4)
               by (apply Z.mod_pos_bound; lia).
             set (c2 := d / 2 ^ csh mod 4) in *.
             destruct (Z.ltb_spec lc 16); [| destruct Hh as [Hh _]];
               rewrite Hh; zlia. }
           rewrite F, E. reflexivity.
        -- apply dec_reaches_step; [cbn [d_ip]; lia |].
           unfold dec_block_2. cbn [d_bh].
           assert (F : (Z.land (load8 s (p + (lit_hdr lc + lc))) 48 =? 0)
                       = false).
           { destruct R as (Hh & _).
             set (rcf := if rc - 5 <? 16 then rc - 5 else 0) in Hh.
             assert (0 <= rcf < 16).
             { subst rcf. destruct (Z.ltb_spec (rc - 5) 16); lia. }
             assert (0 < 2 ^ (csh + 2))
               by (destruct Hcsh as [-> | ->]; cbn; lia).
             assert (0 <= d / 2 ^ (csh + 2) < 8388608).
             { split; [apply Z.div_pos; lia |].
               apply Z.div_lt_upper_bound; nia. }
             destruct (ref_header_fields _ (d / 2 ^ (csh + 2) mod 4)
                         (ref_bt (d / 2 ^ (csh + 2))) rcf Hh
                         ltac:(apply Z.mod_pos_bound; lia))
               as (_ & _ & _ & F); [| assumption | exact F].
             destruct (ref_bt_cases (d / 2 ^ (csh + 2)) ltac:(lia))
               as [[-> _] | [[-> _] | [-> _]]]; lia. }
           rewrite F, E2. reflexivity.
    + replace (op + lc + rc) with (op + lc + rc) by lia. exact P2.
    + congruence.
    + intros j Hj. rewrite U2, U1 by lia. reflexivity.
Qed.

(** The last block of a stream, of literals alone: the decoder copies them
    and returns the length. *)
Lemma dec_terminal_block (p op cv csh lc : Z) (out : buf) :
  lits_at s p 0 lc src op ->
  6 <= lc < 2 ^ 31 ->
  csh = 0 \/ csh = 3 -> 0 <= cv < 2 ^ csh ->
  0 <= p -> sl = p + lit_hdr lc + lc ->
  0 <= op -> op + lc = n -> n <= len out -> n < 2 ^ 31 ->
  same_prefix op out src ->
  exists out',
    (forall f,
       dec_loop_2 (S f) s sl n 5 (mk_dstate p op (load8 s p) cv csh out)
       = Some (n, n, out'))
    /\ same_prefix n out' src
    /\ length out' = length out
    /\ (forall j, n <= j -> load8 out' j = load8 out j).
Proof.
  intros L Hlc Hcsh Hcv Hp Hsl Hop Hfit Hlen Hn P.
  destruct (dec_literal_2_block s src sl n p op cv csh 0 lc out L ltac:(lia)
              ltac:(lia) Hcsh Hcv Hp ltac:(lia) Hop ltac:(lia) Hlen Hn P)
    as (out1 & bh & _ & E & P1 & L1 & U1).
  destruct E as [[_ E] | E]; [lia |].
  exists out1.
  split; [| split; [rewrite <- Hfit; exact P1 | split; [exact L1 | exact U1]]].
  intros f. cbn [dec_loop_2 d_ip].
  assert (1 <= lit_hdr lc).
  { unfold lit_hdr. destruct (lc <? 16); lia. }
  destruct (Z.ltb_spec p (sl - 6)); [| lia].
  unfold dec_block_2. cbn [d_bh].
  assert (F : (Z.land (load8 s p) 48 =? 0) = true).
  { destruct L as [Hh _]. rewrite land_48.
    destruct (Z.ltb_spec lc 16); [| destruct Hh as [Hh _]];
      rewrite Hh; zlia. }
  rewrite F, E.
  rewrite dec_loop_2_done; cbn [d_ip d_op d_dst]; try lia.
  reflexivity.
Qed.

End DecodeBlocks.

(** ** What the block writer lays down *)

Section WriteBlock.

Local Abbreviation len l := (Z.of_nat (length l)).

Lemma bytes_ok_memcpy dst d src s n :
  bytes_ok dst -> bytes_ok src -> bytes_ok (lzav_memcpy dst d src s n).
Proof.
  intros Hd Hs. unfold lzav_memcpy. apply bytes_ok_store_bytes; [exact Hd |].
  unfold bytes_at. apply Forall_map, Forall_forall.
  intros k _. now apply bytes_ok_load8.
Qed.

Lemma u8_range v : 0 <= u8 v < 256.
Proof. unfold u8, wrap. apply Z.mod_pos_bound. reflexivity. Qed.

Lemma len_bytes_ok fuel : forall v,
  Forall (fun x => 0 <= x < 256) (len_bytes fuel v).
Proof.
  induction fuel as [| fuel IH]; intros v; cbn [len_bytes].
  - repeat constructor; apply u8_range.
  - destruct (v >? 127); repeat constructor; try apply u8_range. apply IH.
Qed.

Lemma lit_hdr_range lc : 1 <= lit_hdr lc <= 12.
Proof.
  unfold lit_hdr. pose proof (len_bytes_length 10 (lc - 16)).
  destruct (lc <? 16); lia.
Qed.

Lemma len_bytes_one v : 0 <= v <= 127 -> len_bytes 10 v = [v].
Proof.
  intros H. cbn [len_bytes]. destruct (Z.gtb_spec v 127); [lia |].
  now rewrite u8_id by lia.
Qed.

(** The literals of a block as [lzav_write_blk_2] writes them. *)
Lemma write_lit_2_block (dst : buf) (op lc dd : Z) (src : buf) (ipa : Z) :
  bytes_ok dst -> bytes_ok src ->
  1 <= lc < 2 ^ 31 -> 0 <= dd -> 0 <= op -> op + lc + 18 <= len dst ->
  exists dst',
    write_lit_2 dst op lc dd src ipa = (dst', op + lit_hdr lc + lc, dd / 4)
    /\ length dst' = length dst
    /\ bytes_ok dst'
    /\ (forall j, j < op -> load8 dst' j = load8 dst j)
    /\ (forall j, op + lc + 18 <= j -> load8 dst' j = load8 dst j)
    /\ lits_at dst' op (dd mod 4) lc src ipa.
Proof.
  intros Hd Hs Hlc Hdd Hop Hfit.
  assert (Hc2 : 0 <= dd mod 4 < 4) by zlia.
  assert (Ecv : Z.shiftl (Z.land dd 3) 6 = dd mod 4 * 64).
  { rewrite land_3, shiftl_times by lia. reflexivity. }
  assert (Ed : Z.shiftr dd 2 = dd / 4).
  { rewrite shiftr_over by lia. reflexivity. }
  assert (Ehd : forall x, 0 <= x < 64 ->
            u8 (Z.lor (dd mod 4 * 64) x) = dd mod 4 * 64 + x).
  { intros x Hx. change 64 with (2 ^ 6) at 1.
    rewrite lor_plus_l by (change (2 ^ 6) with 64; lia).
    change (2 ^ 6) with 64. apply u8_id. lia. }
  unfold write_lit_2. cbv zeta. rewrite Ecv, Ed.
  unfold lits_at, lit_hdr.
  destruct (Z.ltb_spec lc 9) as [H9 | H9].
  { (* up to 8 literals *)
    destruct (Z.ltb_spec lc 16); [| lia].
    eexists. split; [reflexivity |].
    rewrite Ehd by lia.
    split; [now rewrite length_lzav_memcpy, length_store8 |].
    split; [apply bytes_ok_memcpy, Hs; apply bytes_ok_store8; [exact Hd | lia] |].
    split; [| split; [| split]].
    - intros j Hj. rewrite load8_lzav_memcpy_out, load8_store8_ne by lia.
      reflexivity.
    - intros j Hj. rewrite load8_lzav_memcpy_out, load8_store8_ne by lia.
      reflexivity.
    - rewrite load8_lzav_memcpy_out, load8_store8_eq by lia. reflexivity.
    - intros k Hk.
      rewrite load8_lzav_memcpy_in by (rewrite ?length_store8; lia).
      f_equal. lia. }
  destruct (Z.ltb_spec lc 16) as [H16 | H16].
  { (* 9 to 15 literals *)
    eexists. split; [reflexivity |].
    rewrite Ehd by lia.
    split; [now rewrite length_lzav_memcpy, length_store8 |].
    split; [apply bytes_ok_memcpy, Hs; apply bytes_ok_store8; [exact Hd | lia] |].
    split; [| split; [| split]].
    - intros j Hj. rewrite load8_lzav_memcpy_out, load8_store8_ne by lia.
      reflexivity.
    - intros j Hj. rewrite load8_lzav_memcpy_out, load8_store8_ne by lia.
      reflexivity.
    - rewrite load8_lzav_memcpy_out, load8_store8_eq by lia. reflexivity.
    - intros k Hk.
      rewrite load8_lzav_memcpy_in by (rewrite ?length_store8; lia).
      f_equal. lia. }
  destruct (Z.ltb_spec lc (16 + 128)) as [H144 | H144].
  { (* 16 to 143 literals: the header and one length byte *)
    rewrite len_bytes_one by lia. cbn [length].
    change (Z.of_nat 1) with 1.
    assert (Eov : u16 (Z.lor (Z.shiftl (lc - 16) 8) (dd mod 4 * 64))
                  = (lc - 16) * 256 + dd mod 4 * 64).
    { rewrite shiftl_times by lia.
      rewrite lor_plus_l by (change (2 ^ 8) with 256; lia).
      change (2 ^ 8) with 256. unfold u16, wrap.
      apply Z.mod_small. change (2 ^ 16) with 65536. lia. }
    rewrite Eov.
    set (ov := (lc - 16) * 256 + dd mod 4 * 64).
    assert (B0 : Z.land ov 255 = dd mod 4 * 64).
    { rewrite land_255. subst ov. zlia. }
    assert (B1 : Z.land (Z.shiftr ov 8) 255 = lc - 16).
    { rewrite land_255, shiftr_over by lia. change (2 ^ 8) with 256.
      subst ov. zlia. }
    unfold store16. rewrite B0, B1.
    set (d1 := store_bytes dst op [dd mod 4 * 64; lc - 16]).
    assert (L1 : length d1 = length dst) by apply length_store_bytes.
    assert (K1 : bytes_ok d1).
    { apply bytes_ok_store_bytes; [exact Hd |].
      repeat constructor; lia. }
    rewrite (lzav_memcpy_join d1 (op + 2) src ipa 16 16) by lia.
    set (body := if lc <? 33 then _ else _).
    assert (Eb : body = (lzav_memcpy d1 (op + 2) src ipa (Z.max 32 lc),
                         op + (1 + 1) + lc, dd / 4)).
    { subst body. destruct (Z.ltb_spec lc 33).
      - rewrite Z.max_l by lia. reflexivity.
      - rewrite copy_bytes_memcpy, Z2Nat.id by lia.
        replace (op + 2 + 32) with (op + 2 + (16 + 16)) by lia.
        replace (ipa + 32) with (ipa + (16 + 16)) by lia.
        rewrite lzav_memcpy_join by lia.
        rewrite Z.max_r by lia.
        replace (16 + 16 + (lc - 32)) with lc by lia.
        replace (op + 2 + (16 + 16) + (lc - 32)) with (op + (1 + 1) + lc)
          by lia.
        reflexivity. }
    rewrite Eb. eexists. split; [reflexivity |].
    split; [now rewrite length_lzav_memcpy |].
    split; [now apply bytes_ok_memcpy |].
    split; [| split; [| split; [split |]]].
    - intros j Hj. rewrite load8_lzav_memcpy_out by lia.
      subst d1. rewrite load8_store_bytes_out by (cbn [length]; lia).
      reflexivity.
    - intros j Hj. rewrite load8_lzav_memcpy_out by lia.
      subst d1. rewrite load8_store_bytes_out by (cbn [length]; lia).
      reflexivity.
    - rewrite load8_lzav_memcpy_out by lia.
      subst d1. rewrite load8_store_bytes_in by (cbn [length]; lia).
      now rewrite Z.sub_diag.
    - intros k Hk. destruct k as [| k]; [| cbn in Hk; lia].
      rewrite load8_lzav_memcpy_out by lia.
      subst d1. rewrite load8_store_bytes_in by (cbn [length]; lia).
      replace (op + 1 + Z.of_nat 0 - op) with 1 by lia. reflexivity.
    - intros k Hk.
      rewrite load8_lzav_memcpy_in by lia. f_equal. lia. }
  (* 144 literals or more: the header and two length bytes or more *)
  destruct (write_len_loop 10 (store8 dst op (u8 (dd mod 4 * 64))) (op + 1)
              (lc - 16)) as [[d2 op2] lcw] eqn:Ew.
  pose proof (write_len_loop_bytes 10 (store8 dst op (u8 (dd mod 4 * 64)))
                (op + 1) (lc - 16)) as [W1 W2].
  rewrite Ew in W1, W2. cbn [fst snd] in W1, W2.
  pose proof (len_bytes_length 10 (lc - 16)) as Hl.
  set (lb := len_bytes 10 (lc - 16)) in *.
  rewrite W1.
  assert (E8 : u8 (dd mod 4 * 64) = dd mod 4 * 64) by (apply u8_id; lia).
  rewrite E8 in *.
  set (d1 := store_bytes (store8 dst op (dd mod 4 * 64)) (op + 1) lb).
  assert (L1 : length d1 = length dst).
  { subst d1. now rewrite length_store_bytes, length_store8. }
  assert (K1 : bytes_ok d1).
  { apply bytes_ok_store_bytes; [apply bytes_ok_store8; [exact Hd | lia] |].
    apply len_bytes_ok. }
  replace (op2 + 1 + lc) with (op + (1 + len lb) + lc) by lia.
  eexists. split; [do 2 f_equal; lia |].
  split; [now rewrite length_lzav_memcpy |].
  split; [now apply bytes_ok_memcpy |].
  split; [| split; [| split; [split |]]].
  - intros j Hj. rewrite load8_lzav_memcpy_out by lia.
    subst d1. rewrite load8_store_bytes_out, load8_store8_ne by lia.
    reflexivity.
  - intros j Hj. rewrite load8_lzav_memcpy_out by lia.
    subst d1. rewrite load8_store_bytes_out, load8_store8_ne by lia.
    reflexivity.
  - rewrite load8_lzav_memcpy_out by lia.
    subst d1. rewrite load8_store_bytes_out, load8_store8_eq by lia.
    reflexivity.
  - intros k Hk. rewrite load8_lzav_memcpy_out by lia.
    subst d1.
    rewrite load8_store_bytes_in by (rewrite ?length_store8; lia).
    f_equal. lia.
  - intros k Hk.
    rewrite load8_lzav_memcpy_in by lia. f_equal. lia.
Qed.

(** The last block as [lzav_write_fin_2] writes it. *)
Lemma lzav_write_fin_2_block (dst : buf) (op lc : Z) (src : buf) (ipa : Z) :
  bytes_ok dst -> bytes_ok src -> 0 <= lc < 2 ^ 31 -> 0 <= op ->
  op + lit_hdr lc + lc <= len dst ->
  exists dst',
    lzav_write_fin_2 dst op lc src ipa = (dst', op + lit_hdr lc + lc)
    /\ length dst' = length dst
    /\ bytes_ok dst'
    /\ (forall j, j < op \/ op + lit_hdr lc + lc <= j ->
          load8 dst' j = load8 dst j)
    /\ lits_at dst' op 0 lc src ipa.
Proof.
  intros Kd src_ok Hlc Hop Hfit. change (2 ^ 31) with 2147483648 in Hlc.
  unfold lzav_write_fin_2, lits_at, lit_hdr in *.
  destruct (Z.ltb_spec lc 16) as [Hs | Hs].
  - rewrite u8_id by lia.
    eexists. split; [reflexivity |].
    split; [now rewrite length_lzav_memcpy, length_store8 |].
    split; [apply bytes_ok_memcpy;
            [apply bytes_ok_store8; [exact Kd | lia] | exact src_ok] |].
    split; [| split].
    + intros j Hj. rewrite load8_lzav_memcpy_out, load8_store8_ne by lia.
      reflexivity.
    + rewrite load8_lzav_memcpy_out, load8_store8_eq by lia. reflexivity.
    + intros k Hk.
      rewrite load8_lzav_memcpy_in by (rewrite ?length_store8; lia).
      f_equal. lia.
  - destruct (write_len_loop 10 (store8 dst op 0) (op + 1) (lc - 16))
      as [[d2 op2] lcw] eqn:Ew.
    pose proof (write_len_loop_bytes 10 (store8 dst op 0) (op + 1) (lc - 16))
      as [W1 W2].
    rewrite Ew in W1, W2. cbn [fst snd] in W1, W2.
    pose proof (len_bytes_length 10 (lc - 16)) as Hl.
    set (lb := len_bytes 10 (lc - 16)) in *.
    rewrite W1.
    set (d1 := store_bytes (store8 dst op 0) (op + 1) lb).
    assert (L1 : length d1 = length dst).
    { subst d1. now rewrite length_store_bytes, length_store8. }
    assert (K1 : bytes_ok d1).
    { apply bytes_ok_store_bytes; [apply bytes_ok_store8; [exact Kd | lia] |].
      apply len_bytes_ok. }
    replace (op2 + 1 + lc) with (op + (1 + len lb) + lc) by lia.
    eexists. split; [do 2 f_equal; lia |].
    split; [now rewrite length_lzav_memcpy |].
    split; [now apply bytes_ok_memcpy |].
    split; [| split; [split |]].
    + intros j Hj. rewrite load8_lzav_memcpy_out by lia.
      subst d1. rewrite load8_store_bytes_out, load8_store8_ne by lia.
      reflexivity.
    + rewrite load8_lzav_memcpy_out by lia.
      subst d1. rewrite load8_store_bytes_out, load8_store8_eq by lia.
      reflexivity.
    + intros k Hk. rewrite load8_lzav_memcpy_out by lia.
      subst d1.
      rewrite load8_store_bytes_in by (rewrite ?length_store8; lia).
      f_equal. lia.
    + intros k Hk.
      rewrite load8_lzav_memcpy_in by lia. f_equal. lia.
Qed.

(** The four bytes of a stored word. *)
Lemma load8_store32 (b : buf) (i v j : Z) :
  0 <= i -> i + 4 <= len b -> 0 <= v < 2 ^ 32 ->
  load8 (store32 b i v) j
  = if (i <=? j) && (j <? i + 4) then v / 2 ^ (8 * (j - i)) mod 256
    else load8 b j.
Proof.
  intros Hi Hl Hv. unfold store32.
  destruct (Z.leb_spec i j), (Z.ltb_spec j (i + 4)); cbn [andb];
    try (rewrite load8_store_bytes_out by (cbn [length]; lia); reflexivity).
  rewrite load8_store_bytes_in by (cbn [length]; lia).
  rewrite !land_255, !shiftr_over by lia.
  assert (j - i = 0 \/ j - i = 1 \/ j - i = 2 \/ j - i = 3) as C by lia.
  destruct C as [-> | [-> | [-> | ->]]]; cbn [Z.to_nat Pos.to_nat
    Pos.iter_op Nat.add nth Z.mul Pos.mul]; try reflexivity.
  now rewrite Z.div_1_r.
Qed.

Lemma bytes_ok_store32 (b : buf) (i v : Z) :
  bytes_ok b -> bytes_ok (store32 b i v).
Proof.
  intros H. unfold store32. apply bytes_ok_store_bytes; [exact H |].
  repeat constructor; rewrite land_255; apply Z.mod_pos_bound; reflexivity.
Qed.

(** The carry of the low offset bits to the block before. *)
Lemma carry_byte (x d csh : Z) :
  csh = 0 \/ csh = 3 -> 0 <= x < 2 ^ (8 - csh) -> 0 <= d < 2 ^ 23 ->
  Z.lor x (u8 (Z.shiftr (u64 (Z.shiftl d 8)) csh))
  = x + d mod 2 ^ csh * 2 ^ (8 - csh).
Proof.
  intros Hc Hx Hd. change (2 ^ 23) with 8388608 in Hd.
  rewrite shiftl_times, u64_small, shiftr_over
    by (change (2 ^ 8) with 256; change (2 ^ 64) with 18446744073709551616;
        lia).
  change (2 ^ 8) with 256.
  destruct Hc as [-> | ->].
  - change (2 ^ 0) with 1 in *. change (2 ^ (8 - 0)) with 256 in *.
    rewrite Z.div_1_r, u8_mod.
    replace (d * 256 mod 256) with 0 by zlia.
    rewrite Z.lor_0_r. zlia.
  - change (2 ^ 3) with 8 in *. change (2 ^ (8 - 3)) with 32 in *.
    rewrite u8_mod.
    replace (d * 256 / 8 mod 256) with (d mod 8 * 2 ^ 5)
      by (change (2 ^ 5) with 32; zlia).
    rewrite lor_plus by (change (2 ^ 5) with 32; lia).
    reflexivity.
Qed.

(** A block as [lzav_write_blk_2] writes it: where the pointers stand
    afterwards, what is left alone, and the bytes of the block. *)
Lemma lzav_write_blk_2_block (dst : buf) (op lc rc d : Z) (src : buf)
    (ipa cbp csh : Z) :
  bytes_ok dst -> bytes_ok src ->
  csh = 0 \/ csh = 3 ->
  0 <= cbp <= op -> (cbp < op -> load8 dst cbp < 2 ^ (8 - csh)) ->
  0 <= lc < 2 ^ 31 -> 6 <= rc <= 530 -> 0 <= d < 2 ^ 23 ->
  op + lc + 18 <= len dst ->
  let w := lzav_write_blk_2 dst op lc rc d src ipa cbp csh 6 in
  let sh := csh + (if lc =? 0 then 0 else 2) in
  let q := op + (if lc =? 0 then 0 else lit_hdr lc + lc) in
  let dq := d / 2 ^ sh in
  w_op w = q + ref_size dq rc
  /\ w_cbp w = q + ref_bt dq
  /\ w_csh w = ocsh (ref_bt dq)
  /\ length (w_dst w) = length dst
  /\ bytes_ok (w_dst w)
  /\ (forall j, j < op -> j <> cbp -> load8 (w_dst w) j = load8 dst j)
  /\ (cbp < op ->
      load8 (w_dst w) cbp = load8 dst cbp + d mod 2 ^ csh * 2 ^ (8 - csh))
  /\ (forall j, op + lc + 18 <= j -> load8 (w_dst w) j = load8 dst j)
  /\ (lc <> 0 -> lits_at (w_dst w) op (d / 2 ^ csh mod 4) lc src ipa)
  /\ ref_at (w_dst w) q dq rc
  /\ load8 (w_dst w) (q + ref_bt dq) < 2 ^ (8 - ocsh (ref_bt dq)).
Proof.
  intros Hd Hs Hcsh Hcbp Hcb Hlc Hrc Hdr Hfit. cbv zeta.
  change (2 ^ 23) with 8388608 in Hdr.
  (* the carry *)
  pose proof (bytes_ok_load8 dst cbp Hd) as Bc.
  set (d0 := store8 dst cbp
               (Z.lor (load8 dst cbp)
                  (u8 (Z.shiftr (u64 (Z.shiftl d 8)) csh)))).
  assert (Hbyte : 0 <= Z.lor (load8 dst cbp)
                         (u8 (Z.shiftr (u64 (Z.shiftl d 8)) csh)) < 256).
  { pose proof (u8_range (Z.shiftr (u64 (Z.shiftl d 8)) csh)) as U.
    split; [apply Z.lor_nonneg; lia |].
    change 256 with (2 ^ 8). apply Z.log2_lt_cancel.
    destruct (Z.eq_dec (Z.lor (load8 dst cbp)
                (u8 (Z.shiftr (u64 (Z.shiftl d 8)) csh))) 0) as [-> | N];
      [cbn; lia |].
    rewrite Z.log2_lor by lia. rewrite Z.log2_pow2 by lia.
    apply Z.max_lub_lt.
    - destruct (Z.eq_dec (load8 dst cbp) 0) as [-> | ?]; [cbn; lia |].
      apply Z.log2_lt_pow2; lia.
    - destruct (Z.eq_dec (u8 (Z.shiftr (u64 (Z.shiftl d 8)) csh)) 0)
        as [-> | ?]; [cbn; lia |].
      apply Z.log2_lt_pow2; lia. }
  assert (L0 : length d0 = length dst) by apply length_store8.
  assert (K0 : bytes_ok d0) by (apply bytes_ok_store8; assumption).
  assert (F0 : forall j, j <> cbp -> load8 d0 j = load8 dst j).
  { intros j Hj. subst d0. now rewrite load8_store8_ne by lia. }
  assert (C0 : cbp < op ->
               load8 d0 cbp = load8 dst cbp + d mod 2 ^ csh * 2 ^ (8 - csh)).
  { intros Hlt. subst d0. rewrite load8_store8_eq by lia.
    apply carry_byte; [assumption | | change (2 ^ 23) with 8388608; lia].
    specialize (Hcb Hlt). lia. }
  assert (Hpw : 0 < 2 ^ csh) by (destruct Hcsh as [-> | ->]; cbn; lia).
  assert (Hd1 : 0 <= d / 2 ^ csh < 8388608).
  { split; [apply Z.div_pos; lia | apply Z.div_lt_upper_bound; nia]. }
  (* the reference *)
  assert (Ref : forall d1 q dq,
            bytes_ok d1 -> 0 <= q -> q + 6 <= len d1 -> 0 <= dq < 8388608 ->
            let rc' := u64 (rc + 1 - 6) in
            let bt := 1 + b2z (dq >? Z.shiftl 1 10 - 1)
                      + b2z (dq >? Z.shiftl 1 18 - 1) in
            let w :=
              if rc' <? 16 then
                let ov := u32 (Z.lor (Z.lor (Z.shiftl dq 6) (Z.shiftl bt 4))
                                 rc') in
                let dst := store32 d1 q ov in
                let op := q + bt in
                mk_wstate dst (op + 1) op (ocsh bt)
              else
                let ov := u32 (Z.lor (Z.shiftl dq 6) (Z.shiftl bt 4)) in
                let dst := store32 d1 q ov in
                let op := q + bt in
                if rc' <? 16 + 255 then
                  mk_wstate (store8 dst (op + 1) (u8 (rc' - 16))) (op + 2) op
                    (ocsh bt)
                else
                  let dst := store8 dst (op + 1) 255 in
                  mk_wstate (store8 dst (op + 2) (u8 (rc' - 16 - 255)))
                    (op + 3) op (ocsh bt) in
            w_op w = q + ref_size dq rc
            /\ w_cbp w = q + ref_bt dq
            /\ w_csh w = ocsh (ref_bt dq)
            /\ length (w_dst w) = length d1
            /\ bytes_ok (w_dst w)
            /\ (forall j, j < q \/ q + 6 <= j ->
                  load8 (w_dst w) j = load8 d1 j)
            /\ ref_at (w_dst w) q dq rc
            /\ load8 (w_dst w) (q + ref_bt dq) < 2 ^ (8 - ocsh (ref_bt dq))).
  { intros d1 q dq K1 Hq Hq6 Hdq. cbv zeta.
    fold (ref_bt dq). rewrite u64_small by lia.
    replace (rc + 1 - 6) with (rc - 5) by lia.
    set (rcf := if rc - 5 <? 16 then rc - 5 else 0).
    assert (Hrcf : 0 <= rcf < 16).
    { subst rcf. destruct (Z.ltb_spec (rc - 5) 16); lia. }
    assert (Hbt : 1 <= ref_bt dq <= 3).
    { destruct (ref_bt_cases dq Hdq) as [[-> _] | [[-> _] | [-> _]]]; lia. }
    set (ov := dq * 64 + ref_bt dq * 16 + rcf).
    assert (Hov : 0 <= ov < 2 ^ 32).
    { change (2 ^ 32) with 4294967296. subst ov. lia. }
    assert (Eov1 : Z.lor (Z.shiftl dq 6) (Z.shiftl (ref_bt dq) 4)
                   = dq * 64 + ref_bt dq * 16).
    { rewrite !shiftl_times by lia.
      rewrite lor_plus_l by (change (2 ^ 6) with 64; change (2 ^ 4) with 16;
                             lia).
      reflexivity. }
    assert (Eov2 : forall x, 0 <= x < 16 ->
              Z.lor (dq * 64 + ref_bt dq * 16) x
              = dq * 64 + ref_bt dq * 16 + x).
    { intros x Hx.
      replace (dq * 64 + ref_bt dq * 16) with ((dq * 4 + ref_bt dq) * 2 ^ 4)
        by (change (2 ^ 4) with 16; lia).
      apply lor_plus_l; [lia | change (2 ^ 4) with 16; lia]. }
    set (d2 := store32 d1 q ov).
    assert (L2 : length d2 = length d1) by apply length_store_bytes.
    assert (K2 : bytes_ok d2) by now apply bytes_ok_store32.
    assert (B : forall j, load8 d2 j
                = if (q <=? j) && (j <? q + 4)
                  then ov / 2 ^ (8 * (j - q)) mod 256 else load8 d1 j).
    { intros j. apply load8_store32; try assumption; lia. }
    assert (Hb0 : load8 d2 q = dq mod 4 * 64 + ref_bt dq * 16 + rcf).
    { rewrite B. destruct (Z.leb_spec q q), (Z.ltb_spec q (q + 4));
        cbn [andb]; try lia.
      rewrite Z.sub_diag. change (2 ^ (8 * 0)) with 1.
      rewrite Z.div_1_r. subst ov. zlia. }
    assert (Hb1 : load8 d2 (q + 1) = dq / 4 mod 256).
    { rewrite B. destruct (Z.leb_spec q (q + 1)),
        (Z.ltb_spec (q + 1) (q + 4)); cbn [andb]; try lia.
      replace (q + 1 - q) with 1 by lia. change (2 ^ (8 * 1)) with 256.
      subst ov. zlia. }
    assert (Hb2 : load8 d2 (q + 2) = dq / 1024 mod 256).
    { rewrite B. destruct (Z.leb_spec q (q + 2)),
        (Z.ltb_spec (q + 2) (q + 4)); cbn [andb]; try lia.
      replace (q + 2 - q) with 2 by lia. change (2 ^ (8 * 2)) with 65536.
      subst ov. zlia. }
    assert (Hb3 : load8 d2 (q + 3) = dq / 262144).
    { rewrite B. destruct (Z.leb_spec q (q + 3)),
        (Z.ltb_spec (q + 3) (q + 4)); cbn [andb]; try lia.
      replace (q + 3 - q) with 3 by lia. change (2 ^ (8 * 3)) with 16777216.
      subst ov. zlia. }
    assert (Hcb' : forall b : buf,
              (forall j, q <= j <= q + 3 -> j <= q + ref_bt dq ->
                 load8 b j = load8 d2 j) ->
              load8 b (q + ref_bt dq) < 2 ^ (8 - ocsh (ref_bt dq))).
    { intros b Hb. rewrite Hb by lia.
      pose proof (bytes_ok_load8 d2 (q + ref_bt dq) K2).
      destruct (ref_bt_cases dq Hdq) as [[E _] | [[E _] | [E _]]];
        rewrite E in *;
        [ change (2 ^ (8 - ocsh 1)) with 256; lia
        | change (2 ^ (8 - ocsh 2)) with 256; lia |].
      rewrite Hb3. change (2 ^ (8 - ocsh 3)) with 32. zlia. }
    unfold ref_at, ref_size, ref_ext. cbv zeta.
    fold rcf.
    destruct (Z.ltb_spec (rc - 5) 16) as [H16 | H16].
    - (* the length in the header *)
      rewrite Eov1, Eov2 by lia.
      replace (dq * 64 + ref_bt dq * 16 + (rc - 5)) with ov
        by (subst ov rcf; destruct (Z.ltb_spec (rc - 5) 16); lia).
      rewrite u32_small by exact Hov. fold d2. cbn [w_op w_cbp w_csh w_dst].
      split; [lia |]. split; [reflexivity |]. split; [reflexivity |].
      split; [exact L2 |]. split; [exact K2 |].
      split; [| split; [| apply Hcb'; reflexivity]].
      + intros j Hj. rewrite B.
        destruct (Z.leb_spec q j), (Z.ltb_spec j (q + 4)); cbn [andb];
          try lia; reflexivity.
      + split; [exact Hb0 |]. split; [exact Hb1 |].
        split; [intros; exact Hb2 |].
        split; [intros _; rewrite Hb3; zlia |].
        split; intros; discriminate.
    - (* one or two length bytes *)
      rewrite Eov1.
      replace (dq * 64 + ref_bt dq * 16) with ov
        by (subst ov rcf; destruct (Z.ltb_spec (rc - 5) 16); lia).
      rewrite u32_small by exact Hov. fold d2.
      destruct (Z.ltb_spec (rc - 5) (16 + 255)) as [H271 | H271];
        cbn [w_op w_cbp w_csh w_dst].
      + split; [lia |]. split; [reflexivity |]. split; [reflexivity |].
        split; [now rewrite length_store8 |].
        split; [apply bytes_ok_store8; [exact K2 | apply u8_range] |].
        split; [| split; [| apply Hcb'; intros;
                            now rewrite load8_store8_ne by lia]].
        * intros j Hj. rewrite load8_store8_ne by lia. rewrite B.
          destruct (Z.leb_spec q j), (Z.ltb_spec j (q + 4)); cbn [andb];
            try lia; reflexivity.
        * split; [now rewrite load8_store8_ne by lia |].
          split; [now rewrite load8_store8_ne by lia |].
          split; [intros; now rewrite load8_store8_ne by lia |].
          split; [intros E; rewrite E, load8_store8_ne by lia;
                  rewrite Hb3; zlia |].
          split; [intros _ | intros; discriminate].
          rewrite load8_store8_eq by (rewrite L2; lia).
          rewrite u8_id by lia. lia.
      + split; [lia |]. split; [reflexivity |]. split; [reflexivity |].
        split; [now rewrite !length_store8 |].
        split; [apply bytes_ok_store8;
                [apply bytes_ok_store8; [exact K2 | lia] | apply u8_range] |].
        split; [| split; [| apply Hcb'; intros;
                            now rewrite !load8_store8_ne by lia]].
        * intros j Hj. rewrite !load8_store8_ne by lia. rewrite B.
          destruct (Z.leb_spec q j), (Z.ltb_spec j (q + 4)); cbn [andb];
            try lia; reflexivity.
        * split; [now rewrite !load8_store8_ne by lia |].
          split; [now rewrite !load8_store8_ne by lia |].
          split; [intros; now rewrite !load8_store8_ne by lia |].
          split; [intros E; rewrite E, !load8_store8_ne by lia;
                  rewrite Hb3; zlia |].
          split; [intros; discriminate | intros _].
          split.
          -- rewrite load8_store8_ne, load8_store8_eq
               by (rewrite ?L2; lia). reflexivity.
          -- rewrite load8_store8_eq by (rewrite length_store8, L2; lia).
             rewrite u8_id by lia. lia. }
  unfold lzav_write_blk_2. cbv zeta. fold d0.
  rewrite shiftr_over by lia.
  destruct (lc =? 0) eqn:Ez; cbn [negb];
    [apply Z.eqb_eq in Ez; subst lc | apply Z.eqb_neq in Ez].
  - rewrite !Z.add_0_r.
    destruct (Ref d0 op (d / 2 ^ csh) K0 ltac:(lia) ltac:(lia) Hd1)
      as (R1 & R2 & R3 & R4 & R5 & R6 & R7 & R8).
    split; [exact R1 |]. split; [exact R2 |]. split; [exact R3 |].
    split; [etransitivity; [exact R4 | exact L0] |]. split; [exact R5 |].
    split; [intros j Hj Hn; rewrite R6, F0 by lia; reflexivity |].
    split; [intros Hlt; rewrite R6 by lia; now apply C0 |].
    split; [intros j Hj; rewrite R6, F0 by lia; reflexivity |].
    split; [intros N; now contradiction N |].
    split; [exact R7 | exact R8].
  - destruct (write_lit_2_block d0 op lc (d / 2 ^ csh) src ipa K0 Hs
                ltac:(lia) ltac:(lia) ltac:(lia) ltac:(lia))
      as (d1 & E1 & L1 & K1 & F1 & G1 & T1).
    rewrite E1.
    pose proof (lit_hdr_range lc) as Hh.
    assert (Edq : d / 2 ^ csh / 4 = d / 2 ^ (csh + 2)).
    { destruct Hcsh as [-> | ->];
        [ change (2 ^ 0) with 1; change (2 ^ (0 + 2)) with 4
        | change (2 ^ 3) with 8; change (2 ^ (3 + 2)) with 32 ]; zlia. }
    rewrite Edq.
    assert (Hd2 : 0 <= d / 2 ^ (csh + 2) < 8388608).
    { rewrite <- Edq. zlia. }
    replace (op + lit_hdr lc + lc) with (op + (lit_hdr lc + lc)) by lia.
    destruct (Ref d1 (op + (lit_hdr lc + lc)) (d / 2 ^ (csh + 2)) K1
                ltac:(lia) ltac:(lia) Hd2)
      as (R1 & R2 & R3 & R4 & R5 & R6 & R7 & R8).
    split; [exact R1 |]. split; [exact R2 |]. split; [exact R3 |].
    split; [etransitivity; [exact R4 | congruence] |]. split; [exact R5 |].
    split; [intros j Hj Hn; rewrite R6, F1, F0 by lia; reflexivity |].
    split; [intros Hlt; rewrite R6, F1 by lia; now apply C0 |].
    split; [intros j Hj; rewrite R6, G1, F0 by lia; reflexivity |].
    split; [| split; [exact R7 | exact R8]].
    intros _. destruct T1 as [T1 T2]. split.
    + destruct (Z.ltb_spec lc 16).
      * rewrite R6 by lia. exact T1.
      * destruct T1 as [T1 T3]. split; [rewrite R6 by lia; exact T1 |].
        intros k Hk. rewrite R6; [now apply T3 |].
        unfold lit_hdr. destruct (Z.ltb_spec lc 16); lia.
    + intros k Hk. rewrite R6 by lia. now apply T2.
Qed.

(** A stream that holds a block and what was written before it: it
    holds what was written before the block, the carry for the offset of
    the block, and the bytes of the block. *)
Lemma agrees_block (s dst : buf) (op lc rc d : Z) (src : buf)
    (ipa cbp csh : Z) :
  bytes_ok s -> bytes_ok dst -> bytes_ok src ->
  csh = 0 \/ csh = 3 ->
  0 <= cbp <= op -> (cbp < op -> load8 dst cbp < 2 ^ (8 - csh)) ->
  cbp < op \/ csh = 0 ->
  0 <= lc < 2 ^ 31 -> 6 <= rc <= 530 -> 0 <= d < 2 ^ 23 ->
  op + lc + 18 <= len dst ->
  let w := lzav_write_blk_2 dst op lc rc d src ipa cbp csh 6 in
  let sh := csh + (if lc =? 0 then 0 else 2) in
  let q := op + (if lc =? 0 then 0 else lit_hdr lc + lc) in
  let dq := d / 2 ^ sh in
  agrees s (w_dst w) (w_op w) (w_cbp w) (w_csh w) ->
  agrees s dst op cbp csh
  /\ carried s cbp csh = d mod 2 ^ csh
  /\ (lc <> 0 -> lits_at s op (d / 2 ^ csh mod 4) lc src ipa)
  /\ ref_at s q dq rc.
Proof.
  intros Ks Hd Hs Hcsh Hcbp Hcb Hcc Hlc Hrc Hdr Hfit.
  pose proof (lzav_write_blk_2_block dst op lc rc d src ipa cbp csh Hd Hs
                Hcsh Hcbp Hcb Hlc Hrc Hdr Hfit) as W.
  cbv zeta in W |- *.
  set (w := lzav_write_blk_2 dst op lc rc d src ipa cbp csh 6) in *.
  set (q := op + (if lc =? 0 then 0 else lit_hdr lc + lc)) in *.
  set (dq := d / 2 ^ (csh + (if lc =? 0 then 0 else 2))) in *.
  destruct W as (W1 & W2 & W3 & W4 & W5 & W6 & W7 & W8 & W9 & W10 & W11).
  rewrite W1, W2, W3. intros [A1 A2].
  pose proof (ref_size_range dq rc) as Hsz.
  pose proof (lit_hdr_range lc) as Hlh.
  assert (Hq : op <= q).
  { subst q. destruct (lc =? 0); lia. }
  assert (Hdq : 0 <= dq < 8388608).
  { subst dq. change (2 ^ 23) with 8388608 in Hdr.
    assert (0 < 2 ^ (csh + (if lc =? 0 then 0 else 2))).
    { destruct Hcsh as [-> | ->], (lc =? 0); cbn; lia. }
    split; [apply Z.div_pos; lia | apply Z.div_lt_upper_bound; nia]. }
  assert (Hbt : 1 <= ref_bt dq <= 3).
  { destruct (ref_bt_cases dq Hdq) as [[-> _] | [[-> _] | [-> _]]]; lia. }
  assert (Hext : 0 <= ref_ext rc <= 2).
  { unfold ref_ext. destruct (rc - 5 <? 16), (rc - 5 <? 16 + 255); lia. }
  assert (Same : forall j, 0 <= j < q + ref_size dq rc ->
            j <> q + ref_bt dq -> load8 s j = load8 (w_dst w) j).
  { intros j Hj Hn. now apply A1. }
  specialize (A2 ltac:(unfold ref_size; lia)).
  pose proof (bytes_ok_load8 s cbp Ks) as Bs.
  pose proof (bytes_ok_load8 dst cbp Hd) as Bd.
  assert (Hcarry : cbp < op ->
            load8 s cbp = load8 dst cbp + d mod 2 ^ csh * 2 ^ (8 - csh)).
  { intros Hlt. rewrite Same by (unfold ref_size; lia). now apply W7. }
  split; [| split; [| split]].
  - split.
    + intros i Hi Hn. rewrite Same by (unfold ref_size; lia).
      apply W6; lia.
    + intros Hlt. rewrite (Hcarry Hlt). specialize (Hcb Hlt).
      destruct Hcsh as [-> | ->];
        [ change (2 ^ (8 - 0)) with 256 in *; change (2 ^ 0) with 1
        | change (2 ^ (8 - 3)) with 32 in *; change (2 ^ 3) with 8 ]; zlia.
  - unfold carried.
    destruct (Z.lt_ge_cases cbp op) as [Hlt | Hge].
    + rewrite (Hcarry Hlt). specialize (Hcb Hlt).
      destruct Hcsh as [-> | ->];
        [ change (2 ^ (8 - 0)) with 256 in *; change (2 ^ 0) with 1
        | change (2 ^ (8 - 3)) with 32 in *; change (2 ^ 3) with 8 ]; zlia.
    + destruct Hcc as [? | ->]; [lia |].
      change (2 ^ (8 - 0)) with 256. change (2 ^ 0) with 1. zlia.
  - intros N. specialize (W9 N). destruct W9 as [T1 T2].
    assert (Eq : q = op + (lit_hdr lc + lc)).
    { subst q. destruct (Z.eqb_spec lc 0); [contradiction | reflexivity]. }
    split.
    + destruct (Z.ltb_spec lc 16).
      * rewrite Same by (unfold ref_size; lia). exact T1.
      * destruct T1 as [T1 T3].
        split; [rewrite Same by (unfold ref_size; lia); exact T1 |].
        intros k Hk. rewrite Same; [now apply T3 | |];
          unfold ref_size; unfold lit_hdr in Eq;
          destruct (Z.ltb_spec lc 16); lia.
    + intros k Hk. rewrite Same by (unfold ref_size; lia). now apply T2.
  - destruct W10 as (R0 & R1 & R2 & R3 & R4 & R5).
    pose proof (bytes_ok_load8 s (q + ref_bt dq) Ks) as Bq.
    pose proof (bytes_ok_load8 (w_dst w) (q + ref_bt dq) W5) as Bw.
    unfold ref_at. cbv zeta.
    split; [rewrite Same by (unfold ref_size; lia); exact R0 |].
    split; [| split; [| split; [| split]]].
    + destruct (Z.eq_dec (ref_bt dq) 1) as [E | N].
      * rewrite E in *. change (2 ^ (8 - ocsh 1)) with 256 in *.
        rewrite <- R1, <- A2. zlia.
      * rewrite Same by (unfold ref_size; lia). exact R1.
    + intros H2. specialize (R2 H2).
      destruct (Z.eq_dec (ref_bt dq) 2) as [E | N].
      * rewrite E in *. change (2 ^ (8 - ocsh 2)) with 256 in *.
        rewrite <- R2, <- A2. zlia.
      * rewrite Same by (unfold ref_size; lia). exact R2.
    + intros E. specialize (R3 E). rewrite E in *.
      change (2 ^ (8 - ocsh 3)) with 32 in *.
      rewrite A2. rewrite <- R3. zlia.
    + intros E. rewrite Same by (unfold ref_size; lia). now apply R4.
    + intros E. rewrite !Same by (unfold ref_size; lia). now apply R5.
Qed.

End WriteBlock.

(** ** What the default compressor keeps *)

Section HashTable.

Local Abbreviation len l := (Z.of_nat (length l)).

Variable src : buf.
Hypothesis src_ok : bytes_ok src.

Lemma length_ht_set ht i v : length (ht_set ht i v) = length ht.
Proof.
  unfold ht_set. destruct (i <? 0); [reflexivity | apply length_set_nth].
Qed.

Lemma ht_get_set ht i v j :
  0 <= i < len ht -> 0 <= j ->
  ht_get (ht_set ht i v) j = if j =? i then u32 v else ht_get ht j.
Proof.
  intros Hi Hj. unfold ht_get, ht_set.
  destruct (Z.ltb_spec i 0); [lia |]. destruct (Z.ltb_spec j 0); [lia |].
  destruct (Z.eqb_spec j i) as [-> | N].
  - apply nth_set_nth_eq. lia.
  - apply nth_set_nth_ne. lia.
Qed.

Lemma load32_range i : 0 <= load32 src i < 2 ^ 32.
Proof.
  rewrite load32_sum by assumption.
  pose proof (bytes_ok_load8 src i src_ok).
  pose proof (bytes_ok_load8 src (i + 1) src_ok).
  pose proof (bytes_ok_load8 src (i + 2) src_ok).
  pose proof (bytes_ok_load8 src (i + 3) src_ok).
  change (2 ^ 32) with 4294967296. lia.
Qed.

Lemma load16_range i : 0 <= load16 src i < 2 ^ 16.
Proof.
  rewrite load16_sum by assumption.
  pose proof (bytes_ok_load8 src i src_ok).
  pose proof (bytes_ok_load8 src (i + 1) src_ok).
  change (2 ^ 16) with 65536. lia.
Qed.

(** A tuple written for an offset of the source. *)
Lemma table_ok_set_pair ht k off :
  table_ok src ht -> 0 <= k -> 2 * k + 1 < len ht ->
  16 <= off < 2 ^ 32 ->
  table_ok src (ht_set (ht_set ht (2 * k) (load32 src off)) (2 * k + 1) off).
Proof.
  intros T Hk Hl Ho j Hj Hjl. rewrite !length_ht_set in Hjl.
  rewrite !ht_get_set by (rewrite ?length_ht_set; lia).
  pose proof (load32_range off).
  destruct (Z.eq_dec j k) as [-> | N].
  - rewrite Z.eqb_refl.
    destruct (Z.eqb_spec (2 * k) (2 * k + 1)); [lia |].
    rewrite Z.eqb_refl. rewrite !u32_small by lia. lia.
  - destruct (Z.eqb_spec (2 * j) (2 * k + 1)); [lia |].
    destruct (Z.eqb_spec (2 * j) (2 * k)); [lia |].
    destruct (Z.eqb_spec (2 * j + 1) (2 * k + 1)); [lia |].
    destruct (Z.eqb_spec (2 * j + 1) (2 * k)); [lia |].
    now apply T.
Qed.

(** The offset of a tuple replaced by one with the same four bytes. *)
Lemma table_ok_set_off ht k off :
  table_ok src ht -> 0 <= k -> 2 * k + 1 < len ht ->
  16 <= off < 2 ^ 32 ->
  ht_get ht (2 * k) = load32 src off ->
  table_ok src (ht_set ht (2 * k + 1) off).
Proof.
  intros T Hk Hl Ho E j Hj Hjl. rewrite !length_ht_set in Hjl.
  rewrite !ht_get_set by (rewrite ?length_ht_set; lia).
  destruct (Z.eq_dec j k) as [-> | N].
  - destruct (Z.eqb_spec (2 * k) (2 * k + 1)); [lia |].
    rewrite Z.eqb_refl. rewrite !u32_small by lia. lia.
  - destruct (Z.eqb_spec (2 * j) (2 * k + 1)); [lia |].
    destruct (Z.eqb_spec (2 * j + 1) (2 * k + 1)); [lia |].
    now apply T.
Qed.

(** The tuple [find_tuple] returns: its four bytes and the two behind
    them are those of the position looked up. *)
Lemma find_tuple_some ht hp iw1 iw2 wp :
  find_tuple src ht hp iw1 iw2 = Some wp ->
  (iw1 = ht_get ht hp /\ wp = ht_get ht (hp + 1)
   \/ iw1 = ht_get ht (hp + 2) /\ wp = ht_get ht (hp + 3))
  /\ iw2 = load16 src (wp + 4).
Proof.
  unfold find_tuple. cbv zeta.
  assert (S2 : (if negb (iw1 =? ht_get ht (hp + 2)) then None
                else if negb (iw2 =? load16 src (ht_get ht (hp + 3) + 4))
                     then None else Some (ht_get ht (hp + 3))) = Some wp ->
               (iw1 = ht_get ht (hp + 2) /\ wp = ht_get ht (hp + 3))
               /\ iw2 = load16 src (wp + 4)).
  { destruct (Z.eqb_spec iw1 (ht_get ht (hp + 2))); cbn [negb];
      [| discriminate].
    destruct (Z.eqb_spec iw2 (load16 src (ht_get ht (hp + 3) + 4)));
      cbn [negb]; [| discriminate].
    intros [= <-]. auto. }
  destruct (Z.eqb_spec iw1 (ht_get ht hp)); cbn [negb].
  - destruct (Z.eqb_spec iw2 (load16 src (ht_get ht (hp + 1) + 4)));
      cbn [negb].
    + intros [= <-]. auto.
    + intros H. apply S2 in H. tauto.
  - intros H. apply S2 in H. tauto.
Qed.

(** Six bytes of the source from the two loads of the matcher. *)
Lemma six_bytes_equal p1 p2 :
  load32 src p1 = load32 src p2 ->
  load16 src (p1 + 4) = load16 src (p2 + 4) ->
  forall i, 0 <= i < 6 -> load8 src (p1 + i) = load8 src (p2 + i).
Proof.
  intros E4 E2 i Hi.
  destruct (Z.lt_ge_cases i 4).
  - apply (words32_equal src src_ok p1 p2); [| lia].
    rewrite E4. apply Z.lxor_nilpotent.
  - destruct (words16_equal src src_ok (p1 + 4) (p2 + 4)) as [A B].
    { rewrite E2. apply Z.lxor_nilpotent. }
    assert (i = 4 \/ i = 5) as [-> | ->] by lia; [exact A |].
    replace (p1 + 5) with (p1 + 4 + 1) by lia.
    replace (p2 + 5) with (p2 + 4 + 1) by lia. exact B.
Qed.

End HashTable.

Section EmitStep.

Local Abbreviation len l := (Z.of_nat (length l)).

Variable src : buf.
Hypothesis src_ok : bytes_ok src.
Variable srcl : Z.
Hypothesis srcl_range : 32 < srcl < 2 ^ 31.

(** The block [step_emit] writes for a candidate [wp] whose first six
    bytes are those of the input position: [lc] literals from the anchor
    and a reference of [rc] bytes at the offset [d], no longer than [d],
    over bytes the source repeats [d] bytes later. *)
Lemma step_emit_spec (st : cstate) (hp iw1 hw1 ipo wp d : Z) :
  16 <= c_ip st < srcl - 15 ->
  0 <= c_ipa st <= c_ip st ->
  16 <= wp -> d = c_ip st - wp -> 8 <= d <= LZAV_WIN_LEN - 1 ->
  (forall i, 0 <= i < 6 -> load8 src (c_ip st + i) = load8 src (wp + i)) ->
  exists lc rc mavg',
    step_emit src srcl st hp iw1 hw1 ipo wp d
    = (let w := lzav_write_blk_2 (c_dst st) (c_op st) lc rc d src
                  (c_ipa st) (c_cbp st) (c_csh st) 6 in
       let ht := c_ht st in
       let ht' :=
         if d >? 273 then
           if iw1 =? hw1 then ht_set ht (hp + 1) ipo
           else
             let ht := ht_set ht (hp + 2) hw1 in
             let ht := ht_set ht (hp + 3) (ht_get ht (hp + 1)) in
             let ht := ht_set ht hp iw1 in
             ht_set ht (hp + 1) ipo
         else ht in
       mk_cstate (c_ipa st + lc + rc) (c_ipa st + lc + rc) (w_op w)
         (w_cbp w) (w_csh w) mavg' (c_rndb st) ht' (w_dst w))
    /\ 0 <= lc /\ c_ipa st + lc <= c_ip st /\ c_ip st < c_ipa st + lc + rc
    /\ 6 <= rc <= d /\ rc <= 530 /\ c_ipa st + lc + rc <= srcl - 6
    /\ d <= c_ipa st + lc
    /\ c_ip st - (c_ipa st + lc) + 6 <= rc
    /\ rc + 16 <= c_ip st
    /\ (forall i, 0 <= i < rc ->
          load8 src (c_ipa st + lc + i) = load8 src (c_ipa st + lc - d + i)).
Proof.
  intros Hip Hipa Hwp Hd Hdr Six.
  change (2 ^ 31) with 2147483648 in srcl_range.
  change (LZAV_WIN_LEN - 1) with 8388607 in Hdr.
  set (ip := c_ip st) in *. set (ipa := c_ipa st) in *.
  unfold step_emit. cbv zeta. fold ip ipa.
  change LZAV_REF_LEN with 530. change LZAV_REF_MIN with 6.
  change LZAV_LIT_FIN with 6.
  set (ml0 := if d >? 530 then 530 else d).
  assert (Hml0 : 8 <= ml0 <= 530 /\ ml0 <= d).
  { subst ml0. destruct (Z.gtb_spec d 530); lia. }
  rewrite (padd_small ip ml0)
    by (change (2 ^ 63) with 9223372036854775808; lia).
  set (ml := if ip + ml0 >? srcl - 6 then u64 (srcl - 6 - ip) else ml0).
  assert (Hml : 8 <= ml <= ml0 /\ ip + ml <= srcl - 6).
  { subst ml. destruct (Z.gtb_spec (ip + ml0) (srcl - 6)).
    - rewrite u64_small
        by (change (2 ^ 64) with 18446744073709551616; lia). lia.
    - lia. }
  rewrite (u64_small (ml - 6))
    by (change (2 ^ 64) with 18446744073709551616; lia).
  pose proof (lzav_match_len_is src src_ok (ip + 6) (wp + 6) (ml - 6)
                ltac:(change (2 ^ 63) with 9223372036854775808; lia))
    as [[Hr Mr] _].
  set (r := lzav_match_len src (ip + 6) (wp + 6) (ml - 6)) in *.
  rewrite (u64_small (6 + r))
    by (change (2 ^ 64) with 18446744073709551616; lia).
  rewrite (u64_small (ip - ipa))
    by (change (2 ^ 64) with 18446744073709551616; lia).
  assert (Fwd : forall i, 0 <= i < 6 + r ->
            load8 src (ip + i) = load8 src (wp + i)).
  { intros i Hi. destruct (Z.lt_ge_cases i 6); [apply Six; lia |].
    replace (ip + i) with (ip + 6 + (i - 6)) by lia.
    replace (wp + i) with (wp + 6 + (i - 6)) by lia.
    apply Mr. lia. }
  assert (Done : forall bmc,
            0 <= bmc -> bmc <= ml - (6 + r) -> bmc <= ip - ipa -> bmc <= 16 ->
            (forall i, 1 <= i <= bmc -> load8 src (ip - i) = load8 src (wp - i)) ->
            let lc := ip - ipa - bmc in
            let rc := 6 + r + bmc in
            0 <= lc /\ ipa + lc <= ip /\ ip < ipa + lc + rc
            /\ 6 <= rc <= d /\ rc <= 530 /\ ipa + lc + rc <= srcl - 6
            /\ d <= ipa + lc
            /\ ip - (ipa + lc) + 6 <= rc
            /\ rc + 16 <= ip
            /\ (forall i, 0 <= i < rc ->
                  load8 src (ipa + lc + i) = load8 src (ipa + lc - d + i))).
  { intros bmc B0 B1 B2 B3 Bk. cbv zeta.
    repeat (split; [lia |]).
    intros i Hi.
    replace (ipa + (ip - ipa - bmc) + i) with (ip + (i - bmc)) by lia.
    replace (ipa + (ip - ipa - bmc) - d + i) with (wp + (i - bmc)) by lia.
    destruct (Z.lt_ge_cases i bmc).
    - replace (ip + (i - bmc)) with (ip - (bmc - i)) by lia.
      replace (wp + (i - bmc)) with (wp - (bmc - i)) by lia.
      apply Bk. lia.
    - apply Fwd. lia. }
  destruct (Z.eqb_spec (ip - ipa) 0) as [E0 | N0]; cbn [negb].
  - (* no literals *)
    pose proof (Done 0 ltac:(lia) ltac:(lia) ltac:(lia) ltac:(lia)
                  ltac:(intros; lia)) as D.
    exists (ip - ipa - 0), (6 + r + 0). eexists.
    split; [| exact D].
    cbv zeta. rewrite E0, !Z.sub_0_r, !Z.add_0_r.
    replace (ip + (6 + r)) with (ipa + (6 + r)) by lia.
    reflexivity.
  - rewrite (u64_small (ml - (6 + r)))
      by (change (2 ^ 64) with 18446744073709551616; lia).
    set (bmc0 := if ip - ipa >? 16 then 16 else ip - ipa).
    set (ml3 := if ml - (6 + r) >? bmc0 then bmc0 else ml - (6 + r)).
    assert (Hml3 : 0 <= ml3 /\ ml3 <= ml - (6 + r) /\ ml3 <= ip - ipa
                   /\ ml3 <= 16).
    { subst ml3 bmc0.
      destruct (Z.gtb_spec (ip - ipa) 16);
        [ destruct (Z.gtb_spec (ml - (6 + r)) 16)
        | destruct (Z.gtb_spec (ml - (6 + r)) (ip - ipa)) ]; lia. }
    pose proof (lzav_match_len_r_is src src_ok ip wp ml3 ltac:(lia))
      as [[Hb Mb] _].
    set (bmc := lzav_match_len_r src ip wp ml3) in *.
    pose proof (Done bmc ltac:(lia) ltac:(lia) ltac:(lia) ltac:(lia) Mb)
      as D.
    destruct (Z.eqb_spec bmc 0) as [Eb | Nb]; cbn [negb].
    + exists (ip - ipa - bmc), (6 + r + bmc). eexists.
      split; [| exact D]. cbv zeta.
      rewrite Eb, !Z.sub_0_r, !Z.add_0_r.
      replace (ipa + (ip - ipa) + (6 + r)) with (ip + (6 + r)) by lia.
      reflexivity.
    + exists (ip - ipa - bmc), (6 + r + bmc). eexists.
      split; [| exact D]. cbv zeta.
      rewrite (u64_small (6 + r + bmc)), (u64_small (ip - ipa - bmc))
        by (change (2 ^ 64) with 18446744073709551616; lia).
      replace (ipa + (ip - ipa - bmc) + (6 + r + bmc))
        with (ip - bmc + (6 + r + bmc)) by lia.
      reflexivity.
Qed.

End EmitStep.

Section CompressStep.

Local Abbreviation len l := (Z.of_nat (length l)).

Variable src : buf.
Hypothesis src_ok : bytes_ok src.
Variable srcl : Z.
Hypothesis srcl_range : 32 < srcl < 2 ^ 31.
Variables hmask tl : Z.
Hypothesis slots : slots_ok hmask tl.

(** One iteration of the main loop either moves the input pointer on and
    leaves the output alone, or writes one block: literals from the
    anchor and a reference no longer than its offset, over bytes that
    the source repeats. *)
Lemma compress_step_cases (st : cstate) :
  scan_ok src tl st -> c_ip st < srcl - 15 ->
  (exists ip' mavg' rndb' ht',
     compress_step src srcl hmask st
     = mk_cstate ip' (c_ipa st) (c_op st) (c_cbp st) (c_csh st) mavg' rndb'
         ht' (c_dst st)
     /\ c_ip st < ip' /\ 0 <= rndb'
     /\ table_ok src ht' /\ len ht' = tl)
  \/ (exists lc rc d mavg' ht',
        compress_step src srcl hmask st
        = (let w := lzav_write_blk_2 (c_dst st) (c_op st) lc rc d src
                      (c_ipa st) (c_cbp st) (c_csh st) 6 in
           mk_cstate (c_ipa st + lc + rc) (c_ipa st + lc + rc) (w_op w)
             (w_cbp w) (w_csh w) mavg' (c_rndb st) ht' (w_dst w))
        /\ table_ok src ht' /\ len ht' = tl
        /\ 8 <= d <= LZAV_WIN_LEN - 1
        /\ 0 <= lc /\ c_ipa st + lc <= c_ip st
        /\ c_ip st < c_ipa st + lc + rc
        /\ 6 <= rc <= d /\ rc <= 530 /\ c_ipa st + lc + rc <= srcl - 6
        /\ d <= c_ipa st + lc
        /\ c_ip st - (c_ipa st + lc) + 6 <= rc
        /\ rc + 16 <= c_ip st
        /\ (forall i, 0 <= i < rc ->
              load8 src (c_ipa st + lc + i)
              = load8 src (c_ipa st + lc - d + i))).
Proof.
  intros (Hip & Hipa & Hrndb & T & Tl) Hlt.
  change (2 ^ 31) with 2147483648 in srcl_range.
  unfold compress_step, candidate, probe_at.
  cbn [p_hp p_iw1 p_iw2 p_ipo p_hw1].
  set (ip := c_ip st) in *.
  set (iw1 := load32 src ip). set (iw2 := load16 src (ip + 4)).
  destruct (slots (hash6 iw1 iw2)) as (m & Ehp & Hm & Hm').
  rewrite Ehp.
  assert (Eipo : u32 ip = ip).
  { apply u32_small. change (2 ^ 32) with 4294967296. lia. }
  rewrite Eipo.
  pose proof (T (2 * m) ltac:(lia) ltac:(lia)) as [Ta Tb].
  pose proof (T (2 * m + 1) ltac:(lia) ltac:(lia)) as [Tc Td].
  replace (2 * (2 * m)) with (4 * m) in Ta, Tb by lia.
  replace (2 * (2 * m + 1)) with (4 * m + 2) in Tc, Td by lia.
  replace (4 * m + 2 + 1) with (4 * m + 3) in Tc, Td by lia.
  assert (Hipr : 16 <= ip < 2 ^ 32).
  { change (2 ^ 32) with 4294967296. lia. }
  destruct (find_tuple src (c_ht st) (4 * m) iw1 iw2) as [wp |] eqn:Ef.
  - apply find_tuple_some in Ef as [Ew E2].
    assert (Hw : iw1 = load32 src wp /\ 16 <= wp < 2 ^ 32).
    { destruct Ew as [[E1 ->] | [E1 ->]]; split; try assumption;
        rewrite E1; assumption. }
    destruct Hw as [E1 Hwp].
    change (2 ^ 32) with 4294967296 in Hwp.
    destruct ((u64 (ip - wp) <? 8) || (u64 (ip - wp) >? LZAV_WIN_LEN - 1))
      eqn:Eo.
    + (* a dead offset *)
      left. unfold step_d_oob. cbv zeta. fold ip.
      do 4 eexists. split; [reflexivity |].
      split; [lia |]. split; [exact Hrndb |].
      destruct (u64 (ip - wp) <? LZAV_WIN_LEN); [now split |].
      rewrite length_ht_set. split; [| exact Tl].
      destruct (Z.eqb_spec iw1 (ht_get (c_ht st) (4 * m))) as [E | N];
        cbn [negb b2z].
      * replace (4 * m + (1 + 0 * 2)) with (2 * (2 * m) + 1) by lia.
        apply table_ok_set_off; try assumption; try lia.
        replace (2 * (2 * m)) with (4 * m) by lia. now rewrite <- E.
      * replace (4 * m + (1 + 1 * 2)) with (2 * (2 * m + 1) + 1) by lia.
        apply table_ok_set_off; try assumption; try lia.
        replace (2 * (2 * m + 1)) with (4 * m + 2) by lia.
        destruct Ew as [[E _] | [E _]]; [contradiction | now rewrite <- E].
    + (* a block *)
      right. apply orb_false_elim in Eo as [Eo1 Eo2].
      apply Z.ltb_ge in Eo1. rewrite Z.gtb_ltb in Eo2.
      apply Z.ltb_ge in Eo2.
      change (LZAV_WIN_LEN - 1) with 8388607 in Eo2.
      assert (Ed : u64 (ip - wp) = ip - wp).
      { destruct (Z.lt_ge_cases (ip - wp) 0) as [Hn | Hp].
        - exfalso. revert Eo2. unfold u64, wrap.
          rewrite <- (Z_mod_plus_full (ip - wp) 1 (2 ^ 64)).
          rewrite Z.mod_small
            by (change (2 ^ 64) with 18446744073709551616; lia).
          change (2 ^ 64) with 18446744073709551616. lia.
        - apply u64_small. change (2 ^ 64) with 18446744073709551616. lia. }
      rewrite Ed in *.
      destruct (step_emit_spec src src_ok srcl
                  ltac:(change (2 ^ 31) with 2147483648; lia) st (4 * m) iw1
                  (ht_get (c_ht st) (4 * m)) ip wp (ip - wp)
                  ltac:(fold ip; lia) Hipa ltac:(lia) eq_refl
                  ltac:(change (LZAV_WIN_LEN - 1) with 8388607; lia))
        as (lc & rc & mavg' & Es & Facts).
      { fold ip. apply six_bytes_equal; [exact src_ok | exact E1 |].
        exact E2. }
      exists lc, rc, (ip - wp), mavg'. eexists.
      split; [exact Es |].
      split; [| split; [| split;
        [change (LZAV_WIN_LEN - 1) with 8388607; lia | exact Facts]]].
      * destruct (ip - wp >? 273); [| exact T].
        destruct (Z.eqb_spec iw1 (ht_get (c_ht st) (4 * m))) as [E | N].
        -- replace (4 * m + 1) with (2 * (2 * m) + 1) by lia.
           apply table_ok_set_off; try assumption; try lia.
           replace (2 * (2 * m)) with (4 * m) by lia. now rewrite <- E.
        -- cbv zeta. rewrite ht_get_set by lia.
           destruct (Z.eqb_spec (4 * m + 1) (4 * m + 2)); [lia |].
           rewrite Ta.
           replace (4 * m + 2) with (2 * (2 * m + 1)) by lia.
           replace (4 * m + 3) with (2 * (2 * m + 1) + 1) by lia.
           pose proof (table_ok_set_pair src src_ok (c_ht st) (2 * m + 1)
                         (ht_get (c_ht st) (4 * m + 1)) T ltac:(lia)
                         ltac:(lia) Tb) as T2.
           replace (4 * m) with (2 * (2 * m)) at 3 4 by lia.
           apply table_ok_set_pair; try assumption; try lia.
           rewrite !length_ht_set. lia.
      * destruct (ip - wp >? 273); [| exact Tl].
        destruct (iw1 =? ht_get (c_ht st) (4 * m)); cbv zeta;
          rewrite !length_ht_set; exact Tl.
  - (* no tuple *)
    left. unfold step_no_match. cbv zeta. fold ip.
    set (mavg := s64 (c_mavg st - Z.shiftr (c_mavg st) 11)).
    set (jump := if (mavg <? Z.shiftl 200 14) && negb (ip =? c_ipa st)
                 then _ else _).
    assert (Hj : ip <= fst jump /\ 0 <= snd jump).
    { subst jump.
      destruct ((mavg <? Z.shiftl 200 14) && negb (ip =? c_ipa st));
        cbn [fst snd]; [| lia].
      assert (0 <= Z.land ip 1).
      { apply Z.land_nonneg. lia. }
      split; [| assumption].
      destruct (Z.ltb_spec mavg (Z.shiftl 130 14)); [| lia].
      destruct (Z.ltb_spec mavg (Z.shiftl 100 14)); [| lia].
      rewrite shiftr_over by lia.
      change (Z.shiftl 100 14) with 1638400 in *.
      change (2 ^ 14) with 16384. zlia. }
    destruct jump as [ip' rndb']. cbn [fst snd] in Hj.
    do 4 eexists. split; [reflexivity |].
    split; [lia |]. split; [lia |].
    rewrite !length_ht_set. split; [| exact Tl].
    replace (4 * m + 2) with (2 * (2 * m + 1)) by lia.
    replace (4 * m + 3) with (2 * (2 * m + 1) + 1) by lia.
    apply table_ok_set_pair; try assumption; lia.
Qed.

End CompressStep.

Section BlockCost.

Local Abbreviation len l := (Z.of_nat (length l)).

Lemma compress_bound_value srcl :
  32 < srcl <= BOUND_SAFE ->
  lzav_compress_bound srcl
  = srcl + 16 + srcl / 150 + (srcl mod 150 + 143) / 144 * 2.
Proof.
  intros H. rewrite lzav_compress_bound_exact by lia.
  apply bound_unbounded_closed. lia.
Qed.

Lemma ref_size_cost dq rc : 6 <= rc -> ref_size dq rc <= rc - 2.
Proof.
  intros H. unfold ref_size, ref_bt, ref_ext.
  destruct (dq >? Z.shiftl 1 10 - 1), (dq >? Z.shiftl 1 18 - 1),
    (Z.ltb_spec (rc - 5) 16), (Z.ltb_spec (rc - 5) (16 + 255));
    cbn [b2z]; lia.
Qed.

Lemma lit_hdr_cost lc : 1 <= lc -> lit_hdr lc <= 2 + (lc + 6) / 150.
Proof.
  intros H. pose proof (lit_hdr_range lc) as R. unfold lit_hdr in *.
  destruct (Z.ltb_spec lc 16); [zlia |].
  destruct (Z.lt_ge_cases lc 144).
  - rewrite len_bytes_one by lia. cbn [length]. zlia.
  - destruct (Z.lt_ge_cases lc 16400).
    + pose proof (len_bytes_short 10 (lc - 16) 2 ltac:(lia)
                    ltac:(change (2 ^ (7 * 2)) with 16384; lia)).
      zlia.
    + zlia.
Qed.

Lemma lit_hdr_two lc : 16 <= lc -> 2 <= lit_hdr lc.
Proof.
  intros H. unfold lit_hdr. pose proof (len_bytes_length 10 (lc - 16)).
  destruct (Z.ltb_spec lc 16); lia.
Qed.

End BlockCost.

Section StreamStep.

Local Abbreviation len l := (Z.of_nat (length l)).

Variables src dst0 : buf.
Hypothesis src_ok : bytes_ok src.
Variable srcl : Z.
Hypothesis srcl_range : 32 < srcl <= BOUND_SAFE.
Hypothesis dst0_len : lzav_compress_bound srcl <= len dst0.

(** A block written for bytes the source repeats keeps the stream
    decodable. *)
Lemma stream_ok_block (ip ipa op cbp csh lc rc d : Z) (dst : buf) :
  stream_ok src dst0 srcl ipa op cbp csh dst ->
  0 <= ipa -> ip < srcl - 15 ->
  8 <= d <= LZAV_WIN_LEN - 1 ->
  0 <= lc -> ipa + lc <= ip ->
  6 <= rc <= d -> rc <= 530 -> ipa + lc + rc <= srcl - 6 ->
  d <= ipa + lc ->
  ip - (ipa + lc) + 6 <= rc ->
  rc + 16 <= ip ->
  (forall i, 0 <= i < rc ->
     load8 src (ipa + lc + i) = load8 src (ipa + lc - d + i)) ->
  let w := lzav_write_blk_2 dst op lc rc d src ipa cbp csh 6 in
  stream_ok src dst0 srcl (ipa + lc + rc) (w_op w) (w_cbp w) (w_csh w)
    (w_dst w).
Proof.
  intros (S1 & S2 & S3 & S4 & S5 & S6 & S7 & S8 & S9 & S10 & S11 & S12)
    Hipa Hip Hd Hlc Hlip Hrc Hrc' Hend Hdo E4 E1 M.
  pose proof (compress_bound_value srcl srcl_range) as EB.
  unfold BOUND_SAFE in srcl_range.
  change (LZAV_WIN_LEN - 1) with 8388607 in Hd.
  assert (Hfit : op + lc + 18 <= lzav_compress_bound srcl).
  { rewrite EB. zlia. }
  pose proof (lzav_write_blk_2_block dst op lc rc d src ipa cbp csh S9 src_ok
                S3 ltac:(lia) S5 ltac:(change (2 ^ 31) with 2147483648; lia)
                ltac:(lia) ltac:(change (2 ^ 23) with 8388608; lia)
                ltac:(rewrite S8; lia)) as W.
  cbv zeta in W |- *.
  set (w := lzav_write_blk_2 dst op lc rc d src ipa cbp csh 6) in *.
  set (q := op + (if lc =? 0 then 0 else lit_hdr lc + lc)) in *.
  set (dq := d / 2 ^ (csh + (if lc =? 0 then 0 else 2))) in *.
  destruct W as (W1 & W2 & W3 & W4 & W5 & W6 & W7 & W8 & W9 & W10 & W11).
  pose proof (ref_size_range dq rc) as Hsz.
  pose proof (ref_size_cost dq rc ltac:(lia)) as Hsc.
  assert (Hbt : 1 <= ref_bt dq /\ ref_bt dq + 1 <= ref_size dq rc).
  { unfold ref_size, ref_bt, ref_ext.
    destruct (dq >? Z.shiftl 1 10 - 1), (dq >? Z.shiftl 1 18 - 1),
      (rc - 5 <? 16), (rc - 5 <? 16 + 255); cbn [b2z]; lia. }
  assert (Hq : op <= q /\ q <= op + 2 + (lc + 6) / 150 + lc
               /\ (16 <= lc -> op + 2 + lc <= q)).
  { subst q. destruct (Z.eqb_spec lc 0) as [-> | N].
    - split; [lia |]. split; [zlia | lia].
    - pose proof (lit_hdr_cost lc ltac:(lia)).
      pose proof (lit_hdr_range lc).
      split; [lia |]. split; [lia |].
      intros H16. pose proof (lit_hdr_two lc H16). lia. }
  rewrite W1, W2, W3.
  split; [lia |]. split; [lia |].
  split.
  { unfold ref_bt.
    destruct (dq >? Z.shiftl 1 10 - 1), (dq >? Z.shiftl 1 18 - 1);
      cbn; auto. }
  split; [left; lia |].
  split; [intros _; exact W11 |].
  split; [zlia |].
  split.
  { destruct S7 as [[-> ->] | [H29 | [H27 _]]].
    - right. right. assert (22 <= lc) by lia. split; lia.
    - right. left. lia.
    - right. left. lia. }
  split; [congruence |]. split; [exact W5 |].
  split; [rewrite W6 by lia; exact S10 |].
  split; [intros j Hj; rewrite W8 by lia; now apply S11 |].
  intros s sl out Ks A Hsl Hout.
  rewrite <- W1, <- W2, <- W3 in A.
  destruct (agrees_block s dst op lc rc d src ipa cbp csh Ks S9 src_ok S3
              ltac:(lia) S5 S4 ltac:(change (2 ^ 31) with 2147483648; lia)
              ltac:(lia) ltac:(change (2 ^ 23) with 8388608; lia)
              ltac:(rewrite S8; lia) A) as (A0 & Ec & Al & Ar).
  fold q dq in Ar.
  destruct (S12 s sl out Ks A0 ltac:(lia) Hout)
    as (out1 & R1 & P1 & L1 & U1).
  rewrite Ec in R1.
  destruct (dec_block s Ks src sl srcl op ipa csh d lc rc out1 Al Ar S3
              ltac:(change (2 ^ 31) with 2147483648; lia) Hrc Hrc'
              ltac:(lia) Hdo ltac:(lia) ltac:(fold q dq; lia) Hipa
              ltac:(lia) ltac:(rewrite L1; lia)
              ltac:(change (2 ^ 31) with 2147483648; lia) P1 M)
    as (out2 & R2 & P2 & L2 & U2).
  fold q dq in R2.
  exists out2.
  split; [eapply dec_reaches_trans; [exact R1 | exact R2] |].
  split; [exact P2 |]. split; [congruence |].
  intros j Hj. rewrite U2, U1 by lia. reflexivity.
Qed.

End StreamStep.

Section CompressLoop.

Local Abbreviation len l := (Z.of_nat (length l)).

Variables src dst0 : buf.
Hypothesis src_ok : bytes_ok src.
Variable srcl : Z.
Hypothesis srcl_range : 32 < srcl <= BOUND_SAFE.
Hypothesis dst0_len : lzav_compress_bound srcl <= len dst0.
Variables hmask tl : Z.
Hypothesis slots : slots_ok hmask tl.

Local Abbreviation stream_of st :=
  (stream_ok src dst0 srcl (c_ipa st) (c_op st) (c_cbp st) (c_csh st)
     (c_dst st)).

Lemma compress_step_inv (st : cstate) :
  scan_ok src tl st -> stream_of st -> c_ip st < srcl - 15 ->
  scan_ok src tl (compress_step src srcl hmask st)
  /\ stream_of (compress_step src srcl hmask st)
  /\ c_ip st < c_ip (compress_step src srcl hmask st).
Proof.
  intros Sc St Hlt.
  assert (R : 32 < srcl < 2 ^ 31).
  { unfold BOUND_SAFE in srcl_range. change (2 ^ 31) with 2147483648. lia. }
  pose proof Sc as (Hip & Hipa & Hrndb & T & Tl).
  destruct (compress_step_cases src src_ok srcl R hmask tl slots st Sc Hlt)
    as [(ip' & mavg' & rndb' & ht' & E & H1 & H2 & H3 & H4)
       | (lc & rc & d & mavg' & ht' & E & H3 & H4 & Hd & F1 & F2 & F3 & F4
          & F5 & F6 & F7 & F8 & F9 & F10)];
    rewrite E.
  - cbn [c_ip c_ipa c_op c_cbp c_csh c_dst c_rndb c_ht].
    split; [| split; [exact St | lia]].
    unfold scan_ok. cbn [c_ip c_ipa c_rndb c_ht].
    split; [lia | split; [lia | split; [assumption | split; assumption]]].
  - cbv zeta. cbn [c_ip c_ipa c_op c_cbp c_csh c_dst c_rndb c_ht].
    split; [| split; [| lia]].
    + unfold scan_ok. cbn [c_ip c_ipa c_rndb c_ht].
      split; [lia | split; [lia | split; [assumption | split; assumption]]].
    + apply (stream_ok_block src dst0 src_ok srcl srcl_range dst0_len
               (c_ip st)); try assumption; lia.
Qed.

(** The main loop ends, with a stream that decodes to the source up to
    the anchor. *)
Lemma compress_loop_inv (fuel : nat) : forall st,
  scan_ok src tl st -> stream_of st ->
  srcl - 15 - c_ip st <= Z.of_nat fuel ->
  exists st',
    compress_loop fuel src srcl hmask st = Some st'
    /\ stream_of st' /\ 0 <= c_ipa st'.
Proof.
  induction fuel as [| fuel IH]; intros st Sc St Hf;
    cbn [compress_loop]; change (srcl - LZAV_LIT_FIN - 9) with (srcl - 6 - 9);
    destruct (Z.ltb_spec (c_ip st) (srcl - 6 - 9)); try lia;
    try (exists st; split; [reflexivity | split; [exact St |]];
         destruct Sc as (_ & ? & _); lia).
  destruct (compress_step_inv st Sc St ltac:(lia)) as (Sc' & St' & Hp).
  apply IH; try assumption. lia.
Qed.

End CompressLoop.

Section TableSize.

Local Abbreviation len l := (Z.of_nat (length l)).

Lemma length_ht_init htsize a b :
  0 <= htsize -> len (ht_init htsize a b) = 2 * (htsize / 8).
Proof.
  intros H. unfold ht_init.
  assert (L : forall n, length (concat (repeat [a; b] n)) = (2 * n)%nat).
  { induction n as [| n IH]; [reflexivity |].
    cbn [repeat concat app length]. rewrite IH. lia. }
  rewrite L. assert (0 <= htsize / 8) by (apply Z.div_pos; lia). lia.
Qed.

Lemma lxor_low_bits e : 4 <= e -> Z.lxor (2 ^ e - 1) 15 = 2 ^ e - 16.
Proof.
  intros He.
  assert (E : 2 ^ e = 2 ^ (e - 4) * 2 ^ 4).
  { rewrite <- Z.pow_add_r by lia. f_equal. lia. }
  assert (D : Z.land 15 ((2 ^ (e - 4) - 1) * 2 ^ 4) = 0).
  { apply Z.bits_inj'. intros n Hn. rewrite Z.land_spec, Z.bits_0.
    destruct (Z.lt_ge_cases n 4).
    - rewrite Z.mul_pow2_bits_low by lia. apply andb_false_r.
    - rewrite (testbit_below 15 4 n) by (cbn; lia). reflexivity. }
  replace (2 ^ e - 1) with (15 + (2 ^ (e - 4) - 1) * 2 ^ 4)
    by (rewrite E; change (2 ^ 4) with 16; lia).
  rewrite (Z.add_nocarry_lxor _ _ D).
  rewrite (Z.lxor_comm 15), Z.lxor_assoc, Z.lxor_nilpotent, Z.lxor_0_r.
  rewrite E. change (2 ^ 4) with 16. lia.
Qed.

(** A table of a power of two of bytes: every hash selects a slot of four
    words inside it. *)
Lemma slots_ok_pow2 e a b :
  9 <= e ->
  slots_ok (u32 (Z.lxor (2 ^ e - 1) 15)) (len (ht_init (2 ^ e) a b)).
Proof.
  intros He x.
  assert (P0 : 0 < 2 ^ e) by (apply Z.pow_pos_nonneg; lia).
  rewrite length_ht_init by lia.
  rewrite lxor_low_bits by lia.
  set (j := Z.min e 32 - 4).
  assert (Hj : 5 <= j /\ j + 4 <= e /\ j + 4 <= 32) by lia.
  assert (Pj : 0 < 2 ^ j) by (apply Z.pow_pos_nonneg; lia).
  assert (Em : u32 (2 ^ e - 16) = (2 ^ j - 1) * 2 ^ 4).
  { replace ((2 ^ j - 1) * 2 ^ 4) with (2 ^ (j + 4) - 16)
      by (rewrite Z.pow_add_r by lia; change (2 ^ 4) with 16; lia).
    destruct (Z.le_gt_cases e 32) as [Hle | Hgt].
    - replace (j + 4) with e by lia.
      apply u32_small.
      assert (2 ^ 9 <= 2 ^ e) by (apply Z.pow_le_mono_r; lia).
      assert (2 ^ e <= 2 ^ 32) by (apply Z.pow_le_mono_r; lia).
      change (2 ^ 9) with 512 in *. lia.
    - replace (j + 4) with 32 by lia.
      assert (E32 : 2 ^ e = 2 ^ (e - 32) * 2 ^ 32).
      { rewrite <- Z.pow_add_r by lia. f_equal. lia. }
      replace (2 ^ e) with (2 ^ 32 + (2 ^ (e - 32) - 1) * 2 ^ 32)
        by (rewrite E32; lia).
      unfold u32, wrap.
      replace (2 ^ 32 + (2 ^ (e - 32) - 1) * 2 ^ 32 - 16)
        with (2 ^ 32 - 16 + (2 ^ (e - 32) - 1) * 2 ^ 32) by lia.
      rewrite Z_mod_plus_full. apply Z.mod_small.
      change (2 ^ 32) with 4294967296. lia. }
  rewrite Em, land_shifted, land_low by lia.
  change (2 ^ 4) with 16.
  set (m := x / 16 mod 2 ^ j).
  assert (Hm : 0 <= m < 2 ^ j) by (apply Z.mod_pos_bound; lia).
  exists m. split; [zlia |]. split; [lia |].
  assert (E8 : 2 ^ e / 8 = 2 ^ (e - 3)).
  { replace e with (e - 3 + 3) at 1 by lia.
    rewrite Z.pow_add_r by lia. change (2 ^ 3) with 8.
    apply Z.div_mul. lia. }
  rewrite E8.
  assert (2 ^ (j + 1) <= 2 ^ (e - 3)) by (apply Z.pow_le_mono_r; lia).
  rewrite Z.pow_add_r in * by lia. change (2 ^ 1) with 2 in *. lia.
Qed.

Lemma htsize_grow_pow2 fuel : forall limit srcl htsize,
  (exists e, 9 <= e /\ htsize = 2 ^ e) ->
  exists e, 9 <= e /\ htsize_grow fuel limit srcl htsize = 2 ^ e.
Proof.
  induction fuel as [| fuel IH]; intros limit srcl htsize (e & He & ->);
    cbn [htsize_grow]; [now exists e |].
  destruct (negb (2 ^ e =? limit) && (Z.shiftr (2 ^ e) 2 <? srcl));
    [| now exists e].
  apply IH. exists (e + 1). split; [lia |].
  rewrite Z.shiftl_mul_pow2, Z.pow_add_r by lia. reflexivity.
Qed.

Lemma htsize_grow_ext_pow2 fuel : forall htsizem srcl htsize,
  (exists e, 9 <= e /\ htsize = 2 ^ e) ->
  exists e, 9 <= e /\ htsize_grow_ext fuel htsizem srcl htsize = 2 ^ e.
Proof.
  induction fuel as [| fuel IH]; intros htsizem srcl htsize (e & He & ->);
    cbn [htsize_grow_ext]; [now exists e |].
  destruct (Z.shiftr (2 ^ e) 2 <? srcl); [| now exists e].
  cbv zeta. destruct (Z.shiftl (2 ^ e) 1 >? htsizem); [now exists e |].
  apply IH. exists (e + 1). split; [lia |].
  rewrite Z.shiftl_mul_pow2, Z.pow_add_r by lia. reflexivity.
Qed.

End TableSize.

Section CompressEnds.

Local Abbreviation len l := (Z.of_nat (length l)).

Variables src dst0 : buf.
Hypothesis src_ok : bytes_ok src.
Hypothesis dst0_ok : bytes_ok dst0.
Variable srcl : Z.
Hypothesis srcl_range : 32 < srcl <= BOUND_SAFE.
Hypothesis dst0_len : lzav_compress_bound srcl <= len dst0.

(** The state before the first iteration. *)
Lemma compress_init_ok (htsize : Z) :
  (exists e, 9 <= e /\ htsize = 2 ^ e) ->
  let st := compress_init src srcl htsize 1 (store8 dst0 0 38) in
  scan_ok src (len (ht_init htsize (load32 src 16) 16)) st
  /\ stream_ok src dst0 srcl (c_ipa st) (c_op st) (c_cbp st) (c_csh st)
       (c_dst st)
  /\ c_ip st = 16.
Proof.
  intros (e & He & ->). cbv zeta.
  pose proof (compress_bound_value srcl srcl_range) as EB.
  unfold BOUND_SAFE in srcl_range.
  assert (P0 : 0 < 2 ^ e) by (apply Z.pow_pos_nonneg; lia).
  unfold compress_init. cbv zeta. change LZAV_LIT_FIN with 6.
  destruct (Z.ltb_spec 16 (srcl - 6 - 9)); [| lia].
  cbn [c_ip c_ipa c_op c_cbp c_csh c_dst c_rndb c_ht].
  split; [| split; [| reflexivity]].
  - unfold scan_ok. cbn [c_ip c_ipa c_rndb c_ht].
    split; [lia |]. split; [lia |]. split; [lia |].
    split; [| reflexivity].
    intros k Hk Hkl. rewrite length_ht_init in Hkl by lia.
    destruct (ht_get_init (2 ^ e) (load32 src 16) 16 k ltac:(lia)) as [-> ->].
    split; [reflexivity |]. change (2 ^ 32) with 4294967296. lia.
  - unfold stream_ok.
    assert (0 < len dst0) by (rewrite EB in dst0_len; zlia).
    split; [lia |]. split; [lia |]. split; [now left |].
    split; [now right |]. split; [lia |]. split; [zlia |].
    split; [now left |]. split; [apply length_store8 |].
    split; [apply bytes_ok_store8; [exact dst0_ok | lia] |].
    split; [apply load8_store8_eq; lia |].
    split; [intros j Hj; apply load8_store8_ne; rewrite EB in Hj; zlia |].
    intros s sl out Ks A Hsl Hout. exists out.
    split; [| split; [intros i Hi; lia | split; [reflexivity |]];
              intros; reflexivity].
    unfold carried. change (2 ^ (8 - 0)) with 256.
    pose proof (bytes_ok_load8 s 1 Ks).
    replace (load8 s 1 / 256) with 0 by zlia.
    apply dec_reaches_refl.
Qed.

End CompressEnds.

(** ** The default compressor and the decoder *)

Section CompressRoundTrip.

Local Abbreviation len l := (Z.of_nat (length l)).

Lemma load8_app (a b : buf) (j : Z) :
  0 <= j ->
  load8 (a ++ b) j = if j <? len a then load8 a j else load8 b (j - len a).
Proof.
  intros Hj. unfold load8.
  destruct (Z.ltb_spec j 0); [lia |].
  destruct (Z.ltb_spec j (len a)).
  - apply app_nth1. lia.
  - destruct (Z.ltb_spec (j - len a) 0); [lia |].
    rewrite app_nth2 by lia. f_equal. lia.
Qed.

Lemma load8_skipn (b : buf) (n : nat) (j : Z) :
  0 <= j -> load8 (skipn n b) j = load8 b (Z.of_nat n + j).
Proof.
  intros Hj. unfold load8.
  destruct (Z.ltb_spec j 0); [lia |].
  destruct (Z.ltb_spec (Z.of_nat n + j) 0); [lia |].
  rewrite nth_skipn. f_equal. lia.
Qed.

(** A destination that holds the source and is otherwise as it was. *)
Lemma prefix_rest (o' o s : buf) :
  same_prefix (len s) o' s -> length o' = length o ->
  (forall j, len s <= j -> load8 o' j = load8 o j) ->
  len s <= len o ->
  o' = s ++ skipn (length s) o.
Proof.
  intros P L U Hl. apply buf_ext.
  - rewrite length_app, length_skipn. lia.
  - intros j Hj. rewrite load8_app by lia.
    destruct (Z.ltb_spec j (len s)); [apply P; lia |].
    rewrite load8_skipn by lia. rewrite U by lia. f_equal. lia.
Qed.

Variables s d : buf.
Hypothesis s_ok : bytes_ok s.
Hypothesis d_ok : bytes_ok d.
Hypothesis s_len : 32 < len s <= BOUND_SAFE.
Variable dstl : Z.
Hypothesis d_len : lzav_compress_bound (len s) <= dstl <= len d.

(** The main path of [lzav_compress]: the loop ends, and what it leaves
    goes to [lzav_write_fin_2]. *)
Lemma lzav_compress_main (malloc_ok : bool) (ext_buf : ptr) (ext_bufl : Z) :
  malloc_ok = true \/ ext_buf <> None ->
  exists st,
    lzav_compress malloc_ok (Some s) (Some d) (len s) dstl ext_buf ext_bufl
    = (let '(d', op) :=
         lzav_write_fin_2 (c_dst st) (c_op st) (len s - c_ipa st) s
           (c_ipa st) in
       Returns (s32 op) (Some d'))
    /\ stream_ok s d (len s) (c_ipa st) (c_op st) (c_cbp st) (c_csh st)
         (c_dst st)
    /\ 0 <= c_ipa st.
Proof.
  intros Hm.
  pose proof (compress_bound_value (len s) s_len) as EB.
  pose proof s_len as R. unfold BOUND_SAFE in R.
  unfold lzav_compress. change LZAV_TINY_MAX with 32.
  destruct (Z.leb_spec (len s) 32); [lia |].
  destruct (Z.leb_spec (len s) 0); [lia |].
  destruct (Z.ltb_spec dstl (lzav_compress_bound (len s))); [lia |].
  cbn [orb]. cbv zeta.
  destruct (Z.ltb_spec (len s) 16); [lia |].
  change (Z.lor (Z.shiftl LZAV_FMT_CUR 4) LZAV_REF_MIN) with 38.
  set (h0 := if len s <=? LZAV_SMALL_MAX then LZAV_MIN_HTABLE
             else htsize_grow 20 (Z.shiftl 1 20) (len s)
                    (Z.shiftl 1 7 * 4 * 4)).
  assert (P0 : exists e, 9 <= e /\ h0 = 2 ^ e).
  { subst h0. destruct (len s <=? LZAV_SMALL_MAX).
    - exists 9. split; [lia | reflexivity].
    - apply htsize_grow_pow2. exists 11. split; [lia | reflexivity]. }
  set (sized := match ext_buf with None => _ | Some _ => _ end).
  assert (Hs : exists htsize, sized = Some htsize
                 /\ exists e, 9 <= e /\ htsize = 2 ^ e).
  { subst sized. destruct ext_buf as [e0 |].
    - eexists. split; [reflexivity |]. now apply htsize_grow_ext_pow2.
    - destruct Hm as [-> | N]; [| now contradiction N].
      rewrite andb_false_r. eexists. split; [reflexivity |].
      now apply htsize_grow_pow2. }
  destruct Hs as (htsize & -> & P).
  destruct (compress_init_ok s d d_ok (len s) s_len ltac:(lia) htsize P)
    as (Sc & St & Eip).
  destruct P as (e & He & ->).
  destruct (compress_loop_inv s d s_ok (len s) s_len ltac:(lia)
              (u32 (Z.lxor (2 ^ e - 1) 15))
              (len (ht_init (2 ^ e) (load32 s 16) 16))
              (slots_ok_pow2 e (load32 s 16) 16 He) (Z.to_nat (len s))
              _ Sc St ltac:(rewrite Eip; lia)) as (st & El & St' & Hipa).
  rewrite El. exists st. split; [| split; assumption].
  change LZAV_LIT_FIN with 6.
  destruct St' as (S1 & _).
  rewrite u64_small
    by (change (2 ^ 64) with 18446744073709551616; lia).
  replace (len s - 6 - c_ipa st + 6) with (len s - c_ipa st) by lia.
  reflexivity.
Qed.

(** What [lzav_compress] returns for a source of more than 32 bytes, and
    what the two decoders make of it. *)
Lemma lzav_compress_stream (malloc_ok : bool) (ext_buf : ptr)
    (ext_bufl : Z) (o : buf) :
  malloc_ok = true \/ ext_buf <> None ->
  len s <= len o ->
  exists cl stream,
    lzav_compress malloc_ok (Some s) (Some d) (len s) dstl ext_buf ext_bufl
    = Returns cl (Some stream)
    /\ 34 < cl <= lzav_compress_bound (len s)
    /\ untouched_from (lzav_compress_bound (len s)) stream d
    /\ lzav_decompress_2 stream o cl (len s)
       = Some (len s, len s, s ++ skipn (length s) o)
    /\ load8 stream 0 = 38.
Proof.
  intros Hm Ho.
  pose proof (compress_bound_value (len s) s_len) as EB.
  pose proof s_len as R. unfold BOUND_SAFE in R.
  destruct (lzav_compress_main malloc_ok ext_buf ext_bufl Hm)
    as (st & E & St & Hipa).
  destruct St as (S1 & S2 & S3 & S4 & S5 & S6 & S7 & S8 & S9 & S10 & S11
                  & S12).
  set (ipa := c_ipa st) in *. set (op := c_op st) in *.
  set (cbp := c_cbp st) in *. set (csh := c_csh st) in *.
  set (dst := c_dst st) in *.
  set (lc := len s - ipa) in *.
  pose proof (lit_hdr_range lc) as Hh.
  assert (Hcl : op + lit_hdr lc + lc <= lzav_compress_bound (len s)).
  { rewrite EB. subst lc. zlia. }
  destruct (lzav_write_fin_2_block dst op lc s ipa S9 s_ok
              ltac:(change (2 ^ 31) with 2147483648; lia) ltac:(lia)
              ltac:(rewrite S8; lia)) as (d' & Ew & L' & K' & F' & T').
  rewrite Ew in E.
  set (cl := op + lit_hdr lc + lc) in *.
  assert (Hcl' : cl < 2 ^ 31).
  { change (2 ^ 31) with 2147483648. rewrite EB in Hcl. zlia. }
  rewrite s32_id in E by (change (2 ^ 31) with 2147483648 in *; lia).
  assert (Hlow : 34 < cl).
  { subst cl lc.
    destruct S7 as [[E0 E1] | [H29 | [H27 H34]]]; lia. }
  exists cl, d'. split; [exact E |]. split; [lia |].
  split; [split; [congruence |] |].
  { intros j Hj. rewrite F' by lia. now apply S11. }
  assert (A : agrees d' dst op cbp csh).
  { split.
    - intros i Hi _. apply F'. lia.
    - intros Hlt. rewrite F' by lia. specialize (S5 Hlt).
      pose proof (bytes_ok_load8 dst cbp S9).
      apply Z.mod_small. lia. }
  assert (Ec : carried d' cbp csh = 0).
  { unfold carried. pose proof (bytes_ok_load8 d' cbp K') as B.
    destruct S4 as [Hlt | E0].
    - rewrite F' by lia. specialize (S5 Hlt).
      pose proof (bytes_ok_load8 dst cbp S9).
      apply Z.div_small. lia.
    - rewrite E0. change (2 ^ (8 - 0)) with 256. apply Z.div_small. lia. }
  destruct (S12 d' cl o K' A ltac:(subst cl; lia) Ho)
    as (out1 & [k Rk] & P1 & L1 & U1).
  rewrite Ec in Rk.
  destruct (dec_terminal_block d' s cl (len s) op ipa 0 csh lc out1 T'
              ltac:(change (2 ^ 31) with 2147483648; lia) S3
              ltac:(destruct S3 as [-> | ->]; cbn; lia) ltac:(lia) eq_refl
              Hipa ltac:(subst lc; lia) ltac:(rewrite L1; lia)
              ltac:(change (2 ^ 31) with 2147483648; lia) P1)
    as (out2 & Rt & P2 & L2 & U2).
  assert (E0 : load8 d' 0 = 38) by (rewrite F' by lia; exact S10).
  split; [| exact E0].
  unfold lzav_decompress_2. cbv zeta. rewrite E0.
  change (u64 (Z.land 38 15 - 1)) with 5.
  destruct (Z.geb_spec 1 (cl - 6)); [lia |].
  rewrite (prefix_rest out2 o s P2 ltac:(congruence)
             ltac:(intros j Hj; rewrite U2, U1 by lia; reflexivity) Ho)
    in Rt.
  apply (dec_loop_2_fuel d' cl (len s) (k + 1)).
  - specialize (Rk 1%nat). rewrite Rk. apply Rt.
  - apply dec_loop_2_total. cbn [d_ip]. lia.
Qed.



End CompressRoundTrip.

Section CompressRoundTripWitnesses.

Lemma bytes_ok_repeat (v : Z) (n : nat) :
  0 <= v < 256 -> bytes_ok (repeat v n).
Proof.
  intros H. unfold bytes_ok. apply Forall_forall.
  intros x Hx. apply repeat_spec in Hx. subst x. exact H.
Qed.



End CompressRoundTripWitnesses.
